(** * Crunch: a shallow embedding of the codec core

    The development follows the layering of the C++ sources:
    core types and errors, the varint helper, the integrity policies,
    the validators, the field kinds, the static layout, the framing
    header, the buffer pipeline and the multi-message decoder.

    Conventions.
    - A [std::byte] / [uint8_t] is a [Z]; every cast the source performs
      ([static_cast<uint8_t>], [static_cast<uint16_t>], ...) is written out
      as a reduction modulo the width.
    - A [std::size_t] offset is a [nat] (the sources never rely on its
      wrap-around).
    - A [std::span] is a [list Z]; an access outside the span is undefined
      behaviour in C++ and is modelled by [None] in the outer [option] of
      the functions that touch memory.
    - [std::optional<Error>] is [option Error]; [std::expected<T, Error>]
      is [expected T].  *)

From Stdlib Require Import String.
From Stdlib Require Import ZArith List Bool Lia Arith.
Import ListNotations.

Set Warnings "-register-all".

Local Open Scope Z_scope.

(* ------------------------------------------------------------------ *)
(** ** core/crunch_types.hpp *)

Definition FieldId := Z.
Definition MessageId := Z.

Definition MaxFieldId : FieldId := Z.shiftl 1 29 - 1.

Inductive Format := Packed | Aligned4 | Aligned8 | TLV.

Definition Format_to_byte (f : Format) : Z :=
  match f with
  | Packed => 0x01
  | Aligned4 => 0x02
  | Aligned8 => 0x03
  | TLV => 0x04
  end.

Definition CrunchVersion : Z := 0x03.

(** [sizeof(CrunchVersionId) + sizeof(Format) + sizeof(MessageId)] *)
Definition StandardHeaderSize : nat := 1 + 1 + 4.

Inductive ErrorCode :=
| UNKNOWN
| IntegrityCheckFailed
| DeserializationError
| ValidationFailed
| InvalidMessageId
| InvalidFormat
| CapacityExceeded.

Record Error := mkError {
  code : ErrorCode;
  field_id : FieldId;
  message : string
}.

Module Error.
Definition integrity : Error :=
  mkError IntegrityCheckFailed 0 "integrity check failed".
Definition validation (id : FieldId) (msg : string) : Error :=
  mkError ValidationFailed id msg.
Definition deserialization (msg : string) : Error :=
  mkError DeserializationError 0 msg.
Definition invalid_message_id : Error :=
  mkError InvalidMessageId 0 "invalid message id".
Definition invalid_format : Error :=
  mkError InvalidFormat 0 "invalid serialization format".
Definition capacity_exceeded (id : FieldId) (msg : string) : Error :=
  mkError CapacityExceeded id msg.
End Error.

(** [std::expected<T, Error>] *)
Inductive expected (T : Type) :=
| Unexpected (e : Error)
| Expected (v : T).
Arguments Unexpected {T} e.
Arguments Expected {T} v.

(** The first engaged result of an initializer list of
    [std::optional<Error>], as in
    [for (const auto& result : {Validators::Check(v, id)...})]. *)
Fixpoint first_error (results : list (option Error)) : option Error :=
  match results with
  | [] => None
  | Some e :: _ => Some e
  | None :: rest => first_error rest
  end.

(* ------------------------------------------------------------------ *)
(** ** Fixed-width integers and raw memory *)

Definition u8 (x : Z) : Z := x mod 2 ^ 8.
Definition u16 (x : Z) : Z := x mod 2 ^ 16.
Definition u32 (x : Z) : Z := x mod 2 ^ 32.
Definition u64 (x : Z) : Z := x mod 2 ^ 64.

(** The [n] bytes of the object representation of an [n]-byte integer
    after [LittleEndian]: least significant byte first, two's complement
    for negative values. *)
Fixpoint le_bytes (n : nat) (v : Z) : list Z :=
  match n with
  | O => []
  | S n' => v mod 256 :: le_bytes n' (v / 256)
  end.

(** The unsigned integer whose little-endian representation is [bs]. *)
Fixpoint le_value (bs : list Z) : Z :=
  match bs with
  | [] => 0
  | b :: rest => u8 b + 256 * le_value rest
  end.

(** Reinterpretation of an unsigned [n]-byte pattern as a signed value. *)
Definition to_signed (n : nat) (u : Z) : Z :=
  if u <? 2 ^ (8 * Z.of_nat n - 1) then u else u - 2 ^ (8 * Z.of_nat n).

(** [std::memcpy(dst.data() + offset, src, size)]: defined only when the
    destination range lies inside the span. *)
Definition memcpy (dst : list Z) (offset : nat) (src : list Z)
  : option (list Z) :=
  if (offset + length src <=? length dst)%nat
  then Some (firstn offset dst ++ src ++ skipn (offset + length src) dst)
  else None.

(** [std::memset(dst.data() + offset, value, size)] *)
Definition memset (dst : list Z) (offset : nat) (value : Z) (size : nat)
  : option (list Z) :=
  memcpy dst offset (repeat value size).

(** Reading [size] bytes at [offset]: defined only inside the span. *)
Definition load (src : list Z) (offset size : nat) : option (list Z) :=
  if (offset + size <=? length src)%nat
  then Some (firstn size (skipn offset src))
  else None.

Definition bind {A B : Type} (c : option A) (k : A -> option B) : option B :=
  match c with
  | Some a => k a
  | None => None
  end.

Notation "x <- c ;; k" := (bind c (fun x => k))
  (at level 61, c at next level, right associativity).
Notation "' pat <- c ;; k" := (bind c (fun x => match x with pat => k end))
  (at level 61, pat pattern, c at next level, right associativity).

(* ------------------------------------------------------------------ *)
(** ** serdes/crunch_varint.hpp *)

Module Varint.

Definition max_size : nat := 10.

(** [encode]: the bytes written at [output[offset...]].  The loop
    [while (value >= 0x80)] runs at most ten times on a [uint64_t]. *)
Fixpoint encode_bytes (fuel : nat) (value : Z) : list Z :=
  match fuel with
  | O => []
  | S fuel' =>
      if 0x80 <=? value
      then u8 (Z.lor (Z.land value 0x7F) 0x80)
             :: encode_bytes fuel' (Z.shiftr value 7)
      else [u8 value]
  end.

Definition encode (value : Z) (output : list Z) (offset : nat)
  : option (list Z * nat) :=
  let bytes := encode_bytes max_size (u64 value) in
  output' <- memcpy output offset bytes ;;
  Some (output', length bytes).

(** The body of the [while] loop of [decode]; [fuel] bounds the number
    of iterations by the number of bytes left in the input. *)
Fixpoint decode_loop (fuel : nat) (input : list Z) (offset : nat)
         (value : Z) (shift : Z) (bytes_read : nat)
  : option (Z * nat) :=
  match fuel with
  | O => None
  | S fuel' =>
      match nth_error input (offset + bytes_read) with
      | None => None (* Buffer ended before Varint terminated *)
      | Some b =>
          let byte := u8 b in
          let bytes_read := S bytes_read in
          if 64 <=? shift then None
          else
            let value :=
              Z.lor value (u64 (Z.shiftl (Z.land byte 0x7F) shift)) in
            let shift := shift + 7 in
            if Z.land byte 0x80 =? 0
            then Some (value, bytes_read)
            else decode_loop fuel' input offset value shift bytes_read
      end
  end.

Definition decode (input : list Z) (offset : nat) : option (Z * nat) :=
  decode_loop (length input) input offset 0 0 0%nat.

Fixpoint size_loop (fuel : nat) (value : Z) (bytes : nat) : nat :=
  match fuel with
  | O => bytes
  | S fuel' =>
      if 0 <? value then size_loop fuel' (Z.shiftr value 7) (S bytes)
      else bytes
  end.

Definition size (value : Z) : nat :=
  if u64 value =? 0 then 1%nat else size_loop 64 (u64 value) 0.

Definition max_varint_size (value_bits : nat) : nat :=
  ((value_bits + 6) / 7)%nat.

End Varint.

(* ------------------------------------------------------------------ *)
(** ** integrity/crunch_integrity.hpp *)

(** The [IntegrityPolicy] concept. *)
Record IntegrityPolicy := {
  integrity_size : nat;
  integrity_calculate : list Z -> list Z
}.

Module integrity.

(** One turn of the inner [for (int i = 0; i < 8; i++)] loop. *)
Definition crc_shift (crc : Z) : Z :=
  if Z.land crc 0x8000 =? 0
  then u16 (Z.shiftl crc 1)
  else u16 (Z.lxor (Z.shiftl crc 1) 0x1021).

(** The body of [for (std::byte b : data)]. *)
Definition crc_byte (crc : Z) (b : Z) : Z :=
  let crc := u16 (Z.lxor crc (Z.shiftl (u8 b) 8)) in
  Nat.iter 8 crc_shift crc.

Definition crc16_state (data : list Z) : Z :=
  fold_left crc_byte data 0xFFFF.

Definition crc16_calculate (data : list Z) : list Z :=
  let crc := crc16_state data in
  [u8 (Z.land (Z.shiftr crc 8) 0xFF); u8 (Z.land crc 0xFF)].

Definition parity_calculate (data : list Z) : list Z :=
  [fold_left (fun parity b => Z.lxor parity (u8 b)) data 0].

Definition CRC16 : IntegrityPolicy :=
  {| integrity_size := 2; integrity_calculate := crc16_calculate |}.

Definition Parity : IntegrityPolicy :=
  {| integrity_size := 1; integrity_calculate := parity_calculate |}.

Definition None : IntegrityPolicy :=
  {| integrity_size := 0; integrity_calculate := fun _ => [] |}.

End integrity.

(* ------------------------------------------------------------------ *)
(** ** validators/crunch_validators.hpp *)

(** The [Validator] concept: a static [Check(value, field_id)]. *)
Definition Validator (T : Type) := T -> FieldId -> option Error.

(** A parameter pack [Validators...] applied in order: the first
    failing validator's error is returned. *)
Definition run_validators {T : Type} (vs : list (Validator T))
           (v : T) (id : FieldId) : option Error :=
  first_error (map (fun check => check v id) vs).

Inductive Presence := Required | Optional.

Definition check_presence (p : Presence) (set : bool) (id : FieldId)
  : option Error :=
  match p with
  | Required =>
      if negb set
      then Some (Error.validation id "field is required but not set")
      else None
  | Optional => None
  end.

Module validators.

Definition Positive : Validator Z := fun value field_id =>
  if 0 <=? value then Datatypes.None
  else Some (Error.validation field_id "must be >= 0").

Definition Negative : Validator Z := fun value field_id =>
  if value <? 0 then Datatypes.None
  else Some (Error.validation field_id "must be < 0").

Definition NotZero : Validator Z := fun value field_id =>
  if negb (value =? 0) then Datatypes.None
  else Some (Error.validation field_id "must be != 0").

Definition True : Validator Z := fun value field_id =>
  if negb (value =? 0) then Datatypes.None
  else Some (Error.validation field_id "must be true").

Definition False : Validator Z := fun value field_id =>
  if value =? 0 then Datatypes.None
  else Some (Error.validation field_id "must be false").

(** [Length<N>], [LengthAtLeast<N>], [LengthAtMost<N>] go through
    [std::size(value)], supplied here as [size]. *)
Definition Length {T : Type} (size : T -> nat) (N : nat) : Validator T :=
  fun value field_id =>
    if (size value =? N)%nat then Datatypes.None
    else Some (Error.validation field_id "length mismatch").

Definition LengthAtLeast {T : Type} (size : T -> nat) (N : nat)
  : Validator T :=
  fun value field_id =>
    if (N <=? size value)%nat then Datatypes.None
    else Some (Error.validation field_id "length must be at least N").

Definition LengthAtMost {T : Type} (size : T -> nat) (N : nat)
  : Validator T :=
  fun value field_id =>
    if (size value <=? N)%nat then Datatypes.None
    else Some (Error.validation field_id "length must be at most N").

(** [!sv.empty() && sv.back() == 0] *)
Definition NullTerminated : Validator (list Z) := fun value field_id =>
  let sv := value in
  if negb (length sv =? 0)%nat && (last sv 1 =? 0)
  then Datatypes.None
  else Some (Error.validation field_id "must count null terminator").

Definition None {T : Type} : Validator T := fun _ _ => Datatypes.None.

End validators.

(* ------------------------------------------------------------------ *)
(** ** fields/crunch_string.hpp *)

(** [std::array<char, MaxSize> buffer_] and [std::size_t current_len_]. *)
Record StringRep := mkString {
  buffer_ : list Z;
  current_len_ : nat
}.

Module CrunchString.
Section WithParameters.
Variable MaxSize : nat.
Variable Validators : list (Validator (list Z)).

(** [String() = default]: a zeroed buffer and length 0. *)
Definition default : StringRep := mkString (repeat 0 MaxSize) 0.

Definition get (s : StringRep) : list Z :=
  firstn (current_len_ s) (buffer_ s).

Definition Validate (v : list Z) (id : FieldId) : option Error :=
  run_validators Validators v id.

(** [set]: the returned pair is the result and the string afterwards. *)
Definition set (s : StringRep) (sv : list Z) : option Error * StringRep :=
  if (MaxSize <? length sv)%nat
  then (Some (Error.capacity_exceeded 0 "string exceeds capacity"), s)
  else
    match Validate sv 0 with
    | Some err => (Some err, s)
    | None =>
        (* copy from sv and fill the rest with nulls *)
        let buf := sv ++ repeat 0 (MaxSize - length sv) in
        (None, mkString buf (length sv))
    end.

(** [explicit String(std::string_view sv)] discards the result of [set]. *)
Definition construct (sv : list Z) : StringRep := snd (set default sv).

Definition clear (s : StringRep) : StringRep :=
  mkString (repeat 0 MaxSize) 0.

Definition eqb (a b : StringRep) : bool :=
  if list_eq_dec Z.eq_dec (get a) (get b) then true else false.

End WithParameters.
End CrunchString.

(* ------------------------------------------------------------------ *)
(** ** Message schemas and message values

    A C++ message type is a template instantiation; here it is a value of
    [Ty], and an object of that type is a [Val].  [Field], [ArrayField]
    and [MapField] are the three top-level field wrappers; [Scalar],
    [String_], [Message], [ArrayField] and [MapField] are the
    [ValidElementType]s. *)

Inductive ScalarKind :=
| Bool | Int8 | Int16 | Int32 | Int64
| UInt8 | UInt16 | UInt32 | UInt64
| Float32 | Float64 | Enum.

(** [sizeof(ValueType)] *)
Definition sizeof (k : ScalarKind) : nat :=
  match k with
  | Bool | Int8 | UInt8 => 1
  | Int16 | UInt16 => 2
  | Int32 | UInt32 | Float32 | Enum => 4
  | Int64 | UInt64 | Float64 => 8
  end.

Definition is_signed (k : ScalarKind) : bool :=
  match k with
  | Int8 | Int16 | Int32 | Int64 | Enum => true
  | _ => false
  end.

(** Objects.  A scalar holds its integer value (a floating-point scalar
    holds its bit pattern: the layouts only ever bit-cast it).  Arrays and
    maps own all [MaxSize] slots of their [std::array] together with
    [current_len_]. *)
Inductive Val :=
| VScalar (value_ : Z)
| VString (s : StringRep)
| VMessage (fields : list Val)
| VArray (items_ : list Val) (current_len_ : nat)
| VMap (items_ : list (Val * Val)) (current_len_ : nat)
| VField (value_ : Val) (set_ : bool).

Inductive Ty :=
| Scalar (k : ScalarKind) (Validators : list (Validator Z))
| String_ (max_size : nat) (Validators : list (Validator (list Z)))
| Message (message_id : MessageId) (fields : list Ty)
          (Validate : Val -> option Error)
| ArrayField (Id : FieldId) (ElementType : Ty) (max_size : nat)
             (Validators : list (Validator Val))
| MapField (Id : FieldId) (KeyField ValueField : Ty) (max_size : nat)
           (Validators : list (Validator Val))
| Field (Id : FieldId) (PresenceValidator : Presence) (Type_ : Ty).

Definition is_array_field (T : Ty) : bool :=
  match T with ArrayField _ _ _ _ => true | _ => false end.

Definition is_map_field (T : Ty) : bool :=
  match T with MapField _ _ _ _ _ => true | _ => false end.

Definition is_scalar (T : Ty) : bool :=
  match T with Scalar _ _ => true | _ => false end.

Definition is_string (T : Ty) : bool :=
  match T with String_ _ _ => true | _ => false end.

Definition is_message (T : Ty) : bool :=
  match T with Message _ _ _ => true | _ => false end.

(** [Message::message_id] *)
Definition message_id_of (M : Ty) : MessageId :=
  match M with Message id _ _ => id | _ => 0 end.

(** Value-initialisation [T{}]. *)
Fixpoint default_val (T : Ty) : Val :=
  match T with
  | Scalar _ _ => VScalar 0
  | String_ max_size _ => VString (CrunchString.default max_size)
  | Message _ fields _ => VMessage (map default_val fields)
  | ArrayField _ E max_size _ => VArray (repeat (default_val E) max_size) 0
  | MapField _ K V max_size _ =>
      VMap (repeat (default_val K, default_val V) max_size) 0
  | Field _ _ T' => VField (default_val T') false
  end.

(** The objects of a type: the shape matches, every [std::array] has
    [MaxSize] slots and [current_len_] does not exceed them. *)
Fixpoint has_type (T : Ty) (v : Val) {struct T} : bool :=
  match T, v with
  | Scalar _ _, VScalar _ => true
  | String_ max_size _, VString s =>
      (length (buffer_ s) =? max_size)%nat
      && (current_len_ s <=? max_size)%nat
  | Message _ fields _, VMessage vals =>
      (fix all2 (ts : list Ty) (vs : list Val) {struct ts} : bool :=
         match ts, vs with
         | [], [] => true
         | t :: ts', v :: vs' => has_type t v && all2 ts' vs'
         | _, _ => false
         end) fields vals
  | ArrayField _ E max_size _, VArray items len =>
      (length items =? max_size)%nat && (len <=? max_size)%nat
      && forallb (has_type E) items
  | MapField _ K V max_size _, VMap items len =>
      (length items =? max_size)%nat && (len <=? max_size)%nat
      && forallb (fun kv => has_type K (fst kv) && has_type V (snd kv)) items
  | Field _ _ T', VField value _ => has_type T' value
  | _, _ => false
  end.

(* ------------------------------------------------------------------ *)
(** ** serdes/crunch_static_layout.hpp *)

(** [for (i = lo; i < hi; ++i) body(i)] on a state that may hit
    undefined behaviour. *)
Definition for_range {S : Type} (lo hi : nat)
           (body : nat -> S -> option S) (s : S) : option S :=
  fold_left (fun acc i => s' <- acc ;; body i s') (seq lo (hi - lo)) (Some s).

Module StaticLayout.
Section WithAlignment.
Variable Alignment : nat.

Definition GetFormat : Format :=
  if (Alignment =? 1)%nat then Packed
  else if (Alignment =? 4)%nat then Aligned4
  else Aligned8.

(** [(value + alignment - 1) & ~(alignment - 1)] *)
Definition align_up (value alignment : nat) : nat :=
  Z.to_nat (Z.land (Z.of_nat value + Z.of_nat alignment - 1)
                   (Z.lnot (Z.of_nat alignment - 1))).

(** [calculate_padding<T>(offset)] with [sizeof(T)] passed explicitly. *)
Definition calculate_padding (sizeof_T : nat) (offset : nat) : nat :=
  let align := Nat.min sizeof_T Alignment in
  ((align - offset mod align) mod align)%nat.

Definition PayloadStartOffset : nat := align_up StandardHeaderSize Alignment.

(** [calculate_value_end_offset<T>(offset)].  The fold of
    [calculate_payload_size] over the field tuple is the local [payload]
    (it starts from offset 0 in the source), with
    [calculate_field_end_offset] inlined: a [Field] adds the is-set byte
    and continues with its [FieldType]; an [ArrayField] or [MapField] is
    its own [FieldType] and has no is-set byte. *)
Fixpoint calculate_value_end_offset (T : Ty) (offset : nat) {struct T}
  : nat :=
  match T with
  | String_ max_size _ =>
      (* calculate_string_end_offset *)
      (offset + (calculate_padding 4 offset + 4 + max_size))%nat
  | Message _ fields _ =>
      (* calculate_message_end_offset *)
      let padding := calculate_padding Alignment offset in
      let offset := (offset + padding)%nat in
      (offset
       + (4 + (fix payload (fields : list Ty) (offset : nat) {struct fields}
                 : nat :=
                 match fields with
                 | [] => offset
                 | F :: rest =>
                     payload rest
                       match F with
                       | Field _ _ ValueType =>
                           calculate_value_end_offset ValueType (offset + 1)
                       | _ => calculate_value_end_offset F offset
                       end
                 end) fields 0%nat))%nat
  | ArrayField _ ValT max_size _ =>
      (* calculate_array_end_offset *)
      let offset := (offset + (calculate_padding 4 offset + 4))%nat in
      Nat.iter max_size (calculate_value_end_offset ValT) offset
  | MapField _ KeyField ValueField max_size _ =>
      (* calculate_map_end_offset *)
      let offset := (offset + (calculate_padding 4 offset + 4))%nat in
      Nat.iter max_size
        (fun offset =>
           let offset := calculate_value_end_offset KeyField offset in
           calculate_value_end_offset ValueField offset)
        offset
  | Scalar k _ =>
      (* calculate_scalar_end_offset *)
      (offset + (calculate_padding (sizeof k) offset + sizeof k))%nat
  | Field _ _ _ => offset (* not a ValidElementType *)
  end.

Definition calculate_field_end_offset (F : Ty) (offset : nat) : nat :=
  match F with
  | Field _ _ ValueType => calculate_value_end_offset ValueType (offset + 1)
  | _ => calculate_value_end_offset F offset
  end.

(** [((offset = calculate_field_end_offset(fields, offset)), ...)] *)
Definition calculate_payload_fields (fields : list Ty) (offset : nat)
  : nat :=
  fold_left (fun offset F => calculate_field_end_offset F offset)
            fields offset.

(** [calculate_payload_size(Message{})] *)
Definition calculate_payload_size (M : Ty) : nat :=
  match M with
  | Message _ fields _ => calculate_payload_fields fields 0
  | _ => 0%nat
  end.

(** [Size<Message>()] *)
Definition Size (M : Ty) : nat :=
  (PayloadStartOffset + 4 + calculate_payload_size M)%nat.

(** Zero padding in front of a slot:
    [if (padding > 0) { memset(...); offset += padding; }] *)
Definition write_padding (padding : nat) (output : list Z) (offset : nat)
  : option (list Z * nat) :=
  if (0 <? padding)%nat
  then output' <- memset output offset 0 padding ;;
       Some (output', (offset + padding)%nat)
  else Some (output, offset).

(** [memcpy] of an [n]-byte little-endian integer, [offset += n]. *)
Definition write_le (n : nat) (v : Z) (output : list Z) (offset : nat)
  : option (list Z * nat) :=
  output' <- memcpy output offset (le_bytes n v) ;;
  Some (output', (offset + n)%nat).

(** [memset(output.data() + offset, 0, end - offset); offset = end] *)
Definition zero_fill (end_offset : nat) (output : list Z) (offset : nat)
  : option (list Z * nat) :=
  output' <- memset output offset 0 (end_offset - offset) ;;
  Some (output', end_offset).

Definition serialize_string (max_size : nat) (value : StringRep)
           (output : list Z) (offset : nat) : option (list Z * nat) :=
  '(output, offset) <- write_padding (calculate_padding 4 offset)
                                     output offset ;;
  '(output, offset) <- write_le 4 (u32 (Z.of_nat (current_len_ value)))
                                output offset ;;
  (* memcpy(output + offset, value.buffer_.data(), T::max_size) *)
  src <- load (buffer_ value) 0 max_size ;;
  output <- memcpy output offset src ;;
  Some (output, (offset + max_size)%nat).

Definition serialize_scalar (k : ScalarKind) (value : Z)
           (output : list Z) (offset : nat) : option (list Z * nat) :=
  '(output, offset) <- write_padding (calculate_padding (sizeof k) offset)
                                     output offset ;;
  write_le (sizeof k) value output offset.

(** [serialize_value], [serialize_message], [serialize_array],
    [serialize_map] and the fold of [serialize_field] over the field
    tuple.  A value that is not an object of the type has no
    behaviour. *)
Fixpoint serialize_value (T : Ty) (value : Val) (output : list Z)
         (offset : nat) {struct T} : option (list Z * nat) :=
  match T, value with
  | String_ max_size _, VString s => serialize_string max_size s output offset
  | Message message_id fields _, VMessage vals =>
      '(output, offset) <- write_padding (calculate_padding Alignment offset)
                                         output offset ;;
      '(output, offset) <- write_le 4 message_id output offset ;;
      (fix serialize_fields (fields : list Ty) (vals : list Val)
            (output : list Z) (offset : nat) {struct fields}
         : option (list Z * nat) :=
         match fields, vals with
         | [], [] => Some (output, offset)
         | F :: rest, field :: vals' =>
             '(output, offset) <-
               (* serialize_field *)
               match F, field with
               | Field _ _ ValueType, VField value_ set =>
                   output <- memcpy output offset [if set then 1 else 0] ;;
                   let offset := (offset + 1)%nat in
                   if set
                   then serialize_value ValueType value_ output offset
                   else
                     (* Zero fill unset fields *)
                     zero_fill (calculate_value_end_offset ValueType offset)
                               output offset
               | Field _ _ _, _ => None
               | _, _ => serialize_value F field output offset
               end ;;
             serialize_fields rest vals' output offset
         | _, _ => None
         end) fields vals output offset
  | ArrayField _ ValT max_size _, VArray items current_len =>
      '(output, offset) <- write_padding (calculate_padding 4 offset)
                                         output offset ;;
      '(output, offset) <- write_le 4 (u32 (Z.of_nat current_len))
                                    output offset ;;
      (* Serialize elements *)
      st <- for_range 0 current_len
              (fun i '(output, offset) =>
                 item <- nth_error items i ;;
                 serialize_value ValT item output offset)
              (output, offset) ;;
      (* Zero fill remaining slots *)
      for_range current_len max_size
        (fun _ '(output, offset) =>
           zero_fill (calculate_value_end_offset ValT offset) output offset)
        st
  | MapField _ KeyField ValueField max_size _, VMap items current_len =>
      '(output, offset) <- write_padding (calculate_padding 4 offset)
                                         output offset ;;
      '(output, offset) <- write_le 4 (u32 (Z.of_nat current_len))
                                    output offset ;;
      st <- for_range 0 current_len
              (fun i '(output, offset) =>
                 pair <- nth_error items i ;;
                 '(output, offset) <- serialize_value KeyField (fst pair)
                                                      output offset ;;
                 serialize_value ValueField (snd pair) output offset)
              (output, offset) ;;
      for_range current_len max_size
        (fun _ '(output, offset) =>
           '(output, offset) <-
             zero_fill (calculate_value_end_offset KeyField offset)
                       output offset ;;
           zero_fill (calculate_value_end_offset ValueField offset)
                     output offset)
        st
  | Scalar k _, VScalar v => serialize_scalar k v output offset
  | _, _ => None
  end.

Definition serialize_field (F : Ty) (field : Val) (output : list Z)
           (offset : nat) : option (list Z * nat) :=
  match F, field with
  | Field _ _ ValueType, VField value_ set =>
      output <- memcpy output offset [if set then 1 else 0] ;;
      let offset := (offset + 1)%nat in
      if set then serialize_value ValueType value_ output offset
      else zero_fill (calculate_value_end_offset ValueType offset)
                     output offset
  | Field _ _ _, _ => None
  | _, _ => serialize_value F field output offset
  end.

(** [((offset = serialize_field(fields, output, offset)), ...)] *)
Fixpoint serialize_fields (fields : list Ty) (vals : list Val)
         (output : list Z) (offset : nat) {struct fields}
  : option (list Z * nat) :=
  match fields, vals with
  | [], [] => Some (output, offset)
  | F :: rest, field :: vals' =>
      '(output, offset) <- serialize_field F field output offset ;;
      serialize_fields rest vals' output offset
  | _, _ => None
  end.

(** [Serialize(msg, output)] *)
Definition Serialize (M : Ty) (msg : Val) (output : list Z)
  : option (list Z * nat) :=
  match M, msg with
  | Message message_id fields _, VMessage vals =>
      let offset := StandardHeaderSize in
      output <- (if (StandardHeaderSize <? PayloadStartOffset)%nat
                 then memset output offset 0
                             (PayloadStartOffset - StandardHeaderSize)
                 else Some output) ;;
      let offset := PayloadStartOffset in
      '(output, offset) <- write_le 4 message_id output offset ;;
      serialize_fields fields vals output offset
  | _, _ => None
  end.

(** Reading an [n]-byte little-endian unsigned integer. *)
Definition read_le (n : nat) (input : list Z) (offset : nat) : option Z :=
  bytes <- load input offset n ;;
  Some (le_value bytes).

(** [memcpy(&le_value, input.data() + offset, sizeof(ValT))] followed by
    [LittleEndian]: the bytes reinterpreted in the scalar's type. *)
Definition read_scalar (k : ScalarKind) (input : list Z) (offset : nat)
  : option Z :=
  u <- read_le (sizeof k) input offset ;;
  Some (if is_signed k then to_signed (sizeof k) u else u).

(** [items_[i] = item] *)
Definition set_nth {A : Type} (i : nat) (item : A) (items : list A)
  : list A :=
  firstn i items ++ item :: skipn (S i) items.

Definition deserialize_scalar (k : ScalarKind) (value : Z) (set : bool)
           (input : list Z) (offset : nat) : option (Z * expected nat) :=
  let offset := (offset + calculate_padding (sizeof k) offset)%nat in
  value <- (if set then read_scalar k input offset else Some value) ;;
  Some (value, Expected (offset + sizeof k)%nat).

Definition deserialize_string (max_size : nat) (value : StringRep)
           (set : bool) (input : list Z) (offset : nat)
  : option (StringRep * expected nat) :=
  let offset := (offset + calculate_padding 4 offset)%nat in
  len <- read_le 4 input offset ;;
  let offset := (offset + 4)%nat in
  if set then
    if Z.of_nat max_size <? len
    then Some (value,
               Unexpected
                 (Error.capacity_exceeded 0 "deserialized string too long"))
    else
      bytes <- load input offset max_size ;;
      Some (mkString bytes (Z.to_nat len),
            Expected (offset + max_size)%nat)
  else
    Some (CrunchString.clear max_size value,
          Expected (offset + max_size)%nat).

(** [deserialize_value] with [deserialize_message], [deserialize_array],
    [deserialize_map] and the fold of [deserialize_field]; the object is
    updated in place, so the result carries the object as it is left
    behind, also on error. *)
Fixpoint deserialize_value (T : Ty) (value : Val) (set : bool)
         (input : list Z) (offset : nat) {struct T}
  : option (Val * expected nat) :=
  match T, value with
  | String_ max_size _, VString s =>
      '(s, r) <- deserialize_string max_size s set input offset ;;
      Some (VString s, r)
  | Message message_id fields _, VMessage vals =>
      let offset := (offset + calculate_padding Alignment offset)%nat in
      u <- read_le 4 input offset ;;
      let msg_id := to_signed 4 u in
      if set && negb (msg_id =? message_id)
      then Some (value, Unexpected Error.invalid_message_id)
      else
        let offset := (offset + 4)%nat in
        if set then
          '(vals, r) <-
            (fix deserialize_fields (fields : list Ty) (vals : list Val)
                  (offset : nat) {struct fields}
               : option (list Val * expected nat) :=
               match fields, vals with
               | [], [] => Some ([], Expected offset)
               | F :: rest, field :: vals' =>
                   '(field, r) <-
                     (* deserialize_field *)
                     match F, field with
                     | Field _ _ ValueType, VField value_ _ =>
                         b <- nth_error input offset ;;
                         let set := negb (u8 b =? 0) in
                         '(value_, r) <-
                           deserialize_value ValueType value_ set input
                                             (offset + 1) ;;
                         Some (VField value_ set, r)
                     | Field _ _ _, _ => None
                     | _, _ => deserialize_value F field true input offset
                     end ;;
                   match r with
                   | Unexpected e => Some (field :: vals', Unexpected e)
                   | Expected offset =>
                       '(vals', r) <- deserialize_fields rest vals' offset ;;
                       Some (field :: vals', r)
                   end
               | _, _ => None
               end) fields vals offset ;;
          Some (VMessage vals, r)
        else
          (* Skip over submessage *)
          Some (value,
                Expected (offset + calculate_payload_fields fields 0)%nat)
  | ArrayField _ ValT max_size _, VArray items current_len =>
      let array_end := calculate_value_end_offset T offset in
      if negb set then Some (VArray items 0, Expected array_end)
      else
        let offset := (offset + calculate_padding 4 offset)%nat in
        len <- read_le 4 input offset ;;
        let offset := (offset + 4)%nat in
        if Z.of_nat max_size <? len
        then Some (value,
                   Unexpected
                     (Error.capacity_exceeded 0 "array capacity exceeded"))
        else
          let len := Z.to_nat len in
          (* Deserialize active elements *)
          '(items, r) <-
            for_range 0 len
              (fun i '(items, r) =>
                 match r with
                 | Unexpected e => Some (items, r)
                 | Expected offset =>
                     item <- nth_error items i ;;
                     '(item, r) <-
                       deserialize_value ValT item true input offset ;;
                     Some (set_nth i item items, r)
                 end)
              (items, Expected offset) ;;
          match r with
          | Unexpected e => Some (VArray items len, Unexpected e)
          | Expected _ => Some (VArray items len, Expected array_end)
          end
  | MapField _ KeyField ValueField max_size _, VMap items current_len =>
      let map_end := calculate_value_end_offset T offset in
      if negb set then Some (VMap items 0, Expected map_end)
      else
        let offset := (offset + calculate_padding 4 offset)%nat in
        len <- read_le 4 input offset ;;
        let offset := (offset + 4)%nat in
        if Z.of_nat max_size <? len
        then Some (value,
                   Unexpected
                     (Error.capacity_exceeded 0 "map capacity exceeded"))
        else
          let len := Z.to_nat len in
          (* Deserialize key-value pairs *)
          '(items, r) <-
            for_range 0 len
              (fun i '(items, r) =>
                 match r with
                 | Unexpected e => Some (items, r)
                 | Expected offset =>
                     pair <- nth_error items i ;;
                     '(key, r) <-
                       deserialize_value KeyField (fst pair) true
                                         input offset ;;
                     match r with
                     | Unexpected e =>
                         Some (set_nth i (key, snd pair) items, r)
                     | Expected offset =>
                         '(val, r) <-
                           deserialize_value ValueField (snd pair) true
                                             input offset ;;
                         Some (set_nth i (key, val) items, r)
                     end
                 end)
              (items, Expected offset) ;;
          match r with
          | Unexpected e => Some (VMap items len, Unexpected e)
          | Expected _ => Some (VMap items len, Expected map_end)
          end
  | Scalar k _, VScalar v =>
      '(v, r) <- deserialize_scalar k v set input offset ;;
      Some (VScalar v, r)
  | _, _ => None
  end.

Definition deserialize_field (F : Ty) (field : Val) (input : list Z)
           (offset : nat) : option (Val * expected nat) :=
  match F, field with
  | Field _ _ ValueType, VField value_ _ =>
      b <- nth_error input offset ;;
      let set := negb (u8 b =? 0) in
      '(value_, r) <-
        deserialize_value ValueType value_ set input (offset + 1) ;;
      Some (VField value_ set, r)
  | Field _ _ _, _ => None
  | _, _ => deserialize_value F field true input offset
  end.

(** The fold of [deserialize_field] over the field tuple, which stops
    at the first error. *)
Fixpoint deserialize_fields (fields : list Ty) (vals : list Val)
         (input : list Z) (offset : nat) {struct fields}
  : option (list Val * expected nat) :=
  match fields, vals with
  | [], [] => Some ([], Expected offset)
  | F :: rest, field :: vals' =>
      '(field, r) <- deserialize_field F field input offset ;;
      match r with
      | Unexpected e => Some (field :: vals', Unexpected e)
      | Expected offset =>
          '(vals', r) <- deserialize_fields rest vals' input offset ;;
          Some (field :: vals', r)
      end
  | _, _ => None
  end.

(** [Deserialize(input, msg)] *)
Definition Deserialize (M : Ty) (input : list Z) (msg : Val)
  : option (Val * option Error) :=
  match M, msg with
  | Message message_id fields _, VMessage vals =>
      let offset := PayloadStartOffset in
      u <- read_le 4 input offset ;;
      let msg_id := to_signed 4 u in
      if negb (msg_id =? message_id)
      then Some (msg, Some Error.invalid_message_id)
      else
        let offset := (offset + 4)%nat in
        '(vals, r) <- deserialize_fields fields vals input offset ;;
        match r with
        | Unexpected e => Some (VMessage vals, Some e)
        | Expected _ => Some (VMessage vals, None)
        end
  | _, _ => None
  end.

End WithAlignment.
End StaticLayout.

(* ------------------------------------------------------------------ *)
(** ** Field-level validation and equality (messages/crunch_field.hpp) *)

(** The implicit conversion of a [FieldId] to the scalar's [ValueType]
    (the bit pattern of a floating-point result is not modelled). *)
Definition convert_FieldId (k : ScalarKind) (id : FieldId) : Z :=
  match k with
  | Bool => if id =? 0 then 0 else 1
  | Float32 | Float64 => id
  | _ =>
      let u := id mod 2 ^ (8 * Z.of_nat (sizeof k)) in
      if is_signed k then to_signed (sizeof k) u else u
  end.

(** The parameterless member [Validate()] of each field kind.

    In [ArrayField::Validate] the element call is [items_[i].Validate(Id)]
    when that expression is well-formed ([HasValidateWithId]) and
    [items_[i].Validate()] otherwise.  For a [Scalar] whose [ValueType]
    converts from [FieldId] the expression resolves to the static
    [Validate(ScalarType v, FieldId id = 0)] with [v = Id]; for a [String]
    it is the member [Validate(FieldId)]; an enumeration, a message, an
    array and a map only have the parameterless form. *)
Fixpoint value_Validate (T : Ty) (v : Val) {struct T} : option Error :=
  match T, v with
  | Scalar _ Validators, VScalar value_ => run_validators Validators value_ 0
  | String_ max_size Validators, VString s =>
      run_validators Validators (CrunchString.get s) 0
  | Message _ _ Validate, _ => Validate v
  | ArrayField Id ElementType _ Validators, VArray items current_len =>
      match
        first_error
          (map (fun item =>
                  match ElementType, item with
                  | Scalar Enum _, _ => value_Validate ElementType item
                  | Scalar k Vs, _ =>
                      run_validators Vs (convert_FieldId k Id) 0
                  | String_ _ Vs, VString s =>
                      run_validators Vs (CrunchString.get s) Id
                  | _, _ => value_Validate ElementType item
                  end)
               (firstn current_len items))
      with
      | Some err => Some err
      | None => run_validators Validators v Id
      end
  | MapField Id KeyField ValueField _ Validators, VMap items current_len =>
      match
        first_error
          (map (fun pair =>
                  match value_Validate KeyField (fst pair) with
                  | Some err => Some err
                  | None => value_Validate ValueField (snd pair)
                  end)
               (firstn current_len items))
      with
      | Some err => Some err
      | None => run_validators Validators v Id
      end
  | Field _ _ Type_, VField value_ set_ =>
      if negb set_ then None else value_Validate Type_ value_
  | _, _ => None
  end.

(** [operator==] of each field kind; a message compares member-wise
    (every message of the sources defaults its [operator==]). *)
Fixpoint val_eqb (T : Ty) (a b : Val) {struct T} : bool :=
  match T, a, b with
  | Scalar _ _, VScalar x, VScalar y => x =? y
  | String_ max_size _, VString x, VString y => CrunchString.eqb x y
  | Message _ fields _, VMessage xs, VMessage ys =>
      (fix all_eq (fields : list Ty) (xs ys : list Val) {struct fields}
         : bool :=
         match fields, xs, ys with
         | [], [], [] => true
         | F :: rest, x :: xs', y :: ys' => val_eqb F x y && all_eq rest xs' ys'
         | _, _, _ => false
         end) fields xs ys
  | ArrayField _ E _ _, VArray xs n, VArray ys m =>
      (n =? m)%nat
      && forallb (fun xy => val_eqb E (fst xy) (snd xy))
                 (combine (firstn n xs) (firstn n ys))
  | MapField _ K V _ _, VMap xs n, VMap ys m =>
      (n =? m)%nat
      && forallb
           (fun mine =>
              (* other.has_entry(my_key, my_val) *)
              match find (fun p => val_eqb K (fst p) (fst mine))
                         (firstn m ys) with
              | Some it => val_eqb V (snd it) (snd mine)
              | None => false
              end)
           (firstn n xs)
  | Field _ _ Type_, VField x sx, VField y sy =>
      if negb (Bool.eqb sx sy) then false
      else if negb sx then true
      else val_eqb Type_ x y
  | _, _, _ => false
  end.

(* ------------------------------------------------------------------ *)
(** ** core/crunch_header.hpp *)

Record CrunchHeader := mkHeader {
  version : Z;
  format : Z;
  header_message_id : MessageId
}.

Definition GetHeader (input : list Z) : expected CrunchHeader :=
  if (length input <? StandardHeaderSize)%nat
  then Unexpected (Error.deserialization "buffer too small for header")
  else
    Expected
      (mkHeader (u8 (nth 0 input 0)) (u8 (nth 1 input 0))
                (to_signed 4 (le_value (firstn 4 (skipn 2 input))))).

(** [WriteHeader<Message, Serdes>(output)] *)
Definition WriteHeader (message_id : MessageId) (fmt : Format)
           (output : list Z) : option (list Z * nat) :=
  let offset := 0%nat in
  output <- memcpy output offset [CrunchVersion] ;;
  let offset := (offset + 1)%nat in
  output <- memcpy output offset [Format_to_byte fmt] ;;
  let offset := (offset + 1)%nat in
  output <- memcpy output offset (le_bytes 4 message_id) ;;
  let offset := (offset + 4)%nat in
  Some (output, offset).

(** [ValidateHeader<Message, Serdes>(input)] *)
Definition ValidateHeader (message_id : MessageId) (fmt : Format)
           (input : list Z) : expected nat :=
  match GetHeader input with
  | Unexpected e => Unexpected e
  | Expected header =>
      if negb (version header =? CrunchVersion)
      then Unexpected (Error.deserialization "unsupported crunch version")
      else if negb (format header =? Format_to_byte fmt)
      then Unexpected Error.invalid_format
      else if negb (header_message_id header =? message_id)
      then Unexpected Error.invalid_message_id
      else Expected StandardHeaderSize
  end.

(* ------------------------------------------------------------------ *)
(** ** serdes/crunch_serdes.hpp: the [SerdesPolicy] concept *)

Record SerdesPolicy := {
  Size : Ty -> nat;
  GetFormat : Format;
  Serialize : Ty -> Val -> list Z -> option (list Z * nat);
  Deserialize : Ty -> list Z -> Val -> option (Val * option Error)
}.

Definition StaticLayoutPolicy (Alignment : nat) : SerdesPolicy :=
  {| Size := StaticLayout.Size Alignment;
     GetFormat := StaticLayout.GetFormat Alignment;
     Serialize := StaticLayout.Serialize Alignment;
     Deserialize := StaticLayout.Deserialize Alignment |}.

Definition PackedLayout := StaticLayoutPolicy 1.
Definition Aligned32Layout := StaticLayoutPolicy 4.
Definition Aligned64Layout := StaticLayoutPolicy 8.

(* ------------------------------------------------------------------ *)
(** ** crunch_detail.hpp and crunch.hpp: the buffer pipeline *)

Fixpoint bytes_eqb (a b : list Z) : bool :=
  match a, b with
  | [], _ => true
  | x :: a', y :: b' => (u8 x =? u8 y) && bytes_eqb a' b'
  | _ :: _, [] => false
  end.

Module detail.

(** [Validate(message)]: [ValidateField] over the field tuple, first
    error wins, then the message's own [Validate()]. *)
Fixpoint Validate (M : Ty) (message : Val) {struct M} : option Error :=
  match M, message with
  | Message _ fields message_Validate, VMessage vals =>
      match
        (fix walk (fields : list Ty) (vals : list Val) {struct fields}
           : option Error :=
           match fields, vals with
           | F :: rest, field :: vals' =>
               match
                 (* ValidateField *)
                 match F, field with
                 | Field Id PresenceValidator Type_, VField value_ set_ =>
                     match check_presence PresenceValidator set_ Id with
                     | Some err => Some err
                     | None =>
                         if is_message Type_
                         then (* if (const auto* ptr = field.get()) *)
                           if set_ then Validate Type_ value_ else None
                         else value_Validate F field
                     end
                 | _, _ => value_Validate F field
                 end
               with
               | Some err => Some err
               | None => walk rest vals'
               end
           | _, _ => None
           end) fields vals
      with
      | Some err => Some err
      | None => message_Validate message
      end
  | _, _ => None
  end.

Definition GetBufferSize (Integrity : IntegrityPolicy) (Serdes : SerdesPolicy) (M : Ty)
  : nat :=
  (Size Serdes M + integrity_size Integrity)%nat.

(** [SerializeWithoutValidation<Integrity, Serdes>(buffer, message)]:
    the buffer afterwards and the number of bytes used. *)
Definition SerializeWithoutValidation (Integrity : IntegrityPolicy)
           (Serdes : SerdesPolicy) (M : Ty) (buffer : list Z) (message : Val)
  : option (list Z * nat) :=
  let N := length buffer in
  let ChecksumSize := integrity_size Integrity in
  if (N <? ChecksumSize)%nat then None
  else
    let PayloadSize := (N - ChecksumSize)%nat in
    let payload_span := firstn PayloadSize buffer in
    (* Write Header *)
    '(payload_span, _) <-
      WriteHeader (message_id_of M) (GetFormat Serdes) payload_span ;;
    (* Serialize Payload *)
    '(payload_span, bytes_written) <- Serialize Serdes M message payload_span ;;
    let buffer := payload_span ++ skipn PayloadSize buffer in
    (* Calculate and Append Checksum *)
    if (0 <? ChecksumSize)%nat then
      used_payload_span <- load payload_span 0 bytes_written ;;
      let checksum := integrity_calculate Integrity used_payload_span in
      buffer <- memcpy buffer bytes_written checksum ;;
      Some (buffer, (bytes_written + ChecksumSize)%nat)
    else Some (buffer, (bytes_written + ChecksumSize)%nat).

Definition Serialize (Integrity : IntegrityPolicy) (Serdes : SerdesPolicy) (M : Ty)
           (buffer : list Z) (message : Val)
  : option (list Z * expected nat) :=
  match Validate M message with
  | Some err => Some (buffer, Unexpected err)
  | None =>
      '(buffer, n) <- SerializeWithoutValidation Integrity Serdes M buffer message ;;
      Some (buffer, Expected n)
  end.

(** [Deserialize<Integrity, Serdes>(buffer, message)]: the message as
    it is left behind and the result. *)
Definition Deserialize (Integrity : IntegrityPolicy) (Serdes : SerdesPolicy) (M : Ty)
           (buffer : list Z) (message : Val)
  : option (Val * option Error) :=
  let ChecksumSize := integrity_size Integrity in
  if (length buffer <? ChecksumSize)%nat
  then Some (message,
             Some (Error.deserialization "buffer too small for checksum"))
  else
    let PayloadSize := (length buffer - ChecksumSize)%nat in
    let payload_span := firstn PayloadSize buffer in
    (* Execute Integrity Check per policy *)
    if (0 <? ChecksumSize)%nat
       && negb (bytes_eqb (integrity_calculate Integrity payload_span)
                          (skipn PayloadSize buffer))
    then Some (message, Some Error.integrity)
    else
      (* Validate Header (Version, Format, MessageId) *)
      match ValidateHeader (message_id_of M) (GetFormat Serdes) payload_span with
      | Unexpected e => Some (message, Some e)
      | Expected _ =>
          '(message, err) <- Deserialize Serdes M payload_span message ;;
          match err with
          | Some e => Some (message, Some e)
          | None =>
              (* Validate deserialized message *)
              match Validate M message with
              | Some e => Some (message, Some e)
              | None => Some (message, None)
              end
          end
      end.

(** [std::variant<Messages...>]: the index of the active alternative
    and its value. *)
Definition VariantType : Type := nat * Val.

(** The fold [(... || ...)] of [Decoder::Decode] over [Messages],
    which stops at the first type whose [message_id] matches. *)
Fixpoint Decode_dispatch (Serdes : SerdesPolicy) (Integrity : IntegrityPolicy)
         (index : nat) (Messages : list Ty) (header : CrunchHeader)
         (buffer : list Z) (out_message : VariantType)
         (result : option Error) {struct Messages}
  : option (VariantType * option Error) :=
  match Messages with
  | [] => Some (out_message, result)
  | M :: rest =>
      if message_id_of M =? header_message_id header then
        let msg := default_val M in
        '(msg, err) <- Deserialize Integrity Serdes M buffer msg ;;
        match err with
        | Some e => Some (out_message, Some e)
        | None => Some ((index, msg), None)
        end
      else
        Decode_dispatch Serdes Integrity (S index) rest header buffer
                        out_message result
  end.

(** [Decoder<Serdes, Integrity, Messages...>::Decode(buffer, out)] *)
Definition Decode (Serdes : SerdesPolicy) (Integrity : IntegrityPolicy)
           (Messages : list Ty) (buffer : list Z)
           (out_message : VariantType)
  : option (VariantType * option Error) :=
  match GetHeader buffer with
  | Unexpected e => Some (out_message, Some e)
  | Expected header =>
      Decode_dispatch Serdes Integrity 0 Messages header buffer out_message
                      (Some Error.invalid_message_id)
  end.

End detail.

(** [Buffer<Message, Integrity, Serdes, N>] *)
Record Buffer := mkBuffer {
  data : list Z;
  used_bytes : nat
}.

Module Crunch.
Section WithPolicies.
Variable Integrity : IntegrityPolicy.
Variable Serdes : SerdesPolicy.
Variable M : Ty.

Definition GetBuffer : Buffer :=
  mkBuffer (repeat 0 (detail.GetBufferSize Integrity Serdes M)) 0.

Definition serialized_message_span (buffer : Buffer) : list Z :=
  firstn (used_bytes buffer) (data buffer).

Definition Validate (message : Val) : option Error :=
  detail.Validate M message.

Definition Serialize (buffer : Buffer) (message : Val)
  : option (Buffer * option Error) :=
  '(data', res) <- detail.Serialize Integrity Serdes M (data buffer) message ;;
  match res with
  | Unexpected e => Some (mkBuffer data' (used_bytes buffer), Some e)
  | Expected n => Some (mkBuffer data' n, None)
  end.

Definition SerializeWithoutValidation (buffer : Buffer) (message : Val)
  : option Buffer :=
  '(data', n) <-
    detail.SerializeWithoutValidation Integrity Serdes M (data buffer) message ;;
  Some (mkBuffer data' n).

Definition Deserialize (buffer : Buffer) (out_message : Val)
  : option (Val * option Error) :=
  detail.Deserialize Integrity Serdes M (serialized_message_span buffer) out_message.

End WithPolicies.
End Crunch.

(* ------------------------------------------------------------------ *)
(** ** MapField (messages/crunch_field.hpp)

    [MapField] selects, with [if constexpr] on the kind of [KeyField] and
    [ValueField], how a key or value is validated, compared and stored.
    The three selections are the instances of [MapElement]:
    [FieldT] is the stored field object, [ValueT] is
    [field_value_type_t<FieldT>]. *)

Class MapElement (FieldT ValueT : Type) := {
  (** [KeyField::Validate(key, 0)] for a scalar or string,
      [key.Validate()] otherwise *)
  element_Validate : ValueT -> option Error;
  (** [key_equals]: [stored.get() == key] for a scalar or string,
      [stored == key] otherwise *)
  element_equals : FieldT -> ValueT -> bool;
  (** [set_without_validation(key)] for a scalar, [set(key)] with the
      result discarded for a string, assignment otherwise *)
  element_store : FieldT -> ValueT -> FieldT;
  (** value-initialisation of a slot *)
  element_default : FieldT
}.

Definition ScalarElement (Validators : list (Validator Z)) : MapElement Z Z :=
  {| element_Validate := fun v => run_validators Validators v 0;
     element_equals := fun stored key => stored =? key;
     element_store := fun _ v => v;
     element_default := 0 |}.

Definition StringElement (MaxSize : nat)
           (Validators : list (Validator (list Z)))
  : MapElement StringRep (list Z) :=
  {| element_Validate := fun sv => CrunchString.Validate Validators sv 0;
     element_equals := fun stored key =>
       if list_eq_dec Z.eq_dec (CrunchString.get stored) key
       then true else false;
     element_store := fun stored sv =>
       snd (CrunchString.set MaxSize Validators stored sv);
     element_default := CrunchString.default MaxSize |}.

Definition ObjectElement (T : Ty) : MapElement Val Val :=
  {| element_Validate := value_Validate T;
     element_equals := val_eqb T;
     element_store := fun _ v => v;
     element_default := default_val T |}.

(** [std::array<PairType, MaxSize> items_] and [current_len_]. *)
Record MapRep (KeyField ValueField : Type) := mkMap {
  map_items_ : list (KeyField * ValueField);
  map_current_len_ : nat
}.
Arguments mkMap {KeyField ValueField} _ _.
Arguments map_items_ {KeyField ValueField} _.
Arguments map_current_len_ {KeyField ValueField} _.

Module MapField.
Section WithParameters.
Context {KeyField KeyType ValueField ValueType : Type}.
Context {KeyElement : MapElement KeyField KeyType}.
Context {ValueElement : MapElement ValueField ValueType}.
Variable Id : FieldId.
Variable MaxSize : nat.

Definition default : MapRep KeyField ValueField :=
  mkMap (repeat (element_default, element_default) MaxSize) 0.

Definition size (m : MapRep KeyField ValueField) : nat :=
  map_current_len_ m.

(** [at(key)]: the first stored pair, among the first [current_len_],
    whose key equals [key]. *)
Definition at_ (m : MapRep KeyField ValueField) (key : KeyType)
  : option ValueField :=
  option_map snd
    (find (fun pair => element_equals (fst pair) key)
          (firstn (map_current_len_ m) (map_items_ m))).

(** [insert(key, value)]: the result and the map afterwards. *)
Definition insert (m : MapRep KeyField ValueField)
           (key : KeyType) (value : ValueType)
  : option Error * MapRep KeyField ValueField :=
  (* Validate Key *)
  match element_Validate key with
  | Some err => (Some err, m)
  | None =>
      (* Validate Value *)
      match element_Validate value with
      | Some err => (Some err, m)
      | None =>
          if (MaxSize <=? map_current_len_ m)%nat
          then (Some (Error.capacity_exceeded Id "map capacity exceeded"), m)
          else
            (* Check for duplicate key *)
            match at_ m key with
            | Some _ =>
                (Some (Error.validation Id "Duplicate key in map"), m)
            | None =>
                let i := map_current_len_ m in
                let pair :=
                  nth i (map_items_ m) (element_default, element_default) in
                let pair :=
                  (element_store (fst pair) key,
                   element_store (snd pair) value) in
                (None,
                 mkMap (firstn i (map_items_ m) ++ pair
                          :: skipn (Datatypes.S i) (map_items_ m))
                       (Datatypes.S i))
            end
      end
  end.

Definition clear (m : MapRep KeyField ValueField)
  : MapRep KeyField ValueField :=
  mkMap (map_items_ m) 0.

End WithParameters.
End MapField.

(* ------------------------------------------------------------------ *)
(** ** Reference definitions that follow the specification's words *)

(** CRC-16-CCITT as the specification words it: polynomial 0x1021,
    initial value 0xFFFF, no final XOR, each byte fed most significant
    bit first into a 16-bit shift register, the result stored high byte
    first. *)
Module CRC16_CCITT_reference.

Definition polynomial : Z := 0x1021.
Definition initial_value : Z := 0xFFFF.

Definition bits_msb_first (b : Z) : list bool :=
  map (Z.testbit b) [7; 6; 5; 4; 3; 2; 1; 0].

Definition feed_bit (register : Z) (bit : bool) : Z :=
  let carry := xorb (Z.testbit register 15) bit in
  let register := (2 * register) mod 2 ^ 16 in
  if carry then Z.lxor register polynomial else register.

Definition register_after (data : list Z) : Z :=
  fold_left feed_bit (flat_map bits_msb_first data) initial_value.

Definition checksum (data : list Z) : list Z :=
  let r := register_after data in
  [r / 256; r mod 256].

End CRC16_CCITT_reference.

(** The unsigned LEB128 value of a complete varint: seven payload bits
    per byte, least significant group first. *)
Fixpoint leb128_value (bytes : list Z) : Z :=
  match bytes with
  | [] => 0
  | b :: rest => Z.land (u8 b) 0x7F + 128 * leb128_value rest
  end.

(** Corruption of one bit of a buffer: bit [bit_index mod 8] of the byte
    at index [bit_index / 8] is inverted. *)
Definition flip_bit (buffer : list Z) (bit_index : nat) : list Z :=
  let i := (bit_index / 8)%nat in
  match nth_error buffer i with
  | Some b =>
      firstn i buffer
        ++ Z.lxor b (2 ^ Z.of_nat (bit_index mod 8)) :: skipn (S i) buffer
  | None => buffer
  end.

(** The invariant of [String<MaxSize>]: the buffer has [MaxSize] bytes,
    the length is at most [MaxSize] and every byte at an index greater
    than or equal to the length is zero. *)
Definition string_invariant (MaxSize : nat) (s : StringRep) : Prop :=
  length (buffer_ s) = MaxSize
  /\ (current_len_ s <= MaxSize)%nat
  /\ forall i, (current_len_ s <= i < MaxSize)%nat -> nth i (buffer_ s) 1 = 0.

(* ------------------------------------------------------------------ *)
(** ** Message types used in the statements *)

Definition no_message_validation : Val -> option Error := fun _ => None.

(** [MyMessage] of test/api/test_e2e.cpp. *)
Definition MyMessage : Ty :=
  Message 0x12345678
    [Field 1 Required (Scalar Int32 [validators.Positive]);
     Field 2 Optional (Scalar Int16 [validators.None])]
    no_message_validation.

(** [MyMessage] with [f1 = 42] and [f2 = -15]. *)
Definition my_message : Val :=
  VMessage [VField (VScalar 42) true; VField (VScalar (-15)) true].

(** [FloatMessage] of test/api/test_types.cpp (the validators on the
    floating-point fields are left out: floating-point comparison is not
    modelled, and the layout does not depend on them). *)
Definition FloatMessage : Ty :=
  Message 0xABC
    [Field 1 Required (Scalar Float32 [validators.None]);
     Field 2 Optional (Scalar Float64 [validators.None])]
    no_message_validation.

(** A message with a string field:
    [struct Label { Field<1, Required, String<4, None>> text; }]
    with [message_id = 0x51]. *)
Definition Label : Ty :=
  Message 0x51
    [Field 1 Required (String_ 4 [validators.None])]
    no_message_validation.

(** An array of submessages followed by a scalar:
    [struct Sample { Field<1, Optional, Int16<None>> tag;
                     Field<2, Optional, Float64<None>> reading; }]
    with [message_id = 0x22], and
    [struct Batch { ArrayField<1, Sample, 1, None> samples;
                    Field<2, Optional, Int32<None>> count; }]
    with [message_id = 0x11]. *)
Definition Sample : Ty :=
  Message 0x22
    [Field 1 Optional (Scalar Int16 [validators.None]);
     Field 2 Optional (Scalar Float64 [validators.None])]
    no_message_validation.

Definition Batch : Ty :=
  Message 0x11
    [ArrayField 1 Sample 1 [validators.None];
     Field 2 Optional (Scalar Int32 [validators.None])]
    no_message_validation.

(** One sample with [tag = 7] and [reading = 0.0], and [count = 42]. *)
Definition batch : Val :=
  VMessage
    [VArray [VMessage [VField (VScalar 7) true; VField (VScalar 0) true]] 1;
     VField (VScalar 42) true].

(** The wire image of a [Label] under the packed layout whose string
    slot announces length 1 and carries the four bytes "ABCD":
    header, message id, is-set byte, length prefix, [MaxSize] bytes. *)
Definition label_wire : list Z :=
  [0x03; 0x01; 0x51; 0; 0; 0;
   0x51; 0; 0; 0;
   1;
   1; 0; 0; 0;
   65; 66; 67; 68].

(** [my_message] encoded with [CRC16] and the packed layout. *)
Definition my_message_encoded : Buffer :=
  mkBuffer
    [0x03; 0x01; 0x78; 0x56; 0x34; 0x12;
     0x78; 0x56; 0x34; 0x12;
     1; 42; 0; 0; 0;
     1; 0xF1; 0xFF;
     0x1C; 0xE7]
    20.

(** The map [MapField<7, Int32<None>, Int32<None>, 1, None>] holding the
    single pair (1, 10), and the map
    [MapField<7, Int32<None>, Int32<None>, 3, None>] holding it. *)
Definition full_map : MapRep Z Z := mkMap [(1, 10)] 1.

Definition map_one_of_three : MapRep Z Z :=
  mkMap [(1, 10); (0, 0); (0, 0)] 1.

(** The turn of the CRC shift register written as one exclusive-or, the
    form in which its linearity over GF(2) is proved. *)
Definition crc_linear_step (x : Z) : Z :=
  Z.lxor (u16 (Z.shiftl x 1)) (if Z.testbit x 15 then 0x1021 else 0).

(** The continuation bit of a varint byte. *)
Definition continuation (b : Z) : bool := negb (Z.land (u8 b) 0x80 =? 0).

(** The loop of [Varint::decode] run over the bytes that are left in the
    input, the form in which it is analysed. *)
Fixpoint decode_window (window : list Z) (value : Z) (shift : Z)
         (bytes_read : nat) : option (Z * nat) :=
  match window with
  | [] => None
  | b :: window' =>
      if 64 <=? shift then None
      else
        let value :=
          Z.lor value (u64 (Z.shiftl (Z.land (u8 b) 0x7F) shift)) in
        if Z.land (u8 b) 0x80 =? 0
        then Some (value, S bytes_read)
        else decode_window window' value (shift + 7) (S bytes_read)
  end.

(* ------------------------------------------------------------------ *)
(** ** fields/crunch_scalar.hpp *)

Module CrunchScalar.
Section WithParameters.
Variable Validators : list (Validator Z).

(** [static Validate(ScalarType v, FieldId id = 0)] *)
Definition Validate (v : Z) (id : FieldId) : option Error :=
  run_validators Validators v id.

(** [set(v)]: the result and [value_] afterwards. *)
Definition set (value_ : Z) (v : Z) : option Error * Z :=
  match Validate v 0 with
  | Some err => (Some err, value_)
  | None => (None, v)
  end.

Definition set_without_validation (value_ : Z) (v : Z) : Z := v.

Definition get (value_ : Z) : Z := value_.

Definition clear (value_ : Z) : Z := 0.

End WithParameters.
End CrunchScalar.

(* ------------------------------------------------------------------ *)
(** ** Field, the presence wrapper (messages/crunch_field.hpp)

    [Field<Id, PresenceValidator, Type>] for a [Type] whose [set] returns
    [std::optional<Error>] (a scalar or a string); [T] is the stored
    object, [V] the argument of [set]. *)

Record FieldRep (T : Type) := mkField {
  field_value_ : T;
  field_set_ : bool
}.
Arguments mkField {T} _ _.
Arguments field_value_ {T} _.
Arguments field_set_ {T} _.

Module FieldWrapper.
Section WithParameters.
Context {T V G : Type}.
Variable Id : FieldId.
Variable PresenceValidator : Presence.
(** [value_.set(val)], [value_.get()], [value_.Validate()] and [Type{}] *)
Variable value_set : T -> V -> option Error * T.
Variable value_get : T -> G.
Variable value_Validate : T -> option Error.
Variable value_default : T.

Definition default : FieldRep T := mkField value_default false.

Definition validate_presence (f : FieldRep T) : option Error :=
  check_presence PresenceValidator (field_set_ f) Id.

(** [auto err = value_.set(val); if (!err) { set_ = true; } return err;] *)
Definition set (f : FieldRep T) (val : V) : option Error * FieldRep T :=
  let '(err, value_) := value_set (field_value_ f) val in
  match err with
  | None => (err, mkField value_ true)
  | Some _ => (err, mkField value_ (field_set_ f))
  end.

(** [get()]: an optional that is engaged when the field is set. *)
Definition get (f : FieldRep T) : option G :=
  if field_set_ f then Some (value_get (field_value_ f)) else None.

Definition clear (f : FieldRep T) : FieldRep T :=
  mkField value_default false.

Definition Validate (f : FieldRep T) : option Error :=
  if negb (field_set_ f) then None else value_Validate (field_value_ f).

End WithParameters.
End FieldWrapper.

(* ------------------------------------------------------------------ *)
(** ** ArrayField (messages/crunch_field.hpp) *)

(** [std::array<ElementType, MaxSize> items_] and [current_len_]. *)
Record ArrayRep (ElementType : Type) := mkArray {
  array_items_ : list ElementType;
  array_current_len_ : nat
}.
Arguments mkArray {ElementType} _ _.
Arguments array_items_ {ElementType} _.
Arguments array_current_len_ {ElementType} _.

Module ArrayFieldOps.
Section WithParameters.
Context {ElementType : Type}.
Variable Id : FieldId.
Variable MaxSize : nat.

(** [add(val)]: the result and the array afterwards. *)
Definition add (a : ArrayRep ElementType) (val : ElementType)
  : option Error * ArrayRep ElementType :=
  if (MaxSize <=? array_current_len_ a)%nat
  then (Some (Error.capacity_exceeded Id "array capacity exceeded"), a)
  else
    let i := array_current_len_ a in
    (None,
     mkArray (firstn i (array_items_ a)
                ++ val :: skipn (S i) (array_items_ a))
             (S i)).

Definition clear (a : ArrayRep ElementType) : ArrayRep ElementType :=
  mkArray (array_items_ a) 0.

Definition size (a : ArrayRep ElementType) : nat := array_current_len_ a.

Definition empty (a : ArrayRep ElementType) : bool :=
  (array_current_len_ a =? 0)%nat.

(** [get()]: the span of the active elements. *)
Definition get (a : ArrayRep ElementType) : list ElementType :=
  firstn (array_current_len_ a) (array_items_ a).

(** The representation invariant of the class. *)
Definition invariant (a : ArrayRep ElementType) : Prop :=
  length (array_items_ a) = MaxSize /\ (array_current_len_ a <= MaxSize)%nat.

End WithParameters.
End ArrayFieldOps.

(* ------------------------------------------------------------------ *)
(** ** MapField::remove (messages/crunch_field.hpp) *)

(** The index of the first element that satisfies [f], as found by
    [for (i = 0; i < n; ++i) if (f(items[i])) ...]. *)
Fixpoint find_index {A : Type} (f : A -> bool) (l : list A) : option nat :=
  match l with
  | [] => None
  | x :: rest =>
      if f x then Some 0%nat else option_map S (find_index f rest)
  end.

Module MapFieldRemove.
Section WithParameters.
Context {KeyField KeyType ValueField : Type}.
(** [key_equals(stored, key)] *)
Variable key_equals : KeyField -> KeyType -> bool.
(** [items_[i].first.clear()] and [items_[i].second.clear()] *)
Variable clear_key : KeyField -> KeyField.
Variable clear_value : ValueField -> ValueField.

(** [items_[i].first.clear(); items_[i].second.clear();] *)
Definition clear_slot (i : nat) (items : list (KeyField * ValueField))
  : list (KeyField * ValueField) :=
  match nth_error items i with
  | Some entry =>
      firstn i items
        ++ (clear_key (fst entry), clear_value (snd entry)) :: skipn (S i) items
  | None => items
  end.

(** [for (j = i; j < current_len_ - 1; ++j) items_[j] = items_[j + 1];] *)
Definition shift_down (i current_len : nat)
           (items : list (KeyField * ValueField))
  : list (KeyField * ValueField) :=
  fold_left
    (fun items j =>
       match nth_error items (S j) with
       | Some entry => firstn j items ++ entry :: skipn (S j) items
       | None => items
       end)
    (seq i (current_len - 1 - i)) items.

(** [remove(key)]: the result and the map afterwards. *)
Definition remove (m : MapRep KeyField ValueField) (key : KeyType)
  : bool * MapRep KeyField ValueField :=
  let current_len := map_current_len_ m in
  match find_index (fun entry => key_equals (fst entry) key)
                   (firstn current_len (map_items_ m)) with
  | Some i =>
      (* Clear element at i *)
      let items := clear_slot i (map_items_ m) in
      (* Shift remaining elements down *)
      let items := shift_down i current_len items in
      (* Clear last element *)
      let items := clear_slot (current_len - 1) items in
      (true, mkMap items (current_len - 1))
  | None => (false, m)
  end.

End WithParameters.
End MapFieldRemove.

(* ------------------------------------------------------------------ *)
(** ** Schemas and objects (messages/crunch_field.hpp,
       messages/crunch_messages.hpp) *)

(** [ValidElementType]: a scalar, string, message, array or map. *)
Definition ValidElementType (T : Ty) : bool :=
  match T with Field _ _ _ => false | _ => true end.

(** [ValidField]: an [ArrayField], a [MapField], or a [Field] whose
    [FieldType] is a [ValidElementType]. *)
Definition ValidField (T : Ty) : bool :=
  match T with
  | ArrayField _ _ _ _ | MapField _ _ _ _ _ => true
  | Field _ _ FieldType => ValidElementType FieldType
  | _ => false
  end.

(** The schemas the templates accept: [tuple_members_are_valid_fields] of
    [CrunchMessage] and the [static_assert]s of [ArrayField] and
    [MapField], all the way down. *)
Fixpoint valid_schema (T : Ty) : bool :=
  match T with
  | Scalar _ _ | String_ _ _ => true
  | Message message_id fields _ =>
      (* using MessageId = int32_t *)
      (- 2 ^ 31 <=? message_id) && (message_id <? 2 ^ 31)
      && forallb (fun F => ValidField F && valid_schema F) fields
  | ArrayField _ ElementType _ _ =>
      ValidElementType ElementType && valid_schema ElementType
  | MapField _ KeyField ValueField _ _ =>
      ValidElementType KeyField && ValidElementType ValueField
      && valid_schema KeyField && valid_schema ValueField
  | Field _ _ Type_ => ValidElementType Type_ && valid_schema Type_
  end.

Section All2.
Context {A B : Type}.
Variable f : A -> B -> bool.

Fixpoint all2 (xs : list A) (ys : list B) {struct xs} : bool :=
  match xs, ys with
  | [], [] => true
  | x :: xs', y :: ys' => f x y && all2 xs' ys'
  | _, _ => false
  end.

End All2.

Section All3.
Context {A B C : Type}.
Variable f : A -> B -> C -> bool.

Fixpoint all3 (xs : list A) (ys : list B) (zs : list C) {struct xs} : bool :=
  match xs, ys, zs with
  | [], [], [] => true
  | x :: xs', y :: ys', z :: zs' => f x y z && all3 xs' ys' zs'
  | _, _, _ => false
  end.

End All3.

(** The values a scalar of each kind can hold (a floating-point scalar
    holds its bit pattern). *)
Definition scalar_in_range (k : ScalarKind) (z : Z) : bool :=
  match k with
  | Bool => (z =? 0) || (z =? 1)
  | _ =>
      if is_signed k
      then (- 2 ^ (8 * Z.of_nat (sizeof k) - 1) <=? z)
           && (z <? 2 ^ (8 * Z.of_nat (sizeof k) - 1))
      else (0 <=? z) && (z <? 2 ^ (8 * Z.of_nat (sizeof k)))
  end.

(** The objects whose set parts survive the wire format: every scalar
    that is set or active holds a value of its kind, and every
    [current_len_] fits the [uint32_t] length prefix. *)
Fixpoint representable (T : Ty) (v : Val) {struct T} : bool :=
  match T, v with
  | Scalar k _, VScalar z => scalar_in_range k z
  | String_ _ _, VString s => Z.of_nat (current_len_ s) <? 2 ^ 32
  | Message _ fields _, VMessage vals => all2 representable fields vals
  | ArrayField _ E _ _, VArray items len =>
      (Z.of_nat len <? 2 ^ 32)
      && forallb (representable E) (firstn len items)
  | MapField _ K V _ _, VMap items len =>
      (Z.of_nat len <? 2 ^ 32)
      && forallb (fun kv => representable K (fst kv)
                            && representable V (snd kv))
                 (firstn len items)
  | Field _ _ T', VField value set =>
      if set then representable T' value else true
  | _, _ => false
  end.

(** Two objects with the same observable content: the same set flags,
    the same values where set, the same number of active elements and
    the same element in every active slot.  This is [operator==] with
    the entries of a map compared slot by slot. *)
Fixpoint same_content (T : Ty) (a b : Val) {struct T} : bool :=
  match T, a, b with
  | Scalar _ _, VScalar x, VScalar y => x =? y
  | String_ _ _, VString x, VString y => CrunchString.eqb x y
  | Message _ fields _, VMessage xs, VMessage ys =>
      all3 same_content fields xs ys
  | ArrayField _ E _ _, VArray xs n, VArray ys m =>
      (n =? m)%nat
      && forallb (fun xy => same_content E (fst xy) (snd xy))
                 (combine (firstn n xs) (firstn n ys))
  | MapField _ K V _ _, VMap xs n, VMap ys m =>
      (n =? m)%nat
      && forallb (fun xy => same_content K (fst (fst xy)) (fst (snd xy))
                            && same_content V (snd (fst xy)) (snd (snd xy)))
                 (combine (firstn n xs) (firstn n ys))
  | Field _ _ Type_, VField x sx, VField y sy =>
      if negb (Bool.eqb sx sy) then false
      else if negb sx then true
      else same_content Type_ x y
  | _, _, _ => false
  end.

(** The alignments for which [PayloadStartOffset + 4] is itself aligned:
    [Packed] and [Aligned4]. *)
Definition consistent_alignment (Alignment : nat) : Prop :=
  Alignment = 1%nat \/ Alignment = 4%nat.

(** [output'] differs from [output] only inside [[offset, offset')]. *)
Definition writes_within (output : list Z) (offset : nat)
           (output' : list Z) (offset' : nat) : Prop :=
  (offset <= offset')%nat
  /\ (offset' <= length output)%nat
  /\ length output' = length output
  /\ firstn offset output' = firstn offset output
  /\ skipn offset' output' = skipn offset' output.

(** Two buffers with the same first [n] bytes. *)
Definition agrees (n : nat) (a b : list Z) : Prop :=
  firstn n a = firstn n b.

(** Serializing [v] at [offset] ends at the computed end offset, writes
    only in between, and any buffer with those bytes decodes to the same
    content. *)
Definition round_trips (Alignment : nat) (T : Ty) (v : Val)
           (output : list Z) (offset : nat) : Prop :=
  let end_offset :=
    StaticLayout.calculate_field_end_offset Alignment T offset in
  exists output',
    StaticLayout.serialize_field Alignment T v output offset
    = Some (output', end_offset)
    /\ writes_within output offset output' end_offset
    /\ (representable T v = true ->
        forall input v0,
          has_type T v0 = true -> agrees end_offset input output' ->
          exists v',
            StaticLayout.deserialize_field Alignment T v0 input offset
            = Some (v', Expected end_offset)
            /\ same_content T v' v = true).

(** Decoding at [offset] stays inside the slot: it returns, leaves an
    object of the type, and on success ends at the computed end. *)
Definition reads_within (Alignment : nat) (T : Ty) (set : bool) (v0 : Val)
           (input : list Z) (offset : nat) : Prop :=
  exists v' r,
    StaticLayout.deserialize_value Alignment T v0 set input offset
    = Some (v', r)
    /\ has_type T v' = true
    /\ forall offset',
        r = Expected offset' ->
        offset' = StaticLayout.calculate_value_end_offset Alignment T offset.

Definition field_reads_within (Alignment : nat) (F : Ty) (v0 : Val)
           (input : list Z) (offset : nat) : Prop :=
  exists v' r,
    StaticLayout.deserialize_field Alignment F v0 input offset = Some (v', r)
    /\ has_type F v' = true
    /\ forall offset',
        r = Expected offset' ->
        offset' = StaticLayout.calculate_field_end_offset Alignment F offset.

(** [a] and [b] compare alike against everything. *)
Definition alike {A : Type} (eqb : A -> A -> bool) (a b : A) : Prop :=
  forall x, eqb x a = eqb x b /\ eqb a x = eqb b x.

(* ------------------------------------------------------------------ *)
(** ** [ValidateField] (crunch_detail.hpp) and [Unique]
       (validators/crunch_validators.hpp) *)

(** [ValidateField(field)]: the presence check, then the submessage
    held by a set field or the field's own [Validate()]. *)
Definition ValidateField (F : Ty) (field : Val) : option Error :=
  match F, field with
  | Field Id PresenceValidator Type_, VField value_ set_ =>
      match check_presence PresenceValidator set_ Id with
      | Some err => Some err
      | None =>
          if is_message Type_
          then if set_ then detail.Validate Type_ value_ else None
          else value_Validate F field
      end
  | _, _ => value_Validate F field
  end.

(** Every [Required] field of the message is set. *)
Definition required_fields_set (M : Ty) (message : Val) : Prop :=
  match M, message with
  | Message _ fields _, VMessage vals =>
      forall i Id Type_ value_ set_,
        nth_error fields i = Some (Field Id Required Type_) ->
        nth_error vals i = Some (VField value_ set_) ->
        set_ = true
  | _, _ => True
  end.

Module container_validators.

(** [Unique::Check]: for every element, the scan of the elements behind
    it for an equal one; [eqb] is [operator==] of the elements. *)
Fixpoint has_duplicate {A : Type} (eqb : A -> A -> bool) (value : list A)
  : bool :=
  match value with
  | [] => false
  | x :: rest =>
      if existsb (fun y => eqb x y) rest then true
      else has_duplicate eqb rest
  end.

Definition Unique {A : Type} (eqb : A -> A -> bool) : Validator (list A) :=
  fun value field_id =>
    if has_duplicate eqb value
    then Some (Error.validation field_id "elements must be unique")
    else Datatypes.None.

End container_validators.

(** The keys of the active pairs of a map with scalar keys are pairwise
    different. *)
Definition keys_distinct {ValueField : Type} (m : MapRep Z ValueField)
  : Prop :=
  NoDup (map fst (firstn (map_current_len_ m) (map_items_ m))).

(* ------------------------------------------------------------------ *)
(** ** serdes/crunch_tlv_layout.hpp

    The layout works on the field tuple of a message: a function that
    takes [msg.get_fields()] takes the list of field types and the list
    of field objects here.  A helper that the source instantiates with
    an element or field type takes the instantiated callee as its first
    argument, and [serialize_value_without_tag] / [serialize_field],
    [deserialize_value_without_tag] / [deserialize_field_value] tie the
    recursion over the type.  [std::size_t] has 64 bits. *)

(** [FieldT::field_id] of a member of the field tuple. *)
Definition field_id_of (F : Ty) : FieldId :=
  match F with
  | Field Id _ _ | ArrayField Id _ _ _ | MapField Id _ _ _ _ => Id
  | _ => 0
  end.

(** The [MapElement] selection of [MapField] for a key or value field of
    type [T], on objects: a scalar is passed as [f.get()], a string as
    the view [f.get()], anything else as the object itself. *)
Definition FieldElement (T : Ty) : MapElement Val Val :=
  match T with
  | Scalar _ Validators =>
      {| element_Validate := fun key =>
           match key with
           | VScalar v => run_validators Validators v 0
           | _ => None
           end;
         element_equals := fun stored key =>
           match stored, key with
           | VScalar x, VScalar y => x =? y
           | _, _ => false
           end;
         element_store := fun _ key => key;
         element_default := default_val T |}
  | String_ MaxSize Validators =>
      {| element_Validate := fun key =>
           match key with
           | VString sv =>
               CrunchString.Validate Validators (CrunchString.get sv) 0
           | _ => None
           end;
         element_equals := fun stored key =>
           match stored, key with
           | VString x, VString sv => CrunchString.eqb x sv
           | _, _ => false
           end;
         element_store := fun stored key =>
           match stored, key with
           | VString x, VString sv =>
               VString (snd (CrunchString.set MaxSize Validators x
                                              (CrunchString.get sv)))
           | _, _ => stored
           end;
         element_default := default_val T |}
  | _ => ObjectElement T
  end.

Module TlvLayout.

(** [enum class WireType : uint8_t] *)
Definition WireType := Z.
Definition WireType_Varint : WireType := 0.
Definition WireType_LengthDelimited : WireType := 1.

Definition GetFormat : Format := TLV.

Definition WireTypeBits : Z := 3.

(** [sizeof(FieldId) * 8 + WireTypeBits] *)
Definition MaxTagBits : nat := 4 * 8 + 3.

(** *** Maximum sizes *)

(** The fold [(calculate_max_field_size_type<Is>() + ... + 0)]. *)
Definition sum_fields_helper (calculate_max_field_size_type : Ty -> nat)
           (Tuple : list Ty) : nat :=
  fold_right (fun F acc => (calculate_max_field_size_type F + acc)%nat)
             0%nat Tuple.

Definition calculate_max_array_field_size (elem_size : nat)
           (max_elements : nat) : nat :=
  let tag_size := Varint.max_varint_size MaxTagBits in
  let length_size := Varint.max_size in
  let count_size := Varint.max_size in
  (tag_size + length_size + count_size + max_elements * elem_size)%nat.

Definition calculate_max_map_field_size (key_size value_size : nat)
           (max_elements : nat) : nat :=
  let tag_size := Varint.max_varint_size MaxTagBits in
  let length_size := Varint.max_size in
  let count_size := Varint.max_size in
  (tag_size + length_size + count_size
   + max_elements * (key_size + value_size))%nat.

Definition calculate_max_scalar_field_size : nat :=
  let tag_size := Varint.max_varint_size MaxTagBits in
  (tag_size + Varint.max_size)%nat.

Definition calculate_max_string_field_size (max_size : nat) : nat :=
  let tag_size := Varint.max_varint_size MaxTagBits in
  (tag_size + Varint.max_size + max_size)%nat.

Definition calculate_max_nested_message_field_size (message_size : nat)
  : nat :=
  let tag_size := Varint.max_varint_size MaxTagBits in
  (tag_size + Varint.max_size + message_size)%nat.

Fixpoint calculate_max_value_size (T : Ty) {struct T} : nat :=
  match T with
  | Scalar _ _ =>
      (* Just the varint value, no tag *)
      Varint.max_size
  | String_ max_size _ =>
      (* [Length][Data] *)
      (Varint.max_size + max_size)%nat
  | Message _ fields _ =>
      (* [Length][NestedFields] *)
      (Varint.max_size
       + sum_fields_helper calculate_max_field_size_type fields)%nat
  | ArrayField _ ElemT max_size _ =>
      calculate_max_array_field_size (calculate_max_value_size ElemT)
                                     max_size
  | MapField _ KeyT ValueT max_size _ =>
      calculate_max_map_field_size (calculate_max_value_size KeyT)
                                   (calculate_max_value_size ValueT)
                                   max_size
  | Field _ _ _ => 0%nat (* not a ValidElementType *)
  end
with calculate_max_field_size_type (FieldT : Ty) {struct FieldT} : nat :=
  match FieldT with
  | ArrayField _ ElemT max_size _ =>
      calculate_max_array_field_size (calculate_max_value_size ElemT)
                                     max_size
  | MapField _ KeyT ValueT max_size _ =>
      calculate_max_map_field_size (calculate_max_value_size KeyT)
                                   (calculate_max_value_size ValueT)
                                   max_size
  | Field _ _ ValueType =>
      match ValueType with
      | Scalar _ _ => calculate_max_scalar_field_size
      | String_ max_size _ => calculate_max_string_field_size max_size
      | Message _ fields _ =>
          calculate_max_nested_message_field_size
            (sum_fields_helper calculate_max_field_size_type fields)
      | _ => 0%nat
      end
  | _ => 0%nat (* not a ValidField *)
  end.

Definition calculate_max_message_size (Message : Ty) : nat :=
  match Message with
  | Message _ fields _ =>
      sum_fields_helper calculate_max_field_size_type fields
  | _ => 0%nat
  end.

Definition Size (Message : Ty) : nat :=
  (StandardHeaderSize + 4 + calculate_max_message_size Message)%nat.

(** *** Serialization

    Every function returns the buffer as it leaves it together with the
    updated offset; a write outside the span has no behaviour. *)

Definition write_tag (id : FieldId) (wt : WireType)
           (output : list Z) (offset : nat) : option (list Z * nat) :=
  let tag := Z.lor (u32 (Z.shiftl (u32 id) WireTypeBits)) (u8 wt) in
  '(output, n) <- Varint.encode tag output offset ;;
  Some (output, (offset + n)%nat).

(** The [uint64_t] that carries a scalar of kind [k]. *)
Definition encoded_val (k : ScalarKind) (value : Z) : Z :=
  match k with
  | Bool => if value =? 0 then 0 else 1
  | Float32 => u32 value
  | Float64 => u64 value
  | _ =>
      (* static_cast<uint64_t>(bit_cast<make_unsigned_t<T>>(value)) *)
      value mod 2 ^ (8 * Z.of_nat (sizeof k))
  end.

Definition serialize_scalar_value (k : ScalarKind) (value : Z)
           (output : list Z) (offset : nat) : option (list Z * nat) :=
  '(output, n) <- Varint.encode (encoded_val k value) output offset ;;
  Some (output, (offset + n)%nat).

Definition serialize_string_value (value : StringRep)
           (output : list Z) (offset : nat) : option (list Z * nat) :=
  let sv := CrunchString.get value in
  '(output, n) <- Varint.encode (Z.of_nat (length sv)) output offset ;;
  let offset := (offset + n)%nat in
  output <- memcpy output offset sv ;;
  Some (output, (offset + length sv)%nat).

(** [std::memmove(output.data() + dst, output.data() + src, size)] *)
Definition memmove (output : list Z) (dst src size : nat)
  : option (list Z) :=
  bytes <- load output src size ;;
  memcpy output dst bytes.

Definition fixup_length_prefix (output : list Z)
           (len_offset content_start offset : nat)
  : option (list Z * nat) :=
  let content_size := (offset - content_start)%nat in
  let actual_len_varint_size := Varint.size (Z.of_nat content_size) in
  '(output, offset) <-
    (if (actual_len_varint_size <? Varint.max_size)%nat then
       let shift := (Varint.max_size - actual_len_varint_size)%nat in
       output <- memmove output (len_offset + actual_len_varint_size)
                         content_start content_size ;;
       Some (output, (offset - shift)%nat)
     else Some (output, offset)) ;;
  '(output, _) <- Varint.encode (Z.of_nat content_size) output len_offset ;;
  Some (output, offset).

(** [serialize_fields] is
    [serialize_fields_helper(value.get_fields(), _, _)]. *)
Definition serialize_nested_message
           (serialize_fields : list Z -> nat -> option (list Z * nat))
           (output : list Z) (offset : nat) : option (list Z * nat) :=
  let len_offset := offset in
  let offset := (offset + Varint.max_size)%nat in
  let content_start := offset in
  (* output.subspan(content_start) *)
  if (length output <? content_start)%nat then None
  else
    '(sub, msg_size) <- serialize_fields (skipn content_start output) 0%nat ;;
    let output := firstn content_start output ++ sub in
    let offset := (offset + msg_size)%nat in
    fixup_length_prefix output len_offset content_start offset.

(** [for (const auto& item : field) offset = serialize_item(item, ...)] *)
Fixpoint serialize_items {A : Type}
         (serialize_item : A -> list Z -> nat -> option (list Z * nat))
         (items : list A) (output : list Z) (offset : nat)
  : option (list Z * nat) :=
  match items with
  | [] => Some (output, offset)
  | item :: rest =>
      '(output, offset) <- serialize_item item output offset ;;
      serialize_items serialize_item rest output offset
  end.

(** [serialize_element] is the branch of the [if constexpr] chain for
    [ElemT], which is the one [serialize_value_without_tag<ElemT>]
    takes. *)
Definition serialize_array_content
           (serialize_element : Val -> list Z -> nat -> option (list Z * nat))
           (items_ : list Val) (current_len_ : nat)
           (output : list Z) (offset : nat) : option (list Z * nat) :=
  (* Write element count *)
  '(output, n) <- Varint.encode (Z.of_nat current_len_) output offset ;;
  let offset := (offset + n)%nat in
  (* Serialize elements *)
  serialize_items serialize_element (firstn current_len_ items_)
                  output offset.

Definition serialize_array_value
           (serialize_element : Val -> list Z -> nat -> option (list Z * nat))
           (items_ : list Val) (current_len_ : nat)
           (output : list Z) (offset : nat) : option (list Z * nat) :=
  let len_offset := offset in
  let offset := (offset + Varint.max_size)%nat in
  let content_start := offset in
  '(output, offset) <-
    serialize_array_content serialize_element items_ current_len_
                            output offset ;;
  fixup_length_prefix output len_offset content_start offset.

Definition serialize_array_field (id : FieldId)
           (serialize_element : Val -> list Z -> nat -> option (list Z * nat))
           (items_ : list Val) (current_len_ : nat)
           (output : list Z) (offset : nat) : option (list Z * nat) :=
  '(output, offset) <- write_tag id WireType_LengthDelimited output offset ;;
  serialize_array_value serialize_element items_ current_len_ output offset.

Definition serialize_map_content
           (serialize_key serialize_value
            : Val -> list Z -> nat -> option (list Z * nat))
           (items_ : list (Val * Val)) (current_len_ : nat)
           (output : list Z) (offset : nat) : option (list Z * nat) :=
  (* Write entry count *)
  '(output, n) <- Varint.encode (Z.of_nat current_len_) output offset ;;
  let offset := (offset + n)%nat in
  (* Serialize key-value pairs without tags *)
  serialize_items
    (fun item output off =>
       '(output, off) <- serialize_key (fst item) output off ;;
       serialize_value (snd item) output off)
    (firstn current_len_ items_) output offset.

Definition serialize_map_value
           (serialize_key serialize_value
            : Val -> list Z -> nat -> option (list Z * nat))
           (items_ : list (Val * Val)) (current_len_ : nat)
           (output : list Z) (offset : nat) : option (list Z * nat) :=
  let len_offset := offset in
  let offset := (offset + Varint.max_size)%nat in
  let content_start := offset in
  '(output, offset) <-
    serialize_map_content serialize_key serialize_value items_ current_len_
                          output offset ;;
  fixup_length_prefix output len_offset content_start offset.

Definition serialize_map_field (id : FieldId)
           (serialize_key serialize_value
            : Val -> list Z -> nat -> option (list Z * nat))
           (items_ : list (Val * Val)) (current_len_ : nat)
           (output : list Z) (offset : nat) : option (list Z * nat) :=
  '(output, offset) <- write_tag id WireType_LengthDelimited output offset ;;
  serialize_map_value serialize_key serialize_value items_ current_len_
                      output offset.

Fixpoint serialize_fields_helper
         (serialize_field : Ty -> Val -> list Z -> nat -> option (list Z * nat))
         (Tuple : list Ty) (t : list Val) (output : list Z) (offset : nat)
         {struct Tuple} : option (list Z * nat) :=
  match Tuple, t with
  | [], [] => Some (output, offset)
  | FieldT :: Tuple', field :: t' =>
      '(output, offset) <- serialize_field FieldT field output offset ;;
      serialize_fields_helper serialize_field Tuple' t' output offset
  | _, _ => None
  end.

Fixpoint serialize_value_without_tag (FieldT : Ty) (field : Val)
         (output : list Z) (offset : nat) {struct FieldT}
  : option (list Z * nat) :=
  match FieldT, field with
  | Scalar k _, VScalar value_ =>
      serialize_scalar_value k value_ output offset
  | String_ _ _, VString s => serialize_string_value s output offset
  | Message _ fields _, VMessage vals =>
      serialize_nested_message
        (serialize_fields_helper serialize_field fields vals) output offset
  | ArrayField _ ElemT _ _, VArray items_ current_len_ =>
      serialize_array_value (serialize_value_without_tag ElemT)
                            items_ current_len_ output offset
  | MapField _ KeyFieldT ValueFieldT _ _, VMap items_ current_len_ =>
      serialize_map_value (serialize_value_without_tag KeyFieldT)
                          (serialize_value_without_tag ValueFieldT)
                          items_ current_len_ output offset
  | _, _ => None
  end
with serialize_field (FieldT : Ty) (field : Val)
         (output : list Z) (offset : nat) {struct FieldT}
  : option (list Z * nat) :=
  match FieldT, field with
  | ArrayField Id ElemT _ _, VArray items_ current_len_ =>
      (* is_set = !field.empty() *)
      if (current_len_ =? 0)%nat then Some (output, offset)
      else serialize_array_field Id (serialize_value_without_tag ElemT)
                                 items_ current_len_ output offset
  | MapField Id KeyFieldT ValueFieldT _ _, VMap items_ current_len_ =>
      if (current_len_ =? 0)%nat then Some (output, offset)
      else serialize_map_field Id (serialize_value_without_tag KeyFieldT)
                               (serialize_value_without_tag ValueFieldT)
                               items_ current_len_ output offset
  | Field Id _ ValueType, VField value_ set_ =>
      if negb set_ then Some (output, offset)
      else
        match ValueType, value_ with
        | Scalar k _, VScalar v =>
            '(output, offset) <- write_tag Id WireType_Varint output offset ;;
            serialize_scalar_value k v output offset
        | String_ _ _, VString s =>
            '(output, offset) <-
              write_tag Id WireType_LengthDelimited output offset ;;
            serialize_string_value s output offset
        | Message _ fields _, VMessage vals =>
            '(output, offset) <-
              write_tag Id WireType_LengthDelimited output offset ;;
            serialize_nested_message
              (serialize_fields_helper serialize_field fields vals)
              output offset
        | ArrayField _ _ _ _, VArray _ _
        | MapField _ _ _ _ _, VMap _ _ =>
            (* no branch of the if constexpr chain applies *)
            Some (output, offset)
        | _, _ => None
        end
  | _, _ => None
  end.

Definition Serialize (Message : Ty) (msg : Val) (output : list Z)
  : option (list Z * nat) :=
  match Message, msg with
  | Message _ fields _, VMessage vals =>
      (* Header (including MessageId) is written by top-level serializer *)
      let offset := StandardHeaderSize in
      let length_field_offset := offset in
      let offset := (offset + 4)%nat in
      let payload_start := offset in
      '(output, offset) <-
        serialize_fields_helper serialize_field fields vals output offset ;;
      let payload_size := (offset - payload_start)%nat in
      let le_len := le_bytes 4 (u32 (Z.of_nat payload_size)) in
      output <- memcpy output length_field_offset le_len ;;
      Some (output, offset)
  | _, _ => None
  end.

(** *** Deserialization

    A function that takes the offset by reference returns the object as
    it leaves it together with the error or the updated offset; a
    function that takes it by value returns the object and the result.
    A span or view outside the input has no behaviour. *)

(** The scalar of kind [k] that a decoded [uint64_t] carries. *)
Definition decoded_val (k : ScalarKind) (raw : Z) : Z :=
  match k with
  | Bool => if raw =? 0 then 0 else 1
  | Float32 => u32 raw
  | Float64 => raw
  | _ =>
      (* bit_cast<T>(static_cast<make_unsigned_t<T>>(res->first)) *)
      let u := raw mod 2 ^ (8 * Z.of_nat (sizeof k)) in
      if is_signed k then to_signed (sizeof k) u else u
  end.

(** [std::dynamic_extent], the largest [std::size_t]. *)
Definition dynamic_extent : Z := 2 ^ 64 - 1.

(** [input.subspan(offset, count)]: the rest of the span for the count
    [dynamic_extent]; undefined when the range does not lie in the
    span. *)
Definition subspan (input : list Z) (offset : nat) (count : Z)
  : option (list Z) :=
  if count =? dynamic_extent
  then if (offset <=? length input)%nat then Some (skipn offset input)
       else None
  else if Z.of_nat offset + count <=? Z.of_nat (length input)
       then Some (firstn (Z.to_nat count) (skipn offset input))
       else None.

(** [std::string_view(input.data() + offset, count)]: the characters
    that a string reads from it; undefined when the range does not lie
    in the input. *)
Definition string_view (input : list Z) (offset : nat) (count : Z)
  : option (list Z) :=
  if Z.of_nat offset + count <=? Z.of_nat (length input)
  then Some (firstn (Z.to_nat count) (skipn offset input))
  else None.

Definition deserialize_scalar_array (k : ScalarKind)
           (input : list Z) (offset : nat) : expected (Z * nat) :=
  match Varint.decode input offset with
  | None => Unexpected (Error.deserialization "invalid varint in packed")
  | Some (raw, n) => Expected (decoded_val k raw, (offset + n)%nat)
  end.

(** The length and the offset behind the prefix. *)
Definition read_length_prefix (input : list Z) (offset : nat)
           (error_msg : string) : expected (Z * nat) :=
  match Varint.decode input offset with
  | None => Unexpected (Error.deserialization error_msg)
  | Some (len, n) =>
      let offset := (offset + n)%nat in
      if Z.of_nat (length input) <? u64 (Z.of_nat offset + len)
      then Unexpected (Error.deserialization "buffer underflow")
      else Expected (len, offset)
  end.

Definition deserialize_scalar_value (k : ScalarKind) (val : Val)
           (input : list Z) (offset : nat) : option (Val * expected nat) :=
  match val with
  | VScalar _ =>
      match deserialize_scalar_array k input offset with
      | Unexpected err => Some (val, Unexpected err)
      | Expected (scalar_val, offset) =>
          Some (VScalar scalar_val, Expected offset)
      end
  | _ => None
  end.

Definition deserialize_string_value (MaxSize : nat)
           (Validators : list (Validator (list Z))) (val : Val)
           (input : list Z) (offset : nat) : option (Val * expected nat) :=
  match val with
  | VString s =>
      match read_length_prefix input offset "invalid string length" with
      | Unexpected err => Some (val, Unexpected err)
      | Expected (len, offset) =>
          sv <- string_view input offset len ;;
          let offset := (offset + Z.to_nat len)%nat in
          match CrunchString.set MaxSize Validators s sv with
          | (Some err, s) => Some (VString s, Unexpected err)
          | (None, s) => Some (VString s, Expected offset)
          end
      end
  | _ => None
  end.

(** [deserialize_message_value], [deserialize_array_value] and
    [deserialize_map_value]: the length prefix, then [content] on the
    subspan from offset 0. *)
Definition deserialize_length_delimited (error_msg : string)
           (content : Val -> list Z -> nat -> option (Val * option Error))
           (val : Val) (input : list Z) (offset : nat)
  : option (Val * expected nat) :=
  match read_length_prefix input offset error_msg with
  | Unexpected err => Some (val, Unexpected err)
  | Expected (len, offset) =>
      subspan_ <- subspan input offset len ;;
      '(val, err) <- content val subspan_ 0%nat ;;
      match err with
      | Some err => Some (val, Unexpected err)
      | None => Some (val, Expected (offset + Z.to_nat len)%nat)
      end
  end.

Definition deserialize_message_value :=
  deserialize_length_delimited "invalid message length".

Definition deserialize_array_value :=
  deserialize_length_delimited "invalid array length".

Definition deserialize_map_value :=
  deserialize_length_delimited "invalid map length".

(** [field.add(elem)] on objects. *)
Definition array_add (Id : FieldId) (MaxSize : nat) (field elem : Val)
  : option (option Error * Val) :=
  match field with
  | VArray items_ current_len_ =>
      let '(err, a) :=
        ArrayFieldOps.add Id MaxSize (mkArray items_ current_len_) elem in
      Some (err, VArray (array_items_ a) (array_current_len_ a))
  | _ => None
  end.

(** [field.insert(extract_map_value(key_field),
    extract_map_value(val_field))] on objects. *)
Definition map_insert (Id : FieldId) (KeyFieldT ValueFieldT : Ty)
           (MaxSize : nat) (field key_field val_field : Val)
  : option (option Error * Val) :=
  match field with
  | VMap items_ current_len_ =>
      let '(err, m) :=
        MapField.insert (KeyElement := FieldElement KeyFieldT)
                        (ValueElement := FieldElement ValueFieldT)
                        Id MaxSize (mkMap items_ current_len_)
                        key_field val_field in
      Some (err, VMap (map_items_ m) (map_current_len_ m))
  | _ => None
  end.

(** The loop [for (i = 0; i < count; ++i)] of
    [deserialize_array_elements] and [deserialize_map_elements], with
    [count] iterations left. *)
Fixpoint deserialize_elements_loop
         (body : Val -> nat -> option (Val * expected nat))
         (count : nat) (field : Val) (offset : nat) {struct count}
  : option (Val * option Error) :=
  match count with
  | O => Some (field, None)
  | S count' =>
      '(field, r) <- body field offset ;;
      match r with
      | Unexpected err => Some (field, Some err)
      | Expected offset =>
          deserialize_elements_loop body count' field offset
      end
  end.

Definition deserialize_array_elements (Id : FieldId) (MaxSize : nat)
           (ElemT : Ty)
           (deserialize_element
            : Val -> list Z -> nat -> option (Val * expected nat))
           (field : Val) (input : list Z) (offset : nat)
  : option (Val * option Error) :=
  (* Read count *)
  match Varint.decode input offset with
  | None => Some (field, Some (Error.deserialization "invalid array count"))
  | Some (count, n) =>
      let offset := (offset + n)%nat in
      (* Deserialize elements *)
      deserialize_elements_loop
        (fun field offset =>
           let elem := default_val ElemT in
           '(elem, r) <- deserialize_element elem input offset ;;
           match r with
           | Unexpected err => Some (field, Unexpected err)
           | Expected offset =>
               '(err, field) <- array_add Id MaxSize field elem ;;
               match err with
               | Some err => Some (field, Unexpected err)
               | None => Some (field, Expected offset)
               end
           end)
        (Z.to_nat count) field offset
  end.

Definition deserialize_map_elements (Id : FieldId) (MaxSize : nat)
           (KeyFieldT ValueFieldT : Ty)
           (deserialize_key deserialize_value
            : Val -> list Z -> nat -> option (Val * expected nat))
           (field : Val) (input : list Z) (offset : nat)
  : option (Val * option Error) :=
  (* Read count *)
  match Varint.decode input offset with
  | None => Some (field, Some (Error.deserialization "invalid map count"))
  | Some (count, n) =>
      let offset := (offset + n)%nat in
      (* Deserialize key-value pairs *)
      deserialize_elements_loop
        (fun field offset =>
           let key_field := default_val KeyFieldT in
           let val_field := default_val ValueFieldT in
           '(key_field, r) <- deserialize_key key_field input offset ;;
           match r with
           | Unexpected err => Some (field, Unexpected err)
           | Expected offset =>
               '(val_field, r) <- deserialize_value val_field input offset ;;
               match r with
               | Unexpected err => Some (field, Unexpected err)
               | Expected offset =>
                   '(err, field) <-
                     map_insert Id KeyFieldT ValueFieldT MaxSize
                                field key_field val_field ;;
                   match err with
                   | Some err => Some (field, Unexpected err)
                   | None => Some (field, Expected offset)
                   end
               end
           end)
        (Z.to_nat count) field offset
  end.

(** The prologue shared by the length-delimited fields: the wire type,
    the length varint and the bounds check, each with the message of
    the calling function; then [content] with the length and the offset
    behind the prefix. *)
Definition length_delimited_field (wire_type_msg length_msg underflow_msg
                                   : string)
           (content : Z -> nat -> option (Val * expected nat))
           (field : Val) (wire_type : WireType)
           (input : list Z) (offset : nat) : option (Val * expected nat) :=
  if negb (wire_type =? WireType_LengthDelimited)
  then Some (field, Unexpected (Error.deserialization wire_type_msg))
  else
    match Varint.decode input offset with
    | None => Some (field, Unexpected (Error.deserialization length_msg))
    | Some (len, n) =>
        let offset := (offset + n)%nat in
        if Z.of_nat (length input) <? u64 (Z.of_nat offset + len)
        then Some (field, Unexpected (Error.deserialization underflow_msg))
        else content len offset
    end.

Definition deserialize_array_field
           (deserialize_array_elements
            : Val -> list Z -> nat -> option (Val * option Error))
           (field : Val) (wire_type : WireType)
           (input : list Z) (offset : nat) : option (Val * expected nat) :=
  length_delimited_field
    "array must be length delimited" "invalid array length" "array underflow"
    (fun len offset =>
       subspan_ <- subspan input offset len ;;
       '(field, err) <- deserialize_array_elements field subspan_ 0%nat ;;
       match err with
       | Some err => Some (field, Unexpected err)
       | None => Some (field, Expected (offset + Z.to_nat len)%nat)
       end)
    field wire_type input offset.

Definition deserialize_map_field
           (deserialize_map_elements
            : Val -> list Z -> nat -> option (Val * option Error))
           (field : Val) (wire_type : WireType)
           (input : list Z) (offset : nat) : option (Val * expected nat) :=
  length_delimited_field
    "map must be length delimited" "could not decode map length"
    "map underflow"
    (fun len offset =>
       subspan_ <- subspan input offset len ;;
       '(field, err) <- deserialize_map_elements field subspan_ 0%nat ;;
       match err with
       | Some err => Some (field, Unexpected err)
       | None => Some (field, Expected (offset + Z.to_nat len)%nat)
       end)
    field wire_type input offset.

Definition deserialize_scalar_field (k : ScalarKind) (field : Val)
           (wire_type : WireType) (input : list Z) (offset : nat)
  : option (Val * expected nat) :=
  match field with
  | VField (VScalar _) _ =>
      if negb (wire_type =? WireType_Varint)
      then Some (field,
                 Unexpected (Error.deserialization "scalar must be varint"))
      else
        match Varint.decode input offset with
        | None =>
            Some (field, Unexpected (Error.deserialization "invalid varint"))
        | Some (raw, n) =>
            (* field.set_without_validation(val) *)
            Some (VField (VScalar (decoded_val k raw)) true,
                  Expected (offset + n)%nat)
        end
  | _ => None
  end.

Definition deserialize_string_field (MaxSize : nat)
           (Validators : list (Validator (list Z))) (field : Val)
           (wire_type : WireType) (input : list Z) (offset : nat)
  : option (Val * expected nat) :=
  match field with
  | VField (VString s) set_ =>
      length_delimited_field
        "string requires length delimited" "invalid length" "underflow"
        (fun len offset =>
           sv <- string_view input offset len ;;
           let offset := (offset + Z.to_nat len)%nat in
           (* field.set(sv) *)
           match CrunchString.set MaxSize Validators s sv with
           | (Some err, s) => Some (VField (VString s) set_, Unexpected err)
           | (None, s) => Some (VField (VString s) true, Expected offset)
           end)
        field wire_type input offset
  | _ => None
  end.

(** [FieldType] is the message type under the field and
    [deserialize_message_payload] its payload function. *)
Definition deserialize_nested_message_field (FieldType : Ty)
           (deserialize_message_payload
            : list Z -> Val -> nat -> option (Val * option Error))
           (field : Val) (wire_type : WireType)
           (input : list Z) (offset : nat) : option (Val * expected nat) :=
  match field with
  | VField _ _ =>
      length_delimited_field
        "nested msg requires length delimited" "invalid length" "underflow"
        (fun len offset =>
           subspan_ <- subspan input offset len ;;
           let temp := default_val FieldType in
           '(temp, err) <- deserialize_message_payload subspan_ temp 0%nat ;;
           match err with
           | Some err => Some (field, Unexpected err)
           | None =>
               (* Messages cannot fail on set. *)
               Some (VField temp true, Expected (offset + Z.to_nat len)%nat)
           end)
        field wire_type input offset
  | _ => None
  end.

(** [visit_fields_tlv]: the field tuple as it is left, the result of
    the matching field and [found]. *)
Fixpoint visit_fields_tlv
         (deserialize_field_value
          : Ty -> Val -> WireType -> list Z -> nat
            -> option (Val * expected nat))
         (Tuple : list Ty) (fields_tuple : list Val) (target_id : FieldId)
         (wt : WireType) (input : list Z) (offset : nat) {struct Tuple}
  : option (list Val * expected nat * bool) :=
  match Tuple, fields_tuple with
  | [], [] => Some ([], Expected offset, false)
  | FieldT :: Tuple', f :: rest =>
      if field_id_of FieldT =? target_id then
        '(f, r) <- deserialize_field_value FieldT f wt input offset ;;
        Some (f :: rest, r, true)
      else
        '(rest, r, found) <-
          visit_fields_tlv deserialize_field_value Tuple' rest target_id wt
                           input offset ;;
        Some (f :: rest, r, found)
  | _, _ => None
  end.

(** The loop [while (offset < input.size())] of
    [deserialize_message_payload]; every iteration consumes at least
    the tag, so that [fuel = input.size()] iterations are never used
    up. *)
Fixpoint deserialize_message_payload_loop (fuel : nat)
         (visit : list Val -> FieldId -> WireType -> list Z -> nat
                  -> option (list Val * expected nat * bool))
         (input : list Z) (msg : list Val) (offset : nat) {struct fuel}
  : option (list Val * option Error) :=
  if (offset <? length input)%nat then
    match fuel with
    | O => None
    | S fuel' =>
        match Varint.decode input offset with
        | None =>
            Some (msg, Some (Error.deserialization "invalid tag varint"))
        | Some (tag, tag_bytes) =>
            let offset := (offset + tag_bytes)%nat in
            let field_id := u32 (Z.shiftr tag WireTypeBits) in
            let wire_type := Z.land tag 0x07 in
            '(msg, r, found) <-
              visit msg (to_signed 4 field_id) wire_type input offset ;;
            match r with
            | Unexpected err => Some (msg, Some err)
            | Expected offset =>
                if negb found
                then Some (msg,
                           Some (Error.deserialization
                                   "unknown fields present"))
                else deserialize_message_payload_loop fuel' visit input
                                                      msg offset
            end
        end
    end
  else Some (msg, None).

Definition deserialize_message_fields
           (deserialize_field_value
            : Ty -> Val -> WireType -> list Z -> nat
              -> option (Val * expected nat))
           (Tuple : list Ty) (input : list Z) (msg : Val) (offset : nat)
  : option (Val * option Error) :=
  match msg with
  | VMessage vals =>
      '(vals, err) <-
        deserialize_message_payload_loop
          (length input) (visit_fields_tlv deserialize_field_value Tuple)
          input vals offset ;;
      Some (VMessage vals, err)
  | _ => None
  end.

Fixpoint deserialize_value_without_tag (ElemT : Ty) (val : Val)
         (input : list Z) (offset : nat) {struct ElemT}
  : option (Val * expected nat) :=
  match ElemT with
  | Scalar k _ => deserialize_scalar_value k val input offset
  | String_ MaxSize Validators =>
      deserialize_string_value MaxSize Validators val input offset
  | Message _ fields _ =>
      deserialize_message_value
        (fun val input offset =>
           deserialize_message_fields deserialize_field_value fields
                                      input val offset)
        val input offset
  | ArrayField Id ValueType MaxSize _ =>
      deserialize_array_value
        (deserialize_array_elements
           Id MaxSize ValueType (deserialize_value_without_tag ValueType))
        val input offset
  | MapField Id KeyFieldT ValueFieldT MaxSize _ =>
      deserialize_map_value
        (deserialize_map_elements
           Id MaxSize KeyFieldT ValueFieldT
           (deserialize_value_without_tag KeyFieldT)
           (deserialize_value_without_tag ValueFieldT))
        val input offset
  | Field _ _ _ => None (* std::unreachable() *)
  end
with deserialize_field_value (FieldT : Ty) (field : Val)
         (wire_type : WireType) (input : list Z) (offset : nat)
         {struct FieldT} : option (Val * expected nat) :=
  match FieldT with
  | ArrayField Id ValueType MaxSize _ =>
      deserialize_array_field
        (deserialize_array_elements
           Id MaxSize ValueType (deserialize_value_without_tag ValueType))
        field wire_type input offset
  | MapField Id KeyFieldT ValueFieldT MaxSize _ =>
      deserialize_map_field
        (deserialize_map_elements
           Id MaxSize KeyFieldT ValueFieldT
           (deserialize_value_without_tag KeyFieldT)
           (deserialize_value_without_tag ValueFieldT))
        field wire_type input offset
  | Field _ _ ValueType =>
      match ValueType with
      | Scalar k _ => deserialize_scalar_field k field wire_type input offset
      | String_ MaxSize Validators =>
          deserialize_string_field MaxSize Validators field wire_type
                                   input offset
      | Message _ fields _ =>
          deserialize_nested_message_field
            ValueType
            (deserialize_message_fields deserialize_field_value fields)
            field wire_type input offset
      | ArrayField _ _ _ _ | MapField _ _ _ _ _ =>
          (* no branch of the if constexpr chain applies *)
          Some (field, Expected offset)
      | Field _ _ _ => None
      end
  | _ => None
  end.

Definition deserialize_message_payload (Message : Ty) (input : list Z)
           (msg : Val) (offset : nat) : option (Val * option Error) :=
  match Message with
  | Message _ fields _ =>
      deserialize_message_fields deserialize_field_value fields
                                 input msg offset
  | _ => None
  end.

Definition Deserialize (Message : Ty) (input : list Z) (msg : Val)
  : option (Val * option Error) :=
  (* Header (including MessageId) validated by top-level deserializer *)
  let offset := StandardHeaderSize in
  if (length input <? offset + 4)%nat
  then Some (msg,
             Some (Error.deserialization "buffer too small for tlv length"))
  else
    le_len <- load input offset 4 ;;
    let payload_len := le_value le_len in
    let offset := (offset + 4)%nat in
    if Z.of_nat (length input) <? Z.of_nat offset + payload_len
    then Some (msg, Some (Error.deserialization "tlv length exceeds buffer"))
    else
      deserialize_message_payload
        Message (firstn (offset + Z.to_nat payload_len) input) msg offset.

End TlvLayout.

Definition TlvLayoutPolicy : SerdesPolicy :=
  {| Size := TlvLayout.Size;
     GetFormat := TlvLayout.GetFormat;
     Serialize := TlvLayout.Serialize;
     Deserialize := TlvLayout.Deserialize |}.

(* ------------------------------------------------------------------ *)
(** ** The TLV wire format

    The byte strings that the comments of crunch_tlv_layout.hpp give for
    each kind of value: a scalar is a varint, a string is
    [[Length][Data]], a message is [[Length][NestedFields]], an array is
    [[TotalLength][Count][Elem1][Elem2]...], a map is
    [[TotalLength][Count][Key1][Val1][Key2][Val2]...], and a field that
    is set is its tag followed by its value. *)

Module TlvWire.

Definition varint (value : Z) : list Z :=
  Varint.encode_bytes Varint.max_size (u64 value).

Definition tag (id : FieldId) (wt : TlvLayout.WireType) : list Z :=
  varint (Z.lor (u32 (Z.shiftl (u32 id) TlvLayout.WireTypeBits)) (u8 wt)).

Definition length_delimited (content : list Z) : list Z :=
  varint (Z.of_nat (length content)) ++ content.

Definition array (element : Val -> list Z)
           (items_ : list Val) (current_len_ : nat) : list Z :=
  length_delimited
    (varint (Z.of_nat current_len_)
       ++ flat_map element (firstn current_len_ items_)).

Definition map_ (key value : Val -> list Z)
           (items_ : list (Val * Val)) (current_len_ : nat) : list Z :=
  length_delimited
    (varint (Z.of_nat current_len_)
       ++ flat_map (fun item => key (fst item) ++ value (snd item))
                   (firstn current_len_ items_)).

Fixpoint fields (field : Ty -> Val -> list Z)
         (Tuple : list Ty) (t : list Val) {struct Tuple} : list Z :=
  match Tuple, t with
  | FieldT :: Tuple', f :: t' => field FieldT f ++ fields field Tuple' t'
  | _, _ => []
  end.

Fixpoint value (T : Ty) (v : Val) {struct T} : list Z :=
  match T, v with
  | Scalar k _, VScalar value_ => varint (TlvLayout.encoded_val k value_)
  | String_ _ _, VString s => length_delimited (CrunchString.get s)
  | Message _ Tuple _, VMessage t => length_delimited (fields field Tuple t)
  | ArrayField _ ElemT _ _, VArray items_ current_len_ =>
      array (value ElemT) items_ current_len_
  | MapField _ KeyT ValueT _ _, VMap items_ current_len_ =>
      map_ (value KeyT) (value ValueT) items_ current_len_
  | _, _ => []
  end
with field (FieldT : Ty) (f : Val) {struct FieldT} : list Z :=
  match FieldT, f with
  | ArrayField Id ElemT _ _, VArray items_ current_len_ =>
      if (current_len_ =? 0)%nat then []
      else tag Id TlvLayout.WireType_LengthDelimited
             ++ array (value ElemT) items_ current_len_
  | MapField Id KeyT ValueT _ _, VMap items_ current_len_ =>
      if (current_len_ =? 0)%nat then []
      else tag Id TlvLayout.WireType_LengthDelimited
             ++ map_ (value KeyT) (value ValueT) items_ current_len_
  | Field Id _ ValueType, VField value_ set_ =>
      if negb set_ then []
      else
        match ValueType, value_ with
        | Scalar k _, VScalar v =>
            tag Id TlvLayout.WireType_Varint
              ++ varint (TlvLayout.encoded_val k v)
        | String_ _ _, VString s =>
            tag Id TlvLayout.WireType_LengthDelimited
              ++ length_delimited (CrunchString.get s)
        | Message _ Tuple _, VMessage t =>
            tag Id TlvLayout.WireType_LengthDelimited
              ++ length_delimited (fields field Tuple t)
        | _, _ => []
        end
  | _, _ => []
  end.

(** The payload of a message: the length as a little-endian [uint32_t],
    then the fields. *)
Definition payload (Message : Ty) (msg : Val) : list Z :=
  match Message, msg with
  | Message _ Tuple _, VMessage t =>
      le_bytes 4 (u32 (Z.of_nat (length (fields field Tuple t))))
        ++ fields field Tuple t
  | _, _ => []
  end.

End TlvWire.

(** [buffer] holds [bytes] at [offset]. *)
Definition holds (buffer : list Z) (offset : nat) (bytes : list Z) : Prop :=
  (offset + length bytes <= length buffer)%nat
  /\ firstn (length bytes) (skipn offset buffer) = bytes.

(** The room a value takes while it is written: an array or map inside
    a container is accounted with a tag that it does not have. *)
Definition value_room (T : Ty) : nat :=
  match T with
  | ArrayField _ _ _ _ | MapField _ _ _ _ _ =>
      (TlvLayout.calculate_max_value_size T
       - Varint.max_varint_size TlvLayout.MaxTagBits)%nat
  | _ => TlvLayout.calculate_max_value_size T
  end.

(** No id occurs twice. *)
Fixpoint distinct_ids (ids : list FieldId) : bool :=
  match ids with
  | [] => true
  | id :: rest => negb (existsb (Z.eqb id) rest) && distinct_ids rest
  end.

(** The schemas whose tags identify the fields: in every message the
    field ids are distinct and lie in [[0, MaxFieldId]], and a [Field]
    wraps a scalar, a string or a message. *)
Fixpoint tlv_schema (T : Ty) : bool :=
  match T with
  | Scalar _ _ | String_ _ _ => true
  | Message _ fields _ =>
      forallb (fun F => (0 <=? field_id_of F)
                        && (field_id_of F <=? MaxFieldId)
                        && tlv_schema F) fields
      && distinct_ids (map field_id_of fields)
  | ArrayField _ ElementType _ _ => tlv_schema ElementType
  | MapField _ KeyField ValueField _ _ =>
      tlv_schema KeyField && tlv_schema ValueField
  | Field _ _ Type_ =>
      (is_scalar Type_ || is_string Type_ || is_message Type_)
      && tlv_schema Type_
  end.

Definition is_none {A : Type} (o : option A) : bool :=
  match o with None => true | Some _ => false end.

(** The objects that the decoder can rebuild: every scalar that is set
    or active holds a value of its kind, every such string passes the
    validators that [String::set] runs, and the active entries of every
    such map pass the checks of [MapField::insert]: the validation of
    the key and of the value, and no key equal to an earlier one. *)
Fixpoint reconstructible (T : Ty) (v : Val) {struct T} : bool :=
  match T, v with
  | Scalar k _, VScalar z => scalar_in_range k z
  | String_ _ Validators, VString s =>
      is_none (CrunchString.Validate Validators (CrunchString.get s) 0)
  | Message _ fields _, VMessage vals => all2 reconstructible fields vals
  | ArrayField _ E _ _, VArray items len =>
      forallb (reconstructible E) (firstn len items)
  | MapField _ K V _ _, VMap items len =>
      forallb (fun kv =>
                 reconstructible K (fst kv) && reconstructible V (snd kv)
                 && is_none (element_Validate (MapElement := FieldElement K)
                                              (fst kv))
                 && is_none (element_Validate (MapElement := FieldElement V)
                                              (snd kv)))
              (firstn len items)
      && negb (container_validators.has_duplicate
                 (element_equals (MapElement := FieldElement K))
                 (map fst (firstn len items)))
  | Field _ _ T', VField value set =>
      if set then reconstructible T' value else true
  | _, _ => false
  end.

(** The validation of an object of type [T] depends on its content
    only. *)
Definition Validate_by_content (T : Ty) : Prop :=
  forall a b,
    has_type T a = true -> has_type T b = true ->
    same_content T a b = true ->
    value_Validate T a = value_Validate T b.

(** Every message, array or map that is the key or the value of a map
    is validated by its content. *)
Fixpoint map_entries_by_content (T : Ty) : Prop :=
  match T with
  | Scalar _ _ | String_ _ _ => True
  | Message _ fields _ =>
      (fix all (fields : list Ty) : Prop :=
         match fields with
         | [] => True
         | F :: rest => map_entries_by_content F /\ all rest
         end) fields
  | ArrayField _ E _ _ => map_entries_by_content E
  | MapField _ K V _ _ =>
      (is_scalar K || is_string K = true \/ Validate_by_content K)
      /\ (is_scalar V || is_string V = true \/ Validate_by_content V)
      /\ map_entries_by_content K /\ map_entries_by_content V
  | Field _ _ T' => map_entries_by_content T'
  end.

(** [serialize] writes [bytes] at any offset that leaves [room] bytes
    of the buffer, returns the offset behind them, and changes nothing
    outside the room. *)
Definition serializes (serialize : list Z -> nat -> option (list Z * nat))
           (bytes : list Z) (room : nat) : Prop :=
  (length bytes <= room)%nat
  /\ forall output offset,
      (offset + room <= length output)%nat ->
      exists output',
        serialize output offset = Some (output', (offset + length bytes)%nat)
        /\ writes_within output offset output' (offset + room)
        /\ holds output' offset bytes.

(** [deserialize], on any input that holds [bytes] at the offset,
    succeeds with the offset behind them and leaves an object of type
    [T] with the content of [v]. *)
Definition reads_back (T : Ty) (v : Val)
           (deserialize : list Z -> nat -> option (Val * expected nat))
           (bytes : list Z) : Prop :=
  forall input offset,
    holds input offset bytes -> Z.of_nat (length input) < 2 ^ 64 ->
    exists v',
      deserialize input offset
      = Some (v', Expected (offset + length bytes)%nat)
      /\ has_type T v' = true /\ same_content T v' v = true.

(** [deserialize], on the span of exactly [bytes], succeeds and leaves
    an object of type [T] with the content of [v]. *)
Definition reads_content (T : Ty) (v : Val)
           (deserialize : list Z -> option (Val * option Error))
           (bytes : list Z) : Prop :=
  Z.of_nat (length bytes) < 2 ^ 64 ->
  exists v',
    deserialize bytes = Some (v', None)
    /\ has_type T v' = true /\ same_content T v' v = true.

(** A field is either absent from the wire, and then has the content of
    a default field, or is its tag followed by bytes from which
    [deserialize_field_value], called with the wire type of the tag on
    a default field, reads it back. *)
Definition field_reads_back (F : Ty) (v : Val) : Prop :=
  (TlvWire.field F v = [] /\ same_content F (default_val F) v = true)
  \/ exists wt body,
      TlvWire.field F v = TlvWire.tag (field_id_of F) wt ++ body
      /\ 0 <= wt < 8
      /\ reads_back F v
                    (TlvLayout.deserialize_field_value F (default_val F) wt)
                    body.

(** A message with a string, a map, an array of submessages and a
    submessage:
    [struct Inventory { Field<1, Required, String<8, None>> name;
                        MapField<2, Int32<None>, UInt16<None>, 4, None> stock;
                        ArrayField<3, Sample, 2, None> samples;
                        Field<4, Optional, Sample> last; }]
    with [message_id = 0x33]. *)
Definition Inventory : Ty :=
  Message 0x33
    [Field 1 Required (String_ 8 [validators.None]);
     MapField 2 (Scalar Int32 [validators.None])
              (Scalar UInt16 [validators.None]) 4 [validators.None];
     ArrayField 3 Sample 2 [validators.None];
     Field 4 Optional Sample]
    no_message_validation.

(** [name = "hi"], [stock = {1: 10, -2: 20}], one sample with
    [tag = 7], and [last] with [reading] set to the bit pattern 1. *)
Definition inventory : Val :=
  VMessage
    [VField (VString (CrunchString.construct 8 [validators.None] [104; 105]))
            true;
     VMap [(VScalar 1, VScalar 10); (VScalar (-2), VScalar 20);
           (VScalar 0, VScalar 0); (VScalar 0, VScalar 0)] 2;
     VArray [VMessage [VField (VScalar 7) true; VField (VScalar 0) false];
             default_val Sample] 1;
     VField (VMessage [VField (VScalar 0) false; VField (VScalar 1) true])
            true].

(** A length varint of [2^64 - 2]: [0xFE], eight bytes [0xFF] and
    [0x01]. *)
Definition overlong_length : list Z :=
  [0xFE; 0xFF; 0xFF; 0xFF; 0xFF; 0xFF; 0xFF; 0xFF; 0xFF; 0x01].

(* ================================================================== *)
(** * Properties *)

(* ------------------------------------------------------------------ *)
(** ** The integrity policies *)

Section IntegrityFacts.
Import integrity.

Lemma u16_land (x : Z) : u16 x = Z.land x (Z.ones 16).
Proof. unfold u16. rewrite Z.land_ones by lia. reflexivity. Qed.

Lemma u16_lxor (a b : Z) : u16 (Z.lxor a b) = Z.lxor (u16 a) (u16 b).
Proof.
  rewrite !u16_land. apply Z.bits_inj'. intros n _.
  rewrite Z.lxor_spec, !Z.land_spec, Z.lxor_spec.
  destruct (Z.testbit a n), (Z.testbit b n), (Z.testbit (Z.ones 16) n);
    reflexivity.
Qed.

Lemma land_bit15 (x : Z) :
  Z.land x 0x8000 = if Z.testbit x 15 then 0x8000 else 0.
Proof.
  apply Z.bits_inj'. intros n Hn.
  rewrite Z.land_spec.
  change 0x8000 with (2 ^ 15).
  destruct (Z.eq_dec n 15) as [->|Hne].
  - destruct (Z.testbit x 15); simpl; try reflexivity.
  - rewrite (Z.pow2_bits_false 15 n) by lia.
    rewrite andb_false_r.
    destruct (Z.testbit x 15).
    + rewrite Z.pow2_bits_false by lia. reflexivity.
    + rewrite Z.bits_0. reflexivity.
Qed.

Lemma crc_shift_linear_step (x : Z) : crc_shift x = crc_linear_step x.
Proof.
  unfold crc_shift, crc_linear_step. rewrite land_bit15.
  destruct (Z.testbit x 15); simpl Z.eqb; cbv iota.
  - rewrite u16_lxor. reflexivity.
  - rewrite Z.lxor_0_r. reflexivity.
Qed.

Lemma crc_linear_step_lxor (x y : Z) :
  crc_linear_step (Z.lxor x y)
  = Z.lxor (crc_linear_step x) (crc_linear_step y).
Proof.
  unfold crc_linear_step.
  rewrite Z.shiftl_lxor, u16_lxor, Z.lxor_spec.
  set (a := u16 (Z.shiftl x 1)). set (b := u16 (Z.shiftl y 1)).
  destruct (Z.testbit x 15), (Z.testbit y 15); simpl xorb; cbv iota.
  all: apply Z.bits_inj'; intros n _; rewrite ?Z.lxor_spec, ?Z.bits_0.
  all: destruct (Z.testbit a n), (Z.testbit b n), (Z.testbit 0x1021 n);
    reflexivity.
Qed.

Lemma iter_linear_step_lxor (k : nat) (x y : Z) :
  Nat.iter k crc_linear_step (Z.lxor x y)
  = Z.lxor (Nat.iter k crc_linear_step x) (Nat.iter k crc_linear_step y).
Proof.
  induction k as [|k IH]; simpl; [reflexivity|].
  rewrite IH. apply crc_linear_step_lxor.
Qed.

Lemma iter_crc_shift (k : nat) (x : Z) :
  Nat.iter k crc_shift x = Nat.iter k crc_linear_step x.
Proof.
  induction k as [|k IH]; simpl; [reflexivity|].
  rewrite IH. apply crc_shift_linear_step.
Qed.

Import CRC16_CCITT_reference.

Lemma feed_bit_linear_step (r : Z) (bit : bool) :
  feed_bit r bit = crc_linear_step (Z.lxor r (if bit then 0x8000 else 0)).
Proof.
  unfold feed_bit, crc_linear_step, polynomial.
  rewrite Z.shiftl_lxor, u16_lxor, Z.lxor_spec.
  replace ((2 * r) mod 2 ^ 16) with (u16 (Z.shiftl r 1))
    by (unfold u16; rewrite Z.shiftl_mul_pow2 by lia; f_equal; lia).
  generalize (u16 (Z.shiftl r 1)) (Z.testbit r 15). intros a t.
  destruct bit.
  - change (u16 (Z.shiftl 32768 1)) with 0.
    change (Z.testbit 32768 15) with true.
    rewrite Z.lxor_0_r. destruct t; cbn [xorb]; rewrite ?Z.lxor_0_r; reflexivity.
  - change (u16 (Z.shiftl 0 1)) with 0.
    change (Z.testbit 0 15) with false.
    rewrite Z.lxor_0_r. destruct t; cbn [xorb]; rewrite ?Z.lxor_0_r; reflexivity.
Qed.

Lemma fold_feed_bit_lxor (bits : list bool) (r : Z) :
  fold_left feed_bit bits r
  = Z.lxor (Nat.iter (length bits) crc_linear_step r)
           (fold_left feed_bit bits 0).
Proof.
  revert r. induction bits as [|bit bits IH]; intros r; simpl.
  - rewrite Z.lxor_0_r. reflexivity.
  - rewrite IH. rewrite (IH (feed_bit 0 bit)).
    rewrite !feed_bit_linear_step, Z.lxor_0_l.
    rewrite crc_linear_step_lxor, iter_linear_step_lxor.
    rewrite Z.lxor_assoc. f_equal.
    clear. induction (length bits); simpl; [reflexivity|]. rewrite IHn. reflexivity.
Qed.

(** Exhaustive checks over a finite range of integers. *)
Lemma forallb_below (P : Z -> bool) (n : nat) :
  forallb P (map Z.of_nat (seq 0 n)) = true ->
  forall x, 0 <= x < Z.of_nat n -> P x = true.
Proof.
  intros H x Hx. rewrite forallb_forall in H. apply H.
  apply in_map_iff. exists (Z.to_nat x). split; [lia|].
  apply in_seq. lia.
Qed.

Lemma u16_range (x : Z) : 0 <= u16 x < 2 ^ 16.
Proof. unfold u16. apply Z.mod_pos_bound. lia. Qed.

Lemma u8_range (x : Z) : 0 <= u8 x < 2 ^ 8.
Proof. unfold u8. apply Z.mod_pos_bound. lia. Qed.

Lemma u16_small (x : Z) : 0 <= x < 2 ^ 16 -> u16 x = x.
Proof. intros. unfold u16. apply Z.mod_small. assumption. Qed.

Lemma crc_shift_range (x : Z) : 0 <= crc_shift x < 2 ^ 16.
Proof. unfold crc_shift. destruct (_ =? _); apply u16_range. Qed.

Lemma iter_crc_shift_range (k : nat) (x : Z) :
  0 <= x < 2 ^ 16 -> 0 <= Nat.iter k crc_shift x < 2 ^ 16.
Proof.
  intros Hx. induction k as [|k IH]; simpl; [assumption|].
  apply crc_shift_range.
Qed.

Lemma crc_byte_range (crc b : Z) : 0 <= crc_byte crc b < 2 ^ 16.
Proof. unfold crc_byte. apply iter_crc_shift_range, u16_range. Qed.

Lemma crc_fold_range (data : list Z) (crc : Z) :
  0 <= crc < 2 ^ 16 -> 0 <= fold_left crc_byte data crc < 2 ^ 16.
Proof.
  revert crc. induction data as [|b data IH]; intros crc H; simpl.
  - assumption.
  - apply IH, crc_byte_range.
Qed.

Lemma bits_msb_first_u8 (b : Z) : bits_msb_first (u8 b) = bits_msb_first b.
Proof.
  unfold bits_msb_first, u8. cbn [map].
  rewrite !Z.mod_pow2_bits_low by lia. reflexivity.
Qed.

Lemma byte_contribution_check :
  forallb (fun n => Nat.iter 8 crc_linear_step (Z.shiftl n 8)
                    =? fold_left feed_bit (bits_msb_first n) 0)
          (map Z.of_nat (seq 0 256)) = true.
Proof. vm_compute. reflexivity. Qed.

Lemma byte_contribution (b : Z) :
  Nat.iter 8 crc_linear_step (Z.shiftl (u8 b) 8)
  = fold_left feed_bit (bits_msb_first b) 0.
Proof.
  rewrite <- bits_msb_first_u8. apply Z.eqb_eq.
  apply (forallb_below _ 256 byte_contribution_check). apply u8_range.
Qed.

Lemma crc_byte_feed_bits (crc b : Z) :
  0 <= crc < 2 ^ 16 ->
  crc_byte crc b = fold_left feed_bit (bits_msb_first b) crc.
Proof.
  intros Hcrc. unfold crc_byte.
  rewrite iter_crc_shift, u16_lxor, (u16_small crc Hcrc).
  rewrite u16_small.
  2:{ pose proof (u8_range b). rewrite Z.shiftl_mul_pow2 by lia. lia. }
  rewrite iter_linear_step_lxor, byte_contribution.
  rewrite (fold_feed_bit_lxor (bits_msb_first b) crc). reflexivity.
Qed.

Lemma crc16_state_reference (data : list Z) (crc : Z) :
  0 <= crc < 2 ^ 16 ->
  fold_left crc_byte data crc
  = fold_left feed_bit (flat_map bits_msb_first data) crc.
Proof.
  revert crc. induction data as [|b data IH]; intros crc Hcrc.
  - reflexivity.
  - change (flat_map bits_msb_first (b :: data))
      with (bits_msb_first b ++ flat_map bits_msb_first data).
    change (fold_left crc_byte (b :: data) crc)
      with (fold_left crc_byte data (crc_byte crc b)).
    rewrite fold_left_app, <- crc_byte_feed_bits by assumption.
    apply IH, crc_byte_range.
Qed.

(** C9: [CRC16::calculate] is CRC-16-CCITT (polynomial 0x1021, initial
    value 0xFFFF, no final XOR, bytes fed most significant bit first, the
    16-bit result stored high byte first): it agrees on every input with
    the reference definition, and on the ASCII bytes of "123456789" it
    yields 0x29 0xB1. *)
Theorem crc16_is_ccitt :
  (forall data : list Z,
      integrity.crc16_calculate data = CRC16_CCITT_reference.checksum data)
  /\ integrity.crc16_calculate [49; 50; 51; 52; 53; 54; 55; 56; 57]
     = [0x29; 0xB1].
Proof.
  split; [|vm_compute; reflexivity].
  intros data. unfold crc16_calculate, checksum, register_after, crc16_state.
  rewrite <- crc16_state_reference by (unfold initial_value; lia).
  change initial_value with 0xFFFF.
  pose proof (crc_fold_range data 0xFFFF ltac:(lia)) as H.
  set (crc := fold_left crc_byte data 0xFFFF) in *.
  change 0xFF with (Z.ones 8). rewrite !Z.land_ones by lia.
  rewrite Z.shiftr_div_pow2 by lia. unfold u8.
  change (2 ^ 8) with 256 in *.
  rewrite !Z.mod_mod by lia.
  rewrite (Z.mod_small (crc / 256)) by (split; [apply Z.div_pos; lia | apply Z.div_lt_upper_bound; lia]).
  reflexivity.
Qed.

(** *** Sensitivity of the checksums to a change of one byte *)

Lemma u8_land (x : Z) : u8 x = Z.land x (Z.ones 8).
Proof. unfold u8. rewrite Z.land_ones by lia. reflexivity. Qed.

Lemma u8_lxor (a b : Z) : u8 (Z.lxor a b) = Z.lxor (u8 a) (u8 b).
Proof.
  rewrite !u8_land. apply Z.bits_inj'. intros n _.
  rewrite Z.lxor_spec, !Z.land_spec, Z.lxor_spec.
  destruct (Z.testbit a n), (Z.testbit b n), (Z.testbit (Z.ones 8) n);
    reflexivity.
Qed.

Lemma u8_small (x : Z) : 0 <= x < 2 ^ 8 -> u8 x = x.
Proof. intros. unfold u8. apply Z.mod_small. assumption. Qed.

Lemma lxor_cancel_l (a x y : Z) : Z.lxor a x = Z.lxor a y -> x = y.
Proof.
  intros H.
  rewrite <- (Z.lxor_0_l x), <- (Z.lxor_0_l y), <- (Z.lxor_nilpotent a).
  rewrite !Z.lxor_assoc, H. reflexivity.
Qed.

Lemma u8_flip_neq (b : Z) (k : nat) :
  (k < 8)%nat -> u8 (Z.lxor b (2 ^ Z.of_nat k)) <> u8 b.
Proof.
  intros Hk H. rewrite u8_lxor in H.
  rewrite <- (Z.lxor_0_r (u8 b)) in H at 2.
  apply lxor_cancel_l in H.
  rewrite u8_small in H by (split; [lia | apply Z.pow_lt_mono_r; lia]).
  pose proof (Z.pow_pos_nonneg 2 (Z.of_nat k)). lia.
Qed.

Lemma lxor_range16 (x y : Z) :
  0 <= x < 2 ^ 16 -> 0 <= y < 2 ^ 16 -> 0 <= Z.lxor x y < 2 ^ 16.
Proof.
  intros Hx Hy.
  rewrite <- (u16_small x Hx), <- (u16_small y Hy), <- u16_lxor.
  apply u16_range.
Qed.

Lemma linear_step_kernel (z : Z) :
  0 <= z < 2 ^ 16 -> crc_linear_step z = 0 -> z = 0.
Proof.
  intros Hz H. unfold crc_linear_step in H.
  assert (Hbit : Z.testbit z 15 = false).
  { assert (H0 : Z.testbit
                   (Z.lxor (u16 (Z.shiftl z 1))
                           (if Z.testbit z 15 then 0x1021 else 0)) 0
                 = false) by (rewrite H; apply Z.bits_0).
    rewrite Z.lxor_spec in H0. unfold u16 in H0.
    rewrite Z.mod_pow2_bits_low, Z.shiftl_spec_low in H0 by lia.
    destruct (Z.testbit z 15); [discriminate H0 | reflexivity]. }
  rewrite Hbit, Z.lxor_0_r in H.
  apply Z.testbit_false in Hbit; [|lia].
  assert (Hq : 0 <= z / 2 ^ 15 < 2)
    by (split; [apply Z.div_pos; lia | apply Z.div_lt_upper_bound; lia]).
  rewrite Z.mod_small in Hbit by assumption.
  pose proof (Z.div_mod z (2 ^ 15) ltac:(lia)) as Hdm.
  pose proof (Z.mod_pos_bound z (2 ^ 15) ltac:(lia)) as Hm.
  unfold u16 in H. rewrite Z.shiftl_mul_pow2 in H by lia.
  rewrite Z.mod_small in H by lia. lia.
Qed.

Lemma crc_shift_inj (x y : Z) :
  0 <= x < 2 ^ 16 -> 0 <= y < 2 ^ 16 ->
  crc_shift x = crc_shift y -> x = y.
Proof.
  intros Hx Hy H. rewrite !crc_shift_linear_step in H.
  assert (Hk : crc_linear_step (Z.lxor x y) = 0)
    by (rewrite crc_linear_step_lxor, H; apply Z.lxor_nilpotent).
  apply linear_step_kernel in Hk; [|apply lxor_range16; assumption].
  apply Z.lxor_eq in Hk. assumption.
Qed.

Lemma iter_crc_shift_inj (k : nat) (x y : Z) :
  0 <= x < 2 ^ 16 -> 0 <= y < 2 ^ 16 ->
  Nat.iter k crc_shift x = Nat.iter k crc_shift y -> x = y.
Proof.
  intros Hx Hy. induction k as [|k IH]; simpl; intros H; [assumption|].
  apply IH. apply crc_shift_inj; [apply iter_crc_shift_range ..|]; assumption.
Qed.

Lemma crc_byte_inj (s1 s2 b1 b2 : Z) :
  0 <= s1 < 2 ^ 16 -> 0 <= s2 < 2 ^ 16 ->
  crc_byte s1 b1 = crc_byte s2 b2 ->
  Z.lxor s1 (Z.shiftl (u8 b1) 8) = Z.lxor s2 (Z.shiftl (u8 b2) 8).
Proof.
  intros H1 H2 H. unfold crc_byte in H.
  apply iter_crc_shift_inj in H; try apply u16_range.
  assert (Hb : forall b, 0 <= Z.shiftl (u8 b) 8 < 2 ^ 16).
  { intros b. pose proof (u8_range b). rewrite Z.shiftl_mul_pow2 by lia. lia. }
  rewrite !u16_small in H by (apply lxor_range16; auto).
  assumption.
Qed.

Lemma crc_byte_state_neq (s1 s2 b : Z) :
  0 <= s1 < 2 ^ 16 -> 0 <= s2 < 2 ^ 16 ->
  s1 <> s2 -> crc_byte s1 b <> crc_byte s2 b.
Proof.
  intros H1 H2 Hne H. apply Hne.
  apply crc_byte_inj in H; try assumption.
  rewrite (Z.lxor_comm s1), (Z.lxor_comm s2) in H.
  apply lxor_cancel_l in H. assumption.
Qed.

Lemma crc_byte_byte_neq (s b1 b2 : Z) :
  0 <= s < 2 ^ 16 -> u8 b1 <> u8 b2 -> crc_byte s b1 <> crc_byte s b2.
Proof.
  intros Hs Hne H. apply Hne.
  apply crc_byte_inj in H; try assumption.
  apply lxor_cancel_l in H.
  rewrite !Z.shiftl_mul_pow2 in H by lia. lia.
Qed.

Lemma crc_fold_state_neq (data : list Z) (s1 s2 : Z) :
  0 <= s1 < 2 ^ 16 -> 0 <= s2 < 2 ^ 16 ->
  s1 <> s2 -> fold_left crc_byte data s1 <> fold_left crc_byte data s2.
Proof.
  revert s1 s2. induction data as [|b data IH]; intros s1 s2 H1 H2 Hne; simpl.
  - assumption.
  - apply IH; try apply crc_byte_range.
    apply crc_byte_state_neq; assumption.
Qed.

Lemma crc16_state_byte_neq (a c : list Z) (b1 b2 : Z) :
  u8 b1 <> u8 b2 ->
  crc16_state (a ++ b1 :: c) <> crc16_state (a ++ b2 :: c).
Proof.
  intros Hne. unfold crc16_state. rewrite !fold_left_app. simpl.
  apply crc_fold_state_neq; try apply crc_byte_range.
  apply crc_byte_byte_neq; [apply crc_fold_range; lia | assumption].
Qed.

Lemma crc16_calculate_state (data1 data2 : list Z) :
  bytes_eqb (crc16_calculate data1) (crc16_calculate data2) = true ->
  crc16_state data1 = crc16_state data2.
Proof.
  unfold crc16_calculate.
  pose proof (crc_fold_range data1 0xFFFF ltac:(lia)) as H1.
  pose proof (crc_fold_range data2 0xFFFF ltac:(lia)) as H2.
  fold (crc16_state data1) in H1. fold (crc16_state data2) in H2.
  set (x := crc16_state data1) in *. set (y := crc16_state data2) in *.
  cbn [bytes_eqb]. rewrite andb_true_r.
  intros H. apply andb_prop in H. destruct H as [Hh Hl].
  apply Z.eqb_eq in Hh, Hl. unfold u8 in Hh, Hl.
  change 0xFF with (Z.ones 8) in Hh, Hl.
  rewrite !Z.land_ones in Hh, Hl by lia.
  rewrite !Z.shiftr_div_pow2 in Hh by lia.
  change (2 ^ 8) with 256 in *. rewrite !Z.mod_mod in Hh, Hl by lia.
  rewrite !(Z.mod_small (_ / 256)) in Hh
    by (split; [apply Z.div_pos; lia | apply Z.div_lt_upper_bound; lia]).
  rewrite (Z.div_mod x 256), (Z.div_mod y 256) by lia. rewrite Hh, Hl.
  reflexivity.
Qed.

Lemma parity_fold_lxor (data : list Z) (p : Z) :
  fold_left (fun parity b => Z.lxor parity (u8 b)) data p
  = Z.lxor p (fold_left (fun parity b => Z.lxor parity (u8 b)) data 0).
Proof.
  revert p. induction data as [|b data IH]; intros p; simpl.
  - rewrite Z.lxor_0_r. reflexivity.
  - rewrite IH, (IH (u8 b)), Z.lxor_assoc. reflexivity.
Qed.

Lemma bytes_eqb_app_neq (a c1 c2 : list Z) (b1 b2 : Z) :
  u8 b1 <> u8 b2 -> bytes_eqb (a ++ b1 :: c1) (a ++ b2 :: c2) = false.
Proof.
  intros Hne. induction a as [|x a IH]; simpl.
  - apply Z.eqb_neq in Hne. rewrite Hne. reflexivity.
  - rewrite IH. apply andb_false_r.
Qed.

Lemma firstn_skipn_middle {A : Type} (a c : list A) (b : A) :
  firstn (length a) (a ++ b :: c) = a
  /\ skipn (S (length a)) (a ++ b :: c) = c
  /\ nth_error (a ++ b :: c) (length a) = Some b.
Proof.
  repeat split.
  - rewrite firstn_app, firstn_all, Nat.sub_diag. simpl. apply app_nil_r.
  - induction a as [|x a IH]; simpl; [reflexivity | assumption].
  - rewrite nth_error_app2, Nat.sub_diag by lia. reflexivity.
Qed.

Lemma flip_bit_app (a c : list Z) (b : Z) (i : nat) :
  (i / 8)%nat = length a ->
  flip_bit (a ++ b :: c) i = a ++ Z.lxor b (2 ^ Z.of_nat (i mod 8)) :: c.
Proof.
  intros Hi. unfold flip_bit. rewrite Hi.
  destruct (firstn_skipn_middle a c b) as (-> & -> & ->). reflexivity.
Qed.

Lemma flip_bit_split (buffer : list Z) (i : nat) :
  (i < 8 * length buffer)%nat ->
  exists a b c,
    buffer = a ++ b :: c /\ length a = (i / 8)%nat
    /\ flip_bit buffer i = a ++ Z.lxor b (2 ^ Z.of_nat (i mod 8)) :: c.
Proof.
  intros Hi.
  assert (Hlt : (i / 8 < length buffer)%nat)
    by (apply Nat.Div0.div_lt_upper_bound; lia).
  destruct (nth_error buffer (i / 8)) as [b|] eqn:E.
  2:{ apply nth_error_None in E. lia. }
  destruct (nth_error_split _ _ E) as (a & c & Hb & Ha).
  exists a, b, c. repeat split; try assumption.
  subst buffer. apply flip_bit_app. congruence.
Qed.

Lemma flip_bit_length (buffer : list Z) (i : nat) :
  length (flip_bit buffer i) = length buffer.
Proof.
  destruct (nth_error buffer (i / 8)) as [b|] eqn:E.
  - destruct (nth_error_split _ _ E) as (a & c & Hbuf & Ha). subst buffer.
    rewrite flip_bit_app by congruence. rewrite !length_app. reflexivity.
  - unfold flip_bit. rewrite E. reflexivity.
Qed.

Lemma firstn_app_cons {A : Type} (a c : list A) (b : A) (n : nat) :
  (length a < n)%nat ->
  firstn n (a ++ b :: c) = a ++ b :: firstn (n - S (length a)) c.
Proof.
  intros H. rewrite firstn_app, firstn_all2 by lia.
  replace (n - length a)%nat with (S (n - S (length a))) by lia.
  reflexivity.
Qed.

Lemma flip_bit_firstn (buffer : list Z) (n i : nat) :
  (i < 8 * n)%nat ->
  firstn n (flip_bit buffer i) = flip_bit (firstn n buffer) i.
Proof.
  intros Hi.
  assert (Hlt : (i / 8 < n)%nat) by (apply Nat.Div0.div_lt_upper_bound; lia).
  destruct (nth_error buffer (i / 8)) as [b|] eqn:E.
  - destruct (nth_error_split _ _ E) as (a & c & Hbuf & Ha). subst buffer.
    rewrite flip_bit_app by congruence.
    rewrite !firstn_app_cons by lia.
    rewrite flip_bit_app by congruence. reflexivity.
  - unfold flip_bit. rewrite E, nth_error_firstn.
    destruct (i / 8 <? n)%nat; [rewrite E|]; reflexivity.
Qed.

Lemma u8_idem (x : Z) : u8 (u8 x) = u8 x.
Proof. unfold u8. apply Z.mod_mod. lia. Qed.

Lemma checksum_length (Integrity : IntegrityPolicy) (P : list Z) :
  Integrity = CRC16 \/ Integrity = Parity ->
  length (integrity_calculate Integrity P) = integrity_size Integrity.
Proof. intros [-> | ->]; reflexivity. Qed.

Lemma checksum_size_pos (Integrity : IntegrityPolicy) :
  Integrity = CRC16 \/ Integrity = Parity -> (0 <? integrity_size Integrity)%nat = true.
Proof. intros [-> | ->]; reflexivity. Qed.

Lemma checksum_byte_neq (Integrity : IntegrityPolicy) (a c : list Z) (b1 b2 : Z) :
  Integrity = CRC16 \/ Integrity = Parity ->
  u8 b1 <> u8 b2 ->
  bytes_eqb (integrity_calculate Integrity (a ++ b1 :: c))
            (integrity_calculate Integrity (a ++ b2 :: c)) = false.
Proof.
  intros [-> | ->] Hne; simpl integrity_calculate.
  - apply not_true_is_false. intros H.
    apply crc16_calculate_state in H.
    revert H. apply crc16_state_byte_neq. assumption.
  - unfold parity_calculate. rewrite !fold_left_app. cbn [fold_left bytes_eqb].
    rewrite andb_true_r. apply Z.eqb_neq. intros H. apply Hne.
    rewrite (parity_fold_lxor c), (parity_fold_lxor c (Z.lxor _ (u8 b2))) in H.
    rewrite !u8_lxor, !u8_idem in H.
    rewrite !(Z.lxor_comm _ (u8 (fold_left _ c 0))) in H.
    apply lxor_cancel_l in H. apply lxor_cancel_l in H. assumption.
Qed.

Lemma serialize_used_prefix (Integrity : IntegrityPolicy) (Serdes : SerdesPolicy) (M : Ty)
      (buffer : list Z) (message : Val) (d : list Z) (n : nat) :
  Integrity = CRC16 \/ Integrity = Parity ->
  detail.SerializeWithoutValidation Integrity Serdes M buffer message = Some (d, n) ->
  exists P, firstn n d = P ++ integrity_calculate Integrity P
            /\ n = (length P + integrity_size Integrity)%nat.
Proof.
  intros HI H. unfold detail.SerializeWithoutValidation in H.
  rewrite (checksum_size_pos Integrity HI) in H.
  destruct (length buffer <? integrity_size Integrity)%nat; [discriminate|].
  destruct (WriteHeader _ _ _) as [[p1 ?]|]; [|discriminate]. cbn [bind] in H.
  destruct (Serialize Serdes M message p1) as [[p2 bw]|]; [|discriminate].
  cbn [bind] in H.
  unfold load in H. simpl (0 + bw)%nat in H.
  destruct (bw <=? length p2)%nat eqn:Hbw; [|discriminate].
  apply Nat.leb_le in Hbw. cbn [bind skipn] in H.
  set (P := firstn bw p2) in *.
  unfold memcpy in H.
  destruct (_ <=? _)%nat; [|discriminate]. cbn [bind] in H.
  inversion H; subst d n; clear H.
  assert (HP : length P = bw) by (unfold P; rewrite length_firstn; lia).
  exists P. split; [|lia].
  assert (HB : firstn bw (p2 ++ skipn (length buffer - integrity_size Integrity) buffer)
               = P).
  { rewrite firstn_app. replace (bw - length p2)%nat with 0%nat by lia.
    rewrite firstn_O, app_nil_r. reflexivity. }
  rewrite HB, app_assoc, firstn_app.
  assert (HL : length (P ++ integrity_calculate Integrity P)
               = (bw + integrity_size Integrity)%nat)
    by (rewrite length_app, checksum_length by assumption; lia).
  rewrite HL, Nat.sub_diag, firstn_O, app_nil_r.
  apply firstn_all2. lia.
Qed.

Lemma deserialize_corrupted (Integrity : IntegrityPolicy) (Serdes : SerdesPolicy) (M : Ty)
      (P : list Z) (i : nat) (out : Val) :
  Integrity = CRC16 \/ Integrity = Parity ->
  (i < 8 * (length P + integrity_size Integrity))%nat ->
  detail.Deserialize Integrity Serdes M (flip_bit (P ++ integrity_calculate Integrity P) i) out
  = Some (out, Some Error.integrity).
Proof.
  intros HI Hi. unfold detail.Deserialize.
  rewrite flip_bit_length, length_app, (checksum_length Integrity P HI).
  replace (_ <? integrity_size Integrity)%nat with false
    by (symmetry; apply Nat.ltb_ge; lia).
  rewrite (checksum_size_pos Integrity HI).
  replace (length P + integrity_size Integrity - integrity_size Integrity)%nat
    with (length P) by lia.
  cbn [andb].
  match goal with
  | |- (if negb ?b then _ else _) = _ => assert (Hb : b = false)
  end.
  2:{ rewrite Hb. reflexivity. }
  destruct (Nat.lt_ge_cases (i / 8) (length P)) as [Hlt | Hge].
  - (* the flipped bit lies in the header or the payload *)
    destruct (flip_bit_split P i) as (a & b & c & HP & Ha & Hflip).
    { pose proof (Nat.Div0.div_mod i 8). pose proof (Nat.mod_upper_bound i 8).
      lia. }
    assert (Hwhole : flip_bit (P ++ integrity_calculate Integrity P) i
                     = flip_bit P i ++ integrity_calculate Integrity P).
    { rewrite HP at 1. rewrite <- app_assoc. cbn [app].
      rewrite flip_bit_app by congruence.
      rewrite Hflip, <- app_assoc. reflexivity. }
    rewrite Hwhole.
    rewrite <- (flip_bit_length P i).
    rewrite firstn_app, firstn_all, Nat.sub_diag, firstn_O, app_nil_r.
    rewrite skipn_app, skipn_all, Nat.sub_diag. cbn [skipn app].
    rewrite Hflip, HP.
    apply checksum_byte_neq; [assumption|].
    apply u8_flip_neq. apply Nat.mod_upper_bound. lia.
  - (* the flipped bit lies in the trailer *)
    set (C := integrity_calculate Integrity P) in *.
    assert (HC : length C = integrity_size Integrity) by apply checksum_length, HI.
    destruct (nth_error C (i / 8 - length P)) as [b|] eqn:E.
    2:{ apply nth_error_None in E.
        assert (i / 8 < length P + integrity_size Integrity)%nat
          by (apply Nat.Div0.div_lt_upper_bound; lia).
        lia. }
    destruct (nth_error_split _ _ E) as (a & c & HCs & Ha).
    assert (Hwhole : flip_bit (P ++ C) i
                     = P ++ a ++ Z.lxor b (2 ^ Z.of_nat (i mod 8)) :: c).
    { rewrite HCs, app_assoc.
      rewrite flip_bit_app by (rewrite length_app; lia).
      rewrite <- app_assoc. reflexivity. }
    rewrite Hwhole.
    rewrite firstn_app, firstn_all, Nat.sub_diag, firstn_O, app_nil_r.
    rewrite skipn_app, skipn_all, Nat.sub_diag. cbn [skipn app].
    fold C. rewrite HCs.
    apply bytes_eqb_app_neq.
    intros H. symmetry in H. revert H.
    apply u8_flip_neq. apply Nat.mod_upper_bound. lia.
Qed.

End IntegrityFacts.

(** C6: for a message encoded through [Serialize] with the CRC16 or the
    Parity policy, inverting any single bit of the used prefix of the
    encoded buffer (header, serdes payload or trailer) makes [Deserialize]
    return the Integrity error. *)
Theorem single_bit_corruption_detected
        (Integrity : IntegrityPolicy) (Serdes : SerdesPolicy) (M : Ty)
        (buffer encoded : Buffer) (m out : Val) (i : nat) :
  Integrity = integrity.CRC16 \/ Integrity = integrity.Parity ->
  Crunch.Serialize Integrity Serdes M buffer m = Some (encoded, None) ->
  (i < 8 * used_bytes encoded)%nat ->
  Crunch.Deserialize Integrity Serdes M
    (mkBuffer (flip_bit (data encoded) i) (used_bytes encoded)) out
  = Some (out, Some Error.integrity).
Proof.
  intros HI Hser Hi.
  unfold Crunch.Serialize, detail.Serialize in Hser.
  destruct (detail.Validate M m); [discriminate|].
  destruct (detail.SerializeWithoutValidation Integrity Serdes M (data buffer) m)
    as [[d n]|] eqn:E; [|discriminate].
  cbn [bind] in Hser. inversion Hser; subst encoded; clear Hser.
  cbn [used_bytes data] in *.
  destruct (serialize_used_prefix Integrity Serdes M _ _ _ _ HI E) as (P & HP & Hn).
  unfold Crunch.Deserialize, Crunch.serialized_message_span.
  cbn [used_bytes data].
  rewrite flip_bit_firstn by assumption.
  rewrite HP. apply deserialize_corrupted; [assumption | lia].
Qed.

(* ------------------------------------------------------------------ *)
(** ** Validators *)

Lemma last_app_singleton {A : Type} (prefix : list A) (b d : A) :
  last (prefix ++ [b]) d = b.
Proof. apply last_last. Qed.

(** C8: the NullTerminated validator succeeds precisely when the last
    byte of the string is zero and returns a Validation error carrying
    the field id otherwise; only the final byte is inspected. *)
Theorem NullTerminated_checks_last_byte (value : list Z) (id : FieldId) :
  (validators.NullTerminated value id = None
   <-> exists prefix, value = prefix ++ [0])
  /\ (validators.NullTerminated value id <> None ->
      validators.NullTerminated value id
      = Some (Error.validation id "must count null terminator"))
  /\ (forall prefix b,
         validators.NullTerminated (prefix ++ [b]) id
         = validators.NullTerminated [b] id).
Proof.
  assert (Hlast : forall prefix b,
             validators.NullTerminated (prefix ++ [b]) id
             = if b =? 0 then None
               else Some (Error.validation id "must count null terminator")).
  { intros prefix b. unfold validators.NullTerminated.
    rewrite last_last, length_app. cbn [length].
    replace (length prefix + 1 =? 0)%nat with false
      by (symmetry; apply Nat.eqb_neq; lia).
    reflexivity. }
  split; [|split].
  - split.
    + destruct value as [|x rest]; [discriminate|].
      destruct (exists_last (l := x :: rest)) as (prefix & b & ->);
        [discriminate|].
      rewrite Hlast. destruct (b =? 0) eqn:E; [|discriminate].
      apply Z.eqb_eq in E. subst b. intros _. exists prefix. reflexivity.
    + intros (prefix & ->). rewrite Hlast. reflexivity.
  - unfold validators.NullTerminated.
    destruct (_ && _); [intros H; contradiction H|]; reflexivity.
  - intros prefix b. rewrite Hlast. apply eq_sym, (Hlast [] b).
Qed.

(* ------------------------------------------------------------------ *)
(** ** Varint *)

(** C4 (the code departs from the claim): the ten bytes
    [0x80 x 9, 0x02] encode 2^64, which does not fit in 64 bits, and
    [Varint::decode] returns the value 0 with 10 bytes consumed instead
    of failing. *)
Theorem varint_decode_accepts_65_bit_value :
  let input := [0x80; 0x80; 0x80; 0x80; 0x80; 0x80; 0x80; 0x80; 0x80; 0x02] in
  leb128_value input = 2 ^ 64
  /\ Varint.decode input 0 = Some (0, 10%nat).
Proof. split; vm_compute; reflexivity. Qed.

(* ------------------------------------------------------------------ *)
(** ** MapField *)

Section MapFieldFacts.
Context {KeyField KeyType ValueField ValueType : Type}.
Context {KeyElement : MapElement KeyField KeyType}.
Context {ValueElement : MapElement ValueField ValueType}.
Variable Id : FieldId.
Variable MaxSize : nat.

(** C7 (amended): with a key and a value that pass their validators,
    [insert] of a key that is already present returns the Validation
    error "Duplicate key in map" carrying the map's field id and leaves
    the map unchanged, provided the map holds fewer than [MaxSize]
    pairs; on a map that holds [MaxSize] pairs [insert] returns
    CapacityExceeded with the map's field id, also for a key that is
    present, and leaves the map unchanged; and CapacityExceeded is
    returned only when the map holds [MaxSize] pairs. *)
Theorem insert_duplicate_key
        (m : MapRep KeyField ValueField) (key : KeyType)
        (value : ValueType) :
  element_Validate key = None ->
  element_Validate value = None ->
  ((map_current_len_ m < MaxSize)%nat ->
   MapField.at_ m key <> None ->
   MapField.insert Id MaxSize m key value
   = (Some (Error.validation Id "Duplicate key in map"), m))
  /\ ((MaxSize <= map_current_len_ m)%nat ->
      MapField.insert Id MaxSize m key value
      = (Some (Error.capacity_exceeded Id "map capacity exceeded"), m))
  /\ (forall e,
         fst (MapField.insert Id MaxSize m key value) = Some e ->
         code e = CapacityExceeded ->
         (MaxSize <= map_current_len_ m)%nat).
Proof.
  intros Hk Hv. unfold MapField.insert. rewrite Hk, Hv.
  split; [|split].
  - intros Hlen Hat.
    replace (MaxSize <=? map_current_len_ m)%nat with false
      by (symmetry; apply Nat.leb_gt; assumption).
    destruct (MapField.at_ m key); [reflexivity | contradiction].
  - intros Hlen.
    replace (MaxSize <=? map_current_len_ m)%nat with true
      by (symmetry; apply Nat.leb_le; assumption).
    reflexivity.
  - intros e. destruct (MaxSize <=? map_current_len_ m)%nat eqn:E.
    + intros _ _. apply Nat.leb_le. assumption.
    + destruct (MapField.at_ m key); cbn [fst]; intros He Hc.
      * inversion He; subst e. discriminate.
      * discriminate.
Qed.

End MapFieldFacts.

(** C7 (as stated, refuted): on the full map [{1 -> 10}] of capacity 1
    the key 1 is present and key and value pass their validators, yet
    [insert(1, 20)] returns CapacityExceeded, not the Validation error. *)
Lemma insert_duplicate_into_full_map :
  let KeyElement := ScalarElement [validators.None] in
  let ValueElement := ScalarElement [validators.None] in
  element_Validate (MapElement := KeyElement) 1 = None
  /\ element_Validate (MapElement := ValueElement) 20 = None
  /\ MapField.at_ full_map 1 = Some 10
  /\ MapField.insert 7 1 full_map 1 20
     = (Some (Error.capacity_exceeded 7 "map capacity exceeded"), full_map)
  /\ MapField.insert 7 1 full_map 1 20
     <> (Some (Error.validation 7 "Duplicate key in map"), full_map).
Proof. repeat split; try reflexivity. discriminate. Qed.

Lemma insert_duplicate_key_witness :
  MapField.insert (KeyElement := ScalarElement [validators.None])
                  (ValueElement := ScalarElement [validators.None])
                  7 3 map_one_of_three 1 20
  = (Some (Error.validation 7 "Duplicate key in map"), map_one_of_three).
Proof.
  apply (insert_duplicate_key (KeyElement := ScalarElement [validators.None])
           (ValueElement := ScalarElement [validators.None])
           7 3 map_one_of_three 1 20 eq_refl eq_refl).
  - cbn. lia.
  - cbn. discriminate.
Defined.

(* ------------------------------------------------------------------ *)
(** ** Decoder *)

Lemma Decode_dispatch_result (Serdes : SerdesPolicy) (Integrity : IntegrityPolicy)
      (Messages : list Ty) (header : CrunchHeader) (buffer : list Z)
      (out out' : detail.VariantType) (result result' : option Error)
      (index : nat) :
  detail.Decode_dispatch Serdes Integrity index Messages header buffer out result
  = Some (out', result') ->
  match result' with
  | Some _ => out' = out
  | None =>
      result = None /\ out' = out
      \/ exists k M msg,
          nth_error Messages k = Some M
          /\ detail.Deserialize Integrity Serdes M buffer (default_val M) = Some (msg, None)
          /\ out' = ((index + k)%nat, msg)
  end.
Proof.
  revert index. induction Messages as [|M rest IH]; intros index H.
  - cbn in H. inversion H; subst. destruct result'; auto.
  - cbn [detail.Decode_dispatch] in H.
    destruct (message_id_of M =? header_message_id header).
    + destruct (detail.Deserialize Integrity Serdes M buffer (default_val M))
        as [[msg err]|] eqn:E; [|discriminate].
      cbn [bind] in H. destruct err; inversion H; subst; [reflexivity|].
      right. exists 0%nat, M, msg. rewrite Nat.add_0_r. auto.
    + apply IH in H. destruct result'; [assumption|].
      destruct H as [H | (k & M' & msg & Hn & Hd & Ho)]; [left; assumption|].
      right. exists (S k), M', msg. repeat split; try assumption.
      rewrite Ho. f_equal. lia.
Qed.

(** C10: when [Decoder::Decode] returns an error of any kind, the output
    variant is exactly what it was before the call; when it returns
    success, the variant holds the message that the whole Deserialize
    pipeline produced for the type selected by the header. *)
Theorem Decode_stores_only_on_success
        (Serdes : SerdesPolicy) (Integrity : IntegrityPolicy) (Messages : list Ty)
        (buffer : list Z) (out out' : detail.VariantType)
        (result : option Error) :
  detail.Decode Serdes Integrity Messages buffer out = Some (out', result) ->
  match result with
  | Some _ => out' = out
  | None =>
      exists index M msg,
        nth_error Messages index = Some M
        /\ detail.Deserialize Integrity Serdes M buffer (default_val M) = Some (msg, None)
        /\ out' = (index, msg)
  end.
Proof.
  unfold detail.Decode. intros H.
  destruct (GetHeader buffer) as [e | header].
  - inversion H; subst. reflexivity.
  - apply Decode_dispatch_result in H. destruct result; [assumption|].
    destruct H as [[H _] | H]; [discriminate | assumption].
Qed.

(* ------------------------------------------------------------------ *)
(** ** The static layout on concrete messages *)

(** C2 (the code departs from the claim): [MyMessage] with [f1 = 42] and
    [f2 = -15] encoded with [Aligned4] takes 24 bytes, not 20, because
    [Serialize] writes the message id a second time at the payload start;
    the byte at offset 9 is 0x56, the second byte of that message id,
    while the bytes at offsets 6 and 17 are zero. *)
Theorem aligned4_MyMessage_encoding :
  exists encoded,
    Crunch.Serialize integrity.None Aligned32Layout MyMessage
      (Crunch.GetBuffer integrity.None Aligned32Layout MyMessage) my_message
    = Some (encoded, None)
    /\ StaticLayout.Size 4 MyMessage = 24%nat
    /\ used_bytes encoded = 24%nat
    /\ length (data encoded) = 24%nat
    /\ nth 6 (data encoded) 1 = 0
    /\ nth 9 (data encoded) 0 = 0x56
    /\ nth 17 (data encoded) 1 = 0.
Proof.
  eexists. split; [vm_compute; reflexivity|].
  cbn [used_bytes data].
  split; [vm_compute; reflexivity|].
  split; [reflexivity|].
  split; [reflexivity|].
  split; [reflexivity|].
  split; reflexivity.
Qed.

(** C3 (the code departs from the claim): for [FloatMessage] under
    [StaticLayout<8>], [Size] is 36 while [Serialize] returns 32, for the
    message with no field set as for any other. *)
Theorem aligned8_Size_differs_from_bytes_written :
  StaticLayout.Size 8 FloatMessage = 36%nat
  /\ option_map snd
       (StaticLayout.Serialize 8 FloatMessage (default_val FloatMessage)
          (repeat 0 36))
     = Some 32%nat.
Proof. split; vm_compute; reflexivity. Qed.

(** C1 (the code departs from the claim): [batch] passes [Validate] and
    [Serialize] with [CRC16] and [Aligned8] succeeds, yet [Deserialize] of
    that buffer into a fresh [Batch] succeeds with a message that differs
    from [batch]: the field [count] comes back unset. *)
Theorem aligned8_round_trip_differs :
  detail.Validate Batch batch = None
  /\ exists encoded decoded,
      Crunch.Serialize integrity.CRC16 Aligned64Layout Batch
        (Crunch.GetBuffer integrity.CRC16 Aligned64Layout Batch) batch
      = Some (encoded, None)
      /\ Crunch.Deserialize integrity.CRC16 Aligned64Layout Batch encoded
           (default_val Batch)
         = Some (decoded, None)
      /\ val_eqb Batch decoded batch = false
      /\ nth 1 (match decoded with VMessage fs => fs | _ => [] end)
             (VScalar 0)
         = VField (VScalar 0) false.
Proof.
  split; [vm_compute; reflexivity|]. do 2 eexists.
  split; [vm_compute; reflexivity|].
  split; [vm_compute; reflexivity|].
  split; vm_compute; reflexivity.
Qed.

(** C5 (the code departs from the claim): the static layout's
    [deserialize_string] copies all [MaxSize] bytes of the slot and takes
    the length prefix as it is; decoding [label_wire] leaves a
    [String<4>] of length 1 whose bytes at indices 1 to 3 are not zero,
    although the fresh string it started from satisfies the invariant. *)
Theorem static_deserialize_string_breaks_invariant :
  string_invariant 4 (CrunchString.default 4)
  /\ exists s,
      detail.Deserialize integrity.None PackedLayout Label label_wire
        (default_val Label)
      = Some (VMessage [VField (VString s) true], None)
      /\ current_len_ s = 1%nat
      /\ nth 1 (buffer_ s) 0 = 66
      /\ ~ string_invariant 4 s.
Proof.
  split.
  - unfold string_invariant. cbn [CrunchString.default buffer_ current_len_].
    split; [reflexivity|]. split; [lia|].
    intros i Hi.
    do 4 (destruct i as [|i]; [reflexivity|]). lia.
  - eexists. split; [vm_compute; reflexivity|].
    cbn [buffer_ current_len_].
    split; [reflexivity|]. split; [reflexivity|].
    intros (_ & _ & H). specialize (H 1%nat). cbn [buffer_ current_len_] in H.
    assert (E : nth 1 [65; 66; 67; 68] 1 = 0) by (apply H; lia).
    discriminate E.
Qed.

Lemma single_bit_corruption_detected_witness :
  Crunch.Serialize integrity.CRC16 PackedLayout MyMessage
    (Crunch.GetBuffer integrity.CRC16 PackedLayout MyMessage) my_message
  = Some (my_message_encoded, None)
  /\ (3 < 8 * used_bytes my_message_encoded)%nat
  /\ Crunch.Deserialize integrity.CRC16 PackedLayout MyMessage
       (mkBuffer (flip_bit (data my_message_encoded) 3)
                 (used_bytes my_message_encoded))
       (default_val MyMessage)
     = Some (default_val MyMessage, Some Error.integrity).
Proof.
  assert (H1 : Crunch.Serialize integrity.CRC16 PackedLayout MyMessage
                 (Crunch.GetBuffer integrity.CRC16 PackedLayout MyMessage)
                 my_message
               = Some (my_message_encoded, None))
    by (vm_compute; reflexivity).
  assert (H2 : (3 < 8 * used_bytes my_message_encoded)%nat) by (cbn; lia).
  refine (conj H1 (conj H2 _)).
  exact (single_bit_corruption_detected integrity.CRC16 PackedLayout MyMessage
           _ _ _ _ 3%nat (or_introl eq_refl) H1 H2).
Defined.

Lemma Decode_stores_only_on_success_witness :
  let out := (0%nat, default_val MyMessage) in
  let corrupted := flip_bit (data my_message_encoded) 3 in
  detail.Decode PackedLayout integrity.CRC16 [MyMessage] corrupted out
  = Some (out, Some Error.integrity)
  /\ out = out.
Proof.
  intros out corrupted.
  assert (H : detail.Decode PackedLayout integrity.CRC16 [MyMessage]
                corrupted out
              = Some (out, Some Error.integrity))
    by (vm_compute; reflexivity).
  refine (conj H _).
  exact (Decode_stores_only_on_success PackedLayout integrity.CRC16
           [MyMessage] corrupted out out (Some Error.integrity) H).
Defined.

(* ------------------------------------------------------------------ *)
(** ** Varint: decoding and the round trip *)

Lemma nth_error_skipn_hd {A : Type} (l : list A) (n : nat) :
  nth_error l n = hd_error (skipn n l).
Proof.
  revert n. induction l as [|x l IH]; intros [|n]; simpl; try reflexivity.
  apply IH.
Qed.

Lemma skipn_S_tl {A : Type} (l : list A) (n : nat) (x : A) (rest : list A) :
  skipn n l = x :: rest -> skipn (S n) l = rest.
Proof.
  revert n. induction l as [|y l IH]; intros [|n] H; simpl in *.
  - discriminate.
  - discriminate.
  - inversion H. reflexivity.
  - apply IH. assumption.
Qed.

Lemma decode_loop_window (fuel : nat) (input : list Z) (offset : nat)
      (value shift : Z) (bytes_read : nat) :
  (length (skipn (offset + bytes_read) input) <= fuel)%nat ->
  Varint.decode_loop fuel input offset value shift bytes_read
  = decode_window (skipn (offset + bytes_read) input) value shift bytes_read.
Proof.
  revert value shift bytes_read.
  induction fuel as [|fuel IH]; intros value shift bytes_read Hlen.
  - destruct (skipn (offset + bytes_read) input); [reflexivity|].
    simpl in Hlen. lia.
  - cbn [Varint.decode_loop]. rewrite nth_error_skipn_hd.
    destruct (skipn (offset + bytes_read) input) as [|b rest] eqn:E;
      [reflexivity|].
    cbn [hd_error decode_window].
    destruct (64 <=? shift); [reflexivity|].
    destruct (Z.land (u8 b) 128 =? 0); [reflexivity|].
    apply skipn_S_tl in E as E'.
    rewrite IH; replace (offset + S bytes_read)%nat
      with (S (offset + bytes_read)) by lia; rewrite E'.
    + reflexivity.
    + simpl in Hlen. lia.
Qed.

Lemma decode_as_window (input : list Z) (offset : nat) :
  Varint.decode input offset = decode_window (skipn offset input) 0 0 0.
Proof.
  unfold Varint.decode.
  rewrite decode_loop_window; rewrite Nat.add_0_r; [reflexivity|].
  rewrite length_skipn. lia.
Qed.

Lemma decode_window_fails (window : list Z) (value : Z) (n : nat)
      (bytes_read : nat) :
  (n <= 10)%nat ->
  decode_window window value (7 * Z.of_nat n) bytes_read = None
  <-> forallb continuation (firstn (10 - n) window) = true.
Proof.
  revert value n bytes_read.
  induction window as [|b window IH]; intros value n bytes_read Hn.
  - rewrite firstn_nil. simpl. tauto.
  - cbn [decode_window].
    destruct (Nat.eq_dec n 10) as [-> | Hne].
    + simpl. tauto.
    + replace (64 <=? 7 * Z.of_nat n) with false
        by (symmetry; apply Z.leb_gt; lia).
      replace (10 - n)%nat with (S (10 - S n)) by lia.
      cbn [firstn forallb]. unfold continuation at 1.
      destruct (Z.land (u8 b) 128 =? 0); cbn [negb andb].
      * split; discriminate.
      * replace (7 * Z.of_nat n + 7) with (7 * Z.of_nat (S n)) by lia.
        apply IH. lia.
Qed.

(** X3: [Varint::decode] fails exactly when every one of the at most ten
    bytes available from [offset] has its continuation bit set (which
    includes the case of no byte being available). *)
Theorem varint_decode_fails_iff (input : list Z) (offset : nat) :
  Varint.decode input offset = None
  <-> forallb continuation (firstn 10 (skipn offset input)) = true.
Proof.
  rewrite decode_as_window.
  apply (decode_window_fails (skipn offset input) 0 0 0). lia.
Qed.

Lemma lor_disjoint_add (a m k : Z) :
  0 <= k -> 0 <= a < 2 ^ k -> Z.lor a (m * 2 ^ k) = a + m * 2 ^ k.
Proof.
  intros Hk Ha.
  assert (Hland : Z.land a (m * 2 ^ k) = 0).
  { apply Z.bits_inj'. intros i Hi. rewrite Z.land_spec, Z.bits_0.
    destruct (Z.lt_ge_cases i k) as [Hlt | Hge].
    - rewrite Z.mul_pow2_bits_low by lia. apply andb_false_r.
    - rewrite <- (Z.mod_small a (2 ^ k)) by assumption.
      rewrite Z.mod_pow2_bits_high by lia. reflexivity. }
  rewrite (Z.add_nocarry_lxor _ _ Hland). symmetry.
  apply Z.lxor_lor. assumption.
Qed.

Lemma payload_range (b : Z) : 0 <= Z.land (u8 b) 0x7F < 128.
Proof.
  change 0x7F with (Z.ones 7). rewrite Z.land_ones by lia.
  apply Z.mod_pos_bound. lia.
Qed.

(** The value accumulated when the window starts with bytes that have the
    continuation bit, followed by a byte that has not. *)
Lemma decode_window_value (pre : list Z) (t : Z) (rest : list Z)
      (value : Z) (n : nat) (bytes_read : nat) :
  forallb continuation pre = true ->
  continuation t = false ->
  (n + length pre <= 9)%nat ->
  0 <= value < 2 ^ (7 * Z.of_nat n) ->
  decode_window (pre ++ t :: rest) value (7 * Z.of_nat n) bytes_read
  = Some ((value + 2 ^ (7 * Z.of_nat n) * leb128_value (pre ++ [t]))
            mod 2 ^ 64,
          (bytes_read + length pre + 1)%nat).
Proof.
  revert value n bytes_read.
  induction pre as [|b pre IH]; intros value n bytes_read Hpre Ht Hn Hv.
  - cbn [app decode_window length leb128_value].
    replace (64 <=? 7 * Z.of_nat n) with false
      by (symmetry; apply Z.leb_gt; simpl in Hn; lia).
    unfold continuation in Ht. apply negb_false_iff in Ht. rewrite Ht.
    f_equal. f_equal; [|lia].
    pose proof (payload_range t) as Hc.
    set (c := Z.land (u8 t) 127) in *.
    set (k := 7 * Z.of_nat n) in *.
    assert (Hk : 0 <= k <= 63) by (simpl in Hn; lia).
    unfold u64. rewrite Z.shiftl_mul_pow2 by lia.
    assert (Hdiv : (c * 2 ^ k) mod 2 ^ 64
                   = (c mod 2 ^ (64 - k)) * 2 ^ k).
    { replace (2 ^ 64) with (2 ^ (64 - k) * 2 ^ k)
        by (rewrite <- Z.pow_add_r by lia; f_equal; lia).
      rewrite Z.mul_mod_distr_r by lia. reflexivity. }
    rewrite Hdiv, lor_disjoint_add by lia.
    replace (value + 2 ^ k * (c + 128 * 0)) with (value + c * 2 ^ k) by lia.
    rewrite <- Z.add_mod_idemp_r, Hdiv by lia.
    symmetry. apply Z.mod_small.
    pose proof (Z.mod_pos_bound c (2 ^ (64 - k)) ltac:(lia)) as Hm.
    assert (2 ^ 64 = 2 ^ (64 - k) * 2 ^ k)
      by (rewrite <- Z.pow_add_r by lia; f_equal; lia).
    nia.
  - cbn [app decode_window length].
    cbn [forallb] in Hpre. apply andb_prop in Hpre. destruct Hpre as [Hb Hpre].
    cbn [length] in Hn.
    replace (64 <=? 7 * Z.of_nat n) with false
      by (symmetry; apply Z.leb_gt; lia).
    unfold continuation in Hb. apply negb_true_iff in Hb. rewrite Hb.
    pose proof (payload_range b) as Hc.
    set (c := Z.land (u8 b) 127) in *.
    set (k := 7 * Z.of_nat n) in *.
    assert (Hk : 0 <= k <= 56) by lia.
    unfold u64. rewrite Z.shiftl_mul_pow2 by lia.
    assert (Hpow : 2 ^ (k + 7) = 128 * 2 ^ k)
      by (rewrite Z.pow_add_r by lia; lia).
    assert (Hle : 2 ^ (k + 7) <= 2 ^ 63) by (apply Z.pow_le_mono_r; lia).
    rewrite (Z.mod_small (c * 2 ^ k)) by nia.
    rewrite lor_disjoint_add by lia.
    replace (k + 7) with (7 * Z.of_nat (S n)) by lia.
    rewrite IH; try assumption; try lia.
    + f_equal. f_equal; [|lia].
      f_equal. cbn [app leb128_value]. fold c.
      replace (7 * Z.of_nat (S n)) with (k + 7) by lia. rewrite Hpow. ring.
    + replace (7 * Z.of_nat (S n)) with (k + 7) by lia. nia.
Qed.

Lemma decode_window_terminated (pre rest : list Z) (t : Z) :
  forallb continuation pre = true ->
  continuation t = false ->
  (length pre < 10)%nat ->
  decode_window (pre ++ t :: rest) 0 0 0
  = Some (leb128_value (pre ++ [t]) mod 2 ^ 64, S (length pre)).
Proof.
  intros Hpre Ht Hlen.
  change 0 with (7 * Z.of_nat 0) at 2.
  rewrite (decode_window_value pre t rest 0 0 0); try assumption;
    try (cbn; lia).
  change (2 ^ (7 * Z.of_nat 0)) with 1.
  replace (0 + 1 * leb128_value (pre ++ [t])) with (leb128_value (pre ++ [t]))
    by lia.
  replace (0 + length pre + 1)%nat with (S (length pre)) by lia.
  reflexivity.
Qed.

(** X2: when the first byte without a continuation bit is among the first
    ten available bytes, [Varint::decode] returns the unsigned LEB128 value
    of the bytes up to and including it, reduced modulo 2^64, and their
    number. *)
Theorem varint_decode_value (input pre rest : list Z) (t : Z)
        (offset : nat) :
  skipn offset input = pre ++ t :: rest ->
  forallb continuation pre = true ->
  continuation t = false ->
  (length pre < 10)%nat ->
  Varint.decode input offset
  = Some (leb128_value (pre ++ [t]) mod 2 ^ 64, S (length pre)).
Proof.
  intros Hw Hpre Ht Hlen.
  rewrite decode_as_window, Hw.
  apply decode_window_terminated; assumption.
Qed.

Lemma varint_decode_value_witness :
  Varint.decode [0x2A; 0x80; 0x01; 0xFF] 1 = Some (128 mod 2 ^ 64, 2%nat).
Proof.
  apply (varint_decode_value [0x2A; 0x80; 0x01; 0xFF] [0x80] [0xFF] 0x01 1).
  - reflexivity.
  - reflexivity.
  - reflexivity.
  - simpl. lia.
Defined.


Lemma land_128_check :
  forallb (fun y => Z.land y 0x80 =? (if y <? 128 then 0 else 128))
          (map Z.of_nat (seq 0 256)) = true.
Proof. vm_compute. reflexivity. Qed.

Lemma land_128 (y : Z) :
  0 <= y < 256 -> Z.land y 0x80 = if y <? 128 then 0 else 128.
Proof.
  intros Hy. apply Z.eqb_eq.
  apply (forallb_below _ 256 land_128_check). assumption.
Qed.

Lemma continuation_spec (b : Z) : continuation b = (128 <=? u8 b).
Proof.
  unfold continuation. assert (H : 0 <= u8 b < 256) by (apply Z.mod_pos_bound; lia).
  rewrite land_128 by assumption.
  destruct (u8 b <? 128) eqn:E.
  - apply Z.ltb_lt in E. symmetry. apply Z.leb_gt. assumption.
  - apply Z.ltb_ge in E. symmetry. apply Z.leb_le. assumption.
Qed.

Lemma payload_spec (b : Z) : Z.land (u8 b) 0x7F = b mod 128.
Proof.
  change 0x7F with (Z.ones 7). rewrite Z.land_ones by lia. unfold u8.
  change (2 ^ 8) with 256. change (2 ^ 7) with 128.
  assert (H : b = b mod 256 + (2 * (b / 256)) * 128)
    by (pose proof (Z.div_mod b 256 ltac:(lia)); lia).
  rewrite H at 2. rewrite Z.mod_add by lia. reflexivity.
Qed.

Lemma continued_byte (v : Z) :
  0 <= v ->
  let b := u8 (Z.lor (Z.land v 0x7F) 0x80) in
  continuation b = true /\ Z.land (u8 b) 0x7F = v mod 128.
Proof.
  intros Hv b.
  assert (Hm : 0 <= v mod 128 < 128) by (apply Z.mod_pos_bound; lia).
  assert (Hb : b = v mod 128 + 128).
  { unfold b. change 0x7F with (Z.ones 7). rewrite Z.land_ones by lia.
    change 0x80 with (1 * 2 ^ 7).
    rewrite lor_disjoint_add; [| lia | apply Z.mod_pos_bound; lia].
    change (2 ^ 7) with 128.
    unfold u8. apply Z.mod_small. change (2 ^ 8) with 256.
    change (1 * 128) with 128. lia. }
  split.
  - rewrite continuation_spec. apply Z.leb_le.
    rewrite Hb. unfold u8. change (2 ^ 8) with 256.
    rewrite Z.mod_small by lia. lia.
  - rewrite payload_spec, Hb.
    replace (v mod 128 + 128) with (v mod 128 + 1 * 128) by lia.
    rewrite Z.mod_add by lia. apply Z.mod_mod. lia.
Qed.

Lemma encode_bytes_shape (fuel : nat) (v : Z) :
  0 <= v < 2 ^ (7 * Z.of_nat fuel) -> (0 < fuel)%nat ->
  exists pre t,
    Varint.encode_bytes fuel v = pre ++ [t]
    /\ forallb continuation pre = true
    /\ continuation t = false
    /\ (length pre < fuel)%nat
    /\ leb128_value (pre ++ [t]) = v.
Proof.
  revert v. induction fuel as [|fuel IH]; intros v Hv Hf; [lia|].
  cbn [Varint.encode_bytes].
  destruct (128 <=? v) eqn:E.
  - apply Z.leb_le in E.
    assert (Hpow : 2 ^ (7 * Z.of_nat (S fuel)) = 128 * 2 ^ (7 * Z.of_nat fuel)).
    { replace (7 * Z.of_nat (S fuel)) with (7 + 7 * Z.of_nat fuel) by lia.
      rewrite Z.pow_add_r by lia. reflexivity. }
    assert (Hfuel : (0 < fuel)%nat).
    { destruct fuel; [|lia]. simpl in Hv. lia. }
    rewrite Z.shiftr_div_pow2 by lia. change (2 ^ 7) with 128.
    destruct (IH (v / 128)) as (pre & t & Henc & Hpre & Ht & Hlen & Hval).
    { split; [apply Z.div_pos; lia|].
      apply Z.div_lt_upper_bound; lia. }
    { assumption. }
    destruct (continued_byte v ltac:(lia)) as [Hc Hp].
    exists (u8 (Z.lor (Z.land v 127) 128) :: pre), t.
    rewrite Henc. repeat split.
    + cbn [forallb]. rewrite Hc, Hpre. reflexivity.
    + assumption.
    + simpl. lia.
    + cbn [app leb128_value]. rewrite Hp, Hval.
      pose proof (Z.div_mod v 128 ltac:(lia)). lia.
  - apply Z.leb_gt in E. exists [], (u8 v).
    assert (Hu : u8 v = v) by (unfold u8; apply Z.mod_small; simpl; lia).
    repeat split.
    + rewrite continuation_spec, Hu. unfold u8.
      rewrite Z.mod_small by (simpl; lia). apply Z.leb_gt. assumption.
    + simpl. lia.
    + cbn [app leb128_value]. rewrite payload_spec, Hu.
      rewrite Z.mod_small by lia. lia.
Qed.

Lemma size_loop_zero (fuel bytes : nat) : Varint.size_loop fuel 0 bytes = bytes.
Proof. destruct fuel; reflexivity. Qed.

Lemma size_loop_length (f : nat) :
  forall (fuel : nat) (v : Z) (bytes : nat),
    0 < v < 2 ^ (7 * Z.of_nat f) -> (f <= fuel)%nat ->
    Varint.size_loop fuel v bytes
    = (bytes + length (Varint.encode_bytes f v))%nat.
Proof.
  induction f as [|f IH]; intros fuel v bytes Hv Hf.
  - simpl in Hv. lia.
  - destruct fuel as [|fuel]; [lia|].
    cbn [Varint.size_loop Varint.encode_bytes].
    replace (0 <? v) with true by (symmetry; apply Z.ltb_lt; lia).
    rewrite Z.shiftr_div_pow2 by lia. change (2 ^ 7) with 128.
    assert (Hpow : 2 ^ (7 * Z.of_nat (S f)) = 128 * 2 ^ (7 * Z.of_nat f)).
    { replace (7 * Z.of_nat (S f)) with (7 + 7 * Z.of_nat f) by lia.
      rewrite Z.pow_add_r by lia. reflexivity. }
    destruct (128 <=? v) eqn:E.
    + apply Z.leb_le in E. rewrite IH.
      * simpl. lia.
      * split; [apply Z.div_str_pos; lia|].
        apply Z.div_lt_upper_bound; lia.
      * lia.
    + apply Z.leb_gt in E. rewrite Z.div_small by lia.
      rewrite size_loop_zero. simpl. lia.
Qed.

Lemma u64_range (v : Z) : 0 <= u64 v < 2 ^ 64.
Proof. unfold u64. apply Z.mod_pos_bound. lia. Qed.

(** X4: [Varint::size] is the number of bytes [Varint::encode] writes, and
    that number is between 1 and [max_size] = 10. *)
Theorem varint_size_is_encoded_length (value : Z) :
  Varint.size value
  = length (Varint.encode_bytes Varint.max_size (u64 value))
  /\ (1 <= Varint.size value <= Varint.max_size)%nat.
Proof.
  pose proof (u64_range value) as Hr.
  assert (Hlt : u64 value < 2 ^ (7 * Z.of_nat Varint.max_size))
    by (change (2 ^ (7 * Z.of_nat Varint.max_size)) with (2 ^ 70);
        assert (2 ^ 64 < 2 ^ 70) by (apply Z.pow_lt_mono_r; lia); lia).
  assert (Heq : Varint.size value
                = length (Varint.encode_bytes Varint.max_size (u64 value))).
  { unfold Varint.size. destruct (u64 value =? 0) eqn:E.
    - apply Z.eqb_eq in E. rewrite E. reflexivity.
    - apply Z.eqb_neq in E.
      rewrite (size_loop_length Varint.max_size);
        [reflexivity | lia | unfold Varint.max_size; lia]. }
  split; [assumption|]. rewrite Heq.
  destruct (encode_bytes_shape Varint.max_size (u64 value))
    as (pre & t & -> & _ & _ & Hlen & _);
    [lia | unfold Varint.max_size; lia |].
  rewrite length_app. simpl. lia.
Qed.

(** X1: what [Varint::encode] writes, [Varint::decode] reads back: decoding
    at the same offset returns the value (as a [uint64_t]) and the number
    of bytes that were written, whatever follows them in the buffer. *)
Theorem varint_round_trip (value : Z) (output output' : list Z)
        (offset n : nat) :
  Varint.encode value output offset = Some (output', n) ->
  Varint.decode output' offset = Some (u64 value, n)
  /\ length output' = length output.
Proof.
  unfold Varint.encode, memcpy. intros H.
  set (bytes := Varint.encode_bytes Varint.max_size (u64 value)) in *.
  destruct (offset + length bytes <=? length output)%nat eqn:E;
    [|discriminate].
  apply Nat.leb_le in E. cbn [bind] in H. inversion H; subst output' n.
  clear H.
  pose proof (u64_range value) as Hr.
  destruct (encode_bytes_shape Varint.max_size (u64 value))
    as (pre & t & Henc & Hpre & Ht & Hlen & Hval).
  { change (2 ^ (7 * Z.of_nat Varint.max_size)) with (2 ^ 70).
    assert (2 ^ 64 < 2 ^ 70) by (apply Z.pow_lt_mono_r; lia). lia. }
  { unfold Varint.max_size. lia. }
  fold bytes in Henc. split.
  - assert (Hskip : skipn offset
                      (firstn offset output ++ bytes
                         ++ skipn (offset + length bytes) output)
                    = pre ++ t :: skipn (offset + length bytes) output).
    { rewrite skipn_app, skipn_all2 by (rewrite length_firstn; lia).
      rewrite length_firstn, Nat.min_l by lia.
      rewrite Nat.sub_diag. cbn [skipn app].
      rewrite Henc, <- app_assoc. reflexivity. }
    rewrite decode_as_window, Hskip.
    rewrite decode_window_terminated
      by (try assumption; unfold Varint.max_size in Hlen; assumption).
    rewrite Hval, Henc, length_app. cbn [length].
    rewrite Z.mod_small by assumption. f_equal. f_equal. lia.
  - rewrite !length_app, length_firstn, length_skipn. lia.
Qed.

Lemma varint_round_trip_witness :
  Varint.decode [0xAA; 0xAC; 0x02; 0xAA] 1 = Some (u64 300, 2%nat)
  /\ length [0xAA; 0xAC; 0x02; 0xAA] = length [0xAA; 0xAA; 0xAA; 0xAA].
Proof.
  apply (varint_round_trip 300 [0xAA; 0xAA; 0xAA; 0xAA]
           [0xAA; 0xAC; 0x02; 0xAA] 1 2).
  vm_compute. reflexivity.
Defined.

(* ------------------------------------------------------------------ *)
(** ** Strings, scalars, fields and arrays *)

Lemma string_invariant_intro (MaxSize : nat) (sv : list Z) :
  (length sv <= MaxSize)%nat ->
  string_invariant MaxSize
    (mkString (sv ++ repeat 0 (MaxSize - length sv)) (length sv)).
Proof.
  intros H. unfold string_invariant. cbn [buffer_ current_len_].
  split; [|split].
  - rewrite length_app, repeat_length. lia.
  - assumption.
  - intros i Hi. rewrite app_nth2 by lia.
    apply nth_repeat_lt. lia.
Qed.

(** X5: [String::set] either stores the view or leaves the string as it
    was.  A view longer than [MaxSize] is refused with CapacityExceeded
    before any validator runs; a view that fits and fails a validator is
    refused with that validator's error; otherwise [get] returns exactly
    the view afterwards. *)
Theorem string_set_result (MaxSize : nat)
        (Validators : list (Validator (list Z)))
        (s : StringRep) (sv : list Z) :
  let result := CrunchString.set MaxSize Validators s sv in
  ((MaxSize < length sv)%nat ->
   result = (Some (Error.capacity_exceeded 0 "string exceeds capacity"), s))
  /\ ((length sv <= MaxSize)%nat ->
      forall err, run_validators Validators sv 0 = Some err ->
                  result = (Some err, s))
  /\ ((length sv <= MaxSize)%nat ->
      run_validators Validators sv 0 = None ->
      fst result = None
      /\ CrunchString.get (snd result) = sv
      /\ current_len_ (snd result) = length sv).
Proof.
  unfold CrunchString.set, CrunchString.Validate. cbv zeta.
  split; [|split].
  - intros H. apply Nat.ltb_lt in H. rewrite H. reflexivity.
  - intros H err Herr. apply Nat.ltb_ge in H. rewrite H, Herr. reflexivity.
  - intros H Hok. apply Nat.ltb_ge in H. rewrite H, Hok.
    cbn [fst snd]. unfold CrunchString.get. cbn [buffer_ current_len_].
    repeat split.
    rewrite firstn_app, firstn_all, Nat.sub_diag, firstn_O. apply app_nil_r.
Qed.

(** X6: construction, [set] (successful or not) and [clear] keep the
    invariant of [String<MaxSize>]: the buffer has [MaxSize] bytes, the
    length is at most [MaxSize] and every byte from the length on is
    zero. *)
Theorem string_operations_keep_invariant (MaxSize : nat)
        (Validators : list (Validator (list Z)))
        (s : StringRep) (sv : list Z) :
  string_invariant MaxSize (CrunchString.default MaxSize)
  /\ string_invariant MaxSize (CrunchString.construct MaxSize Validators sv)
  /\ string_invariant MaxSize (CrunchString.clear MaxSize s)
  /\ (string_invariant MaxSize s ->
      string_invariant MaxSize (snd (CrunchString.set MaxSize Validators s sv))).
Proof.
  assert (Hdef : string_invariant MaxSize (CrunchString.default MaxSize)).
  { unfold CrunchString.default.
    replace (repeat 0 MaxSize) with ([] ++ repeat 0 (MaxSize - length (@nil Z)))
      by (simpl; f_equal; lia).
    apply (string_invariant_intro MaxSize []). simpl. lia. }
  assert (Hset : forall s0, string_invariant MaxSize s0 ->
            string_invariant MaxSize
              (snd (CrunchString.set MaxSize Validators s0 sv))).
  { intros s0 Hs0. unfold CrunchString.set.
    destruct (MaxSize <? length sv)%nat eqn:E; [assumption|].
    apply Nat.ltb_ge in E.
    destruct (CrunchString.Validate Validators sv 0); [assumption|].
    apply string_invariant_intro. assumption. }
  split; [exact Hdef|]. split; [exact (Hset _ Hdef)|].
  split; [exact Hdef | exact (Hset s)].
Qed.

Lemma string_operations_keep_invariant_witness :
  string_invariant 4
    (snd (CrunchString.set 4 [validators.None] (CrunchString.default 4)
            [104; 105])).
Proof.
  apply (string_operations_keep_invariant 4 [validators.None]
           (CrunchString.default 4) [104; 105]).
  apply (string_operations_keep_invariant 4 [validators.None]
           (CrunchString.default 4) [104; 105]).
Defined.

Lemma string_set_result_witness :
  CrunchString.get
    (snd (CrunchString.set 4 [validators.None] (CrunchString.default 4)
            [104; 105]))
  = [104; 105].
Proof.
  apply (string_set_result 4 [validators.None] (CrunchString.default 4)
           [104; 105]).
  - simpl. lia.
  - reflexivity.
Defined.

(** X7: [Field::set] on a scalar field runs the validators first.  When
    one fails, its error is returned (with field id 0) and the field keeps
    its value and its is-set flag; when all pass, the field is set, [get]
    returns the new value, and [Validate] and [validate_presence] of the
    field succeed. *)
Theorem scalar_field_set (Id : FieldId) (P : Presence)
        (Validators : list (Validator Z)) (f : FieldRep Z) (v : Z) :
  let set := FieldWrapper.set (CrunchScalar.set Validators) in
  let get := FieldWrapper.get CrunchScalar.get in
  let Validate :=
    FieldWrapper.Validate (fun x => CrunchScalar.Validate Validators x 0) in
  match run_validators Validators v 0 with
  | Some err => set f v = (Some err, f)
  | None =>
      fst (set f v) = None
      /\ get (snd (set f v)) = Some v
      /\ Validate (snd (set f v)) = None
      /\ FieldWrapper.validate_presence Id P (snd (set f v)) = None
  end.
Proof.
  cbv zeta. unfold FieldWrapper.set, CrunchScalar.set, CrunchScalar.Validate.
  destruct (run_validators Validators v 0) as [err|] eqn:E.
  - destruct f. reflexivity.
  - cbn [fst snd]. unfold FieldWrapper.get, FieldWrapper.Validate,
      FieldWrapper.validate_presence, CrunchScalar.get, CrunchScalar.Validate.
    cbn [field_set_ field_value_ negb]. rewrite E.
    repeat split. destruct P; reflexivity.
Qed.

(** X8: [ArrayField::add] appends while there is room and refuses
    otherwise.  On an array that holds fewer than [MaxSize] elements it
    succeeds, the active elements become the old ones followed by the new
    one, and the representation invariant is kept; on an array that holds
    [MaxSize] elements it returns CapacityExceeded with the array's field
    id and leaves the array as it was. *)
Theorem array_add_result {A : Type} (Id : FieldId) (MaxSize : nat)
        (a : ArrayRep A) (val : A) :
  ArrayFieldOps.invariant MaxSize a ->
  let result := ArrayFieldOps.add Id MaxSize a val in
  ((array_current_len_ a < MaxSize)%nat ->
   fst result = None
   /\ ArrayFieldOps.get (snd result) = ArrayFieldOps.get a ++ [val]
   /\ ArrayFieldOps.size (snd result) = S (ArrayFieldOps.size a)
   /\ ArrayFieldOps.invariant MaxSize (snd result))
  /\ ((array_current_len_ a = MaxSize)%nat ->
      result
      = (Some (Error.capacity_exceeded Id "array capacity exceeded"), a)).
Proof.
  intros [Hlen Hcur]. cbv zeta. unfold ArrayFieldOps.add. split.
  - intros Hlt.
    replace (MaxSize <=? array_current_len_ a)%nat with false
      by (symmetry; apply Nat.leb_gt; assumption).
    cbn [fst snd]. unfold ArrayFieldOps.get, ArrayFieldOps.size,
      ArrayFieldOps.invariant. cbn [array_items_ array_current_len_].
    set (i := array_current_len_ a) in *. set (items := array_items_ a) in *.
    assert (Hfi : length (firstn i items) = i)
      by (rewrite length_firstn; lia).
    repeat split.
    + replace (S i) with (length (firstn i items ++ [val]))
        by (rewrite length_app, Hfi; simpl; lia).
      replace (firstn i items ++ val :: skipn (length (firstn i items ++ [val])) items)
        with ((firstn i items ++ [val])
                ++ skipn (length (firstn i items ++ [val])) items)
        by (rewrite <- app_assoc; reflexivity).
      rewrite firstn_app, firstn_all, Nat.sub_diag, firstn_O.
      apply app_nil_r.
    + rewrite length_app. cbn [length]. rewrite Hfi, length_skipn. lia.
    + lia.
  - intros Heq.
    replace (MaxSize <=? array_current_len_ a)%nat with true
      by (symmetry; apply Nat.leb_le; lia).
    reflexivity.
Qed.

Lemma array_add_result_witness :
  ArrayFieldOps.get
    (snd (ArrayFieldOps.add 1 3 (mkArray [10; 0; 0] 1) 20))
  = ArrayFieldOps.get (mkArray [10; 0; 0] 1) ++ [20].
Proof.
  apply (array_add_result 1 3 (mkArray [10; 0; 0] 1) 20).
  - split; [reflexivity | simpl; lia].
  - simpl. lia.
Defined.

(* ------------------------------------------------------------------ *)
(** ** MapField: insertion, lookup and removal *)

Section MapFieldLookup.
Context {KeyField KeyType ValueField ValueType : Type}.
Context {KeyElement : MapElement KeyField KeyType}.
Context {ValueElement : MapElement ValueField ValueType}.
Variable Id : FieldId.
Variable MaxSize : nat.

Lemma find_app_none {A : Type} (f : A -> bool) (l1 l2 : list A) :
  find f l1 = None -> find f (l1 ++ l2) = find f l2.
Proof.
  induction l1 as [|x l1 IH]; simpl; [reflexivity|].
  destruct (f x); [discriminate | assumption].
Qed.

Lemma find_app_some {A : Type} (f : A -> bool) (l1 l2 : list A) (x : A) :
  find f l1 = Some x -> find f (l1 ++ l2) = Some x.
Proof.
  induction l1 as [|y l1 IH]; simpl; [discriminate|].
  destruct (f y); [trivial | assumption].
Qed.

Lemma firstn_S_insert {A : Type} (items : list A) (i : nat) (x : A) :
  (i < length items)%nat ->
  firstn (S i) (firstn i items ++ x :: skipn (S i) items)
  = firstn i items ++ [x].
Proof.
  intros H.
  assert (Hfi : length (firstn i items) = i) by (rewrite length_firstn; lia).
  replace (firstn i items ++ x :: skipn (S i) items)
    with ((firstn i items ++ [x]) ++ skipn (S i) items)
    by (rewrite <- app_assoc; reflexivity).
  rewrite firstn_app, firstn_all2 by (rewrite length_app, Hfi; simpl; lia).
  rewrite length_app, Hfi. cbn [length].
  replace (S i - (i + 1))%nat with 0%nat by lia.
  rewrite firstn_O. apply app_nil_r.
Qed.

(** X9: a successful [MapField::insert] makes the key retrievable and
    disturbs no other entry: the size grows by one, [at(key)] returns the
    value that was stored, and every key that [at] found before is still
    found with the same value.  (The law on [key] says that a key compares
    equal to itself once stored, as scalar keys do.) *)
Theorem insert_then_at (m : MapRep KeyField ValueField) (key : KeyType)
        (value : ValueType) (m' : MapRep KeyField ValueField) :
  length (map_items_ m) = MaxSize ->
  (forall slot, element_equals (element_store slot key) key = true) ->
  MapField.insert Id MaxSize m key value = (None, m') ->
  MapField.size m' = S (MapField.size m)
  /\ (exists slot, MapField.at_ m' key = Some (element_store slot value))
  /\ (forall key' v, MapField.at_ m key' = Some v ->
                     MapField.at_ m' key' = Some v).
Proof.
  intros Hlen Hlaw H. unfold MapField.insert in H.
  destruct (element_Validate key); [discriminate|].
  destruct (element_Validate value); [discriminate|].
  destruct (MaxSize <=? map_current_len_ m)%nat eqn:E; [discriminate|].
  apply Nat.leb_gt in E.
  destruct (MapField.at_ m key) eqn:Hat; [discriminate|].
  cbv zeta in H. apply (f_equal snd) in H. cbn [snd] in H. subst m'.
  unfold MapField.size, MapField.at_ in *. cbn [map_items_ map_current_len_].
  rewrite firstn_S_insert by lia.
  split; [reflexivity|]. split.
  - eexists. rewrite find_app_none.
    + cbn [find fst]. rewrite Hlaw. cbn [option_map snd]. reflexivity.
    + destruct (find _ (firstn (map_current_len_ m) (map_items_ m)));
        [discriminate | reflexivity].
  - intros key' v Hv.
    destruct (find (fun pair => element_equals (fst pair) key')
                   (firstn (map_current_len_ m) (map_items_ m)))
      as [p|] eqn:Hf; [|discriminate].
    rewrite (find_app_some _ _ _ _ Hf). assumption.
Qed.

End MapFieldLookup.

Lemma insert_then_at_witness :
  MapField.size
    (snd (MapField.insert (KeyElement := ScalarElement [validators.None])
            (ValueElement := ScalarElement [validators.None])
            7 3 map_one_of_three 2 20))
  = S (MapField.size map_one_of_three).
Proof.
  apply (insert_then_at (KeyElement := ScalarElement [validators.None])
           (ValueElement := ScalarElement [validators.None])
           7 3 map_one_of_three 2 20).
  - reflexivity.
  - intros slot. apply Z.eqb_refl.
  - reflexivity.
Defined.

Section MapFieldRemoval.
Context {KeyField KeyType ValueField : Type}.
Variable key_equals : KeyField -> KeyType -> bool.
Variable clear_key : KeyField -> KeyField.
Variable clear_value : ValueField -> ValueField.

Lemma find_index_split {A : Type} (f : A -> bool) (l : list A) (i : nat) :
  find_index f l = Some i ->
  exists a x b,
    l = a ++ x :: b /\ length a = i /\ f x = true
    /\ forallb (fun y => negb (f y)) a = true.
Proof.
  revert i. induction l as [|y l IH]; intros i H; simpl in H; [discriminate|].
  destruct (f y) eqn:E.
  - inversion H; subst. exists [], y, l. repeat split. assumption.
  - destruct (find_index f l) as [j|]; [|discriminate].
    inversion H; subst. destruct (IH j eq_refl) as (a & x & b & -> & Ha & Hx & Hn).
    exists (y :: a), x, b. repeat split; simpl; try congruence.
    rewrite E, Hn. reflexivity.
Qed.

Lemma middle_slot {A : Type} (a c : list A) (x : A) :
  nth_error (a ++ x :: c) (length a) = Some x
  /\ firstn (length a) (a ++ x :: c) = a
  /\ skipn (S (length a)) (a ++ x :: c) = c.
Proof.
  repeat split.
  - rewrite nth_error_app2, Nat.sub_diag by lia. reflexivity.
  - rewrite firstn_app, firstn_all, Nat.sub_diag. simpl. apply app_nil_r.
  - induction a as [|y a IH]; simpl; [reflexivity | assumption].
Qed.

Lemma clear_slot_middle (a c : list (KeyField * ValueField))
      (x : KeyField * ValueField) :
  MapFieldRemove.clear_slot clear_key clear_value (length a) (a ++ x :: c)
  = a ++ (clear_key (fst x), clear_value (snd x)) :: c.
Proof.
  unfold MapFieldRemove.clear_slot.
  destruct (middle_slot a c x) as (-> & -> & ->). reflexivity.
Qed.

Lemma last_nonempty_default {A : Type} (l : list A) (x d d' : A) :
  last (x :: l) d = last (x :: l) d'.
Proof.
  revert x. induction l as [|y l IH]; intros x; [reflexivity|].
  change (last (y :: l) d = last (y :: l) d'). apply IH.
Qed.

Lemma shift_down_spec (b : list (KeyField * ValueField)) :
  forall (a c : list (KeyField * ValueField)) (x : KeyField * ValueField),
    MapFieldRemove.shift_down (length a) (length a + 1 + length b)
                              (a ++ x :: b ++ c)
    = a ++ b ++ last (x :: b) x :: c.
Proof.
  unfold MapFieldRemove.shift_down.
  induction b as [|y b IH]; intros a c x.
  - cbn [length]. replace (length a + 1 + 0 - 1 - length a)%nat with 0%nat
      by lia.
    reflexivity.
  - cbn [length].
    replace (length a + 1 + S (length b) - 1 - length a)%nat
      with (S (length b)) by lia.
    cbn [seq fold_left app].
    assert (Hnth : nth_error (a ++ x :: y :: b ++ c) (S (length a)) = Some y).
    { rewrite nth_error_app2 by lia.
      replace (S (length a) - length a)%nat with 1%nat by lia. reflexivity. }
    rewrite Hnth.
    destruct (middle_slot a (y :: b ++ c) x) as (_ & -> & ->).
    specialize (IH (a ++ [y]) c y).
    rewrite length_app in IH. cbn [length] in IH.
    replace (length a + 1 + 1 + length b - 1 - (length a + 1))%nat
      with (length b) in IH by lia.
    replace (length a + 1)%nat with (S (length a)) in IH by lia.
    replace (a ++ y :: y :: b ++ c) with ((a ++ [y]) ++ y :: b ++ c)
      by (rewrite <- app_assoc; reflexivity).
    rewrite IH, <- app_assoc. cbn [app].
    f_equal. f_equal. f_equal. f_equal.
    change (last (x :: y :: b) x) with (last (y :: b) x).
    apply last_nonempty_default.
Qed.

Lemma remove_found (m : MapRep KeyField ValueField) (key : KeyType)
      (i : nat) :
  (map_current_len_ m <= length (map_items_ m))%nat ->
  let active := firstn (map_current_len_ m) (map_items_ m) in
  let result := MapFieldRemove.remove key_equals clear_key clear_value m key in
  find_index (fun entry => key_equals (fst entry) key) active = Some i ->
  fst result = true
  /\ map_current_len_ (snd result) = (map_current_len_ m - 1)%nat
  /\ firstn (map_current_len_ (snd result)) (map_items_ (snd result))
     = firstn i active ++ skipn (S i) active.
Proof.
  intros Hlen. cbv zeta. intros E. unfold MapFieldRemove.remove. rewrite E.
  cbn [fst snd map_current_len_ map_items_].
  split; [reflexivity|]. split; [reflexivity|].
  destruct (find_index_split _ _ _ E) as (a & x & b & Hact & Ha & _ & _).
  assert (Hitems : map_items_ m
                   = a ++ x :: b ++ skipn (map_current_len_ m) (map_items_ m)).
  { rewrite <- (firstn_skipn (map_current_len_ m) (map_items_ m)) at 1.
    rewrite Hact, <- app_assoc. reflexivity. }
  assert (Hcur : map_current_len_ m = (length a + 1 + length b)%nat).
  { assert (H : length (firstn (map_current_len_ m) (map_items_ m))
                = map_current_len_ m) by (rewrite length_firstn; lia).
    rewrite Hact, length_app in H. cbn [length] in H. lia. }
  set (c := skipn (map_current_len_ m) (map_items_ m)) in *.
  rewrite Hact, Hitems. subst i.
  rewrite clear_slot_middle, Hcur, shift_down_spec.
  replace (length a + 1 + length b - 1)%nat with (length (a ++ b))
    by (rewrite length_app; lia).
  rewrite app_assoc, clear_slot_middle.
  destruct (middle_slot (a ++ b) c
              (clear_key (fst (last ((clear_key (fst x), clear_value (snd x)) :: b)
                                    (clear_key (fst x), clear_value (snd x)))),
               clear_value (snd (last ((clear_key (fst x), clear_value (snd x)) :: b)
                                      (clear_key (fst x), clear_value (snd x))))))
    as (_ & -> & _).
  destruct (middle_slot a b x) as (_ & -> & ->). reflexivity.
Qed.


(** X10: [MapField::remove] of a key that is not among the active pairs
    returns false and leaves the map as it was; otherwise it returns true,
    the size drops by one, and the active pairs are the former ones without
    the first pair whose key matches, in their former order (the pairs
    behind it are shifted down). *)
Theorem remove_result (m : MapRep KeyField ValueField) (key : KeyType) :
  (map_current_len_ m <= length (map_items_ m))%nat ->
  let active := firstn (map_current_len_ m) (map_items_ m) in
  let result := MapFieldRemove.remove key_equals clear_key clear_value m key in
  match find_index (fun entry => key_equals (fst entry) key) active with
  | None => result = (false, m)
  | Some i =>
      fst result = true
      /\ map_current_len_ (snd result) = (map_current_len_ m - 1)%nat
      /\ firstn (map_current_len_ (snd result)) (map_items_ (snd result))
         = firstn i active ++ skipn (S i) active
  end.
Proof.
  intros Hlen. cbv zeta.
  destruct (find_index _ _) as [i|] eqn:E.
  - exact (remove_found m key i Hlen E).
  - unfold MapFieldRemove.remove. rewrite E. reflexivity.
Qed.

End MapFieldRemoval.

Lemma remove_result_witness :
  firstn 2 (map_items_
              (snd (MapFieldRemove.remove Z.eqb (fun _ => 0) (fun _ => 0)
                      (mkMap [(1, 10); (2, 20); (3, 30)] 3) 2)))
  = [(1, 10); (3, 30)].
Proof.
  apply (remove_result Z.eqb (fun _ => 0) (fun _ => 0)
           (mkMap [(1, 10); (2, 20); (3, 30)] 3) 2).
  simpl. lia.
Defined.

(* ------------------------------------------------------------------ *)
(** ** Induction over types *)

Section TyInduction.
Variable P : Ty -> Prop.
Hypothesis HScalar : forall k Vs, P (Scalar k Vs).
Hypothesis HString : forall n Vs, P (String_ n Vs).
Hypothesis HMessage :
  forall id fields V, Forall P fields -> P (Message id fields V).
Hypothesis HArray : forall Id E n Vs, P E -> P (ArrayField Id E n Vs).
Hypothesis HMap :
  forall Id K V n Vs, P K -> P V -> P (MapField Id K V n Vs).
Hypothesis HField : forall Id Pr T, P T -> P (Field Id Pr T).

Fixpoint Ty_nested_ind (T : Ty) : P T :=
  match T with
  | Scalar k Vs => HScalar k Vs
  | String_ n Vs => HString n Vs
  | Message id fields V =>
      HMessage id fields V
        ((fix all (l : list Ty) : Forall P l :=
            match l with
            | [] => Forall_nil P
            | t :: l' => Forall_cons t (Ty_nested_ind t) (all l')
            end) fields)
  | ArrayField Id E n Vs => HArray Id E n Vs (Ty_nested_ind E)
  | MapField Id K V n Vs =>
      HMap Id K V n Vs (Ty_nested_ind K) (Ty_nested_ind V)
  | Field Id Pr T' => HField Id Pr T' (Ty_nested_ind T')
  end.

End TyInduction.

(* ------------------------------------------------------------------ *)
(** ** Memory primitives *)

Lemma writes_within_refl (output : list Z) (offset : nat) :
  (offset <= length output)%nat ->
  writes_within output offset output offset.
Proof. intros H. unfold writes_within. repeat split; auto. Qed.

Lemma firstn_firstn_le {A : Type} (n m : nat) (l l' : list A) :
  (n <= m)%nat -> firstn m l = firstn m l' -> firstn n l = firstn n l'.
Proof.
  intros Hnm H.
  replace n with (Nat.min n m) by lia.
  rewrite <- !firstn_firstn. rewrite H. reflexivity.
Qed.

Lemma skipn_skipn_le {A : Type} (n m : nat) (l l' : list A) :
  (n <= m)%nat -> skipn n l = skipn n l' -> skipn m l = skipn m l'.
Proof.
  intros Hnm H.
  replace m with ((m - n) + n)%nat by lia.
  rewrite <- !skipn_skipn. rewrite H. reflexivity.
Qed.

Lemma writes_within_trans (o0 : list Z) (f0 : nat) (o1 : list Z) (f1 : nat)
      (o2 : list Z) (f2 : nat) :
  writes_within o0 f0 o1 f1 -> writes_within o1 f1 o2 f2 ->
  writes_within o0 f0 o2 f2.
Proof.
  intros (H1 & H2 & H3 & H4 & H5) (G1 & G2 & G3 & G4 & G5).
  unfold writes_within. repeat split; try lia.
  - rewrite <- H4. apply firstn_firstn_le with (m := f1); assumption.
  - rewrite G5. apply skipn_skipn_le with (n := f1); assumption.
Qed.

Lemma memcpy_writes_within (dst : list Z) (offset : nat) (src dst' : list Z) :
  memcpy dst offset src = Some dst' ->
  writes_within dst offset dst' (offset + length src).
Proof.
  unfold memcpy. destruct (Nat.leb_spec (offset + length src) (length dst));
    [|discriminate].
  intros E. injection E as <-.
  unfold writes_within. repeat split; try lia.
  - rewrite !length_app, length_firstn, length_skipn. lia.
  - rewrite firstn_app, firstn_firstn, length_firstn.
    replace (Nat.min offset offset) with offset by lia.
    replace (offset - Nat.min offset (length dst))%nat with 0%nat by lia.
    rewrite firstn_O, app_nil_r. reflexivity.
  - rewrite app_assoc, skipn_app.
    rewrite length_app, length_firstn.
    replace (Nat.min offset (length dst)) with offset by lia.
    rewrite Nat.sub_diag, skipn_O.
    rewrite skipn_all2; [reflexivity|].
    rewrite length_app, length_firstn. lia.
Qed.

Lemma memcpy_defined (dst : list Z) (offset : nat) (src : list Z) :
  (offset + length src <= length dst)%nat ->
  exists dst', memcpy dst offset src = Some dst'.
Proof.
  intros H. unfold memcpy.
  destruct (Nat.leb_spec (offset + length src) (length dst)); [eauto | lia].
Qed.

Lemma load_defined (src : list Z) (offset size : nat) :
  (offset + size <= length src)%nat ->
  load src offset size = Some (firstn size (skipn offset src)).
Proof.
  intros H. unfold load.
  destruct (Nat.leb_spec (offset + size) (length src)); [reflexivity | lia].
Qed.

Lemma load_written (dst : list Z) (offset : nat) (src dst' : list Z) :
  memcpy dst offset src = Some dst' ->
  load dst' offset (length src) = Some src.
Proof.
  unfold memcpy. destruct (Nat.leb_spec (offset + length src) (length dst));
    [|discriminate].
  intros E. injection E as <-.
  rewrite load_defined.
  - rewrite skipn_app, length_firstn.
    replace (Nat.min offset (length dst)) with offset by lia.
    rewrite Nat.sub_diag, skipn_O.
    rewrite skipn_all2 by (rewrite length_firstn; lia).
    cbn [app]. rewrite firstn_app, Nat.sub_diag, firstn_O, app_nil_r.
    rewrite firstn_all. reflexivity.
  - rewrite !length_app, length_firstn, length_skipn. lia.
Qed.

(** A read inside the untouched prefix sees the old bytes. *)
Lemma load_prefix (a b : list Z) (n offset size : nat) :
  firstn n a = firstn n b -> (n <= length a)%nat ->
  (offset + size <= n)%nat ->
  load a offset size = load b offset size.
Proof.
  intros H Hn Hle.
  assert (Hb : (n <= length b)%nat).
  { apply (f_equal (@length Z)) in H. rewrite !length_firstn in H. lia. }
  rewrite !load_defined by lia.
  rewrite <- (firstn_skipn n a), <- (firstn_skipn n b), H.
  rewrite !skipn_app, !firstn_app.
  assert (Hl : length (firstn n b) = n) by (rewrite length_firstn; lia).
  rewrite !length_skipn, !Hl.
  replace (offset - n)%nat with 0%nat by lia.
  replace (size - (n - offset))%nat with 0%nat by lia.
  rewrite !firstn_O. reflexivity.
Qed.

Lemma le_bytes_length (n : nat) (v : Z) : length (le_bytes n v) = n.
Proof.
  revert v. induction n as [|n IH]; intros v; simpl; [reflexivity|].
  rewrite IH. reflexivity.
Qed.

(* ------------------------------------------------------------------ *)
(** ** Padding and end offsets *)

Lemma padding_shift (Alignment sizeof_T offset c : nat) :
  (c mod Nat.min sizeof_T Alignment = 0)%nat ->
  StaticLayout.calculate_padding Alignment sizeof_T (offset + c)
  = StaticLayout.calculate_padding Alignment sizeof_T offset.
Proof.
  intros Hc. unfold StaticLayout.calculate_padding. cbv zeta.
  rewrite Nat.Div0.add_mod, Hc, Nat.add_0_r, Nat.Div0.mod_mod. reflexivity.
Qed.

Lemma aligned_shift (Alignment sizeof_T c : nat) :
  consistent_alignment Alignment ->
  In sizeof_T [1; 2; 4; 8; Alignment]%nat ->
  (c mod Alignment = 0)%nat ->
  (c mod Nat.min sizeof_T Alignment = 0)%nat.
Proof.
  intros [-> | ->] Hin Hc.
  - cbn [In] in Hin.
    destruct Hin as [<- | [<- | [<- | [<- | [<- | []]]]]]; reflexivity.
  - apply Nat.Div0.div_exact in Hc.
    set (q := (c / 4)%nat) in *. clearbody q. subst c.
    cbn [In] in Hin.
    destruct Hin as [<- | [<- | [<- | [<- | [<- | []]]]]].
    + change (Nat.min 1 4) with 1%nat. apply Nat.mod_1_r.
    + change (Nat.min 2 4) with 2%nat.
      replace (4 * q)%nat with ((2 * q) * 2)%nat by lia.
      apply Nat.Div0.mod_mul.
    + change (Nat.min 4 4) with 4%nat.
      rewrite Nat.mul_comm. apply Nat.Div0.mod_mul.
    + change (Nat.min 8 4) with 4%nat.
      rewrite Nat.mul_comm. apply Nat.Div0.mod_mul.
    + change (Nat.min 4 4) with 4%nat.
      rewrite Nat.mul_comm. apply Nat.Div0.mod_mul.
Qed.

Lemma sizeof_cases (k : ScalarKind) (Alignment : nat) :
  In (sizeof k) [1; 2; 4; 8; Alignment]%nat.
Proof. destruct k; cbn; auto 6. Qed.

Lemma iter_mono (f : nat -> nat) (n x : nat) :
  (forall y, y <= f y)%nat -> (x <= Nat.iter n f x)%nat.
Proof.
  intros Hf. induction n as [|n IH]; simpl; [lia|].
  specialize (Hf (Nat.iter n f x)). lia.
Qed.

Lemma iter_shift (f : nat -> nat) (n x c : nat) :
  (forall y, f (y + c) = f y + c)%nat ->
  (Nat.iter n f (x + c) = Nat.iter n f x + c)%nat.
Proof.
  intros Hf. induction n as [|n IH]; simpl; [reflexivity|].
  rewrite IH. apply Hf.
Qed.

Lemma payload_fold (Alignment : nat) (fields : list Ty) (offset : nat) :
  (fix payload (fields : list Ty) (offset : nat) {struct fields} : nat :=
     match fields with
     | [] => offset
     | F :: rest =>
         payload rest
           match F with
           | Field _ _ ValueType =>
               StaticLayout.calculate_value_end_offset Alignment ValueType
                                                       (offset + 1)
           | _ => StaticLayout.calculate_value_end_offset Alignment F offset
           end
     end) fields offset
  = StaticLayout.calculate_payload_fields Alignment fields offset.
Proof.
  unfold StaticLayout.calculate_payload_fields.
  revert offset. induction fields as [|F rest IH]; intros offset;
    [reflexivity|].
  cbn [fold_left]. rewrite IH. reflexivity.
Qed.

Lemma end_offset_Message (Alignment : nat) id fields V (offset : nat) :
  StaticLayout.calculate_value_end_offset Alignment (Message id fields V)
                                          offset
  = (offset + StaticLayout.calculate_padding Alignment Alignment offset + 4
     + StaticLayout.calculate_payload_fields Alignment fields 0)%nat.
Proof.
  cbn [StaticLayout.calculate_value_end_offset]. cbv zeta.
  rewrite payload_fold. lia.
Qed.

Lemma end_offset_mono (Alignment : nat) (T : Ty) (offset : nat) :
  (offset <= StaticLayout.calculate_value_end_offset Alignment T offset)%nat.
Proof.
  revert offset. induction T using Ty_nested_ind; intros offset.
  - cbn. lia.
  - cbn. lia.
  - rewrite end_offset_Message. lia.
  - cbn [StaticLayout.calculate_value_end_offset]. cbv zeta.
    etransitivity; [|apply iter_mono; exact IHT]. lia.
  - cbn [StaticLayout.calculate_value_end_offset]. cbv zeta.
    etransitivity; [|apply iter_mono]. { lia. }
    intros y. cbv beta. etransitivity; [apply IHT1 | apply IHT2].
  - cbn. lia.
Qed.

Lemma field_end_offset_mono (Alignment : nat) (F : Ty) (offset : nat) :
  (offset <= StaticLayout.calculate_field_end_offset Alignment F offset)%nat.
Proof.
  destruct F; cbn [StaticLayout.calculate_field_end_offset];
    try apply end_offset_mono.
  etransitivity; [|apply end_offset_mono]. lia.
Qed.

Lemma payload_fields_mono (Alignment : nat) (fields : list Ty)
      (offset : nat) :
  (offset <= StaticLayout.calculate_payload_fields Alignment fields offset)%nat.
Proof.
  unfold StaticLayout.calculate_payload_fields.
  revert offset. induction fields as [|F rest IH]; intros offset;
    cbn [fold_left]; [lia|].
  etransitivity; [apply (field_end_offset_mono Alignment F) | apply IH].
Qed.

Lemma end_offset_shift (Alignment : nat) (T : Ty) (offset c : nat) :
  consistent_alignment Alignment -> (c mod Alignment = 0)%nat ->
  StaticLayout.calculate_value_end_offset Alignment T (offset + c)
  = (StaticLayout.calculate_value_end_offset Alignment T offset + c)%nat.
Proof.
  intros HA Hc. revert offset.
  assert (Hpad : forall sz offset,
             In sz [1; 2; 4; 8; Alignment]%nat ->
             StaticLayout.calculate_padding Alignment sz (offset + c)
             = StaticLayout.calculate_padding Alignment sz offset).
  { intros sz offset Hin. apply padding_shift.
    apply aligned_shift; assumption. }
  induction T using Ty_nested_ind; intros offset.
  - cbn [StaticLayout.calculate_value_end_offset].
    rewrite Hpad by apply sizeof_cases. lia.
  - cbn [StaticLayout.calculate_value_end_offset].
    rewrite Hpad by (cbn; auto). lia.
  - rewrite !end_offset_Message. rewrite Hpad by (cbn; auto 6). lia.
  - cbn [StaticLayout.calculate_value_end_offset]. cbv zeta.
    rewrite Hpad by (cbn; auto).
    rewrite <- iter_shift by exact IHT. f_equal. lia.
  - cbn [StaticLayout.calculate_value_end_offset]. cbv zeta.
    rewrite Hpad by (cbn; auto).
    rewrite <- iter_shift.
    + f_equal. lia.
    + intros y. cbv beta. rewrite IHT1, IHT2. reflexivity.
  - reflexivity.
Qed.

Lemma field_end_offset_shift (Alignment : nat) (F : Ty) (offset c : nat) :
  consistent_alignment Alignment -> (c mod Alignment = 0)%nat ->
  StaticLayout.calculate_field_end_offset Alignment F (offset + c)
  = (StaticLayout.calculate_field_end_offset Alignment F offset + c)%nat.
Proof.
  intros HA Hc.
  destruct F; cbn [StaticLayout.calculate_field_end_offset];
    try (apply end_offset_shift; assumption).
  replace (offset + c + 1)%nat with (offset + 1 + c)%nat by lia.
  apply end_offset_shift; assumption.
Qed.

Lemma payload_fields_shift (Alignment : nat) (fields : list Ty)
      (offset c : nat) :
  consistent_alignment Alignment -> (c mod Alignment = 0)%nat ->
  StaticLayout.calculate_payload_fields Alignment fields (offset + c)
  = (StaticLayout.calculate_payload_fields Alignment fields offset + c)%nat.
Proof.
  intros HA Hc. unfold StaticLayout.calculate_payload_fields.
  revert offset. induction fields as [|F rest IH]; intros offset;
    cbn [fold_left]; [reflexivity|].
  rewrite field_end_offset_shift by assumption. apply IH.
Qed.

(* ------------------------------------------------------------------ *)
(** ** Buffers that agree on a prefix *)

Lemma agrees_le (n m : nat) (a b : list Z) :
  (n <= m)%nat -> agrees m a b -> agrees n a b.
Proof. intros H E. exact (firstn_firstn_le n m a b H E). Qed.

Lemma agrees_trans (n : nat) (a b c : list Z) :
  agrees n a b -> agrees n b c -> agrees n a c.
Proof. unfold agrees. congruence. Qed.

Lemma agrees_length (n : nat) (a b : list Z) :
  agrees n a b -> (n <= length b)%nat -> (n <= length a)%nat.
Proof.
  intros E H. apply (f_equal (@length Z)) in E.
  rewrite !length_firstn in E. lia.
Qed.

Lemma writes_within_agrees (o : list Z) (f : nat) (o' : list Z) (f' : nat) :
  writes_within o f o' f' -> agrees f o' o.
Proof. intros (_ & _ & _ & H & _). exact H. Qed.

(** What was written before [f] is still there after a later write. *)
Lemma agrees_after (n : nat) (input o : list Z) (f : nat) (o' : list Z)
      (f' : nat) :
  writes_within o f o' f' -> agrees f' input o' -> (n <= f)%nat ->
  agrees n input o.
Proof.
  intros W E Hn.
  apply agrees_trans with (b := o').
  - apply agrees_le with (m := f'); [|exact E].
    destruct W as (? & _). lia.
  - apply agrees_le with (m := f); [exact Hn|].
    exact (writes_within_agrees _ _ _ _ W).
Qed.

Lemma load_agrees (a b : list Z) (n offset size : nat) :
  agrees n a b -> (n <= length b)%nat -> (offset + size <= n)%nat ->
  load a offset size = load b offset size.
Proof.
  intros E Hn Hle.
  apply load_prefix with (n := n); [exact E | | exact Hle].
  apply agrees_length with (b := b); assumption.
Qed.

Lemma nth_error_agrees (a b : list Z) (n i : nat) :
  agrees n a b -> (i < n)%nat -> nth_error a i = nth_error b i.
Proof.
  intros E Hi.
  assert (H : forall l : list Z, nth_error l i = nth_error (firstn n l) i).
  { intros l. rewrite nth_error_firstn.
    destruct (Nat.ltb_spec i n); [reflexivity | lia]. }
  rewrite (H a), (H b), E. reflexivity.
Qed.

(* ------------------------------------------------------------------ *)
(** ** The write primitives *)

Lemma memcpy_total (dst : list Z) (offset : nat) (src : list Z) :
  (offset + length src <= length dst)%nat ->
  exists dst',
    memcpy dst offset src = Some dst'
    /\ writes_within dst offset dst' (offset + length src)
    /\ load dst' offset (length src) = Some src.
Proof.
  intros H. destruct (memcpy_defined dst offset src H) as (dst' & E).
  exists dst'. split; [exact E|]. split.
  - apply memcpy_writes_within. exact E.
  - apply load_written with (dst := dst). exact E.
Qed.

Lemma write_padding_total (padding : nat) (output : list Z) (offset : nat) :
  (offset + padding <= length output)%nat ->
  exists output',
    StaticLayout.write_padding padding output offset
    = Some (output', (offset + padding)%nat)
    /\ writes_within output offset output' (offset + padding).
Proof.
  intros H. unfold StaticLayout.write_padding.
  destruct (Nat.ltb_spec 0 padding) as [Hp | Hp].
  - unfold memset.
    destruct (memcpy_total output offset (repeat 0 padding))
      as (o & E & W & _); [rewrite repeat_length; lia|].
    rewrite repeat_length in W.
    exists o. rewrite E. split; [reflexivity | exact W].
  - assert (padding = 0%nat) by lia. subst padding.
    rewrite Nat.add_0_r. exists output. split; [reflexivity|].
    apply writes_within_refl. lia.
Qed.

Lemma write_le_total (n : nat) (v : Z) (output : list Z) (offset : nat) :
  (offset + n <= length output)%nat ->
  exists output',
    StaticLayout.write_le n v output offset
    = Some (output', (offset + n)%nat)
    /\ writes_within output offset output' (offset + n)
    /\ load output' offset n = Some (le_bytes n v).
Proof.
  intros H. unfold StaticLayout.write_le.
  destruct (memcpy_total output offset (le_bytes n v))
    as (o & E & W & L); [rewrite le_bytes_length; lia|].
  rewrite le_bytes_length in W, L.
  exists o. rewrite E. split; [reflexivity|]. split; assumption.
Qed.

Lemma zero_fill_total (end_offset : nat) (output : list Z) (offset : nat) :
  (offset <= end_offset)%nat -> (end_offset <= length output)%nat ->
  exists output',
    StaticLayout.zero_fill end_offset output offset
    = Some (output', end_offset)
    /\ writes_within output offset output' end_offset
    /\ load output' offset (end_offset - offset)
       = Some (repeat 0 (end_offset - offset)).
Proof.
  intros H1 H2. unfold StaticLayout.zero_fill, memset.
  destruct (memcpy_total output offset (repeat 0 (end_offset - offset)))
    as (o & E & W & L); [rewrite repeat_length; lia|].
  rewrite repeat_length in W, L.
  replace (offset + (end_offset - offset))%nat with end_offset in W by lia.
  exists o. rewrite E. split; [reflexivity|]. split; assumption.
Qed.

(* ------------------------------------------------------------------ *)
(** ** Little-endian integers *)

Lemma le_value_le_bytes (n : nat) (v : Z) :
  le_value (le_bytes n v) = v mod 2 ^ (8 * Z.of_nat n).
Proof.
  revert v. induction n as [|n IH]; intros v.
  - simpl. rewrite Z.mod_1_r. reflexivity.
  - cbn [le_bytes le_value]. rewrite IH. unfold u8.
    change (2 ^ 8) with 256. rewrite Z.mod_mod by lia.
    replace (8 * Z.of_nat (S n)) with (8 + 8 * Z.of_nat n) by lia.
    rewrite Z.pow_add_r by lia. change (2 ^ 8) with 256.
    rewrite Z.rem_mul_r by lia. reflexivity.
Qed.

Lemma to_signed_round_trip (n : nat) (v : Z) :
  (0 < n)%nat ->
  - 2 ^ (8 * Z.of_nat n - 1) <= v < 2 ^ (8 * Z.of_nat n - 1) ->
  to_signed n (v mod 2 ^ (8 * Z.of_nat n)) = v.
Proof.
  intros Hn Hv. unfold to_signed.
  set (w := 8 * Z.of_nat n) in *.
  assert (Hpow : 2 ^ w = 2 * 2 ^ (w - 1)).
  { replace w with (1 + (w - 1)) at 1 by lia.
    rewrite Z.pow_add_r by lia. reflexivity. }
  assert (Hpos : 0 < 2 ^ (w - 1)) by (apply Z.pow_pos_nonneg; lia).
  destruct (Z.lt_ge_cases v 0) as [Hneg | Hnn].
  - assert (Hm : v mod 2 ^ w = v + 2 ^ w).
    { symmetry. apply Z.mod_unique with (q := -1); lia. }
    rewrite Hm.
    replace (v + 2 ^ w <? 2 ^ (w - 1)) with false
      by (symmetry; apply Z.ltb_ge; lia).
    lia.
  - rewrite Z.mod_small by lia.
    replace (v <? 2 ^ (w - 1)) with true by (symmetry; apply Z.ltb_lt; lia).
    reflexivity.
Qed.

Lemma read_le_written (n : nat) (v : Z) (o input : list Z) (offset m : nat) :
  load o offset n = Some (le_bytes n v) ->
  agrees m input o -> (m <= length o)%nat -> (offset + n <= m)%nat ->
  StaticLayout.read_le n input offset = Some (v mod 2 ^ (8 * Z.of_nat n)).
Proof.
  intros L E Hm Hle. unfold StaticLayout.read_le.
  rewrite (load_agrees input o m offset n E Hm Hle), L.
  cbn [bind]. rewrite le_value_le_bytes. reflexivity.
Qed.

Lemma scalar_read_back (k : ScalarKind) (z : Z) :
  scalar_in_range k z = true ->
  (if is_signed k
   then to_signed (sizeof k) (z mod 2 ^ (8 * Z.of_nat (sizeof k)))
   else z mod 2 ^ (8 * Z.of_nat (sizeof k))) = z.
Proof.
  intros H.
  destruct k; cbn [scalar_in_range is_signed] in H |- *;
    try (apply andb_prop in H; destruct H as [H1 H2];
         apply Z.leb_le in H1; apply Z.ltb_lt in H2).
  - apply orb_prop in H. destruct H as [H | H]; apply Z.eqb_eq in H;
      subst z; reflexivity.
  - apply to_signed_round_trip; [cbn; lia | split; assumption].
  - apply to_signed_round_trip; [cbn; lia | split; assumption].
  - apply to_signed_round_trip; [cbn; lia | split; assumption].
  - apply to_signed_round_trip; [cbn; lia | split; assumption].
  - apply Z.mod_small. split; assumption.
  - apply Z.mod_small. split; assumption.
  - apply Z.mod_small. split; assumption.
  - apply Z.mod_small. split; assumption.
  - apply Z.mod_small. split; assumption.
  - apply Z.mod_small. split; assumption.
  - apply to_signed_round_trip; [cbn; lia | split; assumption].
Qed.

Lemma sizeof_pos (k : ScalarKind) : (0 < sizeof k)%nat.
Proof. destruct k; cbn; lia. Qed.

(* ------------------------------------------------------------------ *)
(** ** Serializing and reading back, type by type *)

Ltac ww_bounds :=
  repeat match goal with
         | W : writes_within ?o ?f ?o' ?f' |- _ =>
             lazymatch goal with
             | _ : length o' = length o |- _ => fail
             | _ => pose proof W as (? & ? & ? & _)
             end
         end.

Lemma field_as_value (Alignment : nat) (T : Ty) :
  ValidElementType T = true ->
  (forall v output offset,
      StaticLayout.serialize_field Alignment T v output offset
      = StaticLayout.serialize_value Alignment T v output offset)
  /\ (forall v0 input offset,
         StaticLayout.deserialize_field Alignment T v0 input offset
         = StaticLayout.deserialize_value Alignment T v0 true input offset)
  /\ (forall offset,
         StaticLayout.calculate_field_end_offset Alignment T offset
         = StaticLayout.calculate_value_end_offset Alignment T offset).
Proof.
  intros H. destruct T; try discriminate H; repeat split; reflexivity.
Qed.

Lemma round_trips_Scalar (Alignment : nat) k Vs (v : Val)
      (output : list Z) (offset : nat) :
  has_type (Scalar k Vs) v = true ->
  (StaticLayout.calculate_value_end_offset Alignment (Scalar k Vs) offset
   <= length output)%nat ->
  round_trips Alignment (Scalar k Vs) v output offset.
Proof.
  intros Hty Hlen. destruct v as [z | | | | |]; try discriminate Hty.
  unfold round_trips.
  cbn [StaticLayout.calculate_field_end_offset
         StaticLayout.calculate_value_end_offset
         StaticLayout.serialize_field StaticLayout.serialize_value
         StaticLayout.deserialize_field StaticLayout.deserialize_value
         representable has_type same_content] in *.
  set (pad := StaticLayout.calculate_padding Alignment (sizeof k) offset)
    in *.
  rewrite Nat.add_assoc in *.
  destruct (write_padding_total pad output offset) as (o1 & E1 & W1);
    [lia|].
  destruct (write_le_total (sizeof k) z o1 (offset + pad))
    as (o2 & E2 & W2 & L2); [ww_bounds; lia|].
  exists o2. split; [|split].
  - unfold StaticLayout.serialize_scalar. fold pad. rewrite E1.
    cbn [bind]. exact E2.
  - eapply writes_within_trans; eassumption.
  - intros Hrep input v0 Hv0 Hag.
    destruct v0 as [z0 | | | | |]; try discriminate Hv0.
    unfold StaticLayout.deserialize_scalar, StaticLayout.read_scalar.
    fold pad. cbv zeta.
    rewrite (read_le_written (sizeof k) z o2 input (offset + pad)
                             (offset + pad + sizeof k) L2 Hag)
      by (ww_bounds; lia).
    cbn [bind]. rewrite (scalar_read_back k z Hrep).
    eexists. split; [reflexivity|]. apply Z.eqb_refl.
Qed.

Lemma string_eqb_refl (s : StringRep) : CrunchString.eqb s s = true.
Proof.
  unfold CrunchString.eqb.
  destruct (list_eq_dec Z.eq_dec (CrunchString.get s) (CrunchString.get s));
    congruence.
Qed.

Lemma round_trips_String (Alignment : nat) n Vs (v : Val)
      (output : list Z) (offset : nat) :
  has_type (String_ n Vs) v = true ->
  (StaticLayout.calculate_value_end_offset Alignment (String_ n Vs) offset
   <= length output)%nat ->
  round_trips Alignment (String_ n Vs) v output offset.
Proof.
  intros Hty Hlen. destruct v as [| s | | | |]; try discriminate Hty.
  unfold round_trips.
  cbn [StaticLayout.calculate_field_end_offset
         StaticLayout.calculate_value_end_offset
         StaticLayout.serialize_field StaticLayout.serialize_value
         StaticLayout.deserialize_field StaticLayout.deserialize_value
         representable has_type same_content] in *.
  apply andb_prop in Hty. destruct Hty as [Hbuf Hcur].
  apply Nat.eqb_eq in Hbuf. apply Nat.leb_le in Hcur.
  set (pad := StaticLayout.calculate_padding Alignment 4 offset) in *.
  rewrite !Nat.add_assoc in *.
  destruct (write_padding_total pad output offset) as (o1 & E1 & W1);
    [lia|].
  destruct (write_le_total 4 (u32 (Z.of_nat (current_len_ s))) o1
                           (offset + pad))
    as (o2 & E2 & W2 & L2); [ww_bounds; lia|].
  assert (Hsrc : load (buffer_ s) 0 n = Some (buffer_ s)).
  { rewrite load_defined by lia. rewrite skipn_O, <- Hbuf, firstn_all.
    reflexivity. }
  destruct (memcpy_total o2 (offset + pad + 4) (buffer_ s))
    as (o3 & E3 & W3 & L3); [ww_bounds; lia|].
  rewrite Hbuf in W3, L3.
  exists o3. split; [|split].
  - unfold StaticLayout.serialize_string. fold pad. rewrite E1.
    cbn [bind]. rewrite E2. cbn [bind]. rewrite Hsrc. cbn [bind].
    rewrite E3. reflexivity.
  - eapply writes_within_trans; [eassumption|].
    eapply writes_within_trans; eassumption.
  - intros Hrep input v0 Hv0 Hag.
    destruct v0 as [| s0 | | | |]; try discriminate Hv0.
    apply Z.ltb_lt in Hrep.
    unfold StaticLayout.deserialize_string. fold pad. cbv zeta.
    assert (Hag2 : agrees (offset + pad + 4) input o2).
    { apply (agrees_after _ input o2 _ o3 _ W3 Hag). lia. }
    rewrite (read_le_written 4 _ o2 input (offset + pad)
                             (offset + pad + 4) L2 Hag2)
      by (ww_bounds; lia).
    cbn [bind]. unfold u32.
    change (8 * Z.of_nat 4) with 32.
    rewrite Z.mod_mod by lia.
    rewrite Z.mod_small by lia.
    replace (Z.of_nat n <? Z.of_nat (current_len_ s)) with false
      by (symmetry; apply Z.ltb_ge; lia).
    rewrite (load_agrees input o3 (offset + pad + 4 + n) (offset + pad + 4) n
                         Hag) by (ww_bounds; lia).
    rewrite L3. cbn [bind]. rewrite Nat2Z.id.
    eexists. split; [reflexivity|].
    destruct s as [b l]. apply string_eqb_refl.
Qed.

Lemma load_one (l : list Z) (offset : nat) (b : Z) :
  load l offset 1 = Some [b] -> nth_error l offset = Some b.
Proof.
  unfold load. destruct (Nat.leb_spec (offset + 1) (length l)); [|discriminate].
  intros E. injection E as E.
  rewrite <- (firstn_skipn offset l) at 1.
  rewrite nth_error_app2 by (rewrite length_firstn; lia).
  rewrite length_firstn.
  replace (offset - Nat.min offset (length l))%nat with 0%nat by lia.
  destruct (skipn offset l) as [|x rest]; [discriminate|].
  cbn in E |- *. congruence.
Qed.

(** Skipping the slot of an unset field stays inside the slot. *)
Lemma deserialize_unset (Alignment : nat) (T : Ty) (v0 : Val)
      (input : list Z) (offset : nat) :
  ValidElementType T = true -> has_type T v0 = true ->
  (StaticLayout.calculate_value_end_offset Alignment T offset
   <= length input)%nat ->
  exists v',
    StaticLayout.deserialize_value Alignment T v0 false input offset
    = Some (v', Expected
                  (StaticLayout.calculate_value_end_offset Alignment T
                                                           offset))
    /\ has_type T v' = true.
Proof.
  intros HT Hty Hlen. destruct T; try discriminate HT.
  - destruct v0; try discriminate Hty.
    cbn [StaticLayout.deserialize_value
           StaticLayout.calculate_value_end_offset] in *.
    unfold StaticLayout.deserialize_scalar. cbv zeta. cbn [bind].
    rewrite Nat.add_assoc. eauto.
  - destruct v0; try discriminate Hty.
    cbn [StaticLayout.deserialize_value
           StaticLayout.calculate_value_end_offset] in *.
    unfold StaticLayout.deserialize_string, StaticLayout.read_le. cbv zeta.
    rewrite load_defined by lia. cbn [bind].
    rewrite !Nat.add_assoc. eexists. split; [reflexivity|].
    cbn [has_type CrunchString.clear buffer_ current_len_].
    rewrite repeat_length, Nat.eqb_refl. reflexivity.
  - destruct v0; try discriminate Hty.
    rewrite end_offset_Message in *.
    cbn [StaticLayout.deserialize_value]. cbv zeta.
    unfold StaticLayout.read_le.
    rewrite load_defined by lia. cbn [bind andb]. eauto.
  - destruct v0; try discriminate Hty.
    cbn [StaticLayout.deserialize_value negb]. cbv zeta.
    eexists. split; [reflexivity|].
    cbn [has_type] in Hty |- *.
    apply andb_prop in Hty. destruct Hty as [Hty Hok].
    apply andb_prop in Hty. destruct Hty as [Hl _].
    rewrite Hl, Hok. reflexivity.
  - destruct v0; try discriminate Hty.
    cbn [StaticLayout.deserialize_value negb]. cbv zeta.
    eexists. split; [reflexivity|].
    cbn [has_type] in Hty |- *.
    apply andb_prop in Hty. destruct Hty as [Hty Hok].
    apply andb_prop in Hty. destruct Hty as [Hl _].
    rewrite Hl, Hok. reflexivity.
Qed.

Lemma round_trips_Field (Alignment : nat) Id Pr (T : Ty) :
  ValidElementType T = true ->
  (forall v output offset,
      has_type T v = true ->
      (StaticLayout.calculate_field_end_offset Alignment T offset
       <= length output)%nat ->
      round_trips Alignment T v output offset) ->
  forall v output offset,
    has_type (Field Id Pr T) v = true ->
    (StaticLayout.calculate_field_end_offset Alignment (Field Id Pr T) offset
     <= length output)%nat ->
    round_trips Alignment (Field Id Pr T) v output offset.
Proof.
  intros HT IH v output offset Hty Hlen.
  destruct (field_as_value Alignment T HT) as (Hs & Hd & He).
  destruct v as [| | | | | value set]; try discriminate Hty.
  unfold round_trips.
  cbn [StaticLayout.calculate_field_end_offset
         StaticLayout.serialize_field StaticLayout.deserialize_field
         representable has_type same_content] in *.
  set (end_offset :=
         StaticLayout.calculate_value_end_offset Alignment T (offset + 1))
    in *.
  pose proof (end_offset_mono Alignment T (offset + 1)) as Hmono.
  fold end_offset in Hmono.
  destruct (memcpy_total output offset [if set then 1 else 0])
    as (o1 & E1 & W1 & L1); [cbn [length]; lia|].
  cbn [length] in W1, L1. apply load_one in L1.
  rewrite E1. cbn [bind].
  destruct set.
  - destruct (IH value o1 (offset + 1)%nat Hty) as (o2 & E2 & W2 & D2).
    { rewrite He. fold end_offset. ww_bounds. lia. }
    rewrite He in E2, W2, D2. fold end_offset in E2, W2, D2.
    rewrite Hs in E2.
    exists o2. split; [exact E2|]. split.
    { eapply writes_within_trans; eassumption. }
    intros Hrep input v0 Hv0 Hag.
    destruct v0 as [| | | | | value0 set0]; try discriminate Hv0.
    assert (Hb : nth_error input offset = Some 1).
    { rewrite <- L1.
      apply nth_error_agrees with (n := (offset + 1)%nat); [|lia].
      apply (agrees_after _ input o1 _ o2 _ W2 Hag). lia. }
    rewrite Hb. cbn [bind].
    change (negb (u8 1 =? 0)) with true. cbv zeta.
    destruct (D2 Hrep input value0 Hv0 Hag) as (v' & Ev' & Sv').
    rewrite Hd in Ev'. rewrite Ev'. cbn [bind].
    eexists. split; [reflexivity|].
    cbn [same_content Bool.eqb negb]. exact Sv'.
  - destruct (zero_fill_total end_offset o1 (offset + 1))
      as (o2 & E2 & W2 & _); [lia | ww_bounds; lia|].
    exists o2. split; [exact E2|]. split.
    { eapply writes_within_trans; eassumption. }
    intros _ input v0 Hv0 Hag.
    destruct v0 as [| | | | | value0 set0]; try discriminate Hv0.
    assert (Hb : nth_error input offset = Some 0).
    { rewrite <- L1.
      apply nth_error_agrees with (n := (offset + 1)%nat); [|lia].
      apply (agrees_after _ input o1 _ o2 _ W2 Hag). lia. }
    rewrite Hb. cbn [bind].
    change (negb (u8 0 =? 0)) with false. cbv zeta.
    destruct (deserialize_unset Alignment T value0 input (offset + 1) HT Hv0)
      as (v' & Ev' & _).
    { fold end_offset. apply agrees_length with (b := o2); [exact Hag|].
      ww_bounds. lia. }
    fold end_offset in Ev'. rewrite Ev'. cbn [bind].
    eexists. split; [reflexivity|]. reflexivity.
Qed.

Lemma serialize_value_Message (Alignment : nat) id fields V vals
      (output : list Z) (offset : nat) :
  StaticLayout.serialize_value Alignment (Message id fields V)
                               (VMessage vals) output offset
  = ('(output, offset) <-
       StaticLayout.write_padding
         (StaticLayout.calculate_padding Alignment Alignment offset)
         output offset ;;
     '(output, offset) <- StaticLayout.write_le 4 id output offset ;;
     StaticLayout.serialize_fields Alignment fields vals output offset).
Proof.
  cbn [StaticLayout.serialize_value].
  destruct (StaticLayout.write_padding _ output offset) as [[o1 f1]|];
    [|reflexivity].
  cbn [bind].
  destruct (StaticLayout.write_le 4 id o1 f1) as [[o2 f2]|]; [|reflexivity].
  cbn [bind]. clear.
  revert vals o2 f2. induction fields as [|F rest IH]; intros vals o f.
  - reflexivity.
  - destruct vals as [|field vals']; [reflexivity|].
    cbn [StaticLayout.serialize_fields].
    unfold StaticLayout.serialize_field.
    match goal with
    | |- bind ?X _ = _ => destruct X as [[o' f']|]
    end; cbn [bind]; [apply IH | reflexivity].
Qed.

Lemma deserialize_value_Message (Alignment : nat) id fields V vals
      (input : list Z) (offset : nat) :
  StaticLayout.deserialize_value Alignment (Message id fields V)
                                 (VMessage vals) true input offset
  = (let offset :=
       (offset + StaticLayout.calculate_padding Alignment Alignment offset)%nat
     in
     u <- StaticLayout.read_le 4 input offset ;;
     if negb (to_signed 4 u =? id)
     then Some (VMessage vals, Unexpected Error.invalid_message_id)
     else
       '(vals, r) <-
         StaticLayout.deserialize_fields Alignment fields vals input
                                         (offset + 4) ;;
       Some (VMessage vals, r)).
Proof.
  cbn [StaticLayout.deserialize_value]. cbv zeta.
  destruct (StaticLayout.read_le 4 input _) as [u|]; [|reflexivity].
  cbn [bind andb].
  destruct (negb (to_signed 4 u =? id)); [reflexivity|].
  f_equal.
  generalize (offset + StaticLayout.calculate_padding Alignment Alignment
                                                      offset + 4)%nat.
  clear. revert vals. induction fields as [|F rest IH]; intros vals f.
  - reflexivity.
  - destruct vals as [|field vals']; [reflexivity|].
    cbn [StaticLayout.deserialize_fields].
    unfold StaticLayout.deserialize_field.
    match goal with
    | |- bind ?X _ = _ => destruct X as [[field' [e | f']]|]
    end; cbn [bind]; try reflexivity.
    rewrite IH. reflexivity.
Qed.

Lemma has_type_Message id fields V vals :
  has_type (Message id fields V) (VMessage vals) = all2 has_type fields vals.
Proof.
  reflexivity.
Qed.

Lemma padding_aligns (Alignment offset : nat) :
  consistent_alignment Alignment ->
  ((offset + StaticLayout.calculate_padding Alignment Alignment offset)
   mod Alignment = 0)%nat.
Proof.
  intros [-> | ->]; unfold StaticLayout.calculate_padding; cbv zeta.
  - apply Nat.mod_1_r.
  - change (Nat.min 4 4) with 4%nat.
    rewrite Nat.Div0.add_mod, Nat.Div0.mod_mod.
    pose proof (Nat.mod_upper_bound offset 4) as Hr.
    destruct (offset mod 4)%nat as [|[|[|[|r]]]]; try reflexivity. lia.
Qed.

Lemma four_aligned (Alignment c : nat) :
  consistent_alignment Alignment ->
  (c mod Alignment = 0)%nat -> ((c + 4) mod Alignment = 0)%nat.
Proof.
  intros [-> | ->] Hc.
  - apply Nat.mod_1_r.
  - rewrite Nat.Div0.add_mod, Hc. reflexivity.
Qed.

Lemma payload_fields_cons (Alignment : nat) (F : Ty) (rest : list Ty)
      (offset : nat) :
  StaticLayout.calculate_payload_fields Alignment (F :: rest) offset
  = StaticLayout.calculate_payload_fields
      Alignment rest
      (StaticLayout.calculate_field_end_offset Alignment F offset).
Proof. reflexivity. Qed.

Section FieldLists.
Variable Alignment : nat.

Lemma round_trips_fields (fields : list Ty) :
  Forall (fun F =>
            forall v output offset,
              has_type F v = true ->
              (StaticLayout.calculate_field_end_offset Alignment F offset
               <= length output)%nat ->
              round_trips Alignment F v output offset) fields ->
  forall vals output offset,
    all2 has_type fields vals = true ->
    (StaticLayout.calculate_payload_fields Alignment fields offset
     <= length output)%nat ->
    exists output',
      StaticLayout.serialize_fields Alignment fields vals output offset
      = Some (output',
              StaticLayout.calculate_payload_fields Alignment fields offset)
      /\ writes_within output offset output'
           (StaticLayout.calculate_payload_fields Alignment fields offset)
      /\ (all2 representable fields vals = true ->
          forall input vals0,
            all2 has_type fields vals0 = true ->
            agrees (StaticLayout.calculate_payload_fields Alignment fields
                                                          offset)
                   input output' ->
            exists vals',
              StaticLayout.deserialize_fields Alignment fields vals0 input
                                              offset
              = Some (vals',
                      Expected
                        (StaticLayout.calculate_payload_fields
                           Alignment fields offset))
              /\ all3 same_content fields vals' vals = true).
Proof.
  induction 1 as [|F rest HF _ IH]; intros vals output offset Hty Hlen.
  - destruct vals; [|discriminate Hty].
    exists output. split; [reflexivity|]. split.
    + apply writes_within_refl. exact Hlen.
    + intros _ input vals0 Hty0 _.
      destruct vals0; [|discriminate Hty0].
      exists []. split; reflexivity.
  - destruct vals as [|v vals']; [discriminate Hty|].
    cbn [all2] in Hty. apply andb_prop in Hty. destruct Hty as [Hv Hvals].
    rewrite payload_fields_cons in *.
    set (mid := StaticLayout.calculate_field_end_offset Alignment F offset)
      in *.
    pose proof (payload_fields_mono Alignment rest mid) as Hmono.
    destruct (HF v output offset Hv) as (o1 & E1 & W1 & D1);
      [fold mid; lia|].
    fold mid in E1, W1, D1.
    destruct (IH vals' o1 mid Hvals) as (o2 & E2 & W2 & D2);
      [ww_bounds; lia|].
    exists o2. split; [|split].
    + cbn [StaticLayout.serialize_fields]. rewrite E1. cbn [bind].
      exact E2.
    + eapply writes_within_trans; eassumption.
    + intros Hrep input vals0 Hty0 Hag.
      cbn [all2] in Hrep. apply andb_prop in Hrep.
      destruct Hrep as [Hrv Hrvals].
      destruct vals0 as [|v0 vals0']; [discriminate Hty0|].
      cbn [all2] in Hty0. apply andb_prop in Hty0.
      destruct Hty0 as [Hv0 Hvals0].
      destruct (D1 Hrv input v0 Hv0) as (v' & Ev' & Sv').
      { apply (agrees_after _ input o1 _ o2 _ W2 Hag). lia. }
      destruct (D2 Hrvals input vals0' Hvals0 Hag) as (vs' & Evs & Svs).
      exists (v' :: vs'). split.
      * cbn [StaticLayout.deserialize_fields]. rewrite Ev'. cbn [bind].
        rewrite Evs. reflexivity.
      * cbn [all3]. rewrite Sv', Svs. reflexivity.
Qed.

End FieldLists.

Lemma round_trips_Message (Alignment : nat) id fields V :
  consistent_alignment Alignment ->
  - 2 ^ 31 <= id < 2 ^ 31 ->
  Forall (fun F =>
            forall v output offset,
              has_type F v = true ->
              (StaticLayout.calculate_field_end_offset Alignment F offset
               <= length output)%nat ->
              round_trips Alignment F v output offset) fields ->
  forall v output offset,
    has_type (Message id fields V) v = true ->
    (StaticLayout.calculate_field_end_offset Alignment (Message id fields V)
                                             offset
     <= length output)%nat ->
    round_trips Alignment (Message id fields V) v output offset.
Proof.
  intros HA Hid HF v output offset Hty Hlen.
  destruct v as [| | vals | | |]; try discriminate Hty.
  rewrite has_type_Message in Hty.
  unfold round_trips.
  cbn [StaticLayout.calculate_field_end_offset
         StaticLayout.serialize_field StaticLayout.deserialize_field] in *.
  rewrite end_offset_Message in *.
  rewrite serialize_value_Message.
  set (pad := StaticLayout.calculate_padding Alignment Alignment offset)
    in *.
  assert (Hshift :
            StaticLayout.calculate_payload_fields Alignment fields
                                                  (offset + pad + 4)
            = (offset + pad + 4
               + StaticLayout.calculate_payload_fields Alignment fields 0)%nat).
  { rewrite <- (Nat.add_0_l (offset + pad + 4)) at 1.
    rewrite payload_fields_shift; [lia | exact HA |].
    apply four_aligned; [exact HA|]. apply padding_aligns. exact HA. }
  rewrite <- Hshift in *.
  pose proof (payload_fields_mono Alignment fields (offset + pad + 4))
    as Hmono.
  destruct (write_padding_total pad output offset) as (o1 & E1 & W1);
    [lia|].
  destruct (write_le_total 4 id o1 (offset + pad)) as (o2 & E2 & W2 & L2);
    [ww_bounds; lia|].
  destruct (round_trips_fields Alignment fields HF vals o2 (offset + pad + 4)
                               Hty)
    as (o3 & E3 & W3 & D3); [ww_bounds; lia|].
  exists o3. split; [|split].
  - rewrite E1. cbn [bind]. rewrite E2. cbn [bind]. exact E3.
  - eapply writes_within_trans; [eassumption|].
    eapply writes_within_trans; eassumption.
  - intros Hrep input v0 Hv0 Hag.
    destruct v0 as [| | vals0 | | |]; try discriminate Hv0.
    rewrite has_type_Message in Hv0.
    cbn [representable] in Hrep.
    rewrite deserialize_value_Message. cbv zeta. fold pad.
    assert (Hag2 : agrees (offset + pad + 4) input o2).
    { apply (agrees_after _ input o2 _ o3 _ W3 Hag). lia. }
    rewrite (read_le_written 4 id o2 input (offset + pad)
                             (offset + pad + 4) L2 Hag2)
      by (ww_bounds; lia).
    cbn [bind].
    rewrite (to_signed_round_trip 4 id) by (cbn; lia).
    rewrite Z.eqb_refl. cbn [negb].
    destruct (D3 Hrep input vals0 Hv0 Hag) as (vals' & Evs & Svs).
    rewrite Evs. cbn [bind].
    eexists. split; [reflexivity|].
    cbn [same_content]. exact Svs.
Qed.

(* ------------------------------------------------------------------ *)
(** ** Loops over the slots of an array or map *)

Lemma for_count_total {S : Type} (Inv : nat -> S -> Prop)
      (body : nat -> S -> option S) (n lo : nat) (s : S) :
  Inv lo s ->
  (forall i s, (lo <= i < lo + n)%nat -> Inv i s ->
               exists s', body i s = Some s' /\ Inv (Datatypes.S i) s') ->
  exists s',
    fold_left (fun acc i => s' <- acc ;; body i s') (seq lo n) (Some s)
    = Some s'
    /\ Inv (lo + n)%nat s'.
Proof.
  revert lo s. induction n as [|n IH]; intros lo s H0 Hstep.
  - rewrite Nat.add_0_r. exists s. split; [reflexivity | exact H0].
  - cbn [seq fold_left bind].
    destruct (Hstep lo s) as (s1 & E1 & H1); [lia | exact H0|].
    rewrite E1.
    destruct (IH (Datatypes.S lo) s1 H1) as (s2 & E2 & H2).
    { intros i s' Hi. apply Hstep. lia. }
    exists s2. split; [exact E2|].
    replace (lo + Datatypes.S n)%nat with (Datatypes.S lo + n)%nat by lia.
    exact H2.
Qed.

Lemma for_range_total {S : Type} (Inv : nat -> S -> Prop) (lo hi : nat)
      (body : nat -> S -> option S) (s : S) :
  (lo <= hi)%nat -> Inv lo s ->
  (forall i s, (lo <= i < hi)%nat -> Inv i s ->
               exists s', body i s = Some s' /\ Inv (Datatypes.S i) s') ->
  exists s', for_range lo hi body s = Some s' /\ Inv hi s'.
Proof.
  intros Hle H0 Hstep. unfold for_range.
  destruct (for_count_total Inv body (hi - lo) lo s H0) as (s' & E & H).
  { intros i s1 Hi. apply Hstep. lia. }
  exists s'. split; [exact E|].
  replace (lo + (hi - lo))%nat with hi in H by lia. exact H.
Qed.

Lemma iter_le (f : nat -> nat) (i n x : nat) :
  (forall y, y <= f y)%nat -> (i <= n)%nat ->
  (Nat.iter i f x <= Nat.iter n f x)%nat.
Proof.
  intros Hf Hin. replace n with ((n - i) + i)%nat by lia.
  rewrite Nat.iter_add. apply iter_mono. exact Hf.
Qed.

Lemma length_set_nth {A : Type} (i : nat) (x : A) (l : list A) :
  (i < length l)%nat -> length (StaticLayout.set_nth i x l) = length l.
Proof.
  intros H. unfold StaticLayout.set_nth.
  rewrite length_app, length_firstn. cbn [length]. rewrite length_skipn. lia.
Qed.

Lemma nth_error_set_nth_eq {A : Type} (i : nat) (x : A) (l : list A) :
  (i < length l)%nat -> nth_error (StaticLayout.set_nth i x l) i = Some x.
Proof.
  intros H. unfold StaticLayout.set_nth.
  rewrite nth_error_app2 by (rewrite length_firstn; lia).
  rewrite length_firstn.
  replace (i - Nat.min i (length l))%nat with 0%nat by lia. reflexivity.
Qed.

Lemma nth_error_set_nth_neq {A : Type} (i k : nat) (x : A) (l : list A) :
  (i < length l)%nat -> k <> i ->
  nth_error (StaticLayout.set_nth i x l) k = nth_error l k.
Proof.
  intros H Hk. unfold StaticLayout.set_nth.
  destruct (Nat.lt_ge_cases k i) as [Hlt | Hge].
  - rewrite nth_error_app1 by (rewrite length_firstn; lia).
    rewrite nth_error_firstn.
    destruct (Nat.ltb_spec k i); [reflexivity | lia].
  - rewrite nth_error_app2 by (rewrite length_firstn; lia).
    rewrite length_firstn.
    replace (Nat.min i (length l)) with i by lia.
    destruct (k - i)%nat as [|d] eqn:Ed; [lia|].
    cbn [nth_error]. rewrite nth_error_skipn. f_equal. lia.
Qed.

Lemma forallb_combine_firstn {A B : Type} (f : A -> B -> bool) (n : nat)
      (xs : list A) (ys : list B) :
  (forall j, (j < n)%nat ->
             exists x y, nth_error xs j = Some x /\ nth_error ys j = Some y
                         /\ f x y = true) ->
  forallb (fun xy => f (fst xy) (snd xy))
          (combine (firstn n xs) (firstn n ys)) = true.
Proof.
  revert xs ys. induction n as [|n IH]; intros xs ys H; [reflexivity|].
  destruct (H 0%nat) as (x & y & Hx & Hy & Hf); [lia|].
  destruct xs as [|x' xs']; [discriminate Hx|].
  destruct ys as [|y' ys']; [discriminate Hy|].
  cbn in Hx, Hy. injection Hx as ->. injection Hy as ->.
  cbn [firstn combine forallb fst snd]. rewrite Hf. cbn [andb].
  apply IH. intros j Hj.
  destruct (H (Datatypes.S j)) as (a & b & Ha & Hb & Hab); [lia|].
  exists a, b. auto.
Qed.

Lemma forallb_nth_error {A : Type} (f : A -> bool) (l : list A) (i : nat)
      (x : A) :
  forallb f l = true -> nth_error l i = Some x -> f x = true.
Proof.
  intros H Hx. rewrite forallb_forall in H. apply H.
  eapply nth_error_In. exact Hx.
Qed.

Lemma nth_error_defined {A : Type} (l : list A) (i : nat) :
  (i < length l)%nat -> exists x, nth_error l i = Some x.
Proof.
  intros H. destruct (nth_error l i) as [x|] eqn:E; [eauto|].
  apply nth_error_None in E. lia.
Qed.

Lemma agrees_before (n : nat) (input o : list Z) (f : nat) (o' : list Z)
      (f' : nat) :
  writes_within o f o' f' -> (n <= f)%nat -> agrees n input o' ->
  agrees n input o.
Proof.
  intros W Hn E. apply agrees_trans with (b := o'); [exact E|].
  apply agrees_le with (m := f); [exact Hn|].
  exact (writes_within_agrees _ _ _ _ W).
Qed.

Lemma end_offset_Array (Alignment : nat) Id E n Vs (offset : nat) :
  StaticLayout.calculate_value_end_offset Alignment (ArrayField Id E n Vs)
                                          offset
  = Nat.iter n (StaticLayout.calculate_value_end_offset Alignment E)
             (offset + StaticLayout.calculate_padding Alignment 4 offset + 4)%nat.
Proof.
  cbn [StaticLayout.calculate_value_end_offset]. cbv zeta.
  rewrite Nat.add_assoc. reflexivity.
Qed.

Lemma end_offset_Map (Alignment : nat) Id K V n Vs (offset : nat) :
  StaticLayout.calculate_value_end_offset Alignment (MapField Id K V n Vs)
                                          offset
  = Nat.iter n
      (fun offset =>
         StaticLayout.calculate_value_end_offset
           Alignment V
           (StaticLayout.calculate_value_end_offset Alignment K offset))
      (offset + StaticLayout.calculate_padding Alignment 4 offset + 4)%nat.
Proof.
  cbn [StaticLayout.calculate_value_end_offset]. cbv zeta.
  rewrite Nat.add_assoc. reflexivity.
Qed.

Lemma u32_length (n : nat) :
  Z.of_nat n < 2 ^ 32 -> u32 (Z.of_nat n) mod 2 ^ (8 * Z.of_nat 4) = Z.of_nat n.
Proof.
  intros H. unfold u32. change (8 * Z.of_nat 4) with 32.
  rewrite Z.mod_mod by lia. apply Z.mod_small. lia.
Qed.

Section SlotLoops.
Context {X : Type}.
Variable ser : X -> list Z -> nat -> option (list Z * nat).
Variable zfill : list Z -> nat -> option (list Z * nat).
Variable des : X -> list Z -> nat -> option (X * expected nat).
Variable step : nat -> nat.
Variables ok rep : X -> bool.
Variable same : X -> X -> bool.

Hypothesis step_mono : forall y, (y <= step y)%nat.

Hypothesis slot :
  forall x output offset,
    ok x = true -> (step offset <= length output)%nat ->
    exists output',
      ser x output offset = Some (output', step offset)
      /\ writes_within output offset output' (step offset)
      /\ (rep x = true ->
          forall input x0,
            ok x0 = true -> agrees (step offset) input output' ->
            exists x',
              des x0 input offset = Some (x', Expected (step offset))
              /\ same x' x = true).

Hypothesis fill :
  forall output offset,
    (step offset <= length output)%nat ->
    exists output',
      zfill output offset = Some (output', step offset)
      /\ writes_within output offset output' (step offset).

Variable items : list X.
Variables len max : nat.
Variable base : nat.
Hypothesis items_length : length items = max.
Hypothesis len_max : (len <= max)%nat.
Hypothesis items_ok : forallb ok items = true.

Let at_ (i : nat) : nat := Nat.iter i step base.

Lemma at_S (i : nat) : at_ (S i) = step (at_ i).
Proof. reflexivity. Qed.

Lemma at_le (i j : nat) : (i <= j)%nat -> (at_ i <= at_ j)%nat.
Proof. intros H. apply iter_le; assumption. Qed.

Lemma write_active_slots (output : list Z) :
  (at_ max <= length output)%nat ->
  exists st,
    for_range 0 len
      (fun i '(output, offset) =>
         item <- nth_error items i ;; ser item output offset)
      (output, base)
    = Some st
    /\ snd st = at_ len
    /\ writes_within output base (fst st) (snd st)
    /\ forall j item,
        (j < len)%nat -> nth_error items j = Some item ->
        rep item = true ->
        forall input x0,
          ok x0 = true -> agrees (at_ (S j)) input (fst st) ->
          exists x',
            des x0 input (at_ j) = Some (x', Expected (at_ (S j)))
            /\ same x' item = true.
Proof.
  intros Hlen.
  pose proof (at_le 0 max ltac:(lia)) as Hbase. change (at_ 0) with base in Hbase.
  destruct
    (for_range_total
       (fun i st =>
          snd st = at_ i
          /\ writes_within output base (fst st) (snd st)
          /\ forall j item,
              (j < i)%nat -> nth_error items j = Some item ->
              rep item = true ->
              forall input x0,
                ok x0 = true -> agrees (at_ (S j)) input (fst st) ->
                exists x',
                  des x0 input (at_ j) = Some (x', Expected (at_ (S j)))
                  /\ same x' item = true)
       0 len
       (fun i '(output, offset) =>
          item <- nth_error items i ;; ser item output offset)
       (output, base)) as (st & E & H1 & H2 & H3).
  - lia.
  - cbn [fst snd]. split; [reflexivity|]. split.
    + apply writes_within_refl. lia.
    + intros j item Hj. lia.
  - intros i [o f] Hi (Hf & W & D). cbn [fst snd] in Hf, W, D. subst f.
    destruct (nth_error_defined items i) as (item & Hitem); [lia|].
    rewrite Hitem. cbn [bind].
    pose proof (forallb_nth_error ok items i item items_ok Hitem) as Hok.
    pose proof (at_le (S i) max ltac:(lia)) as Hi_max.
    destruct (slot item o (at_ i) Hok) as (o' & E' & W' & D').
    { rewrite <- at_S. ww_bounds. lia. }
    rewrite <- at_S in E', W', D'.
    exists (o', at_ (S i)). split; [exact E'|].
    cbn [fst snd]. split; [reflexivity|]. split.
    + eapply writes_within_trans; eassumption.
    + intros j item' Hj Hitem' Hrep input x0 Hx0 Hag.
      destruct (Nat.eq_dec j i) as [-> | Hne].
      * rewrite Hitem in Hitem'. injection Hitem' as <-.
        apply D'; assumption.
      * apply D; try assumption; [lia|].
        apply (agrees_before _ input o _ o' _ W'); [|exact Hag].
        apply at_le. lia.
  - exists st. auto.
Qed.

Lemma fill_unused_slots (output : list Z) :
  (at_ max <= length output)%nat ->
  exists output',
    for_range len max (fun _ '(output, offset) => zfill output offset)
              (output, at_ len)
    = Some (output', at_ max)
    /\ writes_within output (at_ len) output' (at_ max).
Proof.
  intros Hlen.
  destruct
    (for_range_total
       (fun i st =>
          snd st = at_ i
          /\ writes_within output (at_ len) (fst st) (snd st))
       len max
       (fun _ '(output, offset) => zfill output offset)
       (output, at_ len)) as ([o f] & E & H1 & H2).
  - exact len_max.
  - cbn [fst snd]. split; [reflexivity|].
    apply writes_within_refl.
    pose proof (at_le len max len_max). lia.
  - intros i [o f] Hi (Hf & W). cbn [fst snd] in Hf, W. subst f.
    pose proof (at_le (S i) max ltac:(lia)) as Hi_max.
    destruct (fill o (at_ i)) as (o' & E' & W').
    { rewrite <- at_S. ww_bounds. lia. }
    rewrite <- at_S in E', W'.
    exists (o', at_ (S i)). split; [exact E'|].
    cbn [fst snd]. split; [reflexivity|].
    eapply writes_within_trans; eassumption.
  - cbn [fst snd] in H1, H2. subst f. exists o. split; assumption.
Qed.

Lemma read_active_slots (items0 : list X) (buf : list Z) :
  (forall j item,
      (j < len)%nat -> nth_error items j = Some item ->
      forall x0,
        ok x0 = true ->
        exists x',
          des x0 buf (at_ j) = Some (x', Expected (at_ (S j)))
          /\ same x' item = true) ->
  length items0 = max -> forallb ok items0 = true ->
  exists items',
    for_range 0 len
      (fun i '(items, r) =>
         match r with
         | Unexpected e => Some (items, r)
         | Expected offset =>
             item <- nth_error items i ;;
             '(item, r) <- des item buf offset ;;
             Some (StaticLayout.set_nth i item items, r)
         end)
      (items0, Expected base)
    = Some (items', Expected (at_ len))
    /\ length items' = max
    /\ forallb (fun xy => same (fst xy) (snd xy))
               (combine (firstn len items') (firstn len items)) = true.
Proof.
  intros D Hlen0 Hok0.
  destruct
    (for_range_total
       (fun i (st : list X * expected nat) =>
          snd st = Expected (at_ i)
          /\ length (fst st) = max
          /\ (forall k, (i <= k)%nat ->
                        nth_error (fst st) k = nth_error items0 k)
          /\ forall j, (j < i)%nat ->
                       exists x y,
                         nth_error (fst st) j = Some x
                         /\ nth_error items j = Some y
                         /\ same x y = true)
       0 len
       (fun i '(items, r) =>
          match r with
          | Unexpected e => Some (items, r)
          | Expected offset =>
              item <- nth_error items i ;;
              '(item, r) <- des item buf offset ;;
              Some (StaticLayout.set_nth i item items, r)
          end)
       (items0, Expected base)) as ([its r] & E & H1 & H2 & _ & H4).
  - lia.
  - cbn [fst snd]. split; [reflexivity|]. split; [exact Hlen0|].
    split; [reflexivity|]. intros j Hj. lia.
  - intros i [its r] Hi (Hr & Hl & Hsame & Hdone).
    cbn [fst snd] in Hr, Hl, Hsame, Hdone. subst r.
    destruct (nth_error_defined items0 i) as (x0 & Hx0); [lia|].
    rewrite (Hsame i (Nat.le_refl i)), Hx0. cbn [bind].
    pose proof (forallb_nth_error ok items0 i x0 Hok0 Hx0) as Hokx.
    destruct (nth_error_defined items i) as (item & Hitem); [lia|].
    destruct (D i item ltac:(lia) Hitem x0 Hokx) as (x' & Ex' & Sx').
    rewrite Ex'. cbn [bind].
    eexists. split; [reflexivity|].
    cbn [fst snd]. split; [reflexivity|]. split.
    { rewrite length_set_nth; lia. }
    split.
    + intros k Hk. rewrite nth_error_set_nth_neq by lia.
      apply Hsame. lia.
    + intros j Hj. destruct (Nat.eq_dec j i) as [-> | Hne].
      * exists x', item. rewrite nth_error_set_nth_eq by lia. auto.
      * rewrite nth_error_set_nth_neq by lia. apply Hdone. lia.
  - cbn [fst snd] in H1, H2, H4. subst r.
    exists its. split; [exact E|]. split; [exact H2|].
    apply forallb_combine_firstn. exact H4.
Qed.

End SlotLoops.

Lemma value_round_trips (Alignment : nat) (T : Ty) :
  ValidElementType T = true ->
  (forall v output offset,
      has_type T v = true ->
      (StaticLayout.calculate_field_end_offset Alignment T offset
       <= length output)%nat ->
      round_trips Alignment T v output offset) ->
  forall x output offset,
    has_type T x = true ->
    (StaticLayout.calculate_value_end_offset Alignment T offset
     <= length output)%nat ->
    exists output',
      StaticLayout.serialize_value Alignment T x output offset
      = Some (output',
              StaticLayout.calculate_value_end_offset Alignment T offset)
      /\ writes_within output offset output'
           (StaticLayout.calculate_value_end_offset Alignment T offset)
      /\ (representable T x = true ->
          forall input x0,
            has_type T x0 = true ->
            agrees (StaticLayout.calculate_value_end_offset Alignment T
                                                            offset)
                   input output' ->
            exists x',
              StaticLayout.deserialize_value Alignment T x0 true input offset
              = Some (x',
                      Expected
                        (StaticLayout.calculate_value_end_offset
                           Alignment T offset))
              /\ same_content T x' x = true).
Proof.
  intros HT IH x output offset Hx Hlen.
  destruct (field_as_value Alignment T HT) as (Hs & Hd & He).
  destruct (IH x output offset Hx) as (o & E & W & D);
    [rewrite He; exact Hlen|].
  rewrite He in E, W, D. rewrite Hs in E.
  exists o. split; [exact E|]. split; [exact W|].
  intros Hrep input x0 Hx0 Hag.
  destruct (D Hrep input x0 Hx0 Hag) as (x' & Ex' & Sx').
  rewrite Hd in Ex'. eauto.
Qed.

Lemma firstn_nth_error {A : Type} (l : list A) (n j : nat) (x : A) :
  (j < n)%nat -> nth_error l j = Some x ->
  nth_error (firstn n l) j = Some x.
Proof.
  intros Hj Hx. rewrite nth_error_firstn.
  destruct (Nat.ltb_spec j n); [exact Hx | lia].
Qed.

Lemma round_trips_Array (Alignment : nat) Id (E : Ty) n Vs :
  ValidElementType E = true ->
  (forall v output offset,
      has_type E v = true ->
      (StaticLayout.calculate_field_end_offset Alignment E offset
       <= length output)%nat ->
      round_trips Alignment E v output offset) ->
  forall v output offset,
    has_type (ArrayField Id E n Vs) v = true ->
    (StaticLayout.calculate_field_end_offset Alignment (ArrayField Id E n Vs)
                                             offset
     <= length output)%nat ->
    round_trips Alignment (ArrayField Id E n Vs) v output offset.
Proof.
  intros HE IH v output offset Hty Hlen.
  pose proof (value_round_trips Alignment E HE IH) as Hslot. clear IH.
  destruct v as [| | | items len | |]; try discriminate Hty.
  cbn [has_type] in Hty.
  apply andb_prop in Hty. destruct Hty as [Hty Hok].
  apply andb_prop in Hty. destruct Hty as [Hitems Hlenmax].
  apply Nat.eqb_eq in Hitems. apply Nat.leb_le in Hlenmax.
  unfold round_trips.
  cbn [StaticLayout.calculate_field_end_offset
         StaticLayout.serialize_field StaticLayout.deserialize_field] in *.
  rewrite end_offset_Array in *.
  set (pad := StaticLayout.calculate_padding Alignment 4 offset) in *.
  set (step := StaticLayout.calculate_value_end_offset Alignment E) in *.
  set (base := (offset + pad + 4)%nat) in *.
  assert (Hmono : forall y, (y <= step y)%nat)
    by (intros y; apply end_offset_mono).
  pose proof (iter_le step 0 n base Hmono ltac:(lia)) as Hbase.
  pose proof (iter_le step len n base Hmono Hlenmax) as Hlen_n.
  cbn [Nat.iter nat_rect] in Hbase.
  destruct (write_padding_total pad output offset) as (o1 & E1 & W1);
    [lia|].
  destruct (write_le_total 4 (u32 (Z.of_nat len)) o1 (offset + pad))
    as (o2 & E2 & W2 & L2); [ww_bounds; lia|].
  fold base in E2, W2.
  destruct (write_active_slots
              (StaticLayout.serialize_value Alignment E)
              (fun x0 input offset =>
                 StaticLayout.deserialize_value Alignment E x0 true input
                                                offset)
              step (has_type E) (representable E) (same_content E)
              Hmono Hslot items len n base Hitems Hlenmax Hok o2)
    as ([o3 f3] & E3 & Hf3 & W3 & D3); [ww_bounds; lia|].
  cbn [fst snd] in Hf3, W3, D3. subst f3. cbv beta in D3.
  destruct (fill_unused_slots
              (fun output offset =>
                 StaticLayout.zero_fill (step offset) output offset)
              step Hmono
              ltac:(intros o f Hf;
                    destruct (zero_fill_total (step f) o f (Hmono f) Hf)
                      as (o' & Eo & Wo & _); eauto)
              items len n base Hitems Hlenmax o3)
    as (o4 & E4 & W4); [ww_bounds; lia|].
  cbv beta in E4.
  exists o4. split; [|split].
  - cbn [StaticLayout.serialize_value]. fold pad. rewrite E1. cbn [bind].
    rewrite E2. cbn [bind]. fold step. rewrite E3. cbn [bind]. exact E4.
  - eapply writes_within_trans; [eassumption|].
    eapply writes_within_trans; [eassumption|].
    eapply writes_within_trans; eassumption.
  - intros Hrep input v0 Hv0 Hag.
    destruct v0 as [| | | items0 len0 | |]; try discriminate Hv0.
    cbn [has_type] in Hv0.
    apply andb_prop in Hv0. destruct Hv0 as [Hv0 Hok0].
    apply andb_prop in Hv0. destruct Hv0 as [Hitems0 _].
    apply Nat.eqb_eq in Hitems0.
    cbn [representable] in Hrep.
    apply andb_prop in Hrep. destruct Hrep as [Hlen32 Hrep].
    apply Z.ltb_lt in Hlen32.
    assert (Hag3 : agrees (Nat.iter len step base) input o3).
    { apply (agrees_after _ input o3 _ o4 _ W4 Hag). lia. }
    assert (Hag2 : agrees base input o2).
    { apply (agrees_before _ input o2 _ o3 _ W3); [lia|].
      apply agrees_le with (m := Nat.iter len step base); [|exact Hag3].
      apply (iter_le step 0 len base Hmono). lia. }
    cbn [StaticLayout.deserialize_value negb]. cbv zeta.
    rewrite end_offset_Array. fold pad. fold base. fold step.
    rewrite (read_le_written 4 _ o2 input (offset + pad) base L2 Hag2)
      by (ww_bounds; unfold base; lia).
    cbn [bind]. rewrite (u32_length len Hlen32).
    replace (Z.of_nat n <? Z.of_nat len) with false
      by (symmetry; apply Z.ltb_ge; lia).
    rewrite Nat2Z.id.
    destruct (read_active_slots
                (fun x0 input offset =>
                   StaticLayout.deserialize_value Alignment E x0 true input
                                                  offset)
                step (has_type E) (same_content E)
                items len n base Hitems Hlenmax items0 input)
      as (items' & E5 & _ & S5); [|exact Hitems0 | exact Hok0 |].
    { intros j item Hj Hitem x0 Hx0.
      apply (D3 j item Hj Hitem); [|exact Hx0|].
      - apply (forallb_nth_error _ (firstn len items) j item Hrep).
        apply firstn_nth_error; assumption.
      - apply agrees_le with (m := Nat.iter len step base); [|exact Hag3].
        apply (iter_le step (S j) len base Hmono). lia. }
    cbv beta in E5. rewrite E5. cbn [bind].
    eexists. split; [reflexivity|].
    cbn [same_content]. rewrite Nat.eqb_refl. exact S5.
Qed.

Lemma for_range_ext {S : Type} (lo hi : nat)
      (body body' : nat -> S -> option S) (s : S) :
  (forall i s, body i s = body' i s) ->
  for_range lo hi body s = for_range lo hi body' s.
Proof.
  intros H. unfold for_range.
  generalize (Some s) as acc. generalize (seq lo (hi - lo)) as l.
  induction l as [|i l IH]; intros acc; [reflexivity|].
  cbn [fold_left]. rewrite IH. f_equal.
  destruct acc as [s'|]; [apply H | reflexivity].
Qed.

Lemma round_trips_Map (Alignment : nat) Id (K V : Ty) n Vs :
  ValidElementType K = true -> ValidElementType V = true ->
  (forall v output offset,
      has_type K v = true ->
      (StaticLayout.calculate_field_end_offset Alignment K offset
       <= length output)%nat ->
      round_trips Alignment K v output offset) ->
  (forall v output offset,
      has_type V v = true ->
      (StaticLayout.calculate_field_end_offset Alignment V offset
       <= length output)%nat ->
      round_trips Alignment V v output offset) ->
  forall v output offset,
    has_type (MapField Id K V n Vs) v = true ->
    (StaticLayout.calculate_field_end_offset Alignment (MapField Id K V n Vs)
                                             offset
     <= length output)%nat ->
    round_trips Alignment (MapField Id K V n Vs) v output offset.
Proof.
  intros HK HV IHK IHV v output offset Hty Hlen.
  pose proof (value_round_trips Alignment K HK IHK) as HslotK. clear IHK.
  pose proof (value_round_trips Alignment V HV IHV) as HslotV. clear IHV.
  destruct v as [| | | | items len |]; try discriminate Hty.
  cbn [has_type] in Hty.
  apply andb_prop in Hty. destruct Hty as [Hty Hok].
  apply andb_prop in Hty. destruct Hty as [Hitems Hlenmax].
  apply Nat.eqb_eq in Hitems. apply Nat.leb_le in Hlenmax.
  unfold round_trips.
  cbn [StaticLayout.calculate_field_end_offset
         StaticLayout.serialize_field StaticLayout.deserialize_field] in *.
  rewrite end_offset_Map in *.
  set (pad := StaticLayout.calculate_padding Alignment 4 offset) in *.
  set (stepK := StaticLayout.calculate_value_end_offset Alignment K) in *.
  set (stepV := StaticLayout.calculate_value_end_offset Alignment V) in *.
  set (step := fun offset : nat => stepV (stepK offset)) in *.
  set (base := (offset + pad + 4)%nat) in *.
  assert (HmonoK : forall y, (y <= stepK y)%nat)
    by (intros y; apply end_offset_mono).
  assert (HmonoV : forall y, (y <= stepV y)%nat)
    by (intros y; apply end_offset_mono).
  assert (Hmono : forall y, (y <= step y)%nat).
  { intros y. unfold step. specialize (HmonoK y).
    specialize (HmonoV (stepK y)). lia. }
  pose proof (iter_le step 0 n base Hmono ltac:(lia)) as Hbase.
  pose proof (iter_le step len n base Hmono Hlenmax) as Hlen_n.
  cbn [Nat.iter nat_rect] in Hbase.
  destruct (write_padding_total pad output offset) as (o1 & E1 & W1);
    [lia|].
  destruct (write_le_total 4 (u32 (Z.of_nat len)) o1 (offset + pad))
    as (o2 & E2 & W2 & L2); [ww_bounds; lia|].
  fold base in E2, W2.
  set (ser := fun (pair : Val * Val) (output : list Z) (offset : nat) =>
                '(output, offset) <-
                  StaticLayout.serialize_value Alignment K (fst pair)
                                               output offset ;;
                StaticLayout.serialize_value Alignment V (snd pair)
                                             output offset).
  set (des := fun (pair : Val * Val) (input : list Z) (offset : nat) =>
                '(key, r) <-
                  StaticLayout.deserialize_value Alignment K (fst pair) true
                                                 input offset ;;
                match r with
                | Unexpected e => Some ((key, snd pair), r)
                | Expected offset =>
                    '(val, r) <-
                      StaticLayout.deserialize_value Alignment V (snd pair)
                                                     true input offset ;;
                    Some ((key, val), r)
                end).
  set (ok := fun kv : Val * Val =>
               has_type K (fst kv) && has_type V (snd kv)).
  set (rep := fun kv : Val * Val =>
                representable K (fst kv) && representable V (snd kv)).
  set (same := fun x y : Val * Val =>
                 same_content K (fst x) (fst y)
                 && same_content V (snd x) (snd y)).
  assert (Hslot :
            forall x output offset,
              ok x = true -> (step offset <= length output)%nat ->
              exists output',
                ser x output offset = Some (output', step offset)
                /\ writes_within output offset output' (step offset)
                /\ (rep x = true ->
                    forall input x0,
                      ok x0 = true -> agrees (step offset) input output' ->
                      exists x',
                        des x0 input offset
                        = Some (x', Expected (step offset))
                        /\ same x' x = true)).
  { intros [k v] o f Hx Hf. unfold ok, rep, same, ser, des, step in *.
    cbn [fst snd] in *.
    apply andb_prop in Hx. destruct Hx as [Hk Hv].
    pose proof (HmonoV (stepK f)) as HmV.
    destruct (HslotK k o f Hk) as (oa & Ea & Wa & Da); [fold stepK; lia|].
    fold stepK in Ea, Wa, Da.
    destruct (HslotV v oa (stepK f) Hv) as (ob & Eb & Wb & Db);
      [fold stepV; ww_bounds; lia|].
    fold stepV in Eb, Wb, Db.
    exists ob. split; [|split].
    - rewrite Ea. cbn [bind]. exact Eb.
    - eapply writes_within_trans; eassumption.
    - intros Hr input [k0 v0] Hx0 Hag. cbn [fst snd] in *.
      apply andb_prop in Hr. destruct Hr as [Hrk Hrv].
      apply andb_prop in Hx0. destruct Hx0 as [Hk0 Hv0].
      destruct (Da Hrk input k0 Hk0) as (k' & Ek' & Sk').
      { apply (agrees_after _ input oa _ ob _ Wb Hag). lia. }
      destruct (Db Hrv input v0 Hv0 Hag) as (v' & Ev' & Sv').
      rewrite Ek'. cbn [bind]. rewrite Ev'. cbn [bind].
      eexists. split; [reflexivity|].
      cbn [fst snd]. rewrite Sk', Sv'. reflexivity. }
  set (zfill := fun (output : list Z) (offset : nat) =>
                  '(output, offset) <-
                    StaticLayout.zero_fill (stepK offset) output offset ;;
                  StaticLayout.zero_fill (stepV offset) output offset).
  assert (Hfill :
            forall output offset,
              (step offset <= length output)%nat ->
              exists output',
                zfill output offset = Some (output', step offset)
                /\ writes_within output offset output' (step offset)).
  { intros o f Hf. unfold zfill, step in *.
    pose proof (HmonoV (stepK f)) as HmV.
    destruct (zero_fill_total (stepK f) o f (HmonoK f))
      as (oa & Ea & Wa & _); [lia|].
    destruct (zero_fill_total (stepV (stepK f)) oa (stepK f) HmV)
      as (ob & Eb & Wb & _); [ww_bounds; lia|].
    exists ob. split.
    - rewrite Ea. cbn [bind]. exact Eb.
    - eapply writes_within_trans; eassumption. }
  destruct (write_active_slots ser des step ok rep same
              Hmono Hslot items len n base Hitems Hlenmax Hok o2)
    as ([o3 f3] & E3 & Hf3 & W3 & D3); [ww_bounds; lia|].
  cbn [fst snd] in Hf3, W3, D3. subst f3.
  destruct (fill_unused_slots zfill step Hmono Hfill
              items len n base Hitems Hlenmax o3)
    as (o4 & E4 & W4); [ww_bounds; lia|].
  exists o4. split; [|split].
  - cbn [StaticLayout.serialize_value]. fold pad. rewrite E1. cbn [bind].
    rewrite E2. cbn [bind]. fold stepK stepV.
    change (for_range 0 len
              (fun i '(output, offset) =>
                 pair <- nth_error items i ;; ser pair output offset)
              (o2, base)) with
      (for_range 0 len
              (fun i '(output, offset) =>
                 item <- nth_error items i ;; ser item output offset)
              (o2, base)) in E3.
    unfold ser in E3. rewrite E3. cbn [bind]. exact E4.
  - eapply writes_within_trans; [eassumption|].
    eapply writes_within_trans; [eassumption|].
    eapply writes_within_trans; eassumption.
  - intros Hrep input v0 Hv0 Hag.
    destruct v0 as [| | | | items0 len0 |]; try discriminate Hv0.
    cbn [has_type] in Hv0.
    apply andb_prop in Hv0. destruct Hv0 as [Hv0 Hok0].
    apply andb_prop in Hv0. destruct Hv0 as [Hitems0 _].
    apply Nat.eqb_eq in Hitems0.
    cbn [representable] in Hrep.
    apply andb_prop in Hrep. destruct Hrep as [Hlen32 Hrep].
    apply Z.ltb_lt in Hlen32.
    assert (Hag3 : agrees (Nat.iter len step base) input o3).
    { apply (agrees_after _ input o3 _ o4 _ W4 Hag). lia. }
    assert (Hag2 : agrees base input o2).
    { apply (agrees_before _ input o2 _ o3 _ W3); [lia|].
      apply agrees_le with (m := Nat.iter len step base); [|exact Hag3].
      apply (iter_le step 0 len base Hmono). lia. }
    cbn [StaticLayout.deserialize_value negb]. cbv zeta.
    rewrite end_offset_Map. fold pad. fold base. fold stepK stepV.
    rewrite (read_le_written 4 _ o2 input (offset + pad) base L2 Hag2)
      by (ww_bounds; unfold base; lia).
    cbn [bind]. rewrite (u32_length len Hlen32).
    replace (Z.of_nat n <? Z.of_nat len) with false
      by (symmetry; apply Z.ltb_ge; lia).
    rewrite Nat2Z.id.
    destruct (read_active_slots des step ok same
                items len n base Hitems Hlenmax items0 input)
      as (items' & E5 & _ & S5); [|exact Hitems0 | exact Hok0 |].
    { intros j item Hj Hitem x0 Hx0.
      apply (D3 j item Hj Hitem); [|exact Hx0|].
      - apply (forallb_nth_error _ (firstn len items) j item Hrep).
        apply firstn_nth_error; assumption.
      - apply agrees_le with (m := Nat.iter len step base); [|exact Hag3].
        apply (iter_le step (S j) len base Hmono). lia. }
    rewrite (for_range_ext 0 len _
               (fun i '(items, r) =>
                  match r with
                  | Unexpected e => Some (items, r)
                  | Expected offset =>
                      item <- nth_error items i ;;
                      '(item, r) <- des item input offset ;;
                      Some (StaticLayout.set_nth i item items, r)
                  end)).
    + rewrite E5. cbn [bind].
      eexists. split; [reflexivity|].
      cbn [same_content]. rewrite Nat.eqb_refl. exact S5.
    + intros i [its [e | f]]; [reflexivity|].
      destruct (nth_error its i) as [[k0 v0]|]; [|reflexivity].
      cbn [bind fst snd]. unfold des. cbn [fst snd].
      destruct (StaticLayout.deserialize_value Alignment K k0 true input f)
        as [[k' [e | f']]|]; cbn [bind]; try reflexivity.
      destruct (StaticLayout.deserialize_value Alignment V v0 true input f')
        as [[v' r]|]; reflexivity.
Qed.

(** Every object of a valid schema is written into exactly the bytes up
    to the computed end offset, and reads back with the same content. *)
Lemma static_layout_round_trips (Alignment : nat) :
  consistent_alignment Alignment ->
  forall T,
    valid_schema T = true ->
    forall v output offset,
      has_type T v = true ->
      (StaticLayout.calculate_field_end_offset Alignment T offset
       <= length output)%nat ->
      round_trips Alignment T v output offset.
Proof.
  intros HA. induction T using Ty_nested_ind; intros Hvalid.
  - intros v output offset. apply round_trips_Scalar.
  - intros v output offset. apply round_trips_String.
  - cbn [valid_schema] in Hvalid.
    apply andb_prop in Hvalid. destruct Hvalid as [Hid Hfields].
    apply andb_prop in Hid. destruct Hid as [Hlo Hhi].
    apply Z.leb_le in Hlo. apply Z.ltb_lt in Hhi.
    apply round_trips_Message; [exact HA | lia |].
    rewrite forallb_forall in Hfields.
    rewrite Forall_forall in H |- *.
    intros F HF. apply H; [exact HF|].
    specialize (Hfields F HF). apply andb_prop in Hfields. tauto.
  - cbn [valid_schema] in Hvalid.
    apply andb_prop in Hvalid. destruct Hvalid as [HE HvE].
    apply round_trips_Array; [exact HE | apply IHT; exact HvE].
  - cbn [valid_schema] in Hvalid.
    apply andb_prop in Hvalid. destruct Hvalid as [Hvalid HvV].
    apply andb_prop in Hvalid. destruct Hvalid as [Hvalid HvK].
    apply andb_prop in Hvalid. destruct Hvalid as [HK HV].
    apply round_trips_Map; auto.
  - cbn [valid_schema] in Hvalid.
    apply andb_prop in Hvalid. destruct Hvalid as [HT HvT].
    apply round_trips_Field; [exact HT | apply IHT; exact HvT].
Qed.

(* ------------------------------------------------------------------ *)
(** ** Reading arbitrary bytes *)

Lemma forallb_set_nth {A : Type} (f : A -> bool) (i : nat) (x : A)
      (l : list A) :
  forallb f l = true -> f x = true ->
  forallb f (StaticLayout.set_nth i x l) = true.
Proof.
  intros Hl Hx. unfold StaticLayout.set_nth.
  rewrite forallb_app. cbn [forallb]. rewrite Hx.
  rewrite forallb_forall in Hl.
  assert (H1 : forallb f (firstn i l) = true).
  { apply forallb_forall. intros y Hy. apply Hl.
    rewrite <- (firstn_skipn i l). apply in_or_app. left. exact Hy. }
  assert (H2 : forallb f (skipn (S i) l) = true).
  { apply forallb_forall. intros y Hy. apply Hl.
    rewrite <- (firstn_skipn (S i) l). apply in_or_app. right. exact Hy. }
  rewrite H1, H2. reflexivity.
Qed.

Lemma reads_within_unset (Alignment : nat) (T : Ty) (v0 : Val)
      (input : list Z) (offset : nat) :
  ValidElementType T = true -> has_type T v0 = true ->
  (StaticLayout.calculate_value_end_offset Alignment T offset
   <= length input)%nat ->
  reads_within Alignment T false v0 input offset.
Proof.
  intros HT Hty Hlen.
  destruct (deserialize_unset Alignment T v0 input offset HT Hty Hlen)
    as (v' & E & Hv').
  exists v', (Expected
                (StaticLayout.calculate_value_end_offset Alignment T offset)).
  split; [exact E|]. split; [exact Hv'|].
  intros offset' H. injection H as <-. reflexivity.
Qed.

Lemma reads_within_Scalar (Alignment : nat) k Vs (set : bool) (v0 : Val)
      (input : list Z) (offset : nat) :
  has_type (Scalar k Vs) v0 = true ->
  (StaticLayout.calculate_value_end_offset Alignment (Scalar k Vs) offset
   <= length input)%nat ->
  reads_within Alignment (Scalar k Vs) set v0 input offset.
Proof.
  intros Hty Hlen.
  destruct set; [|apply reads_within_unset; auto].
  destruct v0 as [z0 | | | | |]; try discriminate Hty.
  unfold reads_within.
  cbn [StaticLayout.deserialize_value
         StaticLayout.calculate_value_end_offset] in *.
  unfold StaticLayout.deserialize_scalar, StaticLayout.read_scalar,
    StaticLayout.read_le.
  cbv zeta. rewrite load_defined by lia. cbn [bind].
  eexists _, _. split; [reflexivity|]. split; [reflexivity|].
  intros offset' H. injection H as <-. lia.
Qed.

Lemma reads_within_String (Alignment : nat) n Vs (set : bool) (v0 : Val)
      (input : list Z) (offset : nat) :
  has_type (String_ n Vs) v0 = true ->
  (StaticLayout.calculate_value_end_offset Alignment (String_ n Vs) offset
   <= length input)%nat ->
  reads_within Alignment (String_ n Vs) set v0 input offset.
Proof.
  intros Hty Hlen.
  destruct set; [|apply reads_within_unset; auto].
  destruct v0 as [| s0 | | | |]; try discriminate Hty.
  unfold reads_within.
  cbn [StaticLayout.deserialize_value
         StaticLayout.calculate_value_end_offset] in *.
  unfold StaticLayout.deserialize_string, StaticLayout.read_le.
  cbv zeta. rewrite load_defined by lia. cbn [bind].
  set (len := le_value _).
  destruct (Z.ltb_spec (Z.of_nat n) len) as [Hbig | Hfit].
  - cbn [bind]. eexists _, _. split; [reflexivity|]. split; [exact Hty|].
    intros offset' H. discriminate H.
  - rewrite load_defined by lia. cbn [bind].
    eexists _, _. split; [reflexivity|]. split.
    + cbn [has_type buffer_ current_len_].
      rewrite length_firstn, length_skipn.
      apply andb_true_intro. split.
      * apply Nat.eqb_eq. lia.
      * apply Nat.leb_le. lia.
    + intros offset' H. injection H as <-. lia.
Qed.

Section ReadFieldLists.
Variable Alignment : nat.

Lemma fields_read_within (fields : list Ty) :
  Forall (fun F =>
            forall v0 input offset,
              has_type F v0 = true ->
              (StaticLayout.calculate_field_end_offset Alignment F offset
               <= length input)%nat ->
              field_reads_within Alignment F v0 input offset) fields ->
  forall vals0 input offset,
    all2 has_type fields vals0 = true ->
    (StaticLayout.calculate_payload_fields Alignment fields offset
     <= length input)%nat ->
    exists vals' r,
      StaticLayout.deserialize_fields Alignment fields vals0 input offset
      = Some (vals', r)
      /\ all2 has_type fields vals' = true
      /\ forall offset',
          r = Expected offset' ->
          offset'
          = StaticLayout.calculate_payload_fields Alignment fields offset.
Proof.
  induction 1 as [|F rest HF _ IH]; intros vals0 input offset Hty Hlen.
  - destruct vals0; [|discriminate Hty].
    exists [], (Expected offset). split; [reflexivity|].
    split; [reflexivity|]. intros offset' H. injection H as <-. reflexivity.
  - destruct vals0 as [|v0 vals0']; [discriminate Hty|].
    cbn [all2] in Hty. apply andb_prop in Hty. destruct Hty as [Hv Hvals].
    rewrite payload_fields_cons in *.
    pose proof (payload_fields_mono
                  Alignment rest
                  (StaticLayout.calculate_field_end_offset Alignment F offset))
      as Hmono.
    destruct (HF v0 input offset Hv) as (v' & r & E & Hv' & Hr); [lia|].
    cbn [StaticLayout.deserialize_fields]. rewrite E. cbn [bind].
    destruct r as [e | mid].
    + eexists _, _. split; [reflexivity|]. split.
      * cbn [all2]. rewrite Hv', Hvals. reflexivity.
      * intros offset' H. discriminate H.
    + rewrite (Hr mid eq_refl).
      destruct (IH vals0' input _ Hvals Hlen) as (vs' & r' & E' & Hvs' & Hr').
      rewrite E'. cbn [bind].
      eexists _, _. split; [reflexivity|]. split.
      * cbn [all2]. rewrite Hv', Hvs'. reflexivity.
      * exact Hr'.
Qed.

End ReadFieldLists.

Lemma reads_within_Message (Alignment : nat) id fields V :
  consistent_alignment Alignment ->
  Forall (fun F =>
            forall v0 input offset,
              has_type F v0 = true ->
              (StaticLayout.calculate_field_end_offset Alignment F offset
               <= length input)%nat ->
              field_reads_within Alignment F v0 input offset) fields ->
  forall set v0 input offset,
    has_type (Message id fields V) v0 = true ->
    (StaticLayout.calculate_value_end_offset Alignment (Message id fields V)
                                             offset
     <= length input)%nat ->
    reads_within Alignment (Message id fields V) set v0 input offset.
Proof.
  intros HA HF set v0 input offset Hty Hlen.
  destruct set; [|apply reads_within_unset; auto].
  destruct v0 as [| | vals0 | | |]; try discriminate Hty.
  unfold reads_within. rewrite deserialize_value_Message. cbv zeta.
  rewrite end_offset_Message in *.
  set (pad := StaticLayout.calculate_padding Alignment Alignment offset)
    in *.
  assert (Hshift :
            StaticLayout.calculate_payload_fields Alignment fields
                                                  (offset + pad + 4)
            = (offset + pad + 4
               + StaticLayout.calculate_payload_fields Alignment fields 0)%nat).
  { rewrite <- (Nat.add_0_l (offset + pad + 4)) at 1.
    rewrite payload_fields_shift; [lia | exact HA |].
    apply four_aligned; [exact HA|]. apply padding_aligns. exact HA. }
  rewrite <- Hshift in *.
  pose proof (payload_fields_mono Alignment fields (offset + pad + 4))
    as Hmono.
  unfold StaticLayout.read_le. rewrite load_defined by lia. cbn [bind].
  destruct (negb (to_signed 4 _ =? id)).
  - eexists _, _. split; [reflexivity|]. split; [exact Hty|].
    intros offset' H. discriminate H.
  - rewrite has_type_Message in Hty.
    destruct (fields_read_within Alignment fields HF vals0 input
                                 (offset + pad + 4) Hty Hlen)
      as (vals' & r & E & Hvs & Hr).
    rewrite E. cbn [bind].
    eexists _, _. split; [reflexivity|]. split.
    + rewrite has_type_Message. exact Hvs.
    + exact Hr.
Qed.

Section ReadSlots.
Context {X : Type}.
Variable des : X -> list Z -> nat -> option (X * expected nat).
Variable step : nat -> nat.
Variable ok : X -> bool.
Variable input : list Z.

Hypothesis step_mono : forall y, (y <= step y)%nat.

Hypothesis slot :
  forall x0 offset,
    ok x0 = true -> (step offset <= length input)%nat ->
    exists x' r,
      des x0 input offset = Some (x', r)
      /\ ok x' = true
      /\ forall offset', r = Expected offset' -> offset' = step offset.

Lemma slots_read_within (items0 : list X) (len max base : nat) :
  length items0 = max -> (len <= max)%nat -> forallb ok items0 = true ->
  (Nat.iter max step base <= length input)%nat ->
  exists items' r,
    for_range 0 len
      (fun i '(items, r) =>
         match r with
         | Unexpected e => Some (items, r)
         | Expected offset =>
             item <- nth_error items i ;;
             '(item, r) <- des item input offset ;;
             Some (StaticLayout.set_nth i item items, r)
         end)
      (items0, Expected base)
    = Some (items', r)
    /\ length items' = max
    /\ forallb ok items' = true.
Proof.
  intros Hl Hlen Hok Hbound.
  destruct
    (for_range_total
       (fun i (st : list X * expected nat) =>
          length (fst st) = max
          /\ forallb ok (fst st) = true
          /\ forall offset, snd st = Expected offset ->
                            offset = Nat.iter i step base)
       0 len
       (fun i '(items, r) =>
          match r with
          | Unexpected e => Some (items, r)
          | Expected offset =>
              item <- nth_error items i ;;
              '(item, r) <- des item input offset ;;
              Some (StaticLayout.set_nth i item items, r)
          end)
       (items0, Expected base)) as ([its r] & E & H1 & H2 & _).
  - lia.
  - cbn [fst snd]. split; [exact Hl|]. split; [exact Hok|].
    intros offset H. injection H as <-. reflexivity.
  - intros i [its r] Hi (Hlen' & Hok' & Hr). cbn [fst snd] in *.
    destruct r as [e | f].
    + eexists. split; [reflexivity|]. cbn [fst snd].
      split; [exact Hlen'|]. split; [exact Hok'|].
      intros offset H. discriminate H.
    + rewrite (Hr f eq_refl).
      destruct (nth_error_defined its i) as (x0 & Hx0); [lia|].
      rewrite Hx0. cbn [bind].
      pose proof (forallb_nth_error ok its i x0 Hok' Hx0) as Hokx.
      pose proof (iter_le step (S i) max base step_mono ltac:(lia)) as Hle.
      destruct (slot x0 (Nat.iter i step base) Hokx)
        as (x' & r' & Ex' & Hx' & Hr'); [exact (Nat.le_trans _ _ _ Hle Hbound)|].
      rewrite Ex'. cbn [bind].
      eexists. split; [reflexivity|]. cbn [fst snd].
      split; [rewrite length_set_nth; lia|].
      split; [apply forallb_set_nth; assumption|].
      exact Hr'.
  - exists its, r. auto.
Qed.

End ReadSlots.

Lemma reads_within_Array (Alignment : nat) Id (E : Ty) n Vs :
  (forall set v0 input offset,
      has_type E v0 = true ->
      (StaticLayout.calculate_value_end_offset Alignment E offset
       <= length input)%nat ->
      reads_within Alignment E set v0 input offset) ->
  forall set v0 input offset,
    has_type (ArrayField Id E n Vs) v0 = true ->
    (StaticLayout.calculate_value_end_offset Alignment (ArrayField Id E n Vs)
                                             offset
     <= length input)%nat ->
    reads_within Alignment (ArrayField Id E n Vs) set v0 input offset.
Proof.
  intros IH set v0 input offset Hty Hlen.
  destruct set; [|apply reads_within_unset; auto].
  destruct v0 as [| | | items0 len0 | |]; try discriminate Hty.
  pose proof Hty as Hty'. cbn [has_type] in Hty'.
  apply andb_prop in Hty'. destruct Hty' as [Hty' Hok].
  apply andb_prop in Hty'. destruct Hty' as [Hitems _].
  apply Nat.eqb_eq in Hitems.
  unfold reads_within.
  cbn [StaticLayout.deserialize_value negb]. cbv zeta.
  rewrite end_offset_Array in *.
  set (pad := StaticLayout.calculate_padding Alignment 4 offset) in *.
  set (step := StaticLayout.calculate_value_end_offset Alignment E) in *.
  set (base := (offset + pad + 4)%nat) in *.
  assert (Hmono : forall y, (y <= step y)%nat)
    by (intros y; apply end_offset_mono).
  pose proof (iter_le step 0 n base Hmono ltac:(lia)) as Hbase.
  cbn [Nat.iter nat_rect] in Hbase.
  unfold StaticLayout.read_le.
  rewrite load_defined by (unfold base in *; lia). cbn [bind].
  set (len := le_value _).
  destruct (Z.ltb_spec (Z.of_nat n) len) as [Hbig | Hfit].
  - eexists _, _. split; [reflexivity|]. split; [exact Hty|].
    intros offset' H. discriminate H.
  - destruct (slots_read_within
                (fun x0 input offset =>
                   StaticLayout.deserialize_value Alignment E x0 true input
                                                  offset)
                step (has_type E) input Hmono
                ltac:(intros x0 f Hx0 Hf; exact (IH true x0 input f Hx0 Hf))
                items0 (Z.to_nat len) n base Hitems ltac:(lia) Hok Hlen)
      as (items' & r & E5 & Hl5 & Hok5).
    cbv beta in E5. fold base. rewrite E5. cbn [bind].
    assert (Hres : has_type (ArrayField Id E n Vs)
                            (VArray items' (Z.to_nat len)) = true).
    { cbn [has_type]. rewrite Hl5, Nat.eqb_refl, Hok5.
      replace (Z.to_nat len <=? n)%nat with true; [reflexivity|].
      symmetry. apply Nat.leb_le. lia. }
    destruct r as [e | f].
    + eexists _, _. split; [reflexivity|]. split; [exact Hres|].
      intros offset' H. discriminate H.
    + eexists _, _. split; [reflexivity|]. split; [exact Hres|].
      intros offset' H. injection H as <-. reflexivity.
Qed.

Lemma reads_within_Map (Alignment : nat) Id (K V : Ty) n Vs :
  (forall set v0 input offset,
      has_type K v0 = true ->
      (StaticLayout.calculate_value_end_offset Alignment K offset
       <= length input)%nat ->
      reads_within Alignment K set v0 input offset) ->
  (forall set v0 input offset,
      has_type V v0 = true ->
      (StaticLayout.calculate_value_end_offset Alignment V offset
       <= length input)%nat ->
      reads_within Alignment V set v0 input offset) ->
  forall set v0 input offset,
    has_type (MapField Id K V n Vs) v0 = true ->
    (StaticLayout.calculate_value_end_offset Alignment (MapField Id K V n Vs)
                                             offset
     <= length input)%nat ->
    reads_within Alignment (MapField Id K V n Vs) set v0 input offset.
Proof.
  intros IHK IHV set v0 input offset Hty Hlen.
  destruct set; [|apply reads_within_unset; auto].
  destruct v0 as [| | | | items0 len0 |]; try discriminate Hty.
  pose proof Hty as Hty'. cbn [has_type] in Hty'.
  apply andb_prop in Hty'. destruct Hty' as [Hty' Hok].
  apply andb_prop in Hty'. destruct Hty' as [Hitems _].
  apply Nat.eqb_eq in Hitems.
  unfold reads_within.
  cbn [StaticLayout.deserialize_value negb]. cbv zeta.
  rewrite end_offset_Map in *.
  set (pad := StaticLayout.calculate_padding Alignment 4 offset) in *.
  set (stepK := StaticLayout.calculate_value_end_offset Alignment K) in *.
  set (stepV := StaticLayout.calculate_value_end_offset Alignment V) in *.
  set (step := fun offset : nat => stepV (stepK offset)) in *.
  set (base := (offset + pad + 4)%nat) in *.
  assert (HmonoK : forall y, (y <= stepK y)%nat)
    by (intros y; apply end_offset_mono).
  assert (HmonoV : forall y, (y <= stepV y)%nat)
    by (intros y; apply end_offset_mono).
  assert (Hmono : forall y, (y <= step y)%nat).
  { intros y. unfold step. specialize (HmonoK y).
    specialize (HmonoV (stepK y)). lia. }
  pose proof (iter_le step 0 n base Hmono ltac:(lia)) as Hbase.
  cbn [Nat.iter nat_rect] in Hbase.
  unfold StaticLayout.read_le.
  rewrite load_defined by (unfold base in *; lia). cbn [bind].
  set (len := le_value _).
  destruct (Z.ltb_spec (Z.of_nat n) len) as [Hbig | Hfit].
  - eexists _, _. split; [reflexivity|]. split; [exact Hty|].
    intros offset' H. discriminate H.
  - set (des := fun (pair : Val * Val) (input : list Z) (offset : nat) =>
                  '(key, r) <-
                    StaticLayout.deserialize_value Alignment K (fst pair)
                                                   true input offset ;;
                  match r with
                  | Unexpected e => Some ((key, snd pair), r)
                  | Expected offset =>
                      '(val, r) <-
                        StaticLayout.deserialize_value Alignment V (snd pair)
                                                       true input offset ;;
                      Some ((key, val), r)
                  end).
    set (ok := fun kv : Val * Val =>
                 has_type K (fst kv) && has_type V (snd kv)).
    assert (Hslot :
              forall x0 offset,
                ok x0 = true -> (step offset <= length input)%nat ->
                exists x' r,
                  des x0 input offset = Some (x', r)
                  /\ ok x' = true
                  /\ forall offset',
                      r = Expected offset' -> offset' = step offset).
    { intros [k0 v0] f Hx0 Hf. unfold ok, des, step in *.
      cbn [fst snd] in *.
      apply andb_prop in Hx0. destruct Hx0 as [Hk0 Hv0].
      pose proof (HmonoV (stepK f)) as HmV.
      destruct (IHK true k0 input f Hk0) as (k' & rk & Ek & Hk' & Hrk);
        [fold stepK; lia|].
      rewrite Ek. cbn [bind].
      destruct rk as [e | mid].
      - eexists _, _. split; [reflexivity|]. split.
        + cbn [fst snd]. rewrite Hk', Hv0. reflexivity.
        + intros offset' H. discriminate H.
      - rewrite (Hrk mid eq_refl). fold stepK.
        destruct (IHV true v0 input (stepK f) Hv0)
          as (v' & rv & Ev & Hv' & Hrv); [fold stepV; lia|].
        rewrite Ev. cbn [bind].
        eexists _, _. split; [reflexivity|]. split.
        + cbn [fst snd]. rewrite Hk', Hv'. reflexivity.
        + exact Hrv. }
    destruct (slots_read_within des step ok input Hmono Hslot
                items0 (Z.to_nat len) n base Hitems ltac:(lia) Hok Hlen)
      as (items' & r & E5 & Hl5 & Hok5).
    fold base.
    rewrite (for_range_ext 0 (Z.to_nat len) _
               (fun i '(items, r) =>
                  match r with
                  | Unexpected e => Some (items, r)
                  | Expected offset =>
                      item <- nth_error items i ;;
                      '(item, r) <- des item input offset ;;
                      Some (StaticLayout.set_nth i item items, r)
                  end)).
    + rewrite E5. cbn [bind].
      assert (Hres : has_type (MapField Id K V n Vs)
                              (VMap items' (Z.to_nat len)) = true).
      { cbn [has_type]. rewrite Hl5, Nat.eqb_refl.
        replace (Z.to_nat len <=? n)%nat with true
          by (symmetry; apply Nat.leb_le; lia).
        exact Hok5. }
      destruct r as [e | f].
      * eexists _, _. split; [reflexivity|]. split; [exact Hres|].
        intros offset' H. discriminate H.
      * eexists _, _. split; [reflexivity|]. split; [exact Hres|].
        intros offset' H. injection H as <-. reflexivity.
    + intros i [its [e | f]]; [reflexivity|].
      destruct (nth_error its i) as [[k0 v0]|]; [|reflexivity].
      cbn [bind fst snd]. unfold des. cbn [fst snd].
      destruct (StaticLayout.deserialize_value Alignment K k0 true input f)
        as [[k' [e | f']]|]; cbn [bind]; try reflexivity.
      destruct (StaticLayout.deserialize_value Alignment V v0 true input f')
        as [[v' r']|]; reflexivity.
Qed.

Lemma reads_within_Field (Alignment : nat) Id Pr (T : Ty) :
  ValidElementType T = true ->
  (forall set v0 input offset,
      has_type T v0 = true ->
      (StaticLayout.calculate_value_end_offset Alignment T offset
       <= length input)%nat ->
      reads_within Alignment T set v0 input offset) ->
  forall v0 input offset,
    has_type (Field Id Pr T) v0 = true ->
    (StaticLayout.calculate_field_end_offset Alignment (Field Id Pr T) offset
     <= length input)%nat ->
    field_reads_within Alignment (Field Id Pr T) v0 input offset.
Proof.
  intros HT IH v0 input offset Hty Hlen.
  destruct v0 as [| | | | | value0 set0]; try discriminate Hty.
  unfold field_reads_within.
  cbn [StaticLayout.calculate_field_end_offset
         StaticLayout.deserialize_field has_type] in *.
  pose proof (end_offset_mono Alignment T (offset + 1)) as Hmono.
  destruct (nth_error_defined input offset) as (b & Hb); [lia|].
  rewrite Hb. cbn [bind]. cbv zeta.
  destruct (IH (negb (u8 b =? 0)) value0 input (offset + 1)%nat Hty Hlen)
    as (v' & r & E & Hv' & Hr).
  rewrite E. cbn [bind].
  eexists _, _. split; [reflexivity|]. split; [exact Hv' | exact Hr].
Qed.

(** Decoding never leaves the slot of the value it decodes, whatever the
    bytes are. *)
Lemma static_layout_reads_within (Alignment : nat) :
  consistent_alignment Alignment ->
  forall T,
    valid_schema T = true ->
    (ValidElementType T = true ->
     forall set v0 input offset,
       has_type T v0 = true ->
       (StaticLayout.calculate_value_end_offset Alignment T offset
        <= length input)%nat ->
       reads_within Alignment T set v0 input offset)
    /\ (forall v0 input offset,
           has_type T v0 = true ->
           (StaticLayout.calculate_field_end_offset Alignment T offset
            <= length input)%nat ->
           field_reads_within Alignment T v0 input offset).
Proof.
  intros HA.
  assert (Hlift :
            forall T,
              ValidElementType T = true ->
              (forall set v0 input offset,
                  has_type T v0 = true ->
                  (StaticLayout.calculate_value_end_offset Alignment T offset
                   <= length input)%nat ->
                  reads_within Alignment T set v0 input offset) ->
              forall v0 input offset,
                has_type T v0 = true ->
                (StaticLayout.calculate_field_end_offset Alignment T offset
                 <= length input)%nat ->
                field_reads_within Alignment T v0 input offset).
  { intros T HT H v0 input offset Hty Hlen.
    destruct (field_as_value Alignment T HT) as (_ & Hd & He).
    unfold field_reads_within. rewrite Hd, He. rewrite He in Hlen.
    exact (H true v0 input offset Hty Hlen). }
  induction T using Ty_nested_ind; intros Hvalid.
  - assert (Hv : forall set v0 input offset,
               has_type (Scalar k Vs) v0 = true ->
               (StaticLayout.calculate_value_end_offset
                  Alignment (Scalar k Vs) offset <= length input)%nat ->
               reads_within Alignment (Scalar k Vs) set v0 input offset)
      by (intros; apply reads_within_Scalar; assumption).
    split; [intros _; exact Hv | apply Hlift; [reflexivity | exact Hv]].
  - assert (Hv : forall set v0 input offset,
               has_type (String_ n Vs) v0 = true ->
               (StaticLayout.calculate_value_end_offset
                  Alignment (String_ n Vs) offset <= length input)%nat ->
               reads_within Alignment (String_ n Vs) set v0 input offset)
      by (intros; apply reads_within_String; assumption).
    split; [intros _; exact Hv | apply Hlift; [reflexivity | exact Hv]].
  - cbn [valid_schema] in Hvalid.
    apply andb_prop in Hvalid. destruct Hvalid as [_ Hfields].
    assert (HF : Forall (fun F =>
                           forall v0 input offset,
                             has_type F v0 = true ->
                             (StaticLayout.calculate_field_end_offset
                                Alignment F offset <= length input)%nat ->
                             field_reads_within Alignment F v0 input offset)
                        fields).
    { rewrite forallb_forall in Hfields.
      rewrite Forall_forall in H |- *.
      intros F HF. specialize (Hfields F HF).
      apply andb_prop in Hfields. apply (H F HF). tauto. }
    pose proof (reads_within_Message Alignment id fields V HA HF) as Hv.
    split; [intros _; exact Hv | apply Hlift; [reflexivity | exact Hv]].
  - cbn [valid_schema] in Hvalid.
    apply andb_prop in Hvalid. destruct Hvalid as [HE HvE].
    pose proof (reads_within_Array Alignment Id T n Vs
                                   (proj1 (IHT HvE) HE)) as Hv.
    split; [intros _; exact Hv | apply Hlift; [reflexivity | exact Hv]].
  - cbn [valid_schema] in Hvalid.
    apply andb_prop in Hvalid. destruct Hvalid as [Hvalid HvV].
    apply andb_prop in Hvalid. destruct Hvalid as [Hvalid HvK].
    apply andb_prop in Hvalid. destruct Hvalid as [HK HV].
    pose proof (reads_within_Map Alignment Id T1 T2 n Vs
                                 (proj1 (IHT1 HvK) HK)
                                 (proj1 (IHT2 HvV) HV)) as Hv.
    split; [intros _; exact Hv | apply Hlift; [reflexivity | exact Hv]].
  - cbn [valid_schema] in Hvalid.
    apply andb_prop in Hvalid. destruct Hvalid as [HT HvT].
    split; [intros Hno; discriminate Hno|].
    apply reads_within_Field; [exact HT | exact (proj1 (IHT HvT) HT)].
Qed.

(* ------------------------------------------------------------------ *)
(** ** The static layouts as a whole *)

Lemma payload_start (Alignment : nat) :
  consistent_alignment Alignment ->
  (StaticLayout.PayloadStartOffset Alignment = 6%nat
   \/ StaticLayout.PayloadStartOffset Alignment = 8%nat)
  /\ ((StaticLayout.PayloadStartOffset Alignment + 4) mod Alignment = 0)%nat.
Proof. intros [-> | ->]; split; auto. Qed.

Lemma static_message_round_trips (Alignment : nat) id fields V (msg : Val)
      (output : list Z) :
  consistent_alignment Alignment ->
  valid_schema (Message id fields V) = true ->
  has_type (Message id fields V) msg = true ->
  (StaticLayout.Size Alignment (Message id fields V) <= length output)%nat ->
  exists output',
    StaticLayout.Serialize Alignment (Message id fields V) msg output
    = Some (output', StaticLayout.Size Alignment (Message id fields V))
    /\ writes_within output StandardHeaderSize output'
         (StaticLayout.Size Alignment (Message id fields V))
    /\ (representable (Message id fields V) msg = true ->
        forall input msg0,
          has_type (Message id fields V) msg0 = true ->
          agrees (StaticLayout.Size Alignment (Message id fields V))
                 input output' ->
          exists msg',
            StaticLayout.Deserialize Alignment (Message id fields V)
                                     input msg0
            = Some (msg', None)
            /\ same_content (Message id fields V) msg' msg = true
            /\ has_type (Message id fields V) msg' = true).
Proof.
  intros HA Hvalid Hty Hlen.
  destruct msg as [| | vals | | |]; try discriminate Hty.
  rewrite has_type_Message in Hty.
  assert (Hid : - 2 ^ 31 <= id < 2 ^ 31).
  { cbn [valid_schema] in Hvalid.
    apply andb_prop in Hvalid. destruct Hvalid as [Hid _].
    apply andb_prop in Hid. destruct Hid as [Hlo Hhi].
    apply Z.leb_le in Hlo. apply Z.ltb_lt in Hhi. lia. }
  assert (HF : Forall (fun F =>
                         forall v output offset,
                           has_type F v = true ->
                           (StaticLayout.calculate_field_end_offset
                              Alignment F offset <= length output)%nat ->
                           round_trips Alignment F v output offset) fields).
  { cbn [valid_schema] in Hvalid.
    apply andb_prop in Hvalid. destruct Hvalid as [_ Hfields].
    rewrite forallb_forall in Hfields. rewrite Forall_forall.
    intros F HF. apply static_layout_round_trips; [exact HA|].
    specialize (Hfields F HF). apply andb_prop in Hfields. tauto. }
  destruct (payload_start Alignment HA) as (Hstart & Haligned).
  unfold StaticLayout.Size, StaticLayout.calculate_payload_size in *.
  unfold StaticLayout.Serialize, StaticLayout.Deserialize.
  set (start := StaticLayout.PayloadStartOffset Alignment) in *.
  assert (Hshift :
            StaticLayout.calculate_payload_fields Alignment fields (start + 4)
            = (start + 4
               + StaticLayout.calculate_payload_fields Alignment fields 0)%nat).
  { rewrite <- (Nat.add_0_l (start + 4)) at 1.
    rewrite payload_fields_shift; [lia | exact HA | exact Haligned]. }
  rewrite <- Hshift in *.
  pose proof (payload_fields_mono Alignment fields (start + 4)) as Hmono.
  unfold StandardHeaderSize in *. cbn [Nat.add] in *.
  assert (Hpad : exists o1,
             (if (6 <? start)%nat
              then memset output 6 0 (start - 6)
              else Some output) = Some o1
             /\ writes_within output 6 o1 start).
  { destruct (Nat.ltb_spec 6 start) as [Hlt | Hge].
    - unfold memset.
      destruct (memcpy_total output 6 (repeat 0 (start - 6)))
        as (o1 & E1 & W1 & _); [rewrite repeat_length; lia|].
      rewrite repeat_length in W1.
      replace (6 + (start - 6))%nat with start in W1 by lia.
      eauto.
    - assert (start = 6%nat) by lia.
      exists output. split; [reflexivity|].
      replace start with 6%nat. apply writes_within_refl. lia. }
  destruct Hpad as (o1 & E1 & W1).
  destruct (write_le_total 4 id o1 start) as (o2 & E2 & W2 & L2);
    [ww_bounds; lia|].
  destruct (round_trips_fields Alignment fields HF vals o2 (start + 4) Hty)
    as (o3 & E3 & W3 & D3); [ww_bounds; lia|].
  exists o3. split; [|split].
  - rewrite E1. cbn [bind]. rewrite E2. cbn [bind]. exact E3.
  - eapply writes_within_trans; [eassumption|].
    eapply writes_within_trans; eassumption.
  - intros Hrep input msg0 Hty0 Hag.
    destruct msg0 as [| | vals0 | | |]; try discriminate Hty0.
    rewrite has_type_Message in Hty0. cbn [representable] in Hrep.
    cbv zeta.
    assert (Hag2 : agrees (start + 4) input o2).
    { apply (agrees_after _ input o2 _ o3 _ W3 Hag). lia. }
    rewrite (read_le_written 4 id o2 input start (start + 4) L2 Hag2)
      by (ww_bounds; lia).
    cbn [bind].
    rewrite (to_signed_round_trip 4 id) by (cbn; lia).
    rewrite Z.eqb_refl. cbn [negb].
    destruct (D3 Hrep input vals0 Hty0 Hag) as (vals' & Evs & Svs).
    rewrite Evs. cbn [bind].
    eexists. split; [reflexivity|].
    split; [cbn [same_content]; exact Svs|].
    assert (HR : Forall (fun F =>
                           forall v0 input offset,
                             has_type F v0 = true ->
                             (StaticLayout.calculate_field_end_offset
                                Alignment F offset <= length input)%nat ->
                             field_reads_within Alignment F v0 input offset)
                        fields).
    { cbn [valid_schema] in Hvalid.
      apply andb_prop in Hvalid. destruct Hvalid as [_ Hfields].
      rewrite forallb_forall in Hfields. rewrite Forall_forall.
      intros F HF'. specialize (Hfields F HF'). apply andb_prop in Hfields.
      apply (static_layout_reads_within Alignment HA F). tauto. }
    destruct (fields_read_within Alignment fields HR vals0 input (start + 4)
                                 Hty0)
      as (vs & r & Er & Hvs & _).
    { apply agrees_length with (b := o3); [exact Hag|]. ww_bounds. lia. }
    rewrite Evs in Er. injection Er as <- _.
    rewrite has_type_Message. exact Hvs.
Qed.


(* ------------------------------------------------------------------ *)
(** ** The framing header *)

Lemma GetHeader_agrees (a b : list Z) :
  agrees StandardHeaderSize a b ->
  (StandardHeaderSize <= length a)%nat ->
  (StandardHeaderSize <= length b)%nat ->
  GetHeader a = GetHeader b.
Proof.
  unfold agrees, StandardHeaderSize. cbn [Nat.add]. intros E Ha Hb.
  destruct a as [|a0 [|a1 [|a2 [|a3 [|a4 [|a5 ra]]]]]];
    cbn [length] in Ha; try lia.
  destruct b as [|b0 [|b1 [|b2 [|b3 [|b4 [|b5 rb]]]]]];
    cbn [length] in Hb; try lia.
  cbn [firstn] in E. injection E as -> -> -> -> -> ->.
  reflexivity.
Qed.

Lemma WriteHeader_GetHeader (message_id : MessageId) (fmt : Format)
      (output : list Z) :
  - 2 ^ 31 <= message_id < 2 ^ 31 ->
  (StandardHeaderSize <= length output)%nat ->
  exists output',
    WriteHeader message_id fmt output = Some (output', StandardHeaderSize)
    /\ length output' = length output
    /\ skipn StandardHeaderSize output' = skipn StandardHeaderSize output
    /\ GetHeader output'
       = Expected (mkHeader CrunchVersion (Format_to_byte fmt) message_id).
Proof.
  intros Hid Hlen. unfold StandardHeaderSize in *. cbn [Nat.add] in *.
  destruct output as [|b0 [|b1 [|b2 [|b3 [|b4 [|b5 rest]]]]]];
    cbn [length] in Hlen; try lia.
  assert (Hb : exists c0 c1 c2 c3, le_bytes 4 message_id = [c0; c1; c2; c3])
    by (cbn [le_bytes]; eauto).
  destruct Hb as (c0 & c1 & c2 & c3 & Hb).
  assert (Hv : to_signed 4 (le_value [c0; c1; c2; c3]) = message_id).
  { rewrite <- Hb, le_value_le_bytes.
    apply to_signed_round_trip; [lia | assumption]. }
  exists (CrunchVersion :: Format_to_byte fmt :: c0 :: c1 :: c2 :: c3 :: rest).
  split; [|split; [reflexivity | split; [reflexivity|]]].
  - unfold WriteHeader, memcpy. rewrite Hb. cbn [length Nat.add].
    cbn [Nat.leb bind firstn skipn app length Nat.add]. reflexivity.
  - unfold GetHeader, StandardHeaderSize. cbn [length Nat.add Nat.ltb Nat.leb].
    cbn [nth skipn firstn]. rewrite Hv.
    replace (u8 CrunchVersion) with CrunchVersion by reflexivity.
    replace (u8 (Format_to_byte fmt)) with (Format_to_byte fmt)
      by (destruct fmt; reflexivity).
    reflexivity.
Qed.

Lemma bytes_eqb_refl (a : list Z) : bytes_eqb a a = true.
Proof.
  induction a as [|x a IH]; [reflexivity|].
  cbn [bytes_eqb]. rewrite Z.eqb_refl, IH. reflexivity.
Qed.

(* ------------------------------------------------------------------ *)
(** ** The buffer pipeline over a static layout *)

Section Pipeline.
Variable Integrity : IntegrityPolicy.
Variable Alignment : nat.
Variable M : Ty.

Hypothesis checksum_has_size :
  forall payload,
    length (integrity_calculate Integrity payload) = integrity_size Integrity.
Hypothesis alignment_consistent : consistent_alignment Alignment.
Hypothesis M_message : is_message M = true.
Hypothesis M_valid : valid_schema M = true.

Let Serdes : SerdesPolicy := StaticLayoutPolicy Alignment.

(** What [SerializeWithoutValidation] leaves in the buffer: the payload
    of [Size] bytes, which starts with the header, followed by its
    checksum. *)
Lemma serialized_frame (buffer : list Z) (message : Val) :
  has_type M message = true ->
  (detail.GetBufferSize Integrity Serdes M <= length buffer)%nat ->
  exists buffer' payload,
    detail.SerializeWithoutValidation Integrity Serdes M buffer message
    = Some (buffer', detail.GetBufferSize Integrity Serdes M)
    /\ length buffer' = length buffer
    /\ firstn (detail.GetBufferSize Integrity Serdes M) buffer'
       = payload ++ integrity_calculate Integrity payload
    /\ length payload = StaticLayout.Size Alignment M
    /\ GetHeader payload
       = Expected (mkHeader CrunchVersion
                            (Format_to_byte (StaticLayout.GetFormat Alignment))
                            (message_id_of M))
    /\ (representable M message = true ->
        forall msg0,
          has_type M msg0 = true ->
          exists msg',
            StaticLayout.Deserialize Alignment M payload msg0
            = Some (msg', None)
            /\ same_content M msg' message = true
            /\ has_type M msg' = true).
Proof.
  intros Hty Hlen.
  destruct M as [| | id fields V | | |] eqn:EM; try discriminate M_message.
  rewrite <- EM in *.
  unfold detail.GetBufferSize in *. unfold Serdes in *.
  cbn [Size GetFormat Serialize StaticLayoutPolicy] in *.
  set (sz := StaticLayout.Size Alignment M) in *.
  set (cs := integrity_size Integrity) in *.
  assert (Hsz : (StandardHeaderSize + 4 <= sz)%nat).
  { unfold sz, StaticLayout.Size.
    destruct (payload_start Alignment alignment_consistent) as ([-> | ->] & _);
      unfold StandardHeaderSize; lia. }
  assert (Hid : - 2 ^ 31 <= message_id_of M < 2 ^ 31).
  { pose proof M_valid as Hv. rewrite EM in Hv |- *.
    cbn [valid_schema message_id_of] in Hv |- *.
    apply andb_prop in Hv. destruct Hv as [Hv _].
    apply andb_prop in Hv. destruct Hv as [Hlo Hhi].
    apply Z.leb_le in Hlo. apply Z.ltb_lt in Hhi. lia. }
  unfold detail.SerializeWithoutValidation.
  cbn [Size GetFormat Serialize StaticLayoutPolicy].
  fold cs.
  destruct (Nat.ltb_spec (length buffer) cs) as [Hlt | _]; [lia|].
  set (P := (length buffer - cs)%nat).
  assert (HP : length (firstn P buffer) = P)
    by (rewrite length_firstn; lia).
  destruct (WriteHeader_GetHeader (message_id_of M)
              (StaticLayout.GetFormat Alignment) (firstn P buffer) Hid)
    as (p1 & E1 & L1 & _ & G1); [rewrite HP; lia|].
  rewrite E1. cbn [bind].
  assert (Hround := static_message_round_trips Alignment id fields V
                      message p1 alignment_consistent).
  rewrite <- EM in Hround.
  destruct (Hround M_valid Hty) as (p2 & E2 & W2 & D2);
    [fold sz; lia|].
  fold sz in E2, W2, D2.
  rewrite E2. cbn [bind].
  pose proof W2 as (_ & _ & L2 & H6 & _).
  set (payload := firstn sz p2).
  assert (Hpayload : length payload = sz)
    by (unfold payload; rewrite length_firstn; lia).
  assert (Hused : load p2 0 sz = Some payload).
  { rewrite load_defined by lia. reflexivity. }
  assert (Hfirst : firstn sz (p2 ++ skipn P buffer) = payload).
  { rewrite firstn_app. replace (sz - length p2)%nat with 0%nat by lia.
    rewrite firstn_O, app_nil_r. reflexivity. }
  assert (Hhead : GetHeader payload
                  = Expected
                      (mkHeader CrunchVersion
                         (Format_to_byte (StaticLayout.GetFormat Alignment))
                         (message_id_of M))).
  { rewrite <- G1. apply GetHeader_agrees; [|lia|lia].
    unfold agrees, payload. rewrite firstn_firstn.
    replace (Nat.min StandardHeaderSize sz) with StandardHeaderSize by lia.
    exact H6. }
  assert (Hdecode :
            representable M message = true ->
            forall msg0,
              has_type M msg0 = true ->
              exists msg',
                StaticLayout.Deserialize Alignment M payload msg0
                = Some (msg', None)
                /\ same_content M msg' message = true
                /\ has_type M msg' = true).
  { intros Hrep msg0 Hty0. apply (D2 Hrep payload msg0 Hty0).
    unfold agrees, payload. rewrite firstn_firstn.
    replace (Nat.min sz sz) with sz by lia. reflexivity. }
  destruct (Nat.ltb_spec 0 cs) as [Hcs | Hcs].
  - rewrite Hused. cbn [bind].
    destruct (memcpy_total (p2 ++ skipn P buffer) sz
                           (integrity_calculate Integrity payload))
      as (b' & E3 & W3 & L3).
    { rewrite checksum_has_size, length_app, length_skipn. fold cs. lia. }
    rewrite checksum_has_size in W3, L3. fold cs in W3, L3.
    rewrite E3. cbn [bind].
    exists b', payload. split; [reflexivity|].
    pose proof W3 as (_ & _ & Lb & Hb & _).
    split; [rewrite Lb, length_app, length_skipn; lia|].
    split; [|auto].
    rewrite <- (firstn_skipn sz (firstn (sz + cs) b')).
    rewrite firstn_firstn.
    replace (Nat.min sz (sz + cs)) with sz by lia.
    rewrite Hb, Hfirst. f_equal.
    unfold load in L3.
    destruct (Nat.leb_spec (sz + cs) (length b')); [|discriminate L3].
    injection L3 as L3. rewrite <- L3.
    rewrite skipn_firstn_comm.
    replace (sz + cs - sz)%nat with cs by lia. reflexivity.
  - assert (Hcs0 : cs = 0%nat) by lia.
    exists (p2 ++ skipn P buffer), payload.
    split; [reflexivity|].
    split; [rewrite length_app, length_skipn; lia|].
    split; [|auto].
    assert (Hnil : integrity_calculate Integrity payload = []).
    { apply length_zero_iff_nil. rewrite checksum_has_size. exact Hcs0. }
    rewrite Hnil, app_nil_r, Hcs0, Nat.add_0_r. exact Hfirst.
Qed.

(** Reading a frame back: the integrity check passes and the header is
    the one that was written. *)
Lemma deserialize_frame (Serdes' : SerdesPolicy) (M' : Ty)
      (payload : list Z) (msg0 : Val) :
  length payload = StaticLayout.Size Alignment M ->
  detail.Deserialize Integrity Serdes' M'
                     (payload ++ integrity_calculate Integrity payload) msg0
  = match ValidateHeader (message_id_of M') (GetFormat Serdes') payload with
    | Unexpected e => Some (msg0, Some e)
    | Expected _ =>
        '(message, err) <- Deserialize Serdes' M' payload msg0 ;;
        match err with
        | Some e => Some (message, Some e)
        | None => Some (message, detail.Validate M' message)
        end
    end.
Proof.
  intros Hlen. unfold detail.Deserialize.
  rewrite length_app, checksum_has_size.
  destruct (Nat.ltb_spec (length payload + integrity_size Integrity)
                         (integrity_size Integrity)) as [Hlt | _]; [lia|].
  replace (length payload + integrity_size Integrity
           - integrity_size Integrity)%nat with (length payload) by lia.
  rewrite firstn_app, Nat.sub_diag, firstn_O, app_nil_r, firstn_all.
  rewrite skipn_app, Nat.sub_diag, skipn_O, skipn_all, app_nil_l.
  rewrite bytes_eqb_refl. cbn [negb]. rewrite andb_false_r.
  destruct (ValidateHeader _ _ payload) as [e | n]; [reflexivity|].
  destruct (Deserialize Serdes' M' payload msg0) as [[message [e|]]|];
    cbn [bind]; try reflexivity.
  destruct (detail.Validate M' message); reflexivity.
Qed.

End Pipeline.

Lemma crunch_serialized_frame (Integrity : IntegrityPolicy)
      (Alignment : nat) (M : Ty) (buffer : Buffer) (message : Val) :
  (forall payload,
      length (integrity_calculate Integrity payload)
      = integrity_size Integrity) ->
  consistent_alignment Alignment ->
  is_message M = true ->
  valid_schema M = true ->
  has_type M message = true ->
  detail.Validate M message = None ->
  (detail.GetBufferSize Integrity (StaticLayoutPolicy Alignment) M
   <= length (data buffer))%nat ->
  exists buffer' payload,
    Crunch.Serialize Integrity (StaticLayoutPolicy Alignment) M buffer message
    = Some (buffer', None)
    /\ used_bytes buffer'
       = detail.GetBufferSize Integrity (StaticLayoutPolicy Alignment) M
    /\ length (data buffer') = length (data buffer)
    /\ Crunch.serialized_message_span buffer'
       = payload ++ integrity_calculate Integrity payload
    /\ length payload = StaticLayout.Size Alignment M
    /\ GetHeader payload
       = Expected (mkHeader CrunchVersion
                            (Format_to_byte (StaticLayout.GetFormat Alignment))
                            (message_id_of M))
    /\ (representable M message = true ->
        forall msg0,
          has_type M msg0 = true ->
          exists msg',
            StaticLayout.Deserialize Alignment M payload msg0
            = Some (msg', None)
            /\ same_content M msg' message = true
            /\ has_type M msg' = true).
Proof.
  intros HI HA HM Hvalid Hty Hval Hlen.
  destruct (serialized_frame Integrity Alignment M HI HA HM Hvalid
                             (data buffer) message Hty Hlen)
    as (b' & payload & E & L & F & R).
  exists (mkBuffer b'
            (detail.GetBufferSize Integrity (StaticLayoutPolicy Alignment) M)),
    payload.
  split; [|split; [reflexivity | split; [exact L | split; [exact F|exact R]]]].
  unfold Crunch.Serialize, detail.Serialize. rewrite Hval, E. reflexivity.
Qed.

Lemma Format_to_byte_inj (f g : Format) :
  Format_to_byte f = Format_to_byte g -> f = g.
Proof. destruct f, g; cbn; intros H; try reflexivity; discriminate H. Qed.


(* ------------------------------------------------------------------ *)
(** ** Decoder *)

Lemma default_val_has_type (T : Ty) : has_type T (default_val T) = true.
Proof.
  induction T using Ty_nested_ind; cbn [default_val has_type].
  - reflexivity.
  - unfold CrunchString.default. cbn [buffer_ current_len_].
    rewrite repeat_length, Nat.eqb_refl. reflexivity.
  - induction H as [|F rest HF _ IH]; [reflexivity|].
    cbn [map]. rewrite HF. exact IH.
  - rewrite repeat_length, Nat.eqb_refl. cbn [Nat.leb andb].
    apply forallb_forall. intros x Hx. apply repeat_spec in Hx. subst x.
    exact IHT.
  - rewrite repeat_length, Nat.eqb_refl. cbn [Nat.leb andb].
    apply forallb_forall. intros x Hx. apply repeat_spec in Hx. subst x.
    cbn [fst snd]. rewrite IHT1, IHT2. reflexivity.
  - exact IHT.
Qed.

Lemma Decode_dispatch_first_match (Serdes : SerdesPolicy)
      (Integrity : IntegrityPolicy) (pre : list Ty) (M : Ty)
      (post : list Ty) (header : CrunchHeader) (buffer : list Z)
      (out : detail.VariantType) (result : option Error) (index : nat) :
  Forall (fun M' => message_id_of M' <> header_message_id header) pre ->
  message_id_of M = header_message_id header ->
  detail.Decode_dispatch Serdes Integrity index (pre ++ M :: post) header
                         buffer out result
  = ('(msg, err) <-
       detail.Deserialize Integrity Serdes M buffer (default_val M) ;;
     match err with
     | Some e => Some (out, Some e)
     | None => Some (((index + length pre)%nat, msg), None)
     end).
Proof.
  intros Hpre HM. revert index.
  induction Hpre as [|M' pre' HM' _ IH]; intros index.
  - cbn [app detail.Decode_dispatch length]. rewrite HM, Z.eqb_refl.
    rewrite Nat.add_0_r. reflexivity.
  - cbn [app detail.Decode_dispatch length].
    apply Z.eqb_neq in HM'. rewrite HM'. rewrite IH.
    replace (S index + length pre')%nat with (index + S (length pre'))%nat
      by lia.
    reflexivity.
Qed.


(* ------------------------------------------------------------------ *)
(** ** Content and [operator==] *)

Section Indistinguishable.
Context {A : Type}.
Variable eqb : A -> A -> bool.

Lemma forallb_combine_alike_r (la lb : list A) :
  Forall2 (alike eqb) la lb ->
  forall lx,
    forallb (fun xy => eqb (fst xy) (snd xy)) (combine lx la)
    = forallb (fun xy => eqb (fst xy) (snd xy)) (combine lx lb).
Proof.
  induction 1 as [|a b la lb Hab _ IH]; intros lx.
  - reflexivity.
  - destruct lx as [|x lx]; [reflexivity|].
    cbn [combine forallb fst snd]. rewrite IH.
    rewrite (proj1 (Hab x)). reflexivity.
Qed.

Lemma forallb_combine_alike_l (la lb : list A) :
  Forall2 (alike eqb) la lb ->
  forall lx,
    forallb (fun xy => eqb (fst xy) (snd xy)) (combine la lx)
    = forallb (fun xy => eqb (fst xy) (snd xy)) (combine lb lx).
Proof.
  induction 1 as [|a b la lb Hab _ IH]; intros lx.
  - reflexivity.
  - destruct lx as [|x lx]; [reflexivity|].
    cbn [combine forallb fst snd]. rewrite IH.
    rewrite (proj2 (Hab x)). reflexivity.
Qed.

End Indistinguishable.

Lemma Forall2_firstn_alike {A : Type} (R : A -> A -> Prop)
      (ok : A -> bool) (same : A -> A -> bool) (n : nat) (la lb : list A) :
  (forall a b, ok a = true -> ok b = true -> same a b = true -> R a b) ->
  (n <= length la)%nat -> (n <= length lb)%nat ->
  forallb ok la = true -> forallb ok lb = true ->
  forallb (fun xy => same (fst xy) (snd xy))
          (combine (firstn n la) (firstn n lb)) = true ->
  Forall2 R (firstn n la) (firstn n lb).
Proof.
  intros HR. revert la lb.
  induction n as [|n IH]; intros la lb Hla Hlb Hoka Hokb Hsame.
  - constructor.
  - destruct la as [|a la]; [cbn in Hla; lia|].
    destruct lb as [|b lb]; [cbn in Hlb; lia|].
    cbn [length] in Hla, Hlb.
    cbn [firstn combine forallb fst snd] in Hoka, Hokb, Hsame |- *.
    apply andb_prop in Hoka. apply andb_prop in Hokb.
    apply andb_prop in Hsame.
    constructor.
    + apply HR; tauto.
    + apply IH; try tauto; lia.
Qed.

Section MapEntries.
Variables K V : Ty.

Let entry_alike (a b : Val * Val) : Prop :=
  alike (val_eqb K) (fst a) (fst b) /\ alike (val_eqb V) (snd a) (snd b).

Lemma find_entry_alike (la lb : list (Val * Val)) (key : Val) :
  Forall2 entry_alike la lb ->
  match find (fun p => val_eqb K (fst p) key) la,
        find (fun p => val_eqb K (fst p) key) lb with
  | Some x, Some y => entry_alike x y
  | None, None => True
  | _, _ => False
  end.
Proof.
  induction 1 as [|a b la lb Hab _ IH]; [exact I|].
  cbn [find]. destruct Hab as [Hk Hv].
  rewrite <- (proj2 (Hk key)).
  destruct (val_eqb K (fst a) key); [split; assumption | exact IH].
Qed.

Lemma has_entry_alike_r (la lb : list (Val * Val)) :
  Forall2 entry_alike la lb ->
  forall lx : list (Val * Val),
    forallb (fun mine =>
               match find (fun p => val_eqb K (fst p) (fst mine)) la with
               | Some it => val_eqb V (snd it) (snd mine)
               | None => false
               end) lx
    = forallb (fun mine =>
                 match find (fun p => val_eqb K (fst p) (fst mine)) lb with
                 | Some it => val_eqb V (snd it) (snd mine)
                 | None => false
                 end) lx.
Proof.
  intros H lx. induction lx as [|mine lx IH]; [reflexivity|].
  cbn [forallb]. rewrite IH. f_equal.
  pose proof (find_entry_alike la lb (fst mine) H) as Hf.
  destruct (find _ la) as [x|], (find _ lb) as [y|];
    try contradiction; [|reflexivity].
  destruct Hf as [_ Hv]. exact (proj2 (Hv (snd mine))).
Qed.

Lemma has_entry_alike_l (la lb : list (Val * Val)) :
  Forall2 entry_alike la lb ->
  forall lx : list (Val * Val),
    forallb (fun mine =>
               match find (fun p => val_eqb K (fst p) (fst mine)) lx with
               | Some it => val_eqb V (snd it) (snd mine)
               | None => false
               end) la
    = forallb (fun mine =>
                 match find (fun p => val_eqb K (fst p) (fst mine)) lx with
                 | Some it => val_eqb V (snd it) (snd mine)
                 | None => false
                 end) lb.
Proof.
  intros H lx. induction H as [|a b la lb Hab _ IH]; [reflexivity|].
  cbn [forallb]. rewrite IH. f_equal.
  destruct Hab as [Hk Hv].
  assert (Hfind : find (fun p => val_eqb K (fst p) (fst a)) lx
                  = find (fun p => val_eqb K (fst p) (fst b)) lx).
  { clear - Hk. induction lx as [|p lx IH]; [reflexivity|].
    cbn [find]. rewrite IH, (proj1 (Hk (fst p))). reflexivity. }
  rewrite Hfind. clear Hfind.
  destruct (find _ lx) as [it|]; [|reflexivity].
  exact (proj1 (Hv (snd it))).
Qed.

End MapEntries.

Lemma val_eqb_Message id fields V xs ys :
  val_eqb (Message id fields V) (VMessage xs) (VMessage ys)
  = all3 val_eqb fields xs ys.
Proof. reflexivity. Qed.

Lemma all3_alike (fields : list Ty) :
  Forall (fun F =>
            forall a b,
              has_type F a = true -> has_type F b = true ->
              same_content F a b = true -> alike (val_eqb F) a b) fields ->
  forall la lb,
    all2 has_type fields la = true -> all2 has_type fields lb = true ->
    all3 same_content fields la lb = true ->
    forall lx,
      all3 val_eqb fields lx la = all3 val_eqb fields lx lb
      /\ all3 val_eqb fields la lx = all3 val_eqb fields lb lx.
Proof.
  induction 1 as [|F rest HF _ IH]; intros la lb Ha Hb Hs lx.
  - destruct la; [|discriminate Ha]. destruct lb; [|discriminate Hb].
    split; reflexivity.
  - destruct la as [|a la]; [discriminate Ha|].
    destruct lb as [|b lb]; [discriminate Hb|].
    cbn [all2 all3] in Ha, Hb, Hs.
    apply andb_prop in Ha. apply andb_prop in Hb. apply andb_prop in Hs.
    destruct lx as [|x lx]; [split; reflexivity|].
    cbn [all3].
    destruct (HF a b (proj1 Ha) (proj1 Hb) (proj1 Hs) x) as [H1 H2].
    destruct (IH la lb (proj2 Ha) (proj2 Hb) (proj2 Hs) lx) as [H3 H4].
    rewrite H1, H2, H3, H4. split; reflexivity.
Qed.

(** Objects with the same content compare alike, under [operator==],
    against every object. *)
Lemma same_content_alike (T : Ty) :
  forall a b,
    has_type T a = true -> has_type T b = true ->
    same_content T a b = true -> alike (val_eqb T) a b.
Proof.
  induction T using Ty_nested_ind; intros a b Ha Hb Hs.
  - destruct a as [x | | | | |]; try discriminate Ha.
    destruct b as [y | | | | |]; try discriminate Hb.
    cbn [same_content] in Hs. apply Z.eqb_eq in Hs. subst y.
    intros z. split; reflexivity.
  - destruct a as [| x | | | |]; try discriminate Ha.
    destruct b as [| y | | | |]; try discriminate Hb.
    cbn [same_content] in Hs. unfold CrunchString.eqb in Hs.
    destruct (list_eq_dec Z.eq_dec (CrunchString.get x) (CrunchString.get y))
      as [Hget | _]; [|discriminate Hs].
    intros z. destruct z as [| z | | | |]; try (split; reflexivity).
    cbn [val_eqb]. unfold CrunchString.eqb. rewrite Hget.
    split; reflexivity.
  - destruct a as [| | la | | |]; try discriminate Ha.
    destruct b as [| | lb | | |]; try discriminate Hb.
    rewrite has_type_Message in Ha, Hb. cbn [same_content] in Hs.
    intros z. destruct z as [| | lx | | |]; try (split; reflexivity).
    rewrite !val_eqb_Message.
    apply (all3_alike fields H la lb Ha Hb Hs lx).
  - destruct a as [| | | la n_a | |]; try discriminate Ha.
    destruct b as [| | | lb n_b | |]; try discriminate Hb.
    cbn [has_type same_content] in Ha, Hb, Hs.
    apply andb_prop in Ha. destruct Ha as [Ha Hoka].
    apply andb_prop in Ha. destruct Ha as [Hla Hna].
    apply andb_prop in Hb. destruct Hb as [Hb Hokb].
    apply andb_prop in Hb. destruct Hb as [Hlb Hnb].
    apply andb_prop in Hs. destruct Hs as [Hn Hs].
    apply Nat.eqb_eq in Hla, Hlb, Hn. apply Nat.leb_le in Hna, Hnb.
    subst n_b.
    pose proof (Forall2_firstn_alike (alike (val_eqb T)) (has_type T)
                  (same_content T) n_a la lb IHT
                  ltac:(lia) ltac:(lia) Hoka Hokb Hs) as HF2.
    intros z. destruct z as [| | | lx n_x | |]; try (split; reflexivity).
    cbn [val_eqb]. split.
    + destruct (Nat.eqb_spec n_x n_a) as [-> | Hne]; [|reflexivity].
      cbn [andb].
      apply (forallb_combine_alike_r (val_eqb T) _ _ HF2).
    + f_equal. apply (forallb_combine_alike_l (val_eqb T) _ _ HF2).
  - destruct a as [| | | | la n_a |]; try discriminate Ha.
    destruct b as [| | | | lb n_b |]; try discriminate Hb.
    cbn [has_type same_content] in Ha, Hb, Hs.
    apply andb_prop in Ha. destruct Ha as [Ha Hoka].
    apply andb_prop in Ha. destruct Ha as [Hla Hna].
    apply andb_prop in Hb. destruct Hb as [Hb Hokb].
    apply andb_prop in Hb. destruct Hb as [Hlb Hnb].
    apply andb_prop in Hs. destruct Hs as [Hn Hs].
    apply Nat.eqb_eq in Hla, Hlb, Hn. apply Nat.leb_le in Hna, Hnb.
    subst n_b.
    pose proof (Forall2_firstn_alike
                  (fun x y : Val * Val =>
                     alike (val_eqb T1) (fst x) (fst y)
                     /\ alike (val_eqb T2) (snd x) (snd y))
                  (fun kv => has_type T1 (fst kv) && has_type T2 (snd kv))
                  (fun x y => same_content T1 (fst x) (fst y)
                              && same_content T2 (snd x) (snd y))
                  n_a la lb) as HF2.
    cbv beta in HF2.
    specialize (HF2 ltac:(intros x y Hx Hy Hxy;
                          apply andb_prop in Hx; apply andb_prop in Hy;
                          apply andb_prop in Hxy;
                          split; [apply IHT1 | apply IHT2]; tauto)
                    ltac:(lia) ltac:(lia) Hoka Hokb Hs).
    intros z. destruct z as [| | | | lx n_x |]; try (split; reflexivity).
    cbn [val_eqb]. split.
    + f_equal. apply (has_entry_alike_r T1 T2 _ _ HF2).
    + f_equal. apply (has_entry_alike_l T1 T2 _ _ HF2).
  - destruct a as [| | | | | va sa]; try discriminate Ha.
    destruct b as [| | | | | vb sb]; try discriminate Hb.
    cbn [has_type same_content] in Ha, Hb, Hs.
    intros z. destruct z as [| | | | | vx sx]; try (split; reflexivity).
    cbn [val_eqb].
    destruct sa, sb; try discriminate Hs; cbn [Bool.eqb negb] in Hs |- *.
    + destruct (IHT va vb Ha Hb Hs vx) as [H1 H2].
      destruct sx; cbn [Bool.eqb negb]; split; auto.
    + destruct sx; split; reflexivity.
Qed.

(* ------------------------------------------------------------------ *)
(** ** Framing, layout and pipeline: the results *)

(** X11: the header that [WriteHeader] writes is the one [GetHeader]
    parses and [ValidateHeader] accepts.  For a 32-bit message id and a
    buffer of at least 6 bytes, [WriteHeader] writes version 3, the format
    byte and the little-endian message id into the first 6 bytes and
    leaves the rest of the buffer alone, and [ValidateHeader] for the same
    message id and format returns the header size. *)
Theorem header_round_trip (message_id : MessageId) (fmt : Format)
        (output : list Z) :
  - 2 ^ 31 <= message_id < 2 ^ 31 ->
  (StandardHeaderSize <= length output)%nat ->
  exists output',
    WriteHeader message_id fmt output = Some (output', StandardHeaderSize)
    /\ length output' = length output
    /\ skipn StandardHeaderSize output' = skipn StandardHeaderSize output
    /\ GetHeader output'
       = Expected (mkHeader CrunchVersion (Format_to_byte fmt) message_id)
    /\ ValidateHeader message_id fmt output' = Expected StandardHeaderSize.
Proof.
  intros Hid Hlen.
  destruct (WriteHeader_GetHeader message_id fmt output Hid Hlen)
    as (o & E & L & S & G).
  exists o. repeat (split; [assumption|]).
  unfold ValidateHeader. rewrite G.
  cbn [version format header_message_id]. rewrite !Z.eqb_refl. reflexivity.
Qed.

Lemma header_round_trip_witness :
  exists output',
    WriteHeader 0x12345678 Packed (repeat 0 8)
    = Some (output', StandardHeaderSize)
    /\ length output' = length (repeat 0 8)
    /\ skipn StandardHeaderSize output' = skipn StandardHeaderSize (repeat 0 8)
    /\ GetHeader output'
       = Expected (mkHeader CrunchVersion (Format_to_byte Packed) 0x12345678)
    /\ ValidateHeader 0x12345678 Packed output' = Expected StandardHeaderSize.
Proof.
  apply (header_round_trip 0x12345678 Packed (repeat 0 8)).
  - simpl. lia.
  - vm_compute. lia.
Defined.

(** X12: [Size] is what [Serialize] writes.  For [Packed] and [Aligned4],
    serializing any object of a valid message type into a buffer of at
    least [Size<Message>()] bytes succeeds, reports exactly [Size] bytes
    written, keeps the buffer's length, and changes no byte of the
    6-byte header in front or behind the reported end. *)
Theorem static_serialize_writes_Size (Alignment : nat) (M : Ty) (msg : Val)
        (output : list Z) :
  consistent_alignment Alignment ->
  is_message M = true ->
  valid_schema M = true ->
  has_type M msg = true ->
  (StaticLayout.Size Alignment M <= length output)%nat ->
  exists output',
    StaticLayout.Serialize Alignment M msg output
    = Some (output', StaticLayout.Size Alignment M)
    /\ length output' = length output
    /\ firstn StandardHeaderSize output' = firstn StandardHeaderSize output
    /\ skipn (StaticLayout.Size Alignment M) output'
       = skipn (StaticLayout.Size Alignment M) output.
Proof.
  intros HA HM Hvalid Hty Hlen.
  destruct M as [| | id fields V | | |]; try discriminate HM.
  destruct (static_message_round_trips Alignment id fields V msg output
                                       HA Hvalid Hty Hlen)
    as (o & E & (_ & _ & Hl & Hf & Hs) & _).
  exists o. auto.
Qed.

Lemma static_serialize_writes_Size_witness :
  exists output',
    StaticLayout.Serialize 4 Batch batch (repeat 0 64)
    = Some (output', StaticLayout.Size 4 Batch)
    /\ length output' = length (repeat 0 64)
    /\ firstn StandardHeaderSize output'
       = firstn StandardHeaderSize (repeat 0 64)
    /\ skipn (StaticLayout.Size 4 Batch) output'
       = skipn (StaticLayout.Size 4 Batch) (repeat 0 64).
Proof.
  apply (static_serialize_writes_Size 4 Batch batch (repeat 0 64)).
  - right. reflexivity.
  - reflexivity.
  - reflexivity.
  - reflexivity.
  - vm_compute. lia.
Defined.

(** X13: the static layouts round-trip.  For [Packed] and [Aligned4],
    when [Serialize] has written a representable object of a valid
    message type, [Deserialize] of any buffer that starts with the bytes
    written succeeds, into any object of the type, and leaves an object
    with the same content: the same set flags, the same values in set
    fields and the same active elements.  Under [operator==] the decoded
    object compares against every object as the original does. *)
Theorem static_layout_round_trip (Alignment : nat) (M : Ty) (msg : Val)
        (output output' input : list Z) (n : nat) (msg0 : Val) :
  consistent_alignment Alignment ->
  is_message M = true ->
  valid_schema M = true ->
  has_type M msg = true ->
  representable M msg = true ->
  has_type M msg0 = true ->
  (StaticLayout.Size Alignment M <= length output)%nat ->
  StaticLayout.Serialize Alignment M msg output = Some (output', n) ->
  firstn n input = firstn n output' ->
  exists msg',
    StaticLayout.Deserialize Alignment M input msg0 = Some (msg', None)
    /\ same_content M msg' msg = true
    /\ forall x,
        val_eqb M x msg' = val_eqb M x msg
        /\ val_eqb M msg' x = val_eqb M msg x.
Proof.
  intros HA HM Hvalid Hty Hrep Hty0 Hlen Hser Hin.
  destruct M as [| | id fields V | | |] eqn:EM; try discriminate HM.
  rewrite <- EM in *.
  assert (Hround := static_message_round_trips Alignment id fields V
                      msg output HA).
  rewrite <- EM in Hround.
  destruct (Hround Hvalid Hty Hlen) as (o & E & _ & D).
  rewrite E in Hser. injection Hser as <- <-.
  destruct (D Hrep input msg0 Hty0 Hin) as (msg' & Ed & Sd & Hm).
  exists msg'. split; [exact Ed|]. split; [exact Sd|].
  exact (same_content_alike M msg' msg Hm Hty Sd).
Qed.

Lemma static_layout_round_trip_witness :
  exists msg',
    StaticLayout.Deserialize 1 MyMessage (data my_message_encoded)
                             (default_val MyMessage)
    = Some (msg', None)
    /\ same_content MyMessage msg' my_message = true
    /\ forall x,
        val_eqb MyMessage x msg' = val_eqb MyMessage x my_message
        /\ val_eqb MyMessage msg' x = val_eqb MyMessage my_message x.
Proof.
  apply (static_layout_round_trip
           1 MyMessage my_message
           (firstn 18 (data my_message_encoded))
           (firstn 18 (data my_message_encoded))
           (data my_message_encoded) 18 (default_val MyMessage)).
  - left. reflexivity.
  - reflexivity.
  - reflexivity.
  - reflexivity.
  - reflexivity.
  - reflexivity.
  - vm_compute. lia.
  - vm_compute. reflexivity.
  - reflexivity.
Defined.

(** X14: decoding is memory-safe on arbitrary bytes.  For [Packed] and
    [Aligned4], [Deserialize] of any buffer of at least [Size<Message>()]
    bytes into an object of a valid message type returns without reading
    outside the buffer, whatever the bytes are, and leaves an object of
    the type: every array keeps its [MaxSize] slots and every length
    stays within its capacity. *)
Theorem static_deserialize_stays_in_bounds (Alignment : nat) (M : Ty)
        (input : list Z) (msg0 : Val) :
  consistent_alignment Alignment ->
  is_message M = true ->
  valid_schema M = true ->
  has_type M msg0 = true ->
  (StaticLayout.Size Alignment M <= length input)%nat ->
  exists msg' result,
    StaticLayout.Deserialize Alignment M input msg0 = Some (msg', result)
    /\ has_type M msg' = true.
Proof.
  intros HA HM Hvalid Hty Hlen.
  destruct M as [| | id fields V | | |]; try discriminate HM.
  destruct msg0 as [| | vals0 | | |]; try discriminate Hty.
  assert (HF : Forall (fun F =>
                         forall v0 input offset,
                           has_type F v0 = true ->
                           (StaticLayout.calculate_field_end_offset
                              Alignment F offset <= length input)%nat ->
                           field_reads_within Alignment F v0 input offset)
                      fields).
  { cbn [valid_schema] in Hvalid.
    apply andb_prop in Hvalid. destruct Hvalid as [_ Hfields].
    rewrite forallb_forall in Hfields. rewrite Forall_forall.
    intros F HF. specialize (Hfields F HF). apply andb_prop in Hfields.
    apply (static_layout_reads_within Alignment HA F). tauto. }
  destruct (payload_start Alignment HA) as (Hstart & Haligned).
  unfold StaticLayout.Size, StaticLayout.calculate_payload_size in Hlen.
  unfold StaticLayout.Deserialize. cbv zeta.
  set (start := StaticLayout.PayloadStartOffset Alignment) in *.
  assert (Hshift :
            StaticLayout.calculate_payload_fields Alignment fields (start + 4)
            = (start + 4
               + StaticLayout.calculate_payload_fields Alignment fields 0)%nat).
  { rewrite <- (Nat.add_0_l (start + 4)) at 1.
    rewrite payload_fields_shift; [lia | exact HA | exact Haligned]. }
  rewrite <- Hshift in Hlen.
  pose proof (payload_fields_mono Alignment fields (start + 4)) as Hmono.
  unfold StaticLayout.read_le. rewrite load_defined by lia. cbn [bind].
  destruct (negb (to_signed 4 _ =? id)).
  - eexists _, _. split; [reflexivity | exact Hty].
  - rewrite has_type_Message in Hty.
    destruct (fields_read_within Alignment fields HF vals0 input (start + 4)
                                 Hty Hlen)
      as (vals' & r & E & Hvs & _).
    rewrite E. cbn [bind].
    destruct r; eexists _, _; (split; [reflexivity|]);
      rewrite has_type_Message; exact Hvs.
Qed.

Lemma static_deserialize_stays_in_bounds_witness :
  exists msg' result,
    StaticLayout.Deserialize 1 Label label_wire (default_val Label)
    = Some (msg', result)
    /\ has_type Label msg' = true.
Proof.
  apply (static_deserialize_stays_in_bounds 1 Label label_wire
                                            (default_val Label)).
  - left. reflexivity.
  - reflexivity.
  - reflexivity.
  - reflexivity.
  - vm_compute. lia.
Defined.

(** X15: the whole pipeline round-trips over [Packed] and [Aligned4],
    with any integrity policy whose checksum has the size it declares.
    [Serialize] of a valid message into a buffer of at least
    [GetBufferSize] bytes succeeds and uses exactly [GetBufferSize] bytes;
    [Deserialize] of that buffer passes the integrity and header checks
    and leaves a message with the same content, which compares under
    [operator==] as the original does, and its result is the result of
    validating that message. *)
Theorem crunch_round_trip (Integrity : IntegrityPolicy) (Alignment : nat)
        (M : Ty) (buffer : Buffer) (message msg0 : Val) :
  (forall payload,
      length (integrity_calculate Integrity payload)
      = integrity_size Integrity) ->
  consistent_alignment Alignment ->
  is_message M = true ->
  valid_schema M = true ->
  has_type M message = true ->
  representable M message = true ->
  has_type M msg0 = true ->
  detail.Validate M message = None ->
  (detail.GetBufferSize Integrity (StaticLayoutPolicy Alignment) M
   <= length (data buffer))%nat ->
  exists buffer' msg',
    Crunch.Serialize Integrity (StaticLayoutPolicy Alignment) M buffer message
    = Some (buffer', None)
    /\ used_bytes buffer'
       = detail.GetBufferSize Integrity (StaticLayoutPolicy Alignment) M
    /\ Crunch.Deserialize Integrity (StaticLayoutPolicy Alignment) M
                          buffer' msg0
       = Some (msg', detail.Validate M msg')
    /\ same_content M msg' message = true
    /\ forall x,
        val_eqb M x msg' = val_eqb M x message
        /\ val_eqb M msg' x = val_eqb M message x.
Proof.
  intros HI HA HM Hvalid Hty Hrep Hty0 Hval Hlen.
  destruct (crunch_serialized_frame Integrity Alignment M buffer message
                                    HI HA HM Hvalid Hty Hval Hlen)
    as (b' & payload & E & U & _ & F & L & G & D).
  destruct (D Hrep msg0 Hty0) as (msg' & Ed & Sd & Hm1).
  exists b', msg'. split; [exact E|]. split; [exact U|].
  split; [|split; [exact Sd|]].
  - unfold Crunch.Deserialize. rewrite F.
    rewrite (deserialize_frame Integrity Alignment M HI _ _ payload msg0 L).
    unfold ValidateHeader. rewrite G.
    cbn [version format header_message_id GetFormat StaticLayoutPolicy].
    rewrite !Z.eqb_refl. cbn [negb].
    cbn [Deserialize StaticLayoutPolicy]. rewrite Ed. reflexivity.
  - exact (same_content_alike M msg' message Hm1 Hty Sd).
Qed.

Lemma crunch_round_trip_witness :
  exists buffer' msg',
    Crunch.Serialize integrity.CRC16 (StaticLayoutPolicy 1) MyMessage
      (Crunch.GetBuffer integrity.CRC16 PackedLayout MyMessage) my_message
    = Some (buffer', None)
    /\ used_bytes buffer'
       = detail.GetBufferSize integrity.CRC16 (StaticLayoutPolicy 1) MyMessage
    /\ Crunch.Deserialize integrity.CRC16 (StaticLayoutPolicy 1) MyMessage
                          buffer' (default_val MyMessage)
       = Some (msg', detail.Validate MyMessage msg')
    /\ same_content MyMessage msg' my_message = true
    /\ forall x,
        val_eqb MyMessage x msg' = val_eqb MyMessage x my_message
        /\ val_eqb MyMessage msg' x = val_eqb MyMessage my_message x.
Proof.
  apply (crunch_round_trip
           integrity.CRC16 1 MyMessage
           (Crunch.GetBuffer integrity.CRC16 PackedLayout MyMessage)
           my_message (default_val MyMessage)).
  - reflexivity.
  - left. reflexivity.
  - reflexivity.
  - reflexivity.
  - reflexivity.
  - reflexivity.
  - reflexivity.
  - reflexivity.
  - vm_compute. lia.
Defined.

(** X16: a frame is only accepted by the layout that wrote it.  When a
    message was serialized over [Packed] or [Aligned4], [Deserialize]
    with a serdes policy of another format, for whatever message type,
    returns [InvalidFormat] and leaves the target message alone. *)
Theorem crunch_rejects_other_format (Integrity : IntegrityPolicy)
        (Alignment : nat) (M : Ty) (buffer buffer' : Buffer) (message : Val)
        (Serdes' : SerdesPolicy) (M' : Ty) (msg0 : Val) :
  (forall payload,
      length (integrity_calculate Integrity payload)
      = integrity_size Integrity) ->
  consistent_alignment Alignment ->
  is_message M = true ->
  valid_schema M = true ->
  has_type M message = true ->
  (detail.GetBufferSize Integrity (StaticLayoutPolicy Alignment) M
   <= length (data buffer))%nat ->
  Crunch.Serialize Integrity (StaticLayoutPolicy Alignment) M buffer message
  = Some (buffer', None) ->
  GetFormat Serdes' <> StaticLayout.GetFormat Alignment ->
  Crunch.Deserialize Integrity Serdes' M' buffer' msg0
  = Some (msg0, Some Error.invalid_format).
Proof.
  intros HI HA HM Hvalid Hty Hlen Hser Hfmt.
  assert (Hval : detail.Validate M message = None).
  { unfold Crunch.Serialize, detail.Serialize in Hser.
    destruct (detail.Validate M message); [discriminate Hser | reflexivity]. }
  destruct (crunch_serialized_frame Integrity Alignment M buffer message
                                    HI HA HM Hvalid Hty Hval Hlen)
    as (b' & payload & E & _ & _ & F & L & G & _).
  rewrite E in Hser. injection Hser as <-.
  unfold Crunch.Deserialize. rewrite F.
  rewrite (deserialize_frame Integrity Alignment M HI _ _ payload msg0 L).
  unfold ValidateHeader. rewrite G.
  cbn [version format header_message_id].
  rewrite Z.eqb_refl. cbn [negb].
  replace (Format_to_byte (StaticLayout.GetFormat Alignment)
           =? Format_to_byte (GetFormat Serdes')) with false; [reflexivity|].
  symmetry. apply Z.eqb_neq. intros H.
  apply Format_to_byte_inj in H. congruence.
Qed.

Lemma crunch_rejects_other_format_witness :
  Crunch.Deserialize integrity.CRC16 Aligned32Layout MyMessage
                     my_message_encoded (default_val MyMessage)
  = Some (default_val MyMessage, Some Error.invalid_format).
Proof.
  apply (crunch_rejects_other_format
           integrity.CRC16 1 MyMessage
           (Crunch.GetBuffer integrity.CRC16 PackedLayout MyMessage)
           my_message_encoded my_message Aligned32Layout MyMessage
           (default_val MyMessage)).
  - reflexivity.
  - left. reflexivity.
  - reflexivity.
  - reflexivity.
  - reflexivity.
  - vm_compute. lia.
  - vm_compute. reflexivity.
  - vm_compute. discriminate.
Defined.

(** X17: a frame is only accepted as the message type that wrote it.
    When a message was serialized over [Packed] or [Aligned4],
    [Deserialize] as a message type with another [message_id], over a
    serdes policy of the same format, returns [InvalidMessageId] and
    leaves the target message alone. *)
Theorem crunch_rejects_other_message (Integrity : IntegrityPolicy)
        (Alignment : nat) (M : Ty) (buffer buffer' : Buffer) (message : Val)
        (Serdes' : SerdesPolicy) (M' : Ty) (msg0 : Val) :
  (forall payload,
      length (integrity_calculate Integrity payload)
      = integrity_size Integrity) ->
  consistent_alignment Alignment ->
  is_message M = true ->
  valid_schema M = true ->
  has_type M message = true ->
  (detail.GetBufferSize Integrity (StaticLayoutPolicy Alignment) M
   <= length (data buffer))%nat ->
  Crunch.Serialize Integrity (StaticLayoutPolicy Alignment) M buffer message
  = Some (buffer', None) ->
  GetFormat Serdes' = StaticLayout.GetFormat Alignment ->
  message_id_of M' <> message_id_of M ->
  Crunch.Deserialize Integrity Serdes' M' buffer' msg0
  = Some (msg0, Some Error.invalid_message_id).
Proof.
  intros HI HA HM Hvalid Hty Hlen Hser Hfmt Hid.
  assert (Hval : detail.Validate M message = None).
  { unfold Crunch.Serialize, detail.Serialize in Hser.
    destruct (detail.Validate M message); [discriminate Hser | reflexivity]. }
  destruct (crunch_serialized_frame Integrity Alignment M buffer message
                                    HI HA HM Hvalid Hty Hval Hlen)
    as (b' & payload & E & _ & _ & F & L & G & _).
  rewrite E in Hser. injection Hser as <-.
  unfold Crunch.Deserialize. rewrite F.
  rewrite (deserialize_frame Integrity Alignment M HI _ _ payload msg0 L).
  unfold ValidateHeader. rewrite G.
  cbn [version format header_message_id].
  rewrite Hfmt, !Z.eqb_refl. cbn [negb].
  replace (message_id_of M =? message_id_of M') with false; [reflexivity|].
  symmetry. apply Z.eqb_neq. congruence.
Qed.

Lemma crunch_rejects_other_message_witness :
  Crunch.Deserialize integrity.CRC16 PackedLayout Label
                     my_message_encoded (default_val Label)
  = Some (default_val Label, Some Error.invalid_message_id).
Proof.
  apply (crunch_rejects_other_message
           integrity.CRC16 1 MyMessage
           (Crunch.GetBuffer integrity.CRC16 PackedLayout MyMessage)
           my_message_encoded my_message PackedLayout Label
           (default_val Label)).
  - reflexivity.
  - left. reflexivity.
  - reflexivity.
  - reflexivity.
  - reflexivity.
  - vm_compute. lia.
  - vm_compute. reflexivity.
  - reflexivity.
  - vm_compute. discriminate.
Defined.

(** X18: a frame whose message id belongs to none of the decoder's
    message types is answered with [InvalidMessageId], and the output
    variant is left as it was; a buffer too short for the header is
    answered with the header error. *)
Theorem Decode_unknown_message_id (Serdes : SerdesPolicy)
        (Integrity : IntegrityPolicy) (Messages : list Ty) (buffer : list Z)
        (out : detail.VariantType) :
  (forall header,
      GetHeader buffer = Expected header ->
      Forall (fun M => message_id_of M <> header_message_id header) Messages) ->
  detail.Decode Serdes Integrity Messages buffer out
  = Some (out,
          Some (if (length buffer <? StandardHeaderSize)%nat
                then Error.deserialization "buffer too small for header"
                else Error.invalid_message_id)).
Proof.
  intros H. unfold detail.Decode.
  destruct (GetHeader buffer) as [e | header] eqn:EH.
  - unfold GetHeader in EH.
    destruct (length buffer <? StandardHeaderSize)%nat; [|discriminate EH].
    injection EH as <-. reflexivity.
  - assert (Hlen : (length buffer <? StandardHeaderSize)%nat = false).
    { unfold GetHeader in EH.
      destruct (length buffer <? StandardHeaderSize)%nat;
        [discriminate EH | reflexivity]. }
    rewrite Hlen. specialize (H header eq_refl).
    generalize 0%nat as index.
    induction H as [|M rest HM _ IH]; intros index; [reflexivity|].
    cbn [detail.Decode_dispatch].
    apply Z.eqb_neq in HM. rewrite HM. apply IH.
Qed.

Lemma Decode_unknown_message_id_witness :
  detail.Decode PackedLayout integrity.CRC16 [Label; Batch]
                (data my_message_encoded) (0%nat, default_val Label)
  = Some ((0%nat, default_val Label), Some Error.invalid_message_id).
Proof.
  apply (Decode_unknown_message_id PackedLayout integrity.CRC16
                                   [Label; Batch] (data my_message_encoded)
                                   (0%nat, default_val Label)).
  intros header H. vm_compute in H. injection H as <-.
  repeat constructor; vm_compute; discriminate.
Defined.

(** X19: the decoder round-trips.  A message serialized over [Packed] or
    [Aligned4] is decoded by a decoder that lists its type, first among
    the types with that message id at position [length pre]: the message
    left by the pipeline has the same content, and the variant holds it
    at that position when it validates, and is left as it was, with the
    validation error returned, when it does not. *)
Theorem Decode_round_trip (Integrity : IntegrityPolicy) (Alignment : nat)
        (pre : list Ty) (M : Ty) (post : list Ty) (buffer : Buffer)
        (message : Val) (out : detail.VariantType) :
  (forall payload,
      length (integrity_calculate Integrity payload)
      = integrity_size Integrity) ->
  consistent_alignment Alignment ->
  is_message M = true ->
  valid_schema M = true ->
  has_type M message = true ->
  representable M message = true ->
  detail.Validate M message = None ->
  (detail.GetBufferSize Integrity (StaticLayoutPolicy Alignment) M
   <= length (data buffer))%nat ->
  Forall (fun M' => message_id_of M' <> message_id_of M) pre ->
  exists buffer' msg',
    Crunch.Serialize Integrity (StaticLayoutPolicy Alignment) M buffer message
    = Some (buffer', None)
    /\ same_content M msg' message = true
    /\ detail.Decode (StaticLayoutPolicy Alignment) Integrity
                     (pre ++ M :: post)
                     (Crunch.serialized_message_span buffer') out
       = Some (match detail.Validate M msg' with
               | Some e => (out, Some e)
               | None => ((length pre, msg'), None)
               end).
Proof.
  intros HI HA HM Hvalid Hty Hrep Hval Hlen Hpre.
  pose proof (default_val_has_type M) as Hty0.
  destruct (crunch_serialized_frame Integrity Alignment M buffer message
                                    HI HA HM Hvalid Hty Hval Hlen)
    as (b' & payload & E & _ & _ & F & L & G & D).
  destruct (D Hrep (default_val M) Hty0) as (msg' & Ed & Sd & _).
  exists b', msg'. split; [exact E|]. split; [exact Sd|].
  rewrite F. unfold detail.Decode.
  assert (Hsz : (StandardHeaderSize <= length payload)%nat).
  { rewrite L. unfold StaticLayout.Size.
    destruct (payload_start Alignment HA) as ([-> | ->] & _);
      unfold StandardHeaderSize; lia. }
  rewrite (GetHeader_agrees
             (payload ++ integrity_calculate Integrity payload) payload).
  - rewrite G.
    rewrite Decode_dispatch_first_match;
      [|exact Hpre | reflexivity].
    rewrite (deserialize_frame Integrity Alignment M HI _ _ payload _ L).
    unfold ValidateHeader. rewrite G.
    cbn [version format header_message_id GetFormat StaticLayoutPolicy].
    rewrite !Z.eqb_refl. cbn [negb].
    cbn [Deserialize StaticLayoutPolicy]. rewrite Ed. cbn [bind].
    destruct (detail.Validate M msg'); reflexivity.
  - unfold agrees. rewrite firstn_app.
    replace (StandardHeaderSize - length payload)%nat with 0%nat by lia.
    rewrite firstn_O, app_nil_r. reflexivity.
  - rewrite length_app. lia.
  - exact Hsz.
Qed.

Lemma Decode_round_trip_witness :
  exists buffer' msg',
    Crunch.Serialize integrity.CRC16 (StaticLayoutPolicy 1) MyMessage
      (Crunch.GetBuffer integrity.CRC16 PackedLayout MyMessage) my_message
    = Some (buffer', None)
    /\ same_content MyMessage msg' my_message = true
    /\ detail.Decode (StaticLayoutPolicy 1) integrity.CRC16
                     ([Label] ++ MyMessage :: [Batch])
                     (Crunch.serialized_message_span buffer')
                     (0%nat, default_val Label)
       = Some (match detail.Validate MyMessage msg' with
               | Some e => ((0%nat, default_val Label), Some e)
               | None => ((length [Label], msg'), None)
               end).
Proof.
  apply (Decode_round_trip
           integrity.CRC16 1 [Label] MyMessage [Batch]
           (Crunch.GetBuffer integrity.CRC16 PackedLayout MyMessage)
           my_message (0%nat, default_val Label)).
  - reflexivity.
  - left. reflexivity.
  - reflexivity.
  - reflexivity.
  - reflexivity.
  - reflexivity.
  - reflexivity.
  - vm_compute. lia.
  - repeat constructor. vm_compute. discriminate.
Defined.

(* ------------------------------------------------------------------ *)
(** ** Validation of a message *)

Lemma Validate_fields (id : MessageId) (fields : list Ty)
      (V : Val -> option Error) (vals : list Val) :
  detail.Validate (Message id fields V) (VMessage vals)
  = match
      (fix walk (fields : list Ty) (vals : list Val) {struct fields}
         : option Error :=
         match fields, vals with
         | F :: rest, field :: vals' =>
             match ValidateField F field with
             | Some err => Some err
             | None => walk rest vals'
             end
         | _, _ => None
         end) fields vals
    with
    | Some err => Some err
    | None => V (VMessage vals)
    end.
Proof.
  cbn [detail.Validate].
  match goal with
  | |- match ?a with _ => _ end = match ?b with _ => _ end =>
      replace a with b; [reflexivity|]
  end.
  revert vals. induction fields as [|F rest IH]; intros vals; [reflexivity|].
  destruct vals as [|field vals']; [reflexivity|].
  rewrite IH. unfold ValidateField.
  destruct F; try reflexivity.
Qed.

Lemma Validate_walk_first_failure (pre post : list Ty) (F : Ty)
      (vpre vpost : list Val) (field : Val) (err : Error) :
  Forall2 (fun F v => ValidateField F v = None) pre vpre ->
  ValidateField F field = Some err ->
  (fix walk (fields : list Ty) (vals : list Val) {struct fields}
     : option Error :=
     match fields, vals with
     | F :: rest, field :: vals' =>
         match ValidateField F field with
         | Some err => Some err
         | None => walk rest vals'
         end
     | _, _ => None
     end) (pre ++ F :: post) (vpre ++ field :: vpost)
  = Some err.
Proof.
  intros Hpre HF. induction Hpre as [|G v pre vpre HG _ IH].
  - cbn [app]. rewrite HF. reflexivity.
  - cbn [app]. rewrite HG. exact IH.
Qed.

Lemma Validate_walk_success (fields : list Ty) (vals : list Val) :
  (fix walk (fields : list Ty) (vals : list Val) {struct fields}
     : option Error :=
     match fields, vals with
     | F :: rest, field :: vals' =>
         match ValidateField F field with
         | Some err => Some err
         | None => walk rest vals'
         end
     | _, _ => None
     end) fields vals = None ->
  forall i F field,
    nth_error fields i = Some F -> nth_error vals i = Some field ->
    ValidateField F field = None.
Proof.
  revert vals. induction fields as [|G rest IH]; intros vals H i F field HF Hv.
  - destruct i; discriminate HF.
  - destruct vals as [|v vals']; [destruct i; discriminate Hv|].
    destruct (ValidateField G v) eqn:EG; [discriminate H|].
    destruct i as [|i].
    + cbn in HF, Hv. injection HF as <-. injection Hv as <-. exact EG.
    + cbn in HF, Hv. exact (IH vals' H i F field HF Hv).
Qed.

Lemma Validate_success_required (M : Ty) (message : Val) :
  detail.Validate M message = None -> required_fields_set M message.
Proof.
  intros H. destruct M as [| | id fields V | | |]; try exact I.
  destruct message as [| | vals | | |]; try exact I.
  rewrite Validate_fields in H.
  cbn [required_fields_set]. intros i Id Type_ value_ set_ HF Hv.
  match type of H with
  | match ?w with _ => _ end = _ => destruct w eqn:Ew; [discriminate H|]
  end.
  pose proof (Validate_walk_success fields vals Ew i _ _ HF Hv) as Hf.
  unfold ValidateField in Hf. cbn [check_presence] in Hf.
  destruct set_; [reflexivity | discriminate Hf].
Qed.



(** X21: only valid messages pass.  When [Serialize] returns success the
    message it was given validates, and when [Deserialize] returns success
    the message it leaves behind validates; in both cases every
    [Required] field of the message is set. *)
Theorem success_means_valid (Integrity : IntegrityPolicy)
        (Serdes : SerdesPolicy) (M : Ty) (buffer buffer' : Buffer)
        (message msg0 msg' : Val) :
  (Crunch.Serialize Integrity Serdes M buffer message = Some (buffer', None) ->
   detail.Validate M message = None /\ required_fields_set M message)
  /\ (Crunch.Deserialize Integrity Serdes M buffer msg0 = Some (msg', None) ->
      detail.Validate M msg' = None /\ required_fields_set M msg').
Proof.
  split.
  - unfold Crunch.Serialize, detail.Serialize. intros H.
    destruct (detail.Validate M message) as [e|] eqn:E; [discriminate H|].
    split; [reflexivity|]. apply Validate_success_required. exact E.
  - unfold Crunch.Deserialize, detail.Deserialize. intros H.
    destruct (_ <? _)%nat; [discriminate H|].
    destruct (_ && _); [discriminate H|].
    destruct (ValidateHeader _ _ _); [discriminate H|].
    destruct (Deserialize Serdes M _ msg0) as [[m [e|]]|];
      cbn [bind] in H; try discriminate H.
    destruct (detail.Validate M m) as [e|] eqn:E; [discriminate H|].
    injection H as <-.
    split; [exact E|]. apply Validate_success_required. exact E.
Qed.

(* ------------------------------------------------------------------ *)
(** ** The [Unique] validator *)

(** X22: [Unique] accepts a container exactly when no element equals an
    element behind it, and returns a validation error with the field id
    otherwise; when [operator==] of the elements is equality, it accepts
    exactly the containers without duplicates. *)
Theorem Unique_accepts_distinct {A : Type} (eqb : A -> A -> bool)
        (value : list A) (field_id : FieldId) :
  (container_validators.Unique eqb value field_id = None
   <-> ForallOrdPairs (fun x y => eqb x y = false) value)
  /\ (container_validators.Unique eqb value field_id <> None ->
      container_validators.Unique eqb value field_id
      = Some (Error.validation field_id "elements must be unique"))
  /\ ((forall x y, eqb x y = true <-> x = y) ->
      (container_validators.Unique eqb value field_id = None
       <-> NoDup value)).
Proof.
  assert (Hscan : container_validators.has_duplicate eqb value = false
                  <-> ForallOrdPairs (fun x y => eqb x y = false) value).
  { induction value as [|x rest IH]; cbn [container_validators.has_duplicate].
    - split; [constructor | reflexivity].
    - destruct (existsb (fun y => eqb x y) rest) eqn:E.
      + split; [discriminate|]. intros H. inversion H as [|? ? Hx _]; subst.
        apply existsb_exists in E. destruct E as (y & Hy & Hxy).
        rewrite Forall_forall in Hx. rewrite (Hx y Hy) in Hxy.
        discriminate Hxy.
      + rewrite IH. split.
        * intros H. constructor; [|exact H].
          apply Forall_forall. intros y Hy.
          destruct (eqb x y) eqn:Exy; [|reflexivity].
          assert (existsb (fun y => eqb x y) rest = true)
            by (apply existsb_exists; eauto).
          congruence.
        * intros H. inversion H; assumption. }
  unfold container_validators.Unique.
  split; [|split].
  - rewrite <- Hscan.
    destruct (container_validators.has_duplicate eqb value);
      split; intros H; try reflexivity; discriminate H.
  - destruct (container_validators.has_duplicate eqb value);
      [reflexivity | intros H; contradiction].
  - intros Heq.
    assert (Hnodup : ForallOrdPairs (fun x y => eqb x y = false) value
                     <-> NoDup value).
    { clear Hscan. induction value as [|x rest IH].
      - split; constructor.
      - split; intros H.
        + inversion H as [|? ? Hx Hrest]; subst. constructor.
          * intros Hin. rewrite Forall_forall in Hx.
            specialize (Hx x Hin).
            assert (eqb x x = true) by (apply Heq; reflexivity). congruence.
          * apply IH. exact Hrest.
        + inversion H as [|? ? Hx Hrest]; subst. constructor.
          * apply Forall_forall. intros y Hy.
            destruct (eqb x y) eqn:E; [|reflexivity].
            apply Heq in E. subst y. contradiction.
          * apply IH. exact Hrest. }
    rewrite <- Hnodup, <- Hscan.
    destruct (container_validators.has_duplicate eqb value);
      split; intros H; try reflexivity; discriminate H.
Qed.

Lemma success_means_valid_witness :
  detail.Validate MyMessage my_message = None
  /\ required_fields_set MyMessage my_message.
Proof.
  apply (proj1 (success_means_valid
                  integrity.CRC16 PackedLayout MyMessage
                  (Crunch.GetBuffer integrity.CRC16 PackedLayout MyMessage)
                  my_message_encoded my_message (default_val MyMessage)
                  (default_val MyMessage))).
  vm_compute. reflexivity.
Defined.

Lemma Unique_accepts_distinct_witness :
  container_validators.Unique Z.eqb [1; 2; 3] 7 = None <-> NoDup [1; 2; 3].
Proof.
  apply (proj2 (proj2 (Unique_accepts_distinct Z.eqb [1; 2; 3] 7))).
  exact Z.eqb_eq.
Defined.

(* ------------------------------------------------------------------ *)
(** ** MapField: the keys stay distinct *)

Section ScalarKeys.
Context {ValueField ValueType : Type}.
Context {ValueElement : MapElement ValueField ValueType}.
Variable KeyValidators : list (Validator Z).
Variable Id : FieldId.
Variable MaxSize : nat.

Let KeyElement : MapElement Z Z := ScalarElement KeyValidators.
Existing Instance KeyElement.

Lemma find_none_keys (active : list (Z * ValueField)) (key : Z) :
  find (fun pair => fst pair =? key) active = None ->
  ~ In key (map fst active).
Proof.
  intros H Hin. apply in_map_iff in Hin. destruct Hin as (p & Hp & Hin).
  pose proof (find_none _ _ H p Hin) as Hf. cbv beta in Hf.
  rewrite Hp, Z.eqb_refl in Hf. discriminate Hf.
Qed.


End ScalarKeys.


(* ------------------------------------------------------------------ *)
(** ** TLV: bytes held by a buffer *)

Lemma holds_load (buffer : list Z) (offset : nat) (bytes : list Z) :
  holds buffer offset bytes <-> load buffer offset (length bytes) = Some bytes.
Proof.
  unfold holds, load. split.
  - intros [Hle Heq].
    destruct (Nat.leb_spec (offset + length bytes) (length buffer)); [|lia].
    rewrite Heq. reflexivity.
  - destruct (Nat.leb_spec (offset + length bytes) (length buffer));
      [|discriminate].
    intros E. injection E as E. split; assumption.
Qed.

Lemma holds_nil (buffer : list Z) (offset : nat) :
  (offset <= length buffer)%nat -> holds buffer offset [].
Proof. intros H. split; [simpl; lia | reflexivity]. Qed.

Lemma holds_bound (buffer : list Z) (offset : nat) (bytes : list Z) :
  holds buffer offset bytes -> (offset + length bytes <= length buffer)%nat.
Proof. intros [H _]. exact H. Qed.

Lemma holds_skipn_eq (buffer : list Z) (offset : nat) (bytes : list Z) :
  holds buffer offset bytes ->
  skipn offset buffer
  = bytes ++ skipn (offset + length bytes) buffer.
Proof.
  intros [_ H].
  rewrite <- (firstn_skipn (length bytes) (skipn offset buffer)) at 1.
  rewrite H, skipn_skipn. f_equal. f_equal. lia.
Qed.

Lemma holds_app (buffer : list Z) (offset : nat) (x y : list Z) :
  holds buffer offset (x ++ y)
  <-> holds buffer offset x /\ holds buffer (offset + length x) y.
Proof.
  unfold holds. rewrite length_app. split.
  - intros [Hle Heq].
    assert (Hx : firstn (length x) (skipn offset buffer) = x).
    { apply (f_equal (firstn (length x))) in Heq.
      rewrite firstn_firstn in Heq.
      replace (Nat.min (length x) (length x + length y)) with (length x)
        in Heq by lia.
      rewrite firstn_app, Nat.sub_diag, firstn_O, app_nil_r, firstn_all in Heq.
      exact Heq. }
    repeat split; try lia; [exact Hx|].
    apply (f_equal (skipn (length x))) in Heq.
    rewrite skipn_firstn_comm in Heq.
    replace (length x + length y - length x)%nat with (length y) in Heq
      by lia.
    rewrite skipn_skipn in Heq.
    rewrite skipn_app, Nat.sub_diag, skipn_O, skipn_all, app_nil_l in Heq.
    rewrite Nat.add_comm. exact Heq.
  - intros [[Hx Ex] [Hy Ey]]. split; [lia|].
    rewrite <- (firstn_skipn (length x) (skipn offset buffer)).
    rewrite firstn_app, firstn_firstn.
    replace (Nat.min (length x + length y) (length x)) with (length x) by lia.
    rewrite Ex. f_equal.
    replace (length x + length y - length x)%nat with (length y) by lia.
    rewrite skipn_skipn, Nat.add_comm. exact Ey.
Qed.

Lemma holds_written (o : list Z) (offset : nat) (src o' : list Z) :
  memcpy o offset src = Some o' -> holds o' offset src.
Proof. intros E. apply holds_load. exact (load_written o offset src o' E). Qed.

(** A write behind the bytes leaves them in place. *)
Lemma holds_before (o : list Z) (f : nat) (o' : list Z) (f' : nat)
      (offset : nat) (bytes : list Z) :
  writes_within o f o' f' -> holds o offset bytes ->
  (offset + length bytes <= f)%nat ->
  holds o' offset bytes.
Proof.
  intros W H Hle. apply holds_load. apply holds_load in H.
  rewrite <- H. pose proof W as (Hff & Hf & HL & Hfirst & _).
  apply load_prefix with (n := f); [exact Hfirst | lia | exact Hle].
Qed.

Lemma firstn_skipn_firstn {A : Type} (k p n : nat) (l : list A) :
  (p + k <= n)%nat ->
  firstn k (skipn p (firstn n l)) = firstn k (skipn p l).
Proof.
  intros H. rewrite skipn_firstn_comm, firstn_firstn. f_equal. lia.
Qed.

Lemma holds_agrees (n : nat) (a b : list Z) (offset : nat) (bytes : list Z) :
  agrees n a b -> holds b offset bytes ->
  (offset + length bytes <= n)%nat ->
  holds a offset bytes.
Proof.
  unfold agrees. intros E [Hb Hc] Hle. split.
  - apply (f_equal (@length Z)) in E. rewrite !length_firstn in E. lia.
  - rewrite <- (firstn_skipn_firstn _ _ n) by exact Hle.
    rewrite E, firstn_skipn_firstn by exact Hle. exact Hc.
Qed.

Lemma holds_skipn (buffer : list Z) (c offset : nat) (bytes : list Z) :
  (c <= length buffer)%nat ->
  (holds (skipn c buffer) offset bytes <-> holds buffer (c + offset) bytes).
Proof.
  intros Hc. unfold holds. rewrite length_skipn, skipn_skipn.
  replace (offset + c)%nat with (c + offset)%nat by lia.
  split; intros [H1 H2]; (split; [lia | exact H2]).
Qed.

Lemma holds_firstn (buffer : list Z) (n offset : nat) (bytes : list Z) :
  holds buffer offset bytes -> (offset + length bytes <= n)%nat ->
  holds (firstn n buffer) offset bytes.
Proof.
  intros H Hle. apply (holds_agrees n _ buffer); [|exact H|exact Hle].
  unfold agrees. rewrite firstn_firstn. f_equal. lia.
Qed.

Lemma holds_whole (bytes : list Z) : holds bytes 0 bytes.
Proof.
  split; [simpl; lia|]. rewrite skipn_O, firstn_all. reflexivity.
Qed.

Lemma holds_prefix (pre bytes rest : list Z) :
  holds (pre ++ bytes ++ rest) (length pre) bytes.
Proof.
  split; [rewrite !length_app; lia|].
  rewrite skipn_app, Nat.sub_diag, skipn_all, skipn_O. cbn [app].
  rewrite firstn_app, Nat.sub_diag, firstn_O, app_nil_r, firstn_all.
  reflexivity.
Qed.

(** The buffer is what it holds from [offset] to its end. *)
Lemma holds_to_end (buffer : list Z) (offset : nat) (bytes : list Z) :
  holds buffer offset bytes ->
  length buffer = (offset + length bytes)%nat ->
  skipn offset buffer = bytes.
Proof.
  intros [_ H] L. rewrite <- H. rewrite firstn_all2; [reflexivity|].
  rewrite length_skipn. lia.
Qed.

(* ------------------------------------------------------------------ *)
(** ** TLV: varints *)

Lemma encode_bytes_fuel (f : nat) :
  forall (fuel : nat) (v : Z),
    0 <= v < 2 ^ (7 * Z.of_nat (S f)) -> (S f <= fuel)%nat ->
    Varint.encode_bytes fuel v = Varint.encode_bytes (S f) v.
Proof.
  induction f as [|f IH]; intros fuel v Hv Hf.
  - destruct fuel as [|fuel]; [lia|]. cbn [Varint.encode_bytes].
    change (2 ^ (7 * Z.of_nat 1)) with 128 in Hv.
    destruct (Z.leb_spec 128 v); [lia | reflexivity].
  - destruct fuel as [|fuel]; [lia|].
    cbn [Varint.encode_bytes].
    destruct (Z.leb_spec 128 v) as [Hge | Hlt]; [|reflexivity].
    f_equal. rewrite Z.shiftr_div_pow2 by lia. change (2 ^ 7) with 128.
    apply IH; [|lia].
    assert (Hpow : 2 ^ (7 * Z.of_nat (S (S f)))
                   = 128 * 2 ^ (7 * Z.of_nat (S f))).
    { replace (7 * Z.of_nat (S (S f))) with (7 + 7 * Z.of_nat (S f)) by lia.
      rewrite Z.pow_add_r by lia. reflexivity. }
    split; [apply Z.div_pos; lia|].
    apply Z.div_lt_upper_bound; lia.
Qed.

Lemma u64_below_70 (v : Z) : 0 <= u64 v < 2 ^ (7 * Z.of_nat Varint.max_size).
Proof.
  pose proof (u64_range v).
  change (2 ^ (7 * Z.of_nat Varint.max_size)) with (2 ^ 70).
  assert (2 ^ 64 < 2 ^ 70) by (apply Z.pow_lt_mono_r; lia). lia.
Qed.

Lemma varint_shape (v : Z) :
  exists pre t,
    TlvWire.varint v = pre ++ [t]
    /\ forallb continuation pre = true
    /\ continuation t = false
    /\ (length pre < Varint.max_size)%nat
    /\ leb128_value (pre ++ [t]) = u64 v.
Proof.
  apply encode_bytes_shape; [apply u64_below_70 | unfold Varint.max_size; lia].
Qed.

Lemma varint_length (v : Z) :
  (1 <= length (TlvWire.varint v) <= Varint.max_size)%nat.
Proof.
  destruct (varint_shape v) as (pre & t & -> & _ & _ & H & _).
  rewrite length_app. simpl. lia.
Qed.

(** A value of at most [7 * f] bits takes at most [f] bytes. *)
Lemma varint_length_bits (f : nat) (v : Z) :
  (0 < f <= Varint.max_size)%nat -> 0 <= u64 v < 2 ^ (7 * Z.of_nat f) ->
  (length (TlvWire.varint v) <= f)%nat.
Proof.
  intros Hf Hv. unfold TlvWire.varint.
  destruct f as [|f]; [lia|].
  rewrite (encode_bytes_fuel f) by (try assumption; lia).
  destruct (encode_bytes_shape (S f) (u64 v) Hv ltac:(lia))
    as (pre & t & -> & _ & _ & H & _).
  rewrite length_app. simpl. lia.
Qed.

Lemma Varint_size_varint (v : Z) :
  Varint.size v = length (TlvWire.varint v).
Proof.
  pose proof (u64_range v) as Hr. pose proof (u64_below_70 v) as Hlt.
  unfold Varint.size, TlvWire.varint.
  destruct (u64 v =? 0) eqn:E.
  - apply Z.eqb_eq in E. rewrite E. reflexivity.
  - apply Z.eqb_neq in E.
    rewrite (size_loop_length Varint.max_size);
      [reflexivity | lia | unfold Varint.max_size; lia].
Qed.

(** [Varint::decode] on a buffer that holds a varint. *)
Lemma decode_varint (input : list Z) (offset : nat) (v : Z) :
  holds input offset (TlvWire.varint v) ->
  Varint.decode input offset = Some (u64 v, length (TlvWire.varint v)).
Proof.
  intros H. rewrite decode_as_window, (holds_skipn_eq _ _ _ H).
  destruct (varint_shape v) as (pre & t & E & Hpre & Ht & Hlen & Hval).
  rewrite E, <- app_assoc. cbn [app].
  rewrite decode_window_terminated
    by (try assumption; unfold Varint.max_size in Hlen; assumption).
  rewrite Hval. pose proof (u64_range v).
  rewrite Z.mod_small by lia.
  rewrite length_app. cbn [length]. f_equal. f_equal. lia.
Qed.

(** [Varint::encode] in a buffer with room for the varint. *)
Lemma encode_varint (v : Z) (output : list Z) (offset : nat) :
  (offset + length (TlvWire.varint v) <= length output)%nat ->
  exists output',
    Varint.encode v output offset
    = Some (output', length (TlvWire.varint v))
    /\ writes_within output offset output'
                     (offset + length (TlvWire.varint v))
    /\ holds output' offset (TlvWire.varint v).
Proof.
  intros H. unfold Varint.encode. fold (TlvWire.varint v).
  destruct (memcpy_total output offset (TlvWire.varint v) H)
    as (o' & E & W & L).
  exists o'. rewrite E. cbn [bind]. split; [reflexivity|].
  split; [exact W|]. apply holds_load. exact L.
Qed.

Lemma u32_range (v : Z) : 0 <= u32 v < 2 ^ 32.
Proof. unfold u32. apply Z.mod_pos_bound. lia. Qed.

Lemma lor_below (a b n : Z) :
  0 <= n -> 0 <= a < 2 ^ n -> 0 <= b < 2 ^ n -> 0 <= Z.lor a b < 2 ^ n.
Proof.
  intros Hn Ha Hb. split; [apply Z.lor_nonneg; lia|].
  destruct (Z.eq_dec a 0) as [-> | Ha0]; [rewrite Z.lor_0_l; lia|].
  destruct (Z.eq_dec b 0) as [-> | Hb0]; [rewrite Z.lor_0_r; lia|].
  assert (Hpos : 0 < Z.lor a b).
  { assert (0 <= Z.lor a b) by (apply Z.lor_nonneg; lia).
    destruct (Z.eq_dec (Z.lor a b) 0) as [E | ]; [|lia].
    apply Z.lor_eq_0_iff in E. lia. }
  apply Z.log2_lt_pow2; [exact Hpos|].
  rewrite Z.log2_lor by lia.
  apply Z.max_lub_lt; apply Z.log2_lt_pow2; lia.
Qed.

Lemma tag_value_range (id : FieldId) (wt : TlvLayout.WireType) :
  0 <= Z.lor (u32 (Z.shiftl (u32 id) TlvLayout.WireTypeBits)) (u8 wt)
  < 2 ^ 32.
Proof.
  apply lor_below; [lia | apply u32_range |].
  pose proof (u8_range wt).
  assert (2 ^ 8 < 2 ^ 32) by (apply Z.pow_lt_mono_r; lia). lia.
Qed.

(** A tag never takes more than the five bytes the sizes count. *)
Lemma tag_length (id : FieldId) (wt : TlvLayout.WireType) :
  (1 <= length (TlvWire.tag id wt)
   <= Varint.max_varint_size TlvLayout.MaxTagBits)%nat.
Proof.
  split; [apply varint_length|].
  unfold TlvWire.tag. change (Varint.max_varint_size TlvLayout.MaxTagBits)
    with 5%nat.
  apply varint_length_bits; [unfold Varint.max_size; lia|].
  pose proof (tag_value_range id wt) as Hr.
  set (t := Z.lor _ _) in *.
  unfold u64. rewrite Z.mod_small.
  - change (2 ^ (7 * Z.of_nat 5)) with (2 ^ 35).
    assert (2 ^ 32 < 2 ^ 35) by (apply Z.pow_lt_mono_r; lia). lia.
  - assert (2 ^ 32 < 2 ^ 64) by (apply Z.pow_lt_mono_r; lia). lia.
Qed.

(** The tag of a field id in [[0, MaxFieldId]] gives the id and the wire
    type back. *)
Lemma tag_fields (id : FieldId) (wt : TlvLayout.WireType) :
  0 <= id <= MaxFieldId -> 0 <= wt < 8 ->
  let tag := Z.lor (u32 (Z.shiftl (u32 id) TlvLayout.WireTypeBits)) (u8 wt) in
  to_signed 4 (u32 (Z.shiftr (u64 tag) TlvLayout.WireTypeBits)) = id
  /\ Z.land (u64 tag) 0x07 = wt.
Proof.
  intros Hid Hwt. cbv zeta.
  unfold MaxFieldId in Hid. rewrite Z.shiftl_mul_pow2 in Hid by lia.
  change (1 * 2 ^ 29 - 1) with (2 ^ 29 - 1) in Hid.
  assert (H29 : 2 ^ 29 * 8 = 2 ^ 32) by reflexivity.
  assert (Hu : u32 id = id).
  { unfold u32. apply Z.mod_small.
    assert (2 ^ 29 < 2 ^ 32) by (apply Z.pow_lt_mono_r; lia). lia. }
  assert (Hw : u8 wt = wt) by (unfold u8; apply Z.mod_small; simpl; lia).
  rewrite Hu, Hw. unfold TlvLayout.WireTypeBits.
  rewrite Z.shiftl_mul_pow2 by lia. change (2 ^ 3) with 8.
  assert (Hs : u32 (id * 8) = id * 8)
    by (unfold u32; apply Z.mod_small; lia).
  rewrite Hs.
  rewrite Z.lor_comm.
  replace (id * 8) with (id * 2 ^ 3) by lia.
  rewrite lor_disjoint_add by (simpl; lia). change (2 ^ 3) with 8.
  assert (Ht : u64 (wt + id * 8) = wt + id * 8).
  { unfold u64. apply Z.mod_small.
    assert (2 ^ 32 < 2 ^ 64) by (apply Z.pow_lt_mono_r; lia). lia. }
  rewrite Ht. split.
  - rewrite Z.shiftr_div_pow2 by lia. change (2 ^ 3) with 8.
    rewrite Z.div_add by lia. rewrite Z.div_small by lia.
    cbn [Z.add]. rewrite Hu. unfold to_signed.
    change (2 ^ (8 * Z.of_nat 4 - 1)) with (2 ^ 31).
    assert (2 ^ 29 < 2 ^ 31) by (apply Z.pow_lt_mono_r; lia).
    destruct (Z.ltb_spec id (2 ^ 31)); [reflexivity | lia].
  - change 7 with (Z.ones 3). rewrite Z.land_ones by lia.
    change (2 ^ 3) with 8. rewrite Z.mod_add by lia.
    apply Z.mod_small. lia.
Qed.

(* ------------------------------------------------------------------ *)
(** ** TLV: what the serializers write *)

Lemma writes_within_widen (o : list Z) (f : nat) (o' : list Z) (f' : nat)
      (g g' : nat) :
  writes_within o f o' f' -> (g <= f)%nat -> (f' <= g')%nat ->
  (g' <= length o)%nat ->
  writes_within o g o' g'.
Proof.
  intros (H1 & H2 & H3 & H4 & H5) Hg Hg' Hl.
  unfold writes_within. repeat split; try lia.
  - apply firstn_firstn_le with (m := f); assumption.
  - apply skipn_skipn_le with (n := f'); assumption.
Qed.

Lemma writes_within_same (o : list Z) (f : nat) (o1 o2 : list Z) (f' : nat) :
  writes_within o f o1 f' -> writes_within o1 f o2 f' ->
  writes_within o f o2 f'.
Proof.
  intros (H1 & H2 & H3 & H4 & H5) (G1 & G2 & G3 & G4 & G5).
  unfold writes_within. repeat split; try lia; congruence.
Qed.

(** A write before the bytes leaves them in place. *)
Lemma holds_after (o : list Z) (f : nat) (o' : list Z) (f' : nat)
      (offset : nat) (bytes : list Z) :
  writes_within o f o' f' -> holds o offset bytes ->
  (f' <= offset)%nat ->
  holds o' offset bytes.
Proof.
  intros (H1 & H2 & H3 & H4 & H5) [Hb Hc] Hle. split; [lia|].
  assert (E : skipn offset o' = skipn offset o).
  { replace offset with ((offset - f') + f')%nat by lia.
    rewrite <- !skipn_skipn, H5. reflexivity. }
  rewrite E. exact Hc.
Qed.

Lemma serializes_mono (f : list Z -> nat -> option (list Z * nat))
      (bytes : list Z) (room room' : nat) :
  serializes f bytes room -> (room <= room')%nat ->
  serializes f bytes room'.
Proof.
  intros [Hlen H] Hle. split; [lia|].
  intros output offset Hroom.
  destruct (H output offset ltac:(lia)) as (o' & E & W & Hh).
  exists o'. split; [exact E|]. split; [|exact Hh].
  apply (writes_within_widen _ _ _ _ _ _ W); lia.
Qed.

Lemma serializes_ext (f g : list Z -> nat -> option (list Z * nat))
      (bytes : list Z) (room : nat) :
  (forall output offset, f output offset = g output offset) ->
  serializes f bytes room -> serializes g bytes room.
Proof.
  intros Hext [Hlen H]. split; [exact Hlen|].
  intros output offset Hroom. rewrite <- Hext. apply H. exact Hroom.
Qed.

Lemma serializes_nothing :
  serializes (fun output offset => Some (output, offset)) [] 0.
Proof.
  split; [simpl; lia|]. intros output offset Hroom.
  exists output. cbn [length]. rewrite !Nat.add_0_r.
  split; [reflexivity|]. split.
  - apply writes_within_refl. lia.
  - apply holds_nil. lia.
Qed.

(** One serializer after another. *)
Lemma serializes_seq (f g : list Z -> nat -> option (list Z * nat))
      (x y : list Z) (room_x room_y room : nat) :
  serializes f x room_x -> serializes g y room_y ->
  (room_x <= room)%nat -> (length x + room_y <= room)%nat ->
  serializes (fun output offset =>
                '(output, offset) <- f output offset ;; g output offset)
             (x ++ y) room.
Proof.
  intros [Lx Hf] [Ly Hg] Hrx Hry. split; [rewrite length_app; lia|].
  intros output offset Hroom.
  destruct (Hf output offset ltac:(lia)) as (o1 & E1 & W1 & H1).
  rewrite E1. cbn [bind].
  pose proof W1 as (_ & _ & L1 & _ & _).
  destruct (Hg o1 (offset + length x)%nat ltac:(lia)) as (o2 & E2 & W2 & H2).
  exists o2. rewrite E2, length_app. split; [f_equal; f_equal; lia|].
  split.
  - apply writes_within_same with (o1 := o1).
    + apply (writes_within_widen _ _ _ _ _ _ W1); lia.
    + apply (writes_within_widen _ _ _ _ _ _ W2); lia.
  - apply holds_app. split; [|exact H2].
    apply (holds_before _ _ _ _ _ _ W2 H1). lia.
Qed.

Lemma serializes_varint (v : Z) :
  serializes (fun output offset =>
                '(output, n) <- Varint.encode v output offset ;;
                Some (output, (offset + n)%nat))
             (TlvWire.varint v) (length (TlvWire.varint v)).
Proof.
  split; [lia|]. intros output offset Hroom.
  destruct (encode_varint v output offset Hroom) as (o' & E & W & H).
  exists o'. rewrite E. cbn [bind]. auto.
Qed.

Lemma serializes_write_tag (id : FieldId) (wt : TlvLayout.WireType) :
  serializes (TlvLayout.write_tag id wt) (TlvWire.tag id wt)
             (Varint.max_varint_size TlvLayout.MaxTagBits).
Proof.
  apply serializes_mono with (room := length (TlvWire.tag id wt));
    [|apply tag_length].
  exact (serializes_varint _).
Qed.

Lemma serializes_scalar_value (k : ScalarKind) (value : Z) :
  serializes (TlvLayout.serialize_scalar_value k value)
             (TlvWire.varint (TlvLayout.encoded_val k value))
             Varint.max_size.
Proof.
  apply serializes_mono
    with (room := length (TlvWire.varint (TlvLayout.encoded_val k value)));
    [|apply varint_length].
  exact (serializes_varint _).
Qed.

Lemma serializes_memcpy (src : list Z) :
  serializes (fun output offset =>
                output <- memcpy output offset src ;;
                Some (output, (offset + length src)%nat))
             src (length src).
Proof.
  split; [lia|]. intros output offset Hroom.
  destruct (memcpy_total output offset src Hroom) as (o' & E & W & L).
  exists o'. rewrite E. cbn [bind]. split; [reflexivity|].
  split; [exact W|]. apply holds_load. exact L.
Qed.

Lemma serializes_string_value (s : StringRep) (max_size : nat) :
  (length (CrunchString.get s) <= max_size)%nat ->
  serializes (TlvLayout.serialize_string_value s)
             (TlvWire.length_delimited (CrunchString.get s))
             (Varint.max_size + max_size).
Proof.
  intros Hlen. set (sv := CrunchString.get s) in *.
  pose proof (varint_length (Z.of_nat (length sv))) as Hv.
  apply serializes_ext
    with (f := fun output offset =>
                 '(output, offset) <-
                   ('(output, n) <-
                      Varint.encode (Z.of_nat (length sv)) output offset ;;
                    Some (output, (offset + n)%nat)) ;;
                 (output <- memcpy output offset sv ;;
                  Some (output, (offset + length sv)%nat))).
  - intros output offset. unfold TlvLayout.serialize_string_value.
    fold sv.
    destruct (Varint.encode (Z.of_nat (length sv)) output offset)
      as [[o n]|]; reflexivity.
  - unfold TlvWire.length_delimited.
    apply (serializes_seq _ _ _ _ _ _ _ (serializes_varint _)
                          (serializes_memcpy sv)); lia.
Qed.

(** [fixup_length_prefix] on content that stands behind the ten
    reserved bytes. *)
Lemma fixup_length_prefix_holds (output : list Z) (len_offset : nat)
      (content : list Z) :
  holds output (len_offset + Varint.max_size) content ->
  exists output',
    TlvLayout.fixup_length_prefix
      output len_offset (len_offset + Varint.max_size)
      (len_offset + Varint.max_size + length content)
    = Some (output',
            (len_offset + length (TlvWire.length_delimited content))%nat)
    /\ writes_within output len_offset output'
                     (len_offset + Varint.max_size + length content)
    /\ holds output' len_offset (TlvWire.length_delimited content).
Proof.
  intros Hc. pose proof (holds_bound _ _ _ Hc) as Hb.
  unfold TlvLayout.fixup_length_prefix.
  replace (len_offset + Varint.max_size + length content
           - (len_offset + Varint.max_size))%nat
    with (length content) by lia.
  rewrite Varint_size_varint.
  set (vb := TlvWire.varint (Z.of_nat (length content))).
  pose proof (varint_length (Z.of_nat (length content))) as Hv. fold vb in Hv.
  unfold TlvWire.length_delimited. fold vb. rewrite length_app.
  destruct (Nat.ltb_spec (length vb) Varint.max_size) as [Hlt | Hge].
  - unfold TlvLayout.memmove.
    apply holds_load in Hc. rewrite Hc. cbn [bind].
    destruct (memcpy_total output (len_offset + length vb) content
                           ltac:(lia)) as (o1 & E1 & W1 & L1).
    rewrite E1. cbn [bind].
    pose proof W1 as (_ & _ & Len1 & _ & _).
    destruct (encode_varint (Z.of_nat (length content)) o1 len_offset)
      as (o2 & E2 & W2 & H2); [fold vb; lia|].
    fold vb in E2, W2, H2. rewrite E2. cbn [bind].
    exists o2. split; [f_equal; f_equal; lia|]. split.
    + apply writes_within_same with (o1 := o1).
      * apply (writes_within_widen _ _ _ _ _ _ W1); lia.
      * apply (writes_within_widen _ _ _ _ _ _ W2); lia.
    + apply holds_app. split; [exact H2|].
      apply (holds_after _ _ _ _ _ _ W2); [|lia].
      apply holds_load. exact L1.
  - cbn [bind].
    destruct (encode_varint (Z.of_nat (length content)) output len_offset)
      as (o2 & E2 & W2 & H2); [fold vb; lia|].
    fold vb in E2, W2, H2. rewrite E2. cbn [bind].
    exists o2. split; [f_equal; f_equal; lia|]. split.
    + apply (writes_within_widen _ _ _ _ _ _ W2); lia.
    + apply holds_app. split; [exact H2|].
      replace (length vb) with Varint.max_size by lia.
      apply (holds_after _ _ _ _ _ _ W2 Hc). lia.
Qed.

(** A length prefix in front of what [content] writes behind the ten
    reserved bytes: [serialize_array_value], [serialize_map_value]. *)
Lemma serializes_length_delimited
      (content : list Z -> nat -> option (list Z * nat))
      (bytes : list Z) (room : nat) :
  serializes content bytes room ->
  serializes
    (fun output offset =>
       let len_offset := offset in
       let offset := (offset + Varint.max_size)%nat in
       let content_start := offset in
       '(output, offset) <- content output offset ;;
       TlvLayout.fixup_length_prefix output len_offset content_start offset)
    (TlvWire.length_delimited bytes) (Varint.max_size + room).
Proof.
  intros [Hlen H].
  pose proof (varint_length (Z.of_nat (length bytes))) as Hv.
  split; [unfold TlvWire.length_delimited; rewrite length_app; lia|].
  intros output offset Hroom. cbv zeta.
  destruct (H output (offset + Varint.max_size)%nat ltac:(lia))
    as (o1 & E1 & W1 & H1).
  rewrite E1. cbn [bind].
  pose proof W1 as (_ & _ & L1 & _ & _).
  destruct (fixup_length_prefix_holds o1 offset bytes H1)
    as (o2 & E2 & W2 & H2).
  rewrite E2. exists o2. split; [reflexivity|]. split; [|exact H2].
  apply writes_within_same with (o1 := o1).
  - apply (writes_within_widen _ _ _ _ _ _ W1); lia.
  - apply (writes_within_widen _ _ _ _ _ _ W2); lia.
Qed.

(** [serialize_nested_message], which writes the fields into the
    subspan behind the reserved bytes. *)
Lemma serializes_nested_message
      (serialize_fields : list Z -> nat -> option (list Z * nat))
      (bytes : list Z) (room : nat) :
  serializes serialize_fields bytes room ->
  serializes (TlvLayout.serialize_nested_message serialize_fields)
             (TlvWire.length_delimited bytes) (Varint.max_size + room).
Proof.
  intros [Hlen H].
  pose proof (varint_length (Z.of_nat (length bytes))) as Hv.
  split; [unfold TlvWire.length_delimited; rewrite length_app; lia|].
  intros output offset Hroom.
  unfold TlvLayout.serialize_nested_message.
  set (cs := (offset + Varint.max_size)%nat).
  destruct (Nat.ltb_spec (length output) cs) as [Hlt | _]; [lia|].
  destruct (H (skipn cs output) 0%nat) as (sub & E1 & W1 & H1);
    [rewrite length_skipn; lia|].
  rewrite E1. cbn [bind].
  pose proof W1 as (_ & _ & Lsub & _ & Hskip).
  rewrite length_skipn in Lsub.
  assert (Lfirst : length (firstn cs output) = cs)
    by (rewrite length_firstn; lia).
  set (o1 := firstn cs output ++ sub).
  assert (L1 : length o1 = length output)
    by (unfold o1; rewrite length_app; lia).
  assert (W : writes_within output cs o1 (cs + room)).
  { unfold writes_within. repeat split; try lia.
    - unfold o1. rewrite firstn_app, Lfirst, Nat.sub_diag, firstn_O,
        app_nil_r, firstn_firstn. f_equal. lia.
    - unfold o1. rewrite skipn_app, Lfirst.
      rewrite skipn_all2 by lia. cbn [app].
      replace (cs + room - cs)%nat with (0 + room)%nat by lia.
      rewrite Hskip, skipn_skipn. f_equal. lia. }
  assert (Hh : holds o1 cs bytes).
  { replace cs with (cs + 0)%nat at 1 by lia.
    apply holds_skipn; [lia|].
    unfold o1. rewrite skipn_app, Lfirst, Nat.sub_diag, skipn_O.
    rewrite skipn_all2 by lia. exact H1. }
  replace (cs + (0 + length bytes))%nat with (cs + length bytes)%nat by lia.
  destruct (fixup_length_prefix_holds o1 offset bytes Hh)
    as (o2 & E2 & W2 & H2).
  fold cs in E2, W2. fold o1. rewrite E2.
  exists o2. split; [reflexivity|]. split; [|exact H2].
  apply writes_within_same with (o1 := o1).
  - apply (writes_within_widen _ _ _ _ _ _ W); lia.
  - apply (writes_within_widen _ _ _ _ _ _ W2); lia.
Qed.

(** The elements of an array or map, one behind the other. *)
Lemma serializes_items {A : Type}
      (serialize_item : A -> list Z -> nat -> option (list Z * nat))
      (wire : A -> list Z) (room : nat) (items : list A) :
  Forall (fun item => serializes (serialize_item item) (wire item) room)
         items ->
  serializes (TlvLayout.serialize_items serialize_item items)
             (flat_map wire items) (length items * room).
Proof.
  induction 1 as [|item items Hitem _ IH].
  - exact serializes_nothing.
  - cbn [TlvLayout.serialize_items flat_map length].
    destruct Hitem as [Li Hi].
    apply (serializes_seq _ _ _ _ _ _ _ (conj Li Hi) IH); lia.
Qed.

Lemma Forall_firstn {A : Type} (P : A -> Prop) (n : nat) (l : list A) :
  Forall P l -> Forall P (firstn n l).
Proof.
  intros H. revert n. induction H; intros [|n]; cbn [firstn]; auto.
Qed.

Lemma serializes_counted {A : Type}
      (serialize_item : A -> list Z -> nat -> option (list Z * nat))
      (wire : A -> list Z) (room : nat) (items : list A)
      (current_len max_size : nat) :
  Forall (fun item => serializes (serialize_item item) (wire item) room)
         items ->
  (current_len <= max_size)%nat ->
  serializes
    (fun output offset =>
       '(output, n) <- Varint.encode (Z.of_nat current_len) output offset ;;
       let offset := (offset + n)%nat in
       TlvLayout.serialize_items serialize_item (firstn current_len items)
                                 output offset)
    (TlvWire.varint (Z.of_nat current_len)
       ++ flat_map wire (firstn current_len items))
    (Varint.max_size + max_size * room).
Proof.
  intros Hall Hlen.
  pose proof (varint_length (Z.of_nat current_len)) as Hv.
  pose proof (serializes_items serialize_item wire room
                (firstn current_len items)
                (Forall_firstn _ _ _ Hall)) as Hitems.
  assert (Hfl : (length (firstn current_len items) <= current_len)%nat)
    by (rewrite length_firstn; lia).
  apply serializes_ext
    with (f := fun output offset =>
                 '(output, offset) <-
                   ('(output, n) <-
                      Varint.encode (Z.of_nat current_len) output offset ;;
                    Some (output, (offset + n)%nat)) ;;
                 TlvLayout.serialize_items
                   serialize_item (firstn current_len items) output offset).
  - intros output offset.
    destruct (Varint.encode (Z.of_nat current_len) output offset)
      as [[o n]|]; reflexivity.
  - apply (serializes_seq _ _ _ _ _ _ _ (serializes_varint _) Hitems);
      [lia|].
    assert (length (firstn current_len items) * room <= max_size * room)%nat
      by (apply Nat.mul_le_mono_r; lia).
    lia.
Qed.

Lemma serializes_array_value
      (serialize_element : Val -> list Z -> nat -> option (list Z * nat))
      (wire : Val -> list Z) (room : nat) (items : list Val)
      (current_len max_size : nat) :
  Forall (fun item => serializes (serialize_element item) (wire item) room)
         items ->
  (current_len <= max_size)%nat ->
  serializes
    (TlvLayout.serialize_array_value serialize_element items current_len)
    (TlvWire.array wire items current_len)
    (Varint.max_size + (Varint.max_size + max_size * room)).
Proof.
  intros Hall Hlen.
  exact (serializes_length_delimited
           _ _ _ (serializes_counted serialize_element wire room items
                                     current_len max_size Hall Hlen)).
Qed.

Lemma serializes_map_value
      (serialize_key serialize_value
       : Val -> list Z -> nat -> option (list Z * nat))
      (wire_key wire_value : Val -> list Z) (room_key room_value : nat)
      (items : list (Val * Val)) (current_len max_size : nat) :
  Forall (fun item =>
            serializes (serialize_key (fst item)) (wire_key (fst item))
                       room_key
            /\ serializes (serialize_value (snd item)) (wire_value (snd item))
                          room_value)
         items ->
  (current_len <= max_size)%nat ->
  serializes
    (TlvLayout.serialize_map_value serialize_key serialize_value
                                   items current_len)
    (TlvWire.map_ wire_key wire_value items current_len)
    (Varint.max_size
     + (Varint.max_size + max_size * (room_key + room_value))).
Proof.
  intros Hall Hlen.
  assert (Hpairs :
            Forall
              (fun item =>
                 serializes
                   (fun output off =>
                      '(output, off) <- serialize_key (fst item) output off ;;
                      serialize_value (snd item) output off)
                   (wire_key (fst item) ++ wire_value (snd item))
                   (room_key + room_value))
              items).
  { apply Forall_impl with (2 := Hall).
    intros item [Hk Hv].
    apply (serializes_seq _ _ _ _ _ _ _ Hk Hv); [lia|].
    destruct Hk as [Lk _]. lia. }
  exact (serializes_length_delimited
           _ _ _
           (serializes_counted
              (fun item output off =>
                 '(output, off) <- serialize_key (fst item) output off ;;
                 serialize_value (snd item) output off)
              (fun item => wire_key (fst item) ++ wire_value (snd item))
              (room_key + room_value) items current_len max_size
              Hpairs Hlen)).
Qed.

(** The fields of a tuple, one behind the other. *)
Lemma serializes_fields_helper
      (serialize_field : Ty -> Val -> list Z -> nat -> option (list Z * nat))
      (wire : Ty -> Val -> list Z) (room : Ty -> nat) :
  forall (Tuple : list Ty) (t : list Val),
    length Tuple = length t ->
    (forall i F f,
        nth_error Tuple i = Some F -> nth_error t i = Some f ->
        serializes (serialize_field F f) (wire F f) (room F)) ->
    serializes (TlvLayout.serialize_fields_helper serialize_field Tuple t)
               (TlvWire.fields wire Tuple t)
               (TlvLayout.sum_fields_helper room Tuple).
Proof.
  induction Tuple as [|F Tuple IH]; intros [|f t] Hlen Hall;
    try discriminate Hlen.
  - exact serializes_nothing.
  - cbn [TlvLayout.serialize_fields_helper TlvWire.fields
         TlvLayout.sum_fields_helper fold_right].
    pose proof (Hall 0%nat F f eq_refl eq_refl) as HF.
    assert (Hrest : serializes
                      (TlvLayout.serialize_fields_helper serialize_field
                                                         Tuple t)
                      (TlvWire.fields wire Tuple t)
                      (TlvLayout.sum_fields_helper room Tuple)).
    { apply IH; [simpl in Hlen; lia|].
      intros i F' f' H1 H2. exact (Hall (S i) F' f' H1 H2). }
    apply (serializes_seq _ _ _ _ _ _ _ HF Hrest);
      [unfold TlvLayout.sum_fields_helper; lia|].
    destruct HF as [LF _]. unfold TlvLayout.sum_fields_helper. lia.
Qed.

(* ------------------------------------------------------------------ *)
(** ** TLV: serializing, type by type *)

Lemma all2_nth {A B : Type} (f : A -> B -> bool) :
  forall (xs : list A) (ys : list B),
    all2 f xs ys = true ->
    length xs = length ys
    /\ forall i x y,
        nth_error xs i = Some x -> nth_error ys i = Some y -> f x y = true.
Proof.
  induction xs as [|x xs IH]; intros [|y ys] H; try discriminate H.
  - split; [reflexivity|]. intros [|i] ? ? E; discriminate E.
  - cbn [all2] in H. apply andb_prop in H. destruct H as [Hxy Hrest].
    destruct (IH ys Hrest) as [Hlen Hnth]. split; [simpl; lia|].
    intros [|i] x' y' Ex Ey; cbn [nth_error] in Ex, Ey.
    + injection Ex as <-. injection Ey as <-. exact Hxy.
    + exact (Hnth i x' y' Ex Ey).
Qed.

Lemma Forall_nth {A : Type} (P : A -> Prop) (l : list A) (i : nat) (x : A) :
  Forall P l -> nth_error l i = Some x -> P x.
Proof.
  intros H E. apply nth_error_In in E.
  rewrite Forall_forall in H. exact (H x E).
Qed.

Lemma forallb_nth {A : Type} (f : A -> bool) (l : list A) (i : nat) (x : A) :
  forallb f l = true -> nth_error l i = Some x -> f x = true.
Proof.
  intros H E. apply nth_error_In in E.
  rewrite forallb_forall in H. exact (H x E).
Qed.

Lemma value_room_le (T : Ty) :
  (value_room T <= TlvLayout.calculate_max_value_size T)%nat.
Proof. destruct T; cbn [value_room]; lia. Qed.

Lemma string_get_length (n : nat) (s : StringRep) :
  (length (buffer_ s) =? n)%nat && (current_len_ s <=? n)%nat = true ->
  length (CrunchString.get s) = current_len_ s /\ (current_len_ s <= n)%nat.
Proof.
  intros H. apply andb_prop in H. destruct H as [H1 H2].
  apply Nat.eqb_eq in H1. apply Nat.leb_le in H2.
  unfold CrunchString.get. rewrite length_firstn. lia.
Qed.

(** Every value and every field is written as the wire format has it,
    inside the room that the maximum sizes count for it. *)
Lemma serializes_type (T : Ty) :
  valid_schema T = true ->
  (ValidElementType T = true ->
   forall v, has_type T v = true ->
             serializes (TlvLayout.serialize_value_without_tag T v)
                        (TlvWire.value T v) (value_room T))
  /\ (ValidField T = true ->
      forall v, has_type T v = true ->
                serializes (TlvLayout.serialize_field T v)
                           (TlvWire.field T v)
                           (TlvLayout.calculate_max_field_size_type T)).
Proof.
  induction T as [k Vs | n Vs | id fields V IH | Id E n Vs IH
                  | Id K V n Vs IHK IHV | Id Pr T' IH]
    using Ty_nested_ind; intros Hvalid.
  - (* Scalar *)
    split; [|discriminate]. intros _ v Hty.
    destruct v as [z | | | | |]; try discriminate Hty.
    exact (serializes_scalar_value k z).
  - (* String *)
    split; [|discriminate]. intros _ v Hty.
    destruct v as [| s | | | |]; try discriminate Hty.
    cbn [has_type] in Hty. destruct (string_get_length n s Hty) as [Hl Hle].
    apply (serializes_string_value s n). lia.
  - (* Message *)
    split; [|discriminate]. intros _ v Hty.
    destruct v as [| | vals | | |]; try discriminate Hty.
    rewrite has_type_Message in Hty.
    destruct (all2_nth _ _ _ Hty) as [Hlen Hnth].
    cbn [valid_schema] in Hvalid. apply andb_prop in Hvalid.
    destruct Hvalid as [_ Hfields].
    assert (Hall : forall i F f,
               nth_error fields i = Some F -> nth_error vals i = Some f ->
               serializes (TlvLayout.serialize_field F f) (TlvWire.field F f)
                          (TlvLayout.calculate_max_field_size_type F)).
    { intros i F f EF Ef.
      pose proof (forallb_nth _ _ _ _ Hfields EF) as HF.
      apply andb_prop in HF. destruct HF as [HVF HvF].
      destruct (Forall_nth _ _ _ _ IH EF HvF) as [_ Hfield].
      exact (Hfield HVF f (Hnth i F f EF Ef)). }
    exact (serializes_nested_message
             _ _ _
             (serializes_fields_helper
                TlvLayout.serialize_field TlvWire.field
                TlvLayout.calculate_max_field_size_type fields vals Hlen
                Hall)).
  - (* ArrayField *)
    cbn [valid_schema] in Hvalid. apply andb_prop in Hvalid.
    destruct Hvalid as [HE HvE]. destruct (IH HvE) as [IHv _].
    assert (Hvalue :
              forall v, has_type (ArrayField Id E n Vs) v = true ->
                        serializes
                          (TlvLayout.serialize_value_without_tag
                             (ArrayField Id E n Vs) v)
                          (TlvWire.value (ArrayField Id E n Vs) v)
                          (value_room (ArrayField Id E n Vs))).
    { intros v Hty. destruct v as [| | | items len | |]; try discriminate Hty.
      cbn [has_type] in Hty. apply andb_prop in Hty.
      destruct Hty as [Hty Hitems]. apply andb_prop in Hty.
      destruct Hty as [_ Hlen]. apply Nat.leb_le in Hlen.
      apply serializes_mono
        with (room := (Varint.max_size
                       + (Varint.max_size + n * value_room E))%nat).
      - apply (serializes_array_value
                 (TlvLayout.serialize_value_without_tag E)
                 (TlvWire.value E) (value_room E) items len n); [|exact Hlen].
        apply Forall_forall. intros item Hin. apply (IHv HE).
        rewrite forallb_forall in Hitems. exact (Hitems item Hin).
      - pose proof (value_room_le E).
        assert (n * value_room E
                <= n * TlvLayout.calculate_max_value_size E)%nat
          by (apply Nat.mul_le_mono_l; assumption).
        cbn [value_room TlvLayout.calculate_max_value_size].
        unfold TlvLayout.calculate_max_array_field_size. lia. }
    split; [intros _; exact Hvalue|].
    intros _ v Hty. pose proof (Hvalue v Hty) as Hv.
    destruct v as [| | | items len | |]; try discriminate Hty.
    cbn [TlvLayout.serialize_field TlvWire.field].
    destruct (Nat.eqb_spec len 0) as [-> | Hne].
    + apply serializes_mono with (room := 0%nat); [|lia].
      exact serializes_nothing.
    + apply (serializes_seq _ _ _ _ _ _ _
               (serializes_write_tag Id TlvLayout.WireType_LengthDelimited)
               Hv).
      * cbn [TlvLayout.calculate_max_field_size_type].
        unfold TlvLayout.calculate_max_array_field_size. lia.
      * pose proof (tag_length Id TlvLayout.WireType_LengthDelimited).
        cbn [value_room TlvLayout.calculate_max_value_size
             TlvLayout.calculate_max_field_size_type].
        unfold TlvLayout.calculate_max_array_field_size. lia.
  - (* MapField *)
    cbn [valid_schema] in Hvalid.
    apply andb_prop in Hvalid. destruct Hvalid as [Hvalid HvV].
    apply andb_prop in Hvalid. destruct Hvalid as [Hvalid HvK].
    apply andb_prop in Hvalid. destruct Hvalid as [HK HV].
    destruct (IHK HvK) as [IHk _]. destruct (IHV HvV) as [IHv _].
    assert (Hvalue :
              forall v, has_type (MapField Id K V n Vs) v = true ->
                        serializes
                          (TlvLayout.serialize_value_without_tag
                             (MapField Id K V n Vs) v)
                          (TlvWire.value (MapField Id K V n Vs) v)
                          (value_room (MapField Id K V n Vs))).
    { intros v Hty. destruct v as [| | | | items len |]; try discriminate Hty.
      cbn [has_type] in Hty. apply andb_prop in Hty.
      destruct Hty as [Hty Hitems]. apply andb_prop in Hty.
      destruct Hty as [_ Hlen]. apply Nat.leb_le in Hlen.
      apply serializes_mono
        with (room := (Varint.max_size
                       + (Varint.max_size
                          + n * (value_room K + value_room V)))%nat).
      - apply (serializes_map_value
                 (TlvLayout.serialize_value_without_tag K)
                 (TlvLayout.serialize_value_without_tag V)
                 (TlvWire.value K) (TlvWire.value V)
                 (value_room K) (value_room V) items len n); [|exact Hlen].
        apply Forall_forall. intros item Hin.
        rewrite forallb_forall in Hitems. pose proof (Hitems item Hin) as Hi.
        apply andb_prop in Hi. destruct Hi as [Hk Hv].
        split; [exact (IHk HK _ Hk) | exact (IHv HV _ Hv)].
      - pose proof (value_room_le K). pose proof (value_room_le V).
        assert (n * (value_room K + value_room V)
                <= n * (TlvLayout.calculate_max_value_size K
                        + TlvLayout.calculate_max_value_size V))%nat
          by (apply Nat.mul_le_mono_l; lia).
        cbn [value_room TlvLayout.calculate_max_value_size].
        unfold TlvLayout.calculate_max_map_field_size. lia. }
    split; [intros _; exact Hvalue|].
    intros _ v Hty. pose proof (Hvalue v Hty) as Hv.
    destruct v as [| | | | items len |]; try discriminate Hty.
    cbn [TlvLayout.serialize_field TlvWire.field].
    destruct (Nat.eqb_spec len 0) as [-> | Hne].
    + apply serializes_mono with (room := 0%nat); [|lia].
      exact serializes_nothing.
    + apply (serializes_seq _ _ _ _ _ _ _
               (serializes_write_tag Id TlvLayout.WireType_LengthDelimited)
               Hv).
      * cbn [TlvLayout.calculate_max_field_size_type].
        unfold TlvLayout.calculate_max_map_field_size. lia.
      * pose proof (tag_length Id TlvLayout.WireType_LengthDelimited).
        cbn [value_room TlvLayout.calculate_max_value_size
             TlvLayout.calculate_max_field_size_type].
        unfold TlvLayout.calculate_max_map_field_size. lia.
  - (* Field *)
    cbn [valid_schema] in Hvalid. apply andb_prop in Hvalid.
    destruct Hvalid as [HVE HvT]. destruct (IH HvT) as [IHv _].
    split; [discriminate|]. intros _ v Hty.
    destruct v as [| | | | | value set]; try discriminate Hty.
    cbn [has_type] in Hty. pose proof (IHv HVE value Hty) as Hv.
    cbn [TlvLayout.serialize_field TlvWire.field].
    destruct set; cbn [negb];
      [|apply serializes_mono with (room := 0%nat);
        [exact serializes_nothing | lia]].
    pose proof (tag_length Id TlvLayout.WireType_Varint) as Ht0.
    pose proof (tag_length Id TlvLayout.WireType_LengthDelimited) as Ht1.
    destruct T' as [k Vs | n Vs | id fields V | Id' E n Vs
                    | Id' K V n Vs | Id' Pr' T''];
      destruct value as [z | s | vals | items len | items len | fv fs];
      try discriminate Hty; try discriminate HVE.
    + apply (serializes_seq _ _ _ _ _ _ _
               (serializes_write_tag Id TlvLayout.WireType_Varint) Hv);
        cbn [value_room TlvLayout.calculate_max_value_size
             TlvLayout.calculate_max_field_size_type];
        unfold TlvLayout.calculate_max_scalar_field_size; lia.
    + apply (serializes_seq _ _ _ _ _ _ _
               (serializes_write_tag Id TlvLayout.WireType_LengthDelimited)
               Hv);
        cbn [value_room TlvLayout.calculate_max_value_size
             TlvLayout.calculate_max_field_size_type];
        unfold TlvLayout.calculate_max_string_field_size; lia.
    + apply (serializes_seq _ _ _ _ _ _ _
               (serializes_write_tag Id TlvLayout.WireType_LengthDelimited)
               Hv);
        cbn [value_room TlvLayout.calculate_max_value_size
             TlvLayout.calculate_max_field_size_type];
        unfold TlvLayout.calculate_max_nested_message_field_size; lia.
    + apply serializes_mono with (room := 0%nat);
        [exact serializes_nothing | lia].
    + apply serializes_mono with (room := 0%nat);
        [exact serializes_nothing | lia].
Qed.

(** [Serialize] writes the payload of the wire format behind the
    header, in a buffer of at least [Size] bytes. *)
Lemma Serialize_writes (M : Ty) (msg : Val) (output : list Z) :
  is_message M = true -> valid_schema M = true -> has_type M msg = true ->
  (TlvLayout.Size M <= length output)%nat ->
  exists output',
    TlvLayout.Serialize M msg output
    = Some (output',
            (StandardHeaderSize + length (TlvWire.payload M msg))%nat)
    /\ writes_within output StandardHeaderSize output' (TlvLayout.Size M)
    /\ holds output' StandardHeaderSize (TlvWire.payload M msg)
    /\ (StandardHeaderSize + length (TlvWire.payload M msg)
        <= TlvLayout.Size M)%nat.
Proof.
  intros HM Hvalid Hty Hlen.
  destruct M as [| | id fields V | | |]; try discriminate HM.
  destruct msg as [| | vals | | |]; try discriminate Hty.
  destruct (serializes_type (Message id fields V) Hvalid) as [Hv _].
  rewrite has_type_Message in Hty.
  destruct (all2_nth _ _ _ Hty) as [Hl Hnth].
  cbn [valid_schema] in Hvalid. apply andb_prop in Hvalid.
  destruct Hvalid as [_ Hfields].
  assert (Hall : forall i F f,
             nth_error fields i = Some F -> nth_error vals i = Some f ->
             serializes (TlvLayout.serialize_field F f) (TlvWire.field F f)
                        (TlvLayout.calculate_max_field_size_type F)).
  { intros i F f EF Ef.
    pose proof (forallb_nth _ _ _ _ Hfields EF) as HF.
    apply andb_prop in HF. destruct HF as [HVF HvF].
    destruct (serializes_type F HvF) as [_ Hfield].
    exact (Hfield HVF f (Hnth i F f EF Ef)). }
  destruct (serializes_fields_helper
              TlvLayout.serialize_field TlvWire.field
              TlvLayout.calculate_max_field_size_type fields vals Hl Hall)
    as [Lw Hser].
  unfold TlvLayout.Size, TlvLayout.calculate_max_message_size in Hlen |- *.
  set (room := TlvLayout.sum_fields_helper
                 TlvLayout.calculate_max_field_size_type fields) in *.
  set (wf := TlvWire.fields TlvWire.field fields vals) in *.
  destruct (Hser output (StandardHeaderSize + 4)%nat ltac:(lia))
    as (o1 & E1 & W1 & H1).
  cbn [TlvLayout.Serialize TlvWire.payload]. fold wf.
  rewrite E1. cbn [bind].
  replace (StandardHeaderSize + 4 + length wf - (StandardHeaderSize + 4))%nat
    with (length wf) by lia.
  set (le := le_bytes 4 (u32 (Z.of_nat (length wf)))).
  assert (Lle : length le = 4%nat) by apply le_bytes_length.
  pose proof W1 as (_ & _ & L1 & _ & _).
  destruct (memcpy_total o1 StandardHeaderSize le) as (o2 & E2 & W2 & L2);
    [rewrite Lle; lia|].
  rewrite E2. cbn [bind]. rewrite Lle in W2.
  exists o2. rewrite length_app, Lle.
  split; [f_equal; f_equal; lia|]. split; [|split; [|lia]].
  - apply writes_within_same with (o1 := o1).
    + apply (writes_within_widen _ _ _ _ _ _ W1); lia.
    + apply (writes_within_widen _ _ _ _ _ _ W2); lia.
  - apply holds_app. split.
    + apply holds_load. exact L2.
    + rewrite Lle. apply (holds_after _ _ _ _ _ _ W2 H1). lia.
Qed.

(* ------------------------------------------------------------------ *)
(** ** TLV: reading the wire format back *)

Lemma u64_small (v : Z) : 0 <= v < 2 ^ 64 -> u64 v = v.
Proof. intros H. unfold u64. apply Z.mod_small. exact H. Qed.

(** What the three steps in front of length-delimited content see: the
    length, a bounds check that passes, and the content as the
    subspan. *)
Lemma length_prefix_read (input : list Z) (offset : nat) (C : list Z) :
  holds input offset (TlvWire.length_delimited C) ->
  Z.of_nat (length input) < 2 ^ 64 ->
  Varint.decode input offset
  = Some (Z.of_nat (length C),
          length (TlvWire.varint (Z.of_nat (length C))))
  /\ (Z.of_nat (length input)
      <? u64 (Z.of_nat
                (offset + length (TlvWire.varint (Z.of_nat (length C))))
              + Z.of_nat (length C))) = false
  /\ TlvLayout.subspan
       input (offset + length (TlvWire.varint (Z.of_nat (length C))))
       (Z.of_nat (length C)) = Some C
  /\ (offset + length (TlvWire.length_delimited C) <= length input)%nat.
Proof.
  intros H Hlen. pose proof (holds_bound _ _ _ H) as Hb.
  unfold TlvWire.length_delimited in H, Hb |- *.
  apply holds_app in H. destruct H as [Hv Hc].
  rewrite length_app in Hb |- *.
  set (n := length (TlvWire.varint (Z.of_nat (length C)))) in *.
  split; [|split; [|split; [|lia]]].
  - rewrite (decode_varint _ _ _ Hv). fold n.
    rewrite u64_small by lia. reflexivity.
  - rewrite u64_small by lia. apply Z.ltb_ge. lia.
  - unfold TlvLayout.subspan, TlvLayout.dynamic_extent.
    pose proof (varint_length (Z.of_nat (length C))) as Hn. fold n in Hn.
    destruct (Z.eqb_spec (Z.of_nat (length C)) (2 ^ 64 - 1)) as [E | _];
      [lia|].
    destruct (Z.leb_spec (Z.of_nat (offset + n) + Z.of_nat (length C))
                         (Z.of_nat (length input))) as [_ | Hgt]; [|lia].
    rewrite Nat2Z.id. destruct Hc as [_ Hc]. rewrite Hc. reflexivity.
Qed.

(** The characters of a string behind its length. *)
Lemma string_view_read (input : list Z) (offset : nat) (C : list Z) :
  holds input offset (TlvWire.length_delimited C) ->
  TlvLayout.string_view
    input (offset + length (TlvWire.varint (Z.of_nat (length C))))
    (Z.of_nat (length C)) = Some C.
Proof.
  intros H. pose proof (holds_bound _ _ _ H) as Hb.
  unfold TlvWire.length_delimited in H, Hb.
  apply holds_app in H. destruct H as [_ Hc]. rewrite length_app in Hb.
  unfold TlvLayout.string_view.
  set (n := length (TlvWire.varint (Z.of_nat (length C)))) in *.
  destruct (Z.leb_spec (Z.of_nat (offset + n) + Z.of_nat (length C))
                       (Z.of_nat (length input))) as [_ | Hgt]; [|lia].
  rewrite Nat2Z.id. destruct Hc as [_ Hc]. rewrite Hc. reflexivity.
Qed.

Lemma read_length_prefix_reads (input : list Z) (offset : nat) (C : list Z)
      (error_msg : string) :
  holds input offset (TlvWire.length_delimited C) ->
  Z.of_nat (length input) < 2 ^ 64 ->
  TlvLayout.read_length_prefix input offset error_msg
  = Expected (Z.of_nat (length C),
              (offset + length (TlvWire.varint (Z.of_nat (length C))))%nat).
Proof.
  intros H Hlen.
  destruct (length_prefix_read input offset C H Hlen) as (E1 & E2 & _ & _).
  unfold TlvLayout.read_length_prefix. rewrite E1. cbv zeta. rewrite E2.
  reflexivity.
Qed.

(** [deserialize_message_value], [deserialize_array_value] and
    [deserialize_map_value]. *)
Lemma reads_length_delimited (T : Ty) (v : Val) (error_msg : string)
      (content : Val -> list Z -> nat -> option (Val * option Error))
      (v0 : Val) (C : list Z) :
  reads_content T v (fun subspan_ => content v0 subspan_ 0%nat) C ->
  reads_back T v (TlvLayout.deserialize_length_delimited error_msg content v0)
             (TlvWire.length_delimited C).
Proof.
  intros Hcontent input offset H Hlen.
  destruct (length_prefix_read input offset C H Hlen) as (_ & _ & E3 & Hb).
  unfold TlvLayout.deserialize_length_delimited.
  rewrite (read_length_prefix_reads input offset C error_msg H Hlen).
  rewrite E3. cbn [bind].
  unfold TlvWire.length_delimited in Hb |- *. rewrite length_app in Hb |- *.
  unfold reads_content in Hcontent.
  destruct (Hcontent ltac:(lia)) as (v' & E & Hty & Hs).
  rewrite E. cbn [bind]. exists v'. rewrite Nat2Z.id.
  split; [f_equal; f_equal; f_equal; lia|]. split; assumption.
Qed.

(** The prologue of the length-delimited fields. *)
Lemma length_delimited_field_reads
      (wire_type_msg length_msg underflow_msg : string)
      (content : Z -> nat -> option (Val * expected nat))
      (field : Val) (input : list Z) (offset : nat) (C : list Z) :
  holds input offset (TlvWire.length_delimited C) ->
  Z.of_nat (length input) < 2 ^ 64 ->
  TlvLayout.length_delimited_field
    wire_type_msg length_msg underflow_msg content field
    TlvLayout.WireType_LengthDelimited input offset
  = content (Z.of_nat (length C))
            (offset + length (TlvWire.varint (Z.of_nat (length C))))%nat.
Proof.
  intros H Hlen.
  destruct (length_prefix_read input offset C H Hlen) as (E1 & E2 & _ & _).
  unfold TlvLayout.length_delimited_field.
  rewrite Z.eqb_refl. cbn [negb]. rewrite E1. cbv zeta. rewrite E2.
  reflexivity.
Qed.

(** *** Scalars *)

Lemma encoded_val_range (k : ScalarKind) (z : Z) :
  0 <= TlvLayout.encoded_val k z < 2 ^ 64.
Proof.
  assert (H8 : 2 ^ 8 < 2 ^ 64) by (apply Z.pow_lt_mono_r; lia).
  assert (H16 : 2 ^ 16 < 2 ^ 64) by (apply Z.pow_lt_mono_r; lia).
  assert (H32 : 2 ^ 32 < 2 ^ 64) by (apply Z.pow_lt_mono_r; lia).
  assert (Hpos : 0 < 2 ^ 64) by (apply Z.pow_pos_nonneg; lia).
  destruct k; cbn [TlvLayout.encoded_val sizeof];
    try (destruct (z =? 0); lia);
    try (pose proof (u32_range z); lia);
    try (apply u64_range).
  all: match goal with
       | |- 0 <= ?z' mod ?m < _ =>
           pose proof (Z.mod_pos_bound z' m ltac:(simpl; lia)) as Hm;
           cbn in Hm |- *; lia
       end.
Qed.

Lemma decoded_encoded (k : ScalarKind) (z : Z) :
  scalar_in_range k z = true ->
  TlvLayout.decoded_val k (u64 (TlvLayout.encoded_val k z)) = z.
Proof.
  intros H. rewrite u64_small by apply encoded_val_range.
  pose proof (scalar_read_back k z H) as Hback.
  destruct k; cbn [TlvLayout.decoded_val TlvLayout.encoded_val is_signed]
                  in Hback |- *;
    try (rewrite Z.mod_mod by (cbn; lia); exact Hback).
  - (* Bool *)
    cbn [scalar_in_range] in H. apply orb_prop in H.
    destruct H as [H | H]; apply Z.eqb_eq in H; subst z; reflexivity.
  - (* Float32 *)
    unfold u32. rewrite Z.mod_mod by lia.
    cbn [sizeof] in Hback. exact Hback.
  - (* Float64 *)
    unfold u64. cbn [sizeof] in Hback. exact Hback.
Qed.

Lemma reads_scalar_value (k : ScalarKind) Vs (z z0 : Z) :
  scalar_in_range k z = true ->
  reads_back (Scalar k Vs) (VScalar z)
             (TlvLayout.deserialize_scalar_value k (VScalar z0))
             (TlvWire.varint (TlvLayout.encoded_val k z)).
Proof.
  intros Hr input offset H Hlen.
  unfold TlvLayout.deserialize_scalar_value,
    TlvLayout.deserialize_scalar_array.
  rewrite (decode_varint _ _ _ H), decoded_encoded by exact Hr.
  exists (VScalar z). split; [reflexivity|].
  split; [reflexivity|]. cbn [same_content]. apply Z.eqb_refl.
Qed.

(** *** Strings *)

Lemma string_set_accepts (MaxSize : nat) Vs (s : StringRep) (sv : list Z) :
  (length sv <= MaxSize)%nat ->
  CrunchString.Validate Vs sv 0 = None ->
  CrunchString.set MaxSize Vs s sv
  = (None, mkString (sv ++ repeat 0 (MaxSize - length sv)) (length sv)).
Proof.
  intros Hlen Hv. unfold CrunchString.set.
  destruct (Nat.ltb_spec MaxSize (length sv)); [lia|].
  rewrite Hv. reflexivity.
Qed.

Lemma string_set_result_ok (MaxSize : nat) Vs (s : StringRep) (sv : list Z) :
  (length sv <= MaxSize)%nat ->
  CrunchString.get s = sv ->
  let s' := mkString (sv ++ repeat 0 (MaxSize - length sv)) (length sv) in
  has_type (String_ MaxSize Vs) (VString s') = true
  /\ same_content (String_ MaxSize Vs) (VString s') (VString s) = true
  /\ CrunchString.get s' = sv.
Proof.
  intros Hlen Hget. cbv zeta.
  assert (Hg : CrunchString.get
                 (mkString (sv ++ repeat 0 (MaxSize - length sv)) (length sv))
               = sv).
  { unfold CrunchString.get. cbn [buffer_ current_len_].
    rewrite firstn_app, Nat.sub_diag, firstn_O, app_nil_r, firstn_all.
    reflexivity. }
  split; [|split; [|exact Hg]].
  - cbn [has_type buffer_ current_len_].
    rewrite length_app, repeat_length.
    apply andb_true_intro. split; [apply Nat.eqb_eq | apply Nat.leb_le]; lia.
  - cbn [same_content]. unfold CrunchString.eqb. rewrite Hg, Hget.
    destruct (list_eq_dec Z.eq_dec sv sv); [reflexivity | contradiction].
Qed.

Lemma reads_string_value (MaxSize : nat) Vs (s s0 : StringRep) :
  has_type (String_ MaxSize Vs) (VString s) = true ->
  CrunchString.Validate Vs (CrunchString.get s) 0 = None ->
  reads_back (String_ MaxSize Vs) (VString s)
             (TlvLayout.deserialize_string_value MaxSize Vs (VString s0))
             (TlvWire.length_delimited (CrunchString.get s)).
Proof.
  intros Hty Hv input offset H Hlen.
  cbn [has_type] in Hty. destruct (string_get_length _ _ Hty) as [Hl Hle].
  set (sv := CrunchString.get s) in *.
  destruct (length_prefix_read input offset sv H Hlen) as (_ & _ & _ & Hb).
  pose proof (string_view_read input offset sv H) as E3.
  unfold TlvLayout.deserialize_string_value.
  rewrite (read_length_prefix_reads input offset sv _ H Hlen).
  rewrite E3. cbn [bind].
  rewrite string_set_accepts by (try assumption; lia).
  destruct (string_set_result_ok MaxSize Vs s sv ltac:(lia) eq_refl)
    as (Ht & Hs & _).
  eexists. split; [|split; [exact Ht | exact Hs]].
  rewrite Nat2Z.id. unfold TlvWire.length_delimited. rewrite length_app.
  f_equal. f_equal. f_equal. lia.
Qed.

(* ------------------------------------------------------------------ *)
(** ** TLV: reading the elements of an array back *)

Lemma flat_map_length_ge {A : Type} (wire : A -> list Z) (items : list A) :
  Forall (fun item => (1 <= length (wire item))%nat) items ->
  (length items <= length (flat_map wire items))%nat.
Proof.
  induction 1 as [|item items H _ IH]; cbn [flat_map length]; [lia|].
  rewrite length_app. lia.
Qed.

Lemma forallb_app_intro {A : Type} (f : A -> bool) (x y : list A) :
  forallb f x = true -> forallb f y = true -> forallb f (x ++ y) = true.
Proof. intros Hx Hy. rewrite forallb_app, Hx, Hy. reflexivity. Qed.

Lemma forallb_skipn {A : Type} (f : A -> bool) (n : nat) (l : list A) :
  forallb f l = true -> forallb f (skipn n l) = true.
Proof.
  intros H. rewrite <- (firstn_skipn n l), forallb_app in H.
  apply andb_prop in H. tauto.
Qed.

Lemma forallb_repeat {A : Type} (f : A -> bool) (x : A) (n : nat) :
  f x = true -> forallb f (repeat x n) = true.
Proof. intros H. induction n; cbn [repeat forallb]; [|rewrite H]; auto. Qed.

Lemma Forall2_length_eq {A B : Type} (R : A -> B -> Prop)
      (xs : list A) (ys : list B) :
  Forall2 R xs ys -> length xs = length ys.
Proof. induction 1; simpl; congruence. Qed.

Lemma Forall2_forallb_combine {A B : Type} (R : A -> B -> Prop)
      (f : A * B -> bool) (xs : list A) (ys : list B) :
  (forall x y, R x y -> f (x, y) = true) ->
  Forall2 R xs ys -> forallb f (combine xs ys) = true.
Proof.
  intros Hf. induction 1 as [|x y xs ys Hxy _ IH]; [reflexivity|].
  cbn [combine forallb]. rewrite (Hf x y Hxy), IH. reflexivity.
Qed.

Lemma Forall2_forallb_l {A B : Type} (R : A -> B -> Prop) (f : A -> bool)
      (xs : list A) (ys : list B) :
  (forall x y, R x y -> f x = true) ->
  Forall2 R xs ys -> forallb f xs = true.
Proof.
  intros Hf. induction 1 as [|x y xs ys Hxy _ IH]; [reflexivity|].
  cbn [forallb]. rewrite (Hf x y Hxy), IH. reflexivity.
Qed.

Section ArrayElements.
Variable Id : FieldId.
Variable n : nat.
Variable E : Ty.
Variable deserialize_element
  : Val -> list Z -> nat -> option (Val * expected nat).
Variable wire : Val -> list Z.
Variable input : list Z.
Hypothesis input_small : Z.of_nat (length input) < 2 ^ 64.

Let body : Val -> nat -> option (Val * expected nat) :=
  fun field offset =>
    let elem := default_val E in
    '(elem, r) <- deserialize_element elem input offset ;;
    match r with
    | Unexpected err => Some (field, Unexpected err)
    | Expected offset =>
        '(err, field) <- TlvLayout.array_add Id n field elem ;;
        match err with
        | Some err => Some (field, Unexpected err)
        | None => Some (field, Expected offset)
        end
    end.

Let same (d item : Val) : Prop :=
  has_type E d = true /\ same_content E d item = true.

Lemma array_loop_reads :
  forall (rest ds tail : list Val) (offset : nat),
    (length rest <= length tail)%nat ->
    (length ds + length tail = n)%nat ->
    Forall (fun item =>
              reads_back E item (deserialize_element (default_val E))
                         (wire item)) rest ->
    holds input offset (flat_map wire rest) ->
    exists ds',
      TlvLayout.deserialize_elements_loop
        body (length rest) (VArray (ds ++ tail) (length ds)) offset
      = Some (VArray (ds ++ ds' ++ skipn (length rest) tail)
                     (length ds + length rest), None)
      /\ Forall2 same ds' rest.
Proof.
  induction rest as [|x rest IH]; intros ds tail offset Hlen Hn Hall H.
  - exists []. cbn [TlvLayout.deserialize_elements_loop length app skipn].
    rewrite Nat.add_0_r. split; [reflexivity | constructor].
  - cbn [flat_map] in H. apply holds_app in H. destruct H as [Hx Hrest].
    pose proof (Forall_inv Hall) as Hrx.
    pose proof (Forall_inv_tail Hall) as Hall'.
    destruct (Hrx input offset Hx input_small) as (x' & Ex & Htx & Hsx).
    cbn [TlvLayout.deserialize_elements_loop length].
    unfold body at 1. cbv zeta. rewrite Ex. cbn [bind].
    unfold TlvLayout.array_add, ArrayFieldOps.add.
    cbn [array_current_len_ array_items_].
    destruct tail as [|t tail]; [simpl in Hlen; lia|].
    cbn [length] in Hlen, Hn.
    destruct (Nat.leb_spec n (length ds)) as [Hge | _]; [lia|].
    cbn [bind array_items_ array_current_len_].
    assert (Eitems : firstn (length ds) (ds ++ t :: tail)
                       ++ x' :: skipn (S (length ds)) (ds ++ t :: tail)
                     = (ds ++ [x']) ++ tail).
    { rewrite firstn_app, Nat.sub_diag, firstn_O, app_nil_r, firstn_all.
      rewrite skipn_app.
      replace (S (length ds) - length ds)%nat with 1%nat by lia.
      rewrite skipn_all2 by lia. cbn [app skipn].
      rewrite <- app_assoc. reflexivity. }
    rewrite Eitems.
    replace (S (length ds)) with (length (ds ++ [x']))
      by (rewrite length_app; simpl; lia).
    destruct (IH (ds ++ [x']) tail (offset + length (wire x))%nat)
      as (ds' & El & Hds'); try assumption;
      [lia | rewrite length_app; simpl; lia |].
    rewrite El. exists (x' :: ds'). split.
    + f_equal. f_equal. f_equal.
      * rewrite <- !app_assoc. reflexivity.
      * rewrite length_app. simpl. lia.
    + constructor; [split; assumption | exact Hds'].
Qed.

End ArrayElements.

(** [deserialize_array_elements] on the content of an array. *)
Lemma array_elements_read (Id : FieldId) (n : nat) (E : Ty) Vs
      (deserialize_element : Val -> list Z -> nat
                             -> option (Val * expected nat))
      (wire : Val -> list Z) (items : list Val) (len : nat) :
  length items = n -> (len <= n)%nat ->
  Forall (fun item =>
            reads_back E item (deserialize_element (default_val E))
                       (wire item)
            /\ (1 <= length (wire item))%nat)
         (firstn len items) ->
  reads_content
    (ArrayField Id E n Vs) (VArray items len)
    (fun subspan_ =>
       TlvLayout.deserialize_array_elements
         Id n E deserialize_element
         (default_val (ArrayField Id E n Vs)) subspan_ 0%nat)
    (TlvWire.varint (Z.of_nat len) ++ flat_map wire (firstn len items)).
Proof.
  intros Hitems Hlen Hall Hsmall.
  set (act := firstn len items) in *.
  set (C := TlvWire.varint (Z.of_nat len) ++ flat_map wire act) in *.
  assert (Lact : length act = len)
    by (unfold act; rewrite length_firstn; lia).
  assert (Hreads : Forall (fun item =>
                             reads_back E item
                                        (deserialize_element (default_val E))
                                        (wire item)) act)
    by (apply Forall_impl with (2 := Hall); intros ? [? _]; assumption).
  assert (Hne : Forall (fun item => (1 <= length (wire item))%nat) act)
    by (apply Forall_impl with (2 := Hall); intros ? [_ ?]; assumption).
  pose proof (flat_map_length_ge wire act Hne) as Hfl.
  pose proof (holds_whole C) as HC. unfold C in HC at 2.
  apply holds_app in HC. destruct HC as [Hv Hc].
  assert (LC : length C
               = (length (TlvWire.varint (Z.of_nat len))
                  + length (flat_map wire act))%nat)
    by (unfold C; apply length_app).
  unfold TlvLayout.deserialize_array_elements.
  rewrite (decode_varint _ _ _ Hv), u64_small by lia.
  cbv zeta. rewrite Nat2Z.id. cbn [default_val].
  destruct (array_loop_reads
              Id n E deserialize_element wire C Hsmall act []
              (repeat (default_val E) n)
              (0 + length (TlvWire.varint (Z.of_nat len)))%nat)
    as (ds' & El & Hds'); try assumption.
  { rewrite repeat_length. lia. }
  { rewrite repeat_length. reflexivity. }
  rewrite Lact in El. cbn [app length] in El.
  change (0 + len)%nat with len in El. rewrite El.
  pose proof (Forall2_length_eq _ _ _ Hds') as Lds.
  eexists. split; [reflexivity|]. split.
  - cbn [has_type]. rewrite length_app, length_skipn, repeat_length.
    apply andb_true_intro. split.
    + apply andb_true_intro.
      split; [apply Nat.eqb_eq | apply Nat.leb_le]; lia.
    + apply forallb_app_intro.
      * apply (Forall2_forallb_l _ _ _ _ (fun x y H => proj1 H) Hds').
      * apply forallb_skipn, forallb_repeat, default_val_has_type.
  - cbn [same_content]. rewrite Nat.eqb_refl. cbn [andb].
    rewrite firstn_app.
    replace (len - length ds')%nat with 0%nat by lia.
    rewrite firstn_O, app_nil_r, firstn_all2 by lia.
    fold act.
    apply (Forall2_forallb_combine
             _ (fun xy => same_content E (fst xy) (snd xy)) _ _
             (fun x y H => proj2 H) Hds').
Qed.

(* ------------------------------------------------------------------ *)
(** ** TLV: reading the entries of a map back *)

Lemma string_eqb_get (a b : StringRep) :
  CrunchString.eqb a b = true <-> CrunchString.get a = CrunchString.get b.
Proof.
  unfold CrunchString.eqb.
  destruct (list_eq_dec Z.eq_dec (CrunchString.get a) (CrunchString.get b));
    split; intros H; auto; discriminate.
Qed.

(** The validation of a key or value by [MapField::insert] sees the
    content only. *)
Lemma element_Validate_content (K : Ty) (d o : Val) :
  (is_scalar K || is_string K = true \/ Validate_by_content K) ->
  has_type K d = true -> has_type K o = true ->
  same_content K d o = true ->
  element_Validate (MapElement := FieldElement K) d
  = element_Validate (MapElement := FieldElement K) o.
Proof.
  intros Hc Hd Ho Hs.
  destruct K as [k Vs | m Vs | id fields Vf | Id E m Vs | Id K1 V1 m Vs
                 | Id Pr T'];
    cbn [FieldElement ObjectElement element_Validate].
  - destruct d as [x | | | | |]; try discriminate Hd.
    destruct o as [y | | | | |]; try discriminate Ho.
    cbn [same_content] in Hs. apply Z.eqb_eq in Hs. subst y. reflexivity.
  - destruct d as [| x | | | |]; try discriminate Hd.
    destruct o as [| y | | | |]; try discriminate Ho.
    cbn [same_content] in Hs. apply string_eqb_get in Hs. rewrite Hs.
    reflexivity.
  - destruct Hc as [Hc | Hc]; [discriminate Hc|]. exact (Hc d o Hd Ho Hs).
  - destruct Hc as [Hc | Hc]; [discriminate Hc|]. exact (Hc d o Hd Ho Hs).
  - destruct Hc as [Hc | Hc]; [discriminate Hc|]. exact (Hc d o Hd Ho Hs).
  - destruct Hc as [Hc | Hc]; [discriminate Hc|]. exact (Hc d o Hd Ho Hs).
Qed.

(** The comparison of a stored key with a new one sees the content
    only. *)
Lemma element_equals_content (K : Ty) (a b oa ob : Val) :
  has_type K a = true -> has_type K oa = true ->
  has_type K b = true -> has_type K ob = true ->
  same_content K a oa = true -> same_content K b ob = true ->
  element_equals (MapElement := FieldElement K) a b
  = element_equals (MapElement := FieldElement K) oa ob.
Proof.
  intros Ha Hoa Hb Hob Hsa Hsb.
  assert (Hobj : val_eqb K a b = val_eqb K oa ob).
  { destruct (same_content_alike K a oa Ha Hoa Hsa b) as [_ E1].
    destruct (same_content_alike K b ob Hb Hob Hsb oa) as [E2 _].
    rewrite E1, E2. reflexivity. }
  destruct K as [k Vs | m Vs | id fields Vf | Id E m Vs | Id K1 V1 m Vs
                 | Id Pr T'];
    cbn [FieldElement ObjectElement element_equals]; exact Hobj.
Qed.

(** What [MapField::insert] stores for a key or value that it has
    validated has the content of that key or value. *)
Lemma element_store_content (K : Ty) (old d o : Val) :
  ValidElementType K = true ->
  has_type K old = true -> has_type K d = true ->
  same_content K d o = true ->
  element_Validate (MapElement := FieldElement K) d = None ->
  has_type K (element_store (MapElement := FieldElement K) old d) = true
  /\ same_content K (element_store (MapElement := FieldElement K) old d) o
     = true.
Proof.
  intros HK Hold Hd Hs Hv.
  destruct K as [k Vs | m Vs | id fields Vf | Id E m Vs | Id K1 V1 m Vs
                 | Id Pr T'];
    try discriminate HK;
    cbn [FieldElement ObjectElement element_store element_Validate] in Hv |- *;
    try (split; assumption).
  destruct d as [| x | | | |]; try discriminate Hd.
  destruct old as [| y | | | |]; try discriminate Hold.
  destruct o as [| z | | | |]; try discriminate Hs.
  cbn [has_type] in Hd. destruct (string_get_length _ _ Hd) as [Hl Hle].
  rewrite string_set_accepts by (try assumption; lia). cbn [snd].
  cbn [same_content] in Hs. apply string_eqb_get in Hs.
  destruct (string_set_result_ok m Vs x (CrunchString.get x) ltac:(lia)
                                 eq_refl) as (Ht & _ & Hg).
  split; [exact Ht|]. cbn [same_content]. apply string_eqb_get.
  rewrite Hg. exact Hs.
Qed.

Lemma has_duplicate_app_false {A : Type} (eqb : A -> A -> bool)
      (l1 l2 : list A) :
  container_validators.has_duplicate eqb (l1 ++ l2) = false ->
  forall y x, In y l1 -> In x l2 -> eqb y x = false.
Proof.
  induction l1 as [|a l1 IH]; intros H y x Hy Hx; [contradiction|].
  cbn [app container_validators.has_duplicate] in H.
  destruct (existsb (fun z => eqb a z) (l1 ++ l2)) eqn:Ex; [discriminate|].
  destruct Hy as [<- | Hy].
  - destruct (eqb a x) eqn:E; [|reflexivity].
    assert (existsb (fun z => eqb a z) (l1 ++ l2) = true).
    { apply existsb_exists. exists x. split; [|exact E].
      apply in_or_app. right. exact Hx. }
    congruence.
  - exact (IH H y x Hy Hx).
Qed.

Lemma find_none {A : Type} (f : A -> bool) (l : list A) :
  Forall (fun x => f x = false) l -> find f l = None.
Proof.
  induction 1 as [|x l Hx _ IH]; [reflexivity|].
  cbn [find]. rewrite Hx. exact IH.
Qed.

Section MapElements.
Variable Id : FieldId.
Variable n : nat.
Variables K V : Ty.
Variables deserialize_key deserialize_value
  : Val -> list Z -> nat -> option (Val * expected nat).
Variables wire_key wire_value : Val -> list Z.
Variable input : list Z.
Hypothesis input_small : Z.of_nat (length input) < 2 ^ 64.
Hypothesis K_element : ValidElementType K = true.
Hypothesis V_element : ValidElementType V = true.
Hypothesis K_content :
  is_scalar K || is_string K = true \/ Validate_by_content K.
Hypothesis V_content :
  is_scalar V || is_string V = true \/ Validate_by_content V.

Let body : Val -> nat -> option (Val * expected nat) :=
  fun field offset =>
    let key_field := default_val K in
    let val_field := default_val V in
    '(key_field, r) <- deserialize_key key_field input offset ;;
    match r with
    | Unexpected err => Some (field, Unexpected err)
    | Expected offset =>
        '(val_field, r) <- deserialize_value val_field input offset ;;
        match r with
        | Unexpected err => Some (field, Unexpected err)
        | Expected offset =>
            '(err, field) <-
              TlvLayout.map_insert Id K V n field key_field val_field ;;
            match err with
            | Some err => Some (field, Unexpected err)
            | None => Some (field, Expected offset)
            end
        end
    end.

Let typed (p : Val * Val) : Prop :=
  has_type K (fst p) = true /\ has_type V (snd p) = true.

Let same (d o : Val * Val) : Prop :=
  typed d
  /\ same_content K (fst d) (fst o) = true
  /\ same_content V (snd d) (snd o) = true.

Let entry_reads (o : Val * Val) : Prop :=
  typed o
  /\ reads_back K (fst o) (deserialize_key (default_val K))
                (wire_key (fst o))
  /\ reads_back V (snd o) (deserialize_value (default_val V))
                (wire_value (snd o))
  /\ element_Validate (MapElement := FieldElement K) (fst o) = None
  /\ element_Validate (MapElement := FieldElement V) (snd o) = None.

Let wire (item : Val * Val) : list Z :=
  wire_key (fst item) ++ wire_value (snd item).

Lemma map_loop_reads :
  forall (rest done ds tail : list (Val * Val)) (offset : nat),
    (length rest <= length tail)%nat ->
    (length ds + length tail = n)%nat ->
    Forall2 same ds done -> Forall typed done -> Forall typed tail ->
    container_validators.has_duplicate
      (element_equals (MapElement := FieldElement K))
      (map fst (done ++ rest)) = false ->
    Forall entry_reads rest ->
    holds input offset (flat_map wire rest) ->
    exists ds',
      TlvLayout.deserialize_elements_loop
        body (length rest) (VMap (ds ++ tail) (length ds)) offset
      = Some (VMap (ds ++ ds' ++ skipn (length rest) tail)
                   (length ds + length rest), None)
      /\ Forall2 same ds' rest.
Proof.
  induction rest as [|x rest IH];
    intros done ds tail offset Hlen Hn Hds Hdone Htail Hdup Hall H.
  - exists []. cbn [TlvLayout.deserialize_elements_loop length app skipn].
    rewrite Nat.add_0_r. split; [reflexivity | constructor].
  - cbn [flat_map] in H. apply holds_app in H. destruct H as [Hx Hrest].
    unfold wire at 1 in Hx. apply holds_app in Hx. destruct Hx as [Hk Hv].
    pose proof (Forall_inv Hall) as Hex.
    pose proof (Forall_inv_tail Hall) as Hall'.
    destruct Hex as ([Htk Htv] & Hrk & Hrv & Hvk & Hvv).
    destruct (Hrk input offset Hk input_small) as (k' & Ek & Htk' & Hsk).
    destruct (Hrv input _ Hv input_small) as (v' & Ev & Htv' & Hsv).
    cbn [TlvLayout.deserialize_elements_loop length].
    unfold body at 1. cbv zeta. rewrite Ek. cbn [bind]. rewrite Ev.
    cbn [bind].
    destruct tail as [|t tail]; [simpl in Hlen; lia|].
    cbn [length] in Hlen, Hn.
    pose proof (Forall_inv Htail) as [Htt1 Htt2].
    pose proof (Forall_inv_tail Htail) as Htail'.
    unfold TlvLayout.map_insert, MapField.insert.
    rewrite (element_Validate_content K k' (fst x) K_content Htk' Htk Hsk), Hvk.
    rewrite (element_Validate_content V v' (snd x) V_content Htv' Htv Hsv), Hvv.
    cbn [map_current_len_ map_items_].
    destruct (Nat.leb_spec n (length ds)) as [Hge | _]; [lia|].
    unfold MapField.at_. cbn [map_current_len_ map_items_].
    assert (Hfirst : firstn (length ds) (ds ++ t :: tail) = ds)
      by (rewrite firstn_app, Nat.sub_diag, firstn_O, app_nil_r, firstn_all;
          reflexivity).
    rewrite Hfirst.
    assert (Hfind : find (fun pair : Val * Val =>
                            element_equals (MapElement := FieldElement K)
                                           (fst pair) k') ds = None).
    { apply find_none.
      clear - Hds Hdone Hdup Htk Htk' Hsk.
      assert (Hkeys : forall o, In o done ->
                element_equals (MapElement := FieldElement K) (fst o) (fst x)
                = false).
      { intros o Ho.
        apply (has_duplicate_app_false _ (map fst done) (map fst (x :: rest))).
        - rewrite <- map_app. exact Hdup.
        - apply in_map. exact Ho.
        - left. reflexivity. }
      clear Hdup.
      induction Hds as [|d o ds done Hdo _ IHds]; constructor.
      - destruct Hdo as ([Hd1 _] & Hs1 & _).
        pose proof (Forall_inv Hdone) as [Ho1 _].
        rewrite (element_equals_content K (fst d) k' (fst o) (fst x));
          try assumption.
        apply Hkeys. left. reflexivity.
      - apply IHds.
        + exact (Forall_inv_tail Hdone).
        + intros o' Ho'. apply Hkeys. right. exact Ho'. }
    rewrite Hfind. cbn [option_map].
    assert (Hnth : nth (length ds) (ds ++ t :: tail)
                       (element_default (MapElement := FieldElement K),
                        element_default (MapElement := FieldElement V)) = t).
    { rewrite app_nth2 by lia. rewrite Nat.sub_diag. reflexivity. }
    rewrite Hnth. cbn [bind map_items_ map_current_len_].
    set (pair := (element_store (MapElement := FieldElement K) (fst t) k',
                  element_store (MapElement := FieldElement V) (snd t) v')).
    assert (Hvk' : element_Validate (MapElement := FieldElement K) k' = None)
      by (rewrite (element_Validate_content K k' (fst x) K_content
                     Htk' Htk Hsk); exact Hvk).
    assert (Hvv' : element_Validate (MapElement := FieldElement V) v' = None)
      by (rewrite (element_Validate_content V v' (snd x) V_content
                     Htv' Htv Hsv); exact Hvv).
    destruct (element_store_content K (fst t) k' (fst x) K_element
                                    Htt1 Htk' Hsk Hvk') as [Hp1 Hp2].
    destruct (element_store_content V (snd t) v' (snd x) V_element
                                    Htt2 Htv' Hsv Hvv') as [Hp3 Hp4].
    assert (Hpair : same pair x) by (repeat split; assumption).
    assert (Eitems : ds ++ pair :: skipn (S (length ds)) (ds ++ t :: tail)
                     = (ds ++ [pair]) ++ tail).
    { rewrite skipn_app.
      replace (S (length ds) - length ds)%nat with 1%nat by lia.
      rewrite skipn_all2 by lia. cbn [app skipn].
      rewrite <- app_assoc. reflexivity. }
    rewrite Eitems.
    replace (S (length ds)) with (length (ds ++ [pair]))
      by (rewrite length_app; simpl; lia).
    destruct (IH (done ++ [x]) (ds ++ [pair]) tail
                 (offset + length (wire_key (fst x))
                  + length (wire_value (snd x)))%nat)
      as (ds' & El & Hds'); try assumption.
    { lia. }
    { rewrite length_app. simpl. lia. }
    { apply Forall2_app; [exact Hds | constructor; [exact Hpair|constructor]]. }
    { apply Forall_app. split; [exact Hdone|].
      constructor; [split; assumption | constructor]. }
    { rewrite <- app_assoc. exact Hdup. }
    { unfold wire at 1 in Hrest. rewrite length_app in Hrest.
      rewrite <- Nat.add_assoc. exact Hrest. }
    rewrite El. exists (pair :: ds'). split.
    + f_equal. f_equal. f_equal.
      * rewrite <- !app_assoc. reflexivity.
      * rewrite length_app. simpl. lia.
    + constructor; [exact Hpair | exact Hds'].
Qed.

End MapElements.

(** [deserialize_map_elements] on the content of a map. *)
Lemma map_elements_read (Id : FieldId) (n : nat) (K V : Ty) Vs
      (deserialize_key deserialize_value
       : Val -> list Z -> nat -> option (Val * expected nat))
      (wire_key wire_value : Val -> list Z)
      (items : list (Val * Val)) (len : nat) :
  ValidElementType K = true -> ValidElementType V = true ->
  (is_scalar K || is_string K = true \/ Validate_by_content K) ->
  (is_scalar V || is_string V = true \/ Validate_by_content V) ->
  length items = n -> (len <= n)%nat ->
  container_validators.has_duplicate
    (element_equals (MapElement := FieldElement K))
    (map fst (firstn len items)) = false ->
  Forall (fun o =>
            (has_type K (fst o) = true /\ has_type V (snd o) = true)
            /\ reads_back K (fst o) (deserialize_key (default_val K))
                          (wire_key (fst o))
            /\ reads_back V (snd o) (deserialize_value (default_val V))
                          (wire_value (snd o))
            /\ element_Validate (MapElement := FieldElement K) (fst o) = None
            /\ element_Validate (MapElement := FieldElement V) (snd o) = None)
         (firstn len items) ->
  Forall (fun o => (1 <= length (wire_key (fst o)))%nat) (firstn len items) ->
  reads_content
    (MapField Id K V n Vs) (VMap items len)
    (fun subspan_ =>
       TlvLayout.deserialize_map_elements
         Id n K V deserialize_key deserialize_value
         (default_val (MapField Id K V n Vs)) subspan_ 0%nat)
    (TlvWire.varint (Z.of_nat len)
       ++ flat_map (fun item => wire_key (fst item) ++ wire_value (snd item))
                   (firstn len items)).
Proof.
  intros HK HV HKc HVc Hitems Hlen Hdup Hall Hne1 Hsmall.
  set (act := firstn len items) in *.
  set (wire := fun item : Val * Val =>
                 wire_key (fst item) ++ wire_value (snd item)) in *.
  set (C := TlvWire.varint (Z.of_nat len) ++ flat_map wire act) in *.
  assert (Lact : length act = len)
    by (unfold act; rewrite length_firstn; lia).
  assert (Hne : Forall (fun item => (1 <= length (wire item))%nat) act).
  { apply Forall_impl with (2 := Hne1). intros o Ho. unfold wire.
    rewrite length_app. lia. }
  pose proof (flat_map_length_ge wire act Hne) as Hfl.
  pose proof (holds_whole C) as HC. unfold C in HC at 2.
  apply holds_app in HC. destruct HC as [Hv Hc].
  assert (LC : length C
               = (length (TlvWire.varint (Z.of_nat len))
                  + length (flat_map wire act))%nat)
    by (unfold C; apply length_app).
  unfold TlvLayout.deserialize_map_elements.
  rewrite (decode_varint _ _ _ Hv), u64_small by lia.
  cbv zeta. rewrite Nat2Z.id. cbn [default_val].
  destruct (map_loop_reads
              Id n K V deserialize_key deserialize_value wire_key wire_value
              C Hsmall HK HV HKc HVc act [] []
              (repeat (default_val K, default_val V) n)
              (0 + length (TlvWire.varint (Z.of_nat len)))%nat)
    as (ds' & El & Hds'); try assumption.
  { rewrite repeat_length. lia. }
  { rewrite repeat_length. reflexivity. }
  { constructor. }
  { constructor. }
  { apply Forall_forall. intros p Hp. apply repeat_spec in Hp. subst p.
    split; apply default_val_has_type. }
  rewrite Lact in El. cbn [app length] in El.
  change (0 + len)%nat with len in El. rewrite El.
  pose proof (Forall2_length_eq _ _ _ Hds') as Lds.
  eexists. split; [reflexivity|]. split.
  - cbn [has_type]. rewrite length_app, length_skipn, repeat_length.
    apply andb_true_intro. split.
    + apply andb_true_intro.
      split; [apply Nat.eqb_eq | apply Nat.leb_le]; lia.
    + apply forallb_app_intro.
      * apply (Forall2_forallb_l
                 _ (fun kv => has_type K (fst kv) && has_type V (snd kv))
                 _ _
                 (fun x y H =>
                    andb_true_intro
                      (conj (proj1 (proj1 H)) (proj2 (proj1 H)))) Hds').
      * apply forallb_skipn, forallb_repeat. cbn [fst snd].
        rewrite !default_val_has_type. reflexivity.
  - cbn [same_content]. rewrite Nat.eqb_refl. cbn [andb].
    rewrite firstn_app.
    replace (len - length ds')%nat with 0%nat by lia.
    rewrite firstn_O, app_nil_r, firstn_all2 by lia.
    fold act.
    apply (Forall2_forallb_combine
             _ (fun xy => same_content K (fst (fst xy)) (fst (snd xy))
                          && same_content V (snd (fst xy)) (snd (snd xy)))
             _ _
             (fun x y H =>
                andb_true_intro (conj (proj1 (proj2 H)) (proj2 (proj2 H))))
             Hds').
Qed.

(* ------------------------------------------------------------------ *)
(** ** TLV: reading the fields of a message back *)

Lemma distinct_ids_before (l1 : list FieldId) (x : FieldId)
      (l2 : list FieldId) :
  distinct_ids (l1 ++ x :: l2) = true -> Forall (fun y => y <> x) l1.
Proof.
  induction l1 as [|a l1 IH]; intros H; constructor.
  - cbn [app distinct_ids] in H. apply andb_prop in H. destruct H as [H _].
    apply negb_true_iff in H. intros ->.
    assert (existsb (Z.eqb x) (l1 ++ x :: l2) = true); [|congruence].
    apply existsb_exists. exists x. split; [|apply Z.eqb_refl].
    apply in_or_app. right. left. reflexivity.
  - apply IH. cbn [app distinct_ids] in H. apply andb_prop in H. tauto.
Qed.

(** [visit_fields_tlv] passes the fields with another id and hands the
    first one with the id to [deserialize_field_value]. *)
Lemma visit_fields_tlv_found
      (f : Ty -> Val -> TlvLayout.WireType -> list Z -> nat
           -> option (Val * expected nat))
      (F : Ty) (rest : list Ty) (f0 : Val) (cur_rest : list Val)
      (wt : TlvLayout.WireType) (input : list Z) (offset : nat) :
  forall (done : list Ty) (cur_done : list Val),
    length done = length cur_done ->
    Forall (fun G => field_id_of G <> field_id_of F) done ->
    TlvLayout.visit_fields_tlv f (done ++ F :: rest)
                               (cur_done ++ f0 :: cur_rest)
                               (field_id_of F) wt input offset
    = ('(f', r) <- f F f0 wt input offset ;;
       Some (cur_done ++ f' :: cur_rest, r, true)).
Proof.
  induction done as [|G done IH]; intros [|g cur_done] Hlen Hne;
    try discriminate Hlen.
  - cbn [app TlvLayout.visit_fields_tlv]. rewrite Z.eqb_refl. reflexivity.
  - cbn [app TlvLayout.visit_fields_tlv].
    pose proof (Forall_inv Hne) as HG.
    destruct (Z.eqb_spec (field_id_of G) (field_id_of F)) as [E | _];
      [contradiction|].
    rewrite IH by (try (simpl in Hlen; lia); exact (Forall_inv_tail Hne)).
    destruct (f F f0 wt input offset) as [[f' r]|]; reflexivity.
Qed.

(** [visit_fields_tlv] finds nothing when no field has the id. *)
Lemma visit_fields_tlv_not_found
      (f : Ty -> Val -> TlvLayout.WireType -> list Z -> nat
           -> option (Val * expected nat))
      (target_id : FieldId) (wt : TlvLayout.WireType) (input : list Z)
      (offset : nat) :
  forall (Tuple : list Ty) (fields_tuple : list Val),
    length Tuple = length fields_tuple ->
    Forall (fun G => field_id_of G <> target_id) Tuple ->
    TlvLayout.visit_fields_tlv f Tuple fields_tuple target_id wt input offset
    = Some (fields_tuple, Expected offset, false).
Proof.
  induction Tuple as [|G Tuple IH]; intros [|g fields_tuple] Hlen Hne;
    try discriminate Hlen.
  - reflexivity.
  - cbn [TlvLayout.visit_fields_tlv].
    pose proof (Forall_inv Hne) as HG.
    destruct (Z.eqb_spec (field_id_of G) target_id) as [E | _];
      [contradiction|].
    rewrite IH by (try (simpl in Hlen; lia); exact (Forall_inv_tail Hne)).
    reflexivity.
Qed.

Lemma payload_loop_reads :
  forall (todo : list Ty) (vals : list Val) (done : list Ty)
         (cur_done : list Val) (input : list Z) (offset fuel : nat),
    length done = length cur_done ->
    distinct_ids (map field_id_of (done ++ todo)) = true ->
    Forall (fun F => 0 <= field_id_of F <= MaxFieldId) todo ->
    Forall2 field_reads_back todo vals ->
    holds input offset (TlvWire.fields TlvWire.field todo vals) ->
    length input
    = (offset + length (TlvWire.fields TlvWire.field todo vals))%nat ->
    Z.of_nat (length input) < 2 ^ 64 ->
    (length input - offset <= fuel)%nat ->
    exists vals',
      TlvLayout.deserialize_message_payload_loop
        fuel
        (TlvLayout.visit_fields_tlv TlvLayout.deserialize_field_value
                                    (done ++ todo))
        input (cur_done ++ map default_val todo) offset
      = Some (cur_done ++ vals', None)
      /\ all2 has_type todo vals' = true
      /\ all3 same_content todo vals' vals = true.
Proof.
  induction todo as [|F todo IH];
    intros vals done cur_done input offset fuel Hlen Hdist Hids Hall H Hend
           Hsmall Hfuel.
  - inversion Hall; subst. cbn [TlvWire.fields length] in Hend.
    exists []. cbn [map]. split; [|split; reflexivity].
    destruct fuel; cbn [TlvLayout.deserialize_message_payload_loop];
      (destruct (Nat.ltb_spec offset (length input)); [lia | reflexivity]).
  - destruct vals as [|v vals]; [inversion Hall|].
    pose proof (Forall2_cons_iff field_reads_back F v todo vals) as Hc.
    apply Hc in Hall. clear Hc. destruct Hall as [HF Hall].
    pose proof (Forall_inv Hids) as Hid.
    pose proof (Forall_inv_tail Hids) as Hids'.
    cbn [TlvWire.fields] in H, Hend.
    apply holds_app in H. destruct H as [HwF Hwrest].
    rewrite length_app in Hend.
    assert (Hdone' : length (done ++ [F]) = length (cur_done ++ [default_val F]))
      by (rewrite !length_app; simpl; lia).
    destruct HF as [[Hnil Hsame] | (wt & body & Ewire & Hwt & Hread)].
    + (* the field is not on the wire *)
      rewrite Hnil in Hwrest, Hend. cbn [length] in Hwrest, Hend.
      rewrite Nat.add_0_r in Hwrest.
      destruct (IH vals (done ++ [F]) (cur_done ++ [default_val F])
                   input offset fuel)
        as (vals' & El & Ht & Hs); try assumption.
      { rewrite <- app_assoc. exact Hdist. }
      rewrite <- !app_assoc in El. cbn [app] in El. cbn [map].
      rewrite El. exists (default_val F :: vals').
      split; [reflexivity|]. cbn [all2 all3].
      rewrite default_val_has_type, Ht, Hsame, Hs. split; reflexivity.
    + (* the tag, then the value *)
      rewrite Ewire in HwF, Hwrest, Hend.
      apply holds_app in HwF. destruct HwF as [Htag Hbody].
      rewrite length_app in Hwrest, Hend.
      pose proof (tag_length (field_id_of F) wt) as Htl.
      set (ntag := length (TlvWire.tag (field_id_of F) wt)) in *.
      destruct fuel as [|fuel]; [lia|].
      cbn [TlvLayout.deserialize_message_payload_loop].
      destruct (Nat.ltb_spec offset (length input)) as [_ | Hge]; [|lia].
      unfold TlvWire.tag in Htag. rewrite (decode_varint _ _ _ Htag).
      fold (TlvWire.tag (field_id_of F) wt). fold ntag.
      destruct (tag_fields (field_id_of F) wt Hid Hwt) as [Eid Ewt].
      cbv zeta in Eid, Ewt. cbv zeta. rewrite Eid, Ewt.
      cbn [map].
      rewrite visit_fields_tlv_found;
        [|exact Hlen
         |apply Forall_map with (f := field_id_of)
            (P := fun y => y <> field_id_of F);
          apply (distinct_ids_before _ _ (map field_id_of todo));
          rewrite map_app in Hdist; exact Hdist].
      destruct (Hread input (offset + ntag)%nat Hbody Hsmall)
        as (v' & Ev & Htv & Hsv).
      rewrite Ev. cbn [bind negb].
      destruct (IH vals (done ++ [F]) (cur_done ++ [v'])
                   input (offset + ntag + length body)%nat fuel)
        as (vals' & El & Ht & Hs); try assumption.
      { rewrite !length_app. simpl. lia. }
      { rewrite <- app_assoc. exact Hdist. }
      { rewrite <- Nat.add_assoc. exact Hwrest. }
      { lia. }
      { lia. }
      rewrite <- !app_assoc in El. cbn [app] in El.
      rewrite El. exists (v' :: vals').
      split; [reflexivity|]. cbn [all2 all3].
      rewrite Htv, Ht, Hsv, Hs. split; reflexivity.
Qed.

(* ------------------------------------------------------------------ *)
(** ** TLV: reading back, type by type *)

Lemma Forall2_nth_intro {A B : Type} (R : A -> B -> Prop) :
  forall (xs : list A) (ys : list B),
    length xs = length ys ->
    (forall i x y,
        nth_error xs i = Some x -> nth_error ys i = Some y -> R x y) ->
    Forall2 R xs ys.
Proof.
  induction xs as [|x xs IH]; intros [|y ys] Hlen H; try discriminate Hlen;
    constructor.
  - exact (H 0%nat x y eq_refl eq_refl).
  - apply IH; [simpl in Hlen; lia|].
    intros i x' y' Ex Ey. exact (H (S i) x' y' Ex Ey).
Qed.

Lemma map_entries_by_content_Message id fields V :
  map_entries_by_content (Message id fields V)
  <-> Forall map_entries_by_content fields.
Proof.
  cbn [map_entries_by_content].
  induction fields as [|F fields IH].
  - split; [constructor | intros; exact I].
  - split.
    + intros [HF Hrest]. constructor; [exact HF | apply IH; exact Hrest].
    + intros H. split; [exact (Forall_inv H)|].
      apply IH. exact (Forall_inv_tail H).
Qed.

Lemma is_none_true {A : Type} (o : option A) : is_none o = true -> o = None.
Proof. destruct o; [discriminate | reflexivity]. Qed.

Lemma length_delimited_length (C : list Z) :
  (1 <= length (TlvWire.length_delimited C))%nat.
Proof.
  unfold TlvWire.length_delimited. rewrite length_app.
  pose proof (varint_length (Z.of_nat (length C))). lia.
Qed.

(** A length-delimited field whose content is read back by
    [content]. *)
Lemma reads_length_delimited_field (F : Ty) (v : Val)
      (m1 m2 m3 : string) (field0 : Val) (C : list Z)
      (content : list Z -> option (Val * option Error))
      (on_error finish : Val -> Val) :
  reads_content F v (fun sub => option_map
                                  (fun r => (finish (fst r), snd r))
                                  (content sub)) C ->
  forall input offset,
    holds input offset (TlvWire.length_delimited C) ->
    Z.of_nat (length input) < 2 ^ 64 ->
    exists v',
      TlvLayout.length_delimited_field
        m1 m2 m3
        (fun len offset =>
           subspan_ <- TlvLayout.subspan input offset len ;;
           '(val, err) <- content subspan_ ;;
           match err with
           | Some err => Some (on_error val, Unexpected err)
           | None => Some (finish val, Expected (offset + Z.to_nat len)%nat)
           end)
        field0 TlvLayout.WireType_LengthDelimited input offset
      = Some (v', Expected (offset
                            + length (TlvWire.length_delimited C))%nat)
      /\ has_type F v' = true /\ same_content F v' v = true.
Proof.
  intros Hcontent input offset H Hsmall.
  destruct (length_prefix_read input offset C H Hsmall) as (_ & _ & E3 & Hb).
  rewrite (length_delimited_field_reads m1 m2 m3 _ field0 input offset C
                                        H Hsmall).
  rewrite E3. cbn [bind].
  unfold TlvWire.length_delimited in Hb |- *. rewrite length_app in Hb |- *.
  unfold reads_content in Hcontent.
  destruct (Hcontent ltac:(lia)) as (v' & E & Hty & Hs).
  destruct (content C) as [[val err]|]; [|discriminate E].
  cbn [option_map fst snd] in E. injection E as <- ->.
  cbn [bind]. eexists. rewrite Nat2Z.id.
  split; [f_equal; f_equal; f_equal; lia|]. split; assumption.
Qed.

(** Every value and every field that the decoder can rebuild is read
    back from the wire format with its content. *)
Lemma reads_type (T : Ty) :
  valid_schema T = true -> tlv_schema T = true ->
  map_entries_by_content T ->
  (ValidElementType T = true ->
   forall v, has_type T v = true -> reconstructible T v = true ->
             reads_back T v
                        (TlvLayout.deserialize_value_without_tag
                           T (default_val T))
                        (TlvWire.value T v)
             /\ (1 <= length (TlvWire.value T v))%nat)
  /\ (ValidField T = true ->
      forall v, has_type T v = true -> reconstructible T v = true ->
                field_reads_back T v)
  /\ (forall id fields V,
         T = Message id fields V ->
         forall vals,
           has_type T (VMessage vals) = true ->
           reconstructible T (VMessage vals) = true ->
           forall input offset,
             holds input offset (TlvWire.fields TlvWire.field fields vals) ->
             length input
             = (offset
                + length (TlvWire.fields TlvWire.field fields vals))%nat ->
             Z.of_nat (length input) < 2 ^ 64 ->
             exists v',
               TlvLayout.deserialize_message_fields
                 TlvLayout.deserialize_field_value fields input
                 (default_val T) offset
               = Some (v', None)
               /\ has_type T v' = true
               /\ same_content T v' (VMessage vals) = true).
Proof.
  induction T as [k Vs | n Vs | id fields V IH | Id E n Vs IH
                  | Id K V n Vs IHK IHV | Id Pr T' IH]
    using Ty_nested_ind; intros Hvalid Hschema Hcontent.
  - (* Scalar *)
    split; [|split; [discriminate | intros; discriminate]].
    intros _ v Hty Hrec.
    destruct v as [z | | | | |]; try discriminate Hty.
    split; [|apply varint_length].
    exact (reads_scalar_value k Vs z 0 Hrec).
  - (* String *)
    split; [|split; [discriminate | intros; discriminate]].
    intros _ v Hty Hrec.
    destruct v as [| s | | | |]; try discriminate Hty.
    split; [|apply length_delimited_length].
    cbn [reconstructible] in Hrec. apply is_none_true in Hrec.
    exact (reads_string_value n Vs s (CrunchString.default n) Hty Hrec).
  - (* Message *)
    assert (Hfields :
              forall vals,
                has_type (Message id fields V) (VMessage vals) = true ->
                reconstructible (Message id fields V) (VMessage vals) = true ->
                forall input offset,
                  holds input offset
                        (TlvWire.fields TlvWire.field fields vals) ->
                  length input
                  = (offset
                     + length (TlvWire.fields TlvWire.field fields vals))%nat ->
                  Z.of_nat (length input) < 2 ^ 64 ->
                  exists v',
                    TlvLayout.deserialize_message_fields
                      TlvLayout.deserialize_field_value fields input
                      (default_val (Message id fields V)) offset
                    = Some (v', None)
                    /\ has_type (Message id fields V) v' = true
                    /\ same_content (Message id fields V) v' (VMessage vals)
                       = true).
    { intros vals Hty Hrec input offset H Hend Hsmall.
      rewrite has_type_Message in Hty.
      destruct (all2_nth _ _ _ Hty) as [Hlen Hnth].
      cbn [reconstructible] in Hrec.
      destruct (all2_nth _ _ _ Hrec) as [_ Hrnth].
      cbn [valid_schema] in Hvalid. apply andb_prop in Hvalid.
      destruct Hvalid as [_ Hvf].
      cbn [tlv_schema] in Hschema. apply andb_prop in Hschema.
      destruct Hschema as [Hsf Hdist].
      apply map_entries_by_content_Message in Hcontent.
      assert (Hall : Forall2 field_reads_back fields vals).
      { apply Forall2_nth_intro; [exact Hlen|].
        intros i F f EF Ef.
        pose proof (forallb_nth _ _ _ _ Hvf EF) as HF.
        apply andb_prop in HF. destruct HF as [HVF HvF].
        pose proof (forallb_nth _ _ _ _ Hsf EF) as HsF.
        apply andb_prop in HsF. destruct HsF as [_ HsF].
        destruct (Forall_nth _ _ _ _ IH EF HvF HsF
                             (Forall_nth _ _ _ _ Hcontent EF))
          as (_ & Hfield & _).
        exact (Hfield HVF f (Hnth i F f EF Ef) (Hrnth i F f EF Ef)). }
      assert (Hids : Forall (fun F => 0 <= field_id_of F <= MaxFieldId)
                            fields).
      { apply Forall_forall. intros F HF.
        rewrite forallb_forall in Hsf. pose proof (Hsf F HF) as HsF.
        apply andb_prop in HsF. destruct HsF as [HsF _].
        apply andb_prop in HsF. destruct HsF as [H1 H2].
        apply Z.leb_le in H1. apply Z.leb_le in H2. lia. }
      destruct (payload_loop_reads fields vals [] [] input offset
                                   (length input) eq_refl Hdist Hids Hall H
                                   Hend Hsmall ltac:(lia))
        as (vals' & El & Ht & Hs).
      cbn [app] in El.
      unfold TlvLayout.deserialize_message_fields. cbn [default_val].
      rewrite El. cbn [bind]. exists (VMessage vals').
      split; [reflexivity|]. rewrite has_type_Message.
      split; [exact Ht | exact Hs]. }
    split; [|split; [discriminate|]].
    + intros _ v Hty Hrec.
      destruct v as [| | vals | | |]; try discriminate Hty.
      split; [|apply length_delimited_length].
      apply (reads_length_delimited
               (Message id fields V) (VMessage vals)
               "invalid message length"
               (fun val input offset =>
                  TlvLayout.deserialize_message_fields
                    TlvLayout.deserialize_field_value fields input val offset)
               (default_val (Message id fields V))
               (TlvWire.fields TlvWire.field fields vals)).
      intros Hsmall.
      apply (Hfields vals Hty Hrec); [apply holds_whole | reflexivity
                                      | exact Hsmall].
    + intros id' fields' V' E vals. injection E as <- <- <-.
      exact (Hfields vals).
  - (* ArrayField *)
    cbn [valid_schema] in Hvalid. apply andb_prop in Hvalid.
    destruct Hvalid as [HE HvE]. cbn [tlv_schema] in Hschema.
    cbn [map_entries_by_content] in Hcontent.
    destruct (IH HvE Hschema Hcontent) as (IHv & _ & _).
    assert (Helements :
              forall items len,
                has_type (ArrayField Id E n Vs) (VArray items len) = true ->
                reconstructible (ArrayField Id E n Vs) (VArray items len)
                = true ->
                reads_content
                  (ArrayField Id E n Vs) (VArray items len)
                  (fun subspan_ =>
                     TlvLayout.deserialize_array_elements
                       Id n E (TlvLayout.deserialize_value_without_tag E)
                       (default_val (ArrayField Id E n Vs)) subspan_ 0%nat)
                  (TlvWire.varint (Z.of_nat len)
                     ++ flat_map (TlvWire.value E) (firstn len items))).
    { intros items len Hty Hrec.
      cbn [has_type] in Hty. apply andb_prop in Hty.
      destruct Hty as [Hty Hitems]. apply andb_prop in Hty.
      destruct Hty as [Hl Hlen]. apply Nat.eqb_eq in Hl.
      apply Nat.leb_le in Hlen. cbn [reconstructible] in Hrec.
      apply array_elements_read; try assumption.
      apply Forall_forall. intros item Hin.
      apply (IHv HE).
      - rewrite forallb_forall in Hitems. apply Hitems.
        rewrite <- (firstn_skipn len items). apply in_or_app. left. exact Hin.
      - rewrite forallb_forall in Hrec. exact (Hrec item Hin). }
    split; [|split; [|intros; discriminate]].
    + intros _ v Hty Hrec.
      destruct v as [| | | items len | |]; try discriminate Hty.
      split; [|apply length_delimited_length].
      exact (reads_length_delimited
               (ArrayField Id E n Vs) (VArray items len)
               "invalid array length"
               (TlvLayout.deserialize_array_elements
                  Id n E (TlvLayout.deserialize_value_without_tag E))
               (default_val (ArrayField Id E n Vs)) _
               (Helements items len Hty Hrec)).
    + intros _ v Hty Hrec.
      destruct v as [| | | items len | |]; try discriminate Hty.
      unfold field_reads_back. cbn [TlvWire.field].
      destruct (Nat.eqb_spec len 0) as [-> | Hne].
      * left. split; [reflexivity|]. cbn [default_val same_content].
        reflexivity.
      * right. exists TlvLayout.WireType_LengthDelimited.
        exists (TlvWire.array (TlvWire.value E) items len).
        split; [reflexivity|].
        split; [unfold TlvLayout.WireType_LengthDelimited; lia|].
        intros input offset H Hsmall.
        cbn [TlvLayout.deserialize_field_value].
        unfold TlvLayout.deserialize_array_field.
        apply (reads_length_delimited_field
                 (ArrayField Id E n Vs) (VArray items len) _ _ _
                 (default_val (ArrayField Id E n Vs))
                 (TlvWire.varint (Z.of_nat len)
                    ++ flat_map (TlvWire.value E) (firstn len items))
                 (fun sub =>
                    TlvLayout.deserialize_array_elements
                      Id n E (TlvLayout.deserialize_value_without_tag E)
                      (default_val (ArrayField Id E n Vs)) sub 0%nat)
                 (fun val => val) (fun val => val));
          [|exact H | exact Hsmall].
        intros Hs. destruct (Helements items len Hty Hrec Hs)
          as (v' & Ev & Htv & Hsv).
        exists v'. rewrite Ev. split; [reflexivity|]. split; assumption.
  - (* MapField *)
    cbn [valid_schema] in Hvalid.
    apply andb_prop in Hvalid. destruct Hvalid as [Hvalid HvV].
    apply andb_prop in Hvalid. destruct Hvalid as [Hvalid HvK].
    apply andb_prop in Hvalid. destruct Hvalid as [HK HV].
    cbn [tlv_schema] in Hschema. apply andb_prop in Hschema.
    destruct Hschema as [HsK HsV].
    cbn [map_entries_by_content] in Hcontent.
    destruct Hcontent as (HKc & HVc & HcK & HcV).
    destruct (IHK HvK HsK HcK) as (IHk & _ & _).
    destruct (IHV HvV HsV HcV) as (IHv & _ & _).
    assert (Helements :
              forall items len,
                has_type (MapField Id K V n Vs) (VMap items len) = true ->
                reconstructible (MapField Id K V n Vs) (VMap items len)
                = true ->
                reads_content
                  (MapField Id K V n Vs) (VMap items len)
                  (fun subspan_ =>
                     TlvLayout.deserialize_map_elements
                       Id n K V (TlvLayout.deserialize_value_without_tag K)
                       (TlvLayout.deserialize_value_without_tag V)
                       (default_val (MapField Id K V n Vs)) subspan_ 0%nat)
                  (TlvWire.varint (Z.of_nat len)
                     ++ flat_map (fun item =>
                                    TlvWire.value K (fst item)
                                      ++ TlvWire.value V (snd item))
                                 (firstn len items))).
    { intros items len Hty Hrec.
      cbn [has_type] in Hty. apply andb_prop in Hty.
      destruct Hty as [Hty Hitems]. apply andb_prop in Hty.
      destruct Hty as [Hl Hlen]. apply Nat.eqb_eq in Hl.
      apply Nat.leb_le in Hlen. cbn [reconstructible] in Hrec.
      apply andb_prop in Hrec. destruct Hrec as [Hrec Hdup].
      apply negb_true_iff in Hdup.
      assert (Hin : forall item, In item (firstn len items) ->
                                 In item items).
      { intros item Hi. rewrite <- (firstn_skipn len items).
        apply in_or_app. left. exact Hi. }
      apply map_elements_read; try assumption.
      - apply Forall_forall. intros item Hi.
        rewrite forallb_forall in Hitems.
        pose proof (Hitems item (Hin item Hi)) as Hti.
        apply andb_prop in Hti. destruct Hti as [Htk Htv].
        rewrite forallb_forall in Hrec. pose proof (Hrec item Hi) as Hri.
        apply andb_prop in Hri. destruct Hri as [Hri Hvv].
        apply andb_prop in Hri. destruct Hri as [Hri Hvk].
        apply andb_prop in Hri. destruct Hri as [Hrk Hrv].
        apply is_none_true in Hvk. apply is_none_true in Hvv.
        split; [split; assumption|].
        split; [exact (proj1 (IHk HK _ Htk Hrk))|].
        split; [exact (proj1 (IHv HV _ Htv Hrv))|].
        split; assumption.
      - apply Forall_forall. intros item Hi.
        rewrite forallb_forall in Hitems.
        pose proof (Hitems item (Hin item Hi)) as Hti.
        apply andb_prop in Hti. destruct Hti as [Htk Htv].
        rewrite forallb_forall in Hrec. pose proof (Hrec item Hi) as Hri.
        apply andb_prop in Hri. destruct Hri as [Hri _].
        apply andb_prop in Hri. destruct Hri as [Hri _].
        apply andb_prop in Hri. destruct Hri as [Hrk _].
        exact (proj2 (IHk HK _ Htk Hrk)). }
    split; [|split; [|intros; discriminate]].
    + intros _ v Hty Hrec.
      destruct v as [| | | | items len |]; try discriminate Hty.
      split; [|apply length_delimited_length].
      exact (reads_length_delimited
               (MapField Id K V n Vs) (VMap items len)
               "invalid map length"
               (TlvLayout.deserialize_map_elements
                  Id n K V (TlvLayout.deserialize_value_without_tag K)
                  (TlvLayout.deserialize_value_without_tag V))
               (default_val (MapField Id K V n Vs)) _
               (Helements items len Hty Hrec)).
    + intros _ v Hty Hrec.
      destruct v as [| | | | items len |]; try discriminate Hty.
      unfold field_reads_back. cbn [TlvWire.field].
      destruct (Nat.eqb_spec len 0) as [-> | Hne].
      * left. split; [reflexivity|]. cbn [default_val same_content].
        reflexivity.
      * right. exists TlvLayout.WireType_LengthDelimited.
        exists (TlvWire.map_ (TlvWire.value K) (TlvWire.value V) items len).
        split; [reflexivity|].
        split; [unfold TlvLayout.WireType_LengthDelimited; lia|].
        intros input offset H Hsmall.
        cbn [TlvLayout.deserialize_field_value].
        unfold TlvLayout.deserialize_map_field.
        apply (reads_length_delimited_field
                 (MapField Id K V n Vs) (VMap items len) _ _ _
                 (default_val (MapField Id K V n Vs))
                 (TlvWire.varint (Z.of_nat len)
                    ++ flat_map (fun item =>
                                   TlvWire.value K (fst item)
                                     ++ TlvWire.value V (snd item))
                                (firstn len items))
                 (fun sub =>
                    TlvLayout.deserialize_map_elements
                      Id n K V (TlvLayout.deserialize_value_without_tag K)
                      (TlvLayout.deserialize_value_without_tag V)
                      (default_val (MapField Id K V n Vs)) sub 0%nat)
                 (fun val => val) (fun val => val));
          [|exact H | exact Hsmall].
        intros Hs. destruct (Helements items len Hty Hrec Hs)
          as (v' & Ev & Htv & Hsv).
        exists v'. rewrite Ev. split; [reflexivity|]. split; assumption.
  - (* Field *)
    cbn [valid_schema] in Hvalid. apply andb_prop in Hvalid.
    destruct Hvalid as [HVE HvT]. cbn [tlv_schema] in Hschema.
    apply andb_prop in Hschema. destruct Hschema as [Hkind HsT].
    cbn [map_entries_by_content] in Hcontent.
    destruct (IH HvT HsT Hcontent) as (IHv & _ & IHm).
    split; [discriminate|]. split; [|intros; discriminate].
    intros _ v Hty Hrec.
    destruct v as [| | | | | value set]; try discriminate Hty.
    cbn [has_type] in Hty. cbn [reconstructible] in Hrec.
    unfold field_reads_back. cbn [TlvWire.field field_id_of].
    destruct set; cbn [negb];
      [|left; split; [reflexivity|]; cbn [default_val same_content];
        reflexivity].
    right.
    destruct T' as [k Vs | n Vs | id fields V | Id' E n Vs
                    | Id' K V n Vs | Id' Pr' T''];
      try discriminate Hkind;
      destruct value as [z | s | vals | items len | items len | fv fs];
      try discriminate Hty.
    + (* a scalar *)
      exists TlvLayout.WireType_Varint.
      exists (TlvWire.varint (TlvLayout.encoded_val k z)).
      split; [reflexivity|].
      split; [unfold TlvLayout.WireType_Varint; lia|].
      intros input offset H Hsmall.
      cbn [TlvLayout.deserialize_field_value default_val].
      unfold TlvLayout.deserialize_scalar_field.
      rewrite Z.eqb_refl. cbn [negb].
      rewrite (decode_varint _ _ _ H), decoded_encoded by exact Hrec.
      eexists. split; [reflexivity|]. split; [reflexivity|].
      cbn [same_content Bool.eqb negb]. apply Z.eqb_refl.
    + (* a string *)
      exists TlvLayout.WireType_LengthDelimited.
      exists (TlvWire.length_delimited (CrunchString.get s)).
      split; [reflexivity|].
      split; [unfold TlvLayout.WireType_LengthDelimited; lia|].
      intros input offset H Hsmall.
      cbn [reconstructible] in Hrec. apply is_none_true in Hrec.
      pose proof Hty as Hty'. cbn [has_type] in Hty'.
      destruct (string_get_length _ _ Hty') as [Hl Hle].
      cbn [TlvLayout.deserialize_field_value default_val].
      unfold TlvLayout.deserialize_string_field.
      destruct (length_prefix_read input offset (CrunchString.get s)
                                   H Hsmall) as (_ & _ & _ & Hb).
      pose proof (string_view_read input offset (CrunchString.get s) H)
        as E3.
      rewrite (length_delimited_field_reads _ _ _ _ _ input offset
                                            (CrunchString.get s) H Hsmall).
      rewrite E3. cbn [bind].
      rewrite string_set_accepts by (try assumption; lia).
      destruct (string_set_result_ok n Vs s (CrunchString.get s)
                                     ltac:(lia) eq_refl) as (Ht & Hs & _).
      eexists. split; [|split].
      * rewrite Nat2Z.id. unfold TlvWire.length_delimited.
        rewrite length_app. f_equal. f_equal. f_equal. lia.
      * exact Ht.
      * cbn [same_content Bool.eqb negb]. exact Hs.
    + (* a message *)
      exists TlvLayout.WireType_LengthDelimited.
      exists (TlvWire.length_delimited
                (TlvWire.fields TlvWire.field fields vals)).
      split; [reflexivity|].
      split; [unfold TlvLayout.WireType_LengthDelimited; lia|].
      intros input offset H Hsmall.
      cbn [TlvLayout.deserialize_field_value].
      unfold TlvLayout.deserialize_nested_message_field.
      cbn [default_val].
      apply (reads_length_delimited_field
               (Field Id Pr (Message id fields V))
               (VField (VMessage vals) true) _ _ _
               (VField (VMessage (map default_val fields)) false)
               (TlvWire.fields TlvWire.field fields vals)
               (fun sub =>
                  TlvLayout.deserialize_message_fields
                    TlvLayout.deserialize_field_value fields sub
                    (VMessage (map default_val fields)) 0%nat)
               (fun _ => VField (VMessage (map default_val fields)) false)
               (fun temp => VField temp true)); [|exact H | exact Hsmall].
      intros Hs.
      destruct (IHm id fields V eq_refl vals Hty Hrec
                    (TlvWire.fields TlvWire.field fields vals) 0%nat
                    (holds_whole _) eq_refl Hs)
        as (v' & Ev & Htv & Hsv).
      cbn [default_val] in Ev. rewrite Ev. cbn [option_map fst snd].
      eexists. split; [reflexivity|]. split; [exact Htv|].
      cbn [same_content Bool.eqb negb]. exact Hsv.
Qed.

(* ------------------------------------------------------------------ *)
(** ** TLV: the layout as a whole *)

(** [Deserialize] on an input that holds the payload of a message
    behind the header. *)
Lemma Deserialize_reads (M : Ty) (msg : Val) (input : list Z) :
  is_message M = true -> valid_schema M = true -> tlv_schema M = true ->
  map_entries_by_content M ->
  has_type M msg = true -> reconstructible M msg = true ->
  holds input StandardHeaderSize (TlvWire.payload M msg) ->
  Z.of_nat (length (TlvWire.payload M msg)) < 2 ^ 32 ->
  exists msg',
    TlvLayout.Deserialize M input (default_val M) = Some (msg', None)
    /\ has_type M msg' = true /\ same_content M msg' msg = true.
Proof.
  intros HM Hvalid Hschema Hcontent Hty Hrec H Hsmall.
  destruct M as [| | id fields V | | |]; try discriminate HM.
  destruct msg as [| | vals | | |]; try discriminate Hty.
  destruct (reads_type (Message id fields V) Hvalid Hschema Hcontent)
    as (_ & _ & Hfields).
  cbn [TlvWire.payload] in H, Hsmall.
  set (wf := TlvWire.fields TlvWire.field fields vals) in *.
  set (le := le_bytes 4 (u32 (Z.of_nat (length wf)))) in *.
  assert (Lle : length le = 4%nat) by apply le_bytes_length.
  rewrite length_app, Lle in Hsmall.
  pose proof (holds_bound _ _ _ H) as Hb. rewrite length_app, Lle in Hb.
  apply holds_app in H. destruct H as [Hle Hwf]. rewrite Lle in Hwf.
  apply holds_load in Hle. rewrite Lle in Hle.
  assert (H32 : 2 ^ 32 < 2 ^ 64) by (apply Z.pow_lt_mono_r; lia).
  assert (Hlen : le_value le = Z.of_nat (length wf)).
  { unfold le. rewrite le_value_le_bytes. change (2 ^ (8 * Z.of_nat 4))
      with (2 ^ 32). unfold u32. rewrite Z.mod_mod by lia.
    apply Z.mod_small. lia. }
  unfold TlvLayout.Deserialize.
  destruct (Nat.ltb_spec (length input) (StandardHeaderSize + 4))
    as [Hlt | _]; [lia|].
  rewrite Hle. cbn [bind]. rewrite Hlen.
  destruct (Z.ltb_spec (Z.of_nat (length input))
                       (Z.of_nat (StandardHeaderSize + 4)
                        + Z.of_nat (length wf))) as [Hlt | _]; [lia|].
  rewrite Nat2Z.id. cbn [TlvLayout.deserialize_message_payload].
  apply (Hfields id fields V eq_refl vals Hty Hrec).
  - apply holds_firstn; [exact Hwf | fold wf; lia].
  - rewrite length_firstn. fold wf. lia.
  - rewrite length_firstn. fold wf. unfold StandardHeaderSize. lia.
Qed.

Lemma payload_length (M : Ty) (msg : Val) :
  is_message M = true -> has_type M msg = true ->
  exists wf,
    TlvWire.payload M msg
    = le_bytes 4 (u32 (Z.of_nat (length wf))) ++ wf.
Proof.
  intros HM Hty.
  destruct M as [| | id fields V | | |]; try discriminate HM.
  destruct msg as [| | vals | | |]; try discriminate Hty.
  eexists. reflexivity.
Qed.

(* ------------------------------------------------------------------ *)
(** ** TLV: the buffer pipeline *)

Section TlvPipeline.
Variable Integrity : IntegrityPolicy.
Variable M : Ty.

Hypothesis checksum_has_size :
  forall payload,
    length (integrity_calculate Integrity payload) = integrity_size Integrity.
Hypothesis M_message : is_message M = true.
Hypothesis M_valid : valid_schema M = true.

(** What [SerializeWithoutValidation] leaves in the buffer: the bytes
    used are a payload, which starts with the header and holds the wire
    format behind it, followed by its checksum. *)
Lemma tlv_serialized_frame (buffer : list Z) (message : Val) :
  has_type M message = true ->
  (detail.GetBufferSize Integrity TlvLayoutPolicy M <= length buffer)%nat ->
  exists buffer' payload,
    detail.SerializeWithoutValidation Integrity TlvLayoutPolicy M buffer
                                      message
    = Some (buffer', (length payload + integrity_size Integrity)%nat)
    /\ length buffer' = length buffer
    /\ firstn (length payload + integrity_size Integrity) buffer'
       = payload ++ integrity_calculate Integrity payload
    /\ (length payload <= TlvLayout.Size M)%nat
    /\ GetHeader payload
       = Expected (mkHeader CrunchVersion (Format_to_byte TLV)
                            (message_id_of M))
    /\ holds payload StandardHeaderSize (TlvWire.payload M message).
Proof.
  intros Hty Hlen.
  unfold detail.GetBufferSize in Hlen.
  cbn [Size TlvLayoutPolicy] in Hlen.
  set (sz := TlvLayout.Size M) in *.
  set (cs := integrity_size Integrity) in *.
  assert (Hsz : (StandardHeaderSize + 4 <= sz)%nat)
    by (unfold sz, TlvLayout.Size; lia).
  assert (Hid : - 2 ^ 31 <= message_id_of M < 2 ^ 31).
  { pose proof M_valid as Hv.
    destruct M as [| | id fields V | | |]; try discriminate M_message.
    cbn [valid_schema message_id_of] in Hv |- *.
    apply andb_prop in Hv. destruct Hv as [Hv _].
    apply andb_prop in Hv. destruct Hv as [Hlo Hhi].
    apply Z.leb_le in Hlo. apply Z.ltb_lt in Hhi. lia. }
  unfold detail.SerializeWithoutValidation.
  cbn [Size GetFormat Serialize TlvLayoutPolicy].
  fold cs.
  destruct (Nat.ltb_spec (length buffer) cs) as [Hlt | _]; [lia|].
  set (P := (length buffer - cs)%nat).
  assert (HP : length (firstn P buffer) = P)
    by (rewrite length_firstn; lia).
  destruct (WriteHeader_GetHeader (message_id_of M) TlvLayout.GetFormat
                                  (firstn P buffer) Hid)
    as (p1 & E1 & L1 & _ & G1); [rewrite HP; lia|].
  rewrite E1. cbn [bind].
  destruct (Serialize_writes M message p1 M_message M_valid Hty)
    as (p2 & E2 & W2 & H2 & Hn); [fold sz; lia|].
  fold sz in W2, Hn. rewrite E2. cbn [bind].
  set (n := (StandardHeaderSize + length (TlvWire.payload M message))%nat)
    in *.
  pose proof W2 as (_ & _ & L2 & H6 & _).
  set (payload := firstn n p2).
  assert (Hpayload : length payload = n)
    by (unfold payload; rewrite length_firstn; lia).
  assert (Hused : load p2 0 n = Some payload).
  { rewrite load_defined by lia. reflexivity. }
  assert (Hfirst : firstn n (p2 ++ skipn P buffer) = payload).
  { rewrite firstn_app. replace (n - length p2)%nat with 0%nat by lia.
    rewrite firstn_O, app_nil_r. reflexivity. }
  assert (Hhead : GetHeader payload
                  = Expected (mkHeader CrunchVersion (Format_to_byte TLV)
                                       (message_id_of M))).
  { unfold TlvLayout.GetFormat in G1.
    rewrite <- G1. apply GetHeader_agrees; [|lia|lia].
    unfold agrees, payload. rewrite firstn_firstn.
    replace (Nat.min StandardHeaderSize n) with StandardHeaderSize
      by (unfold n; lia).
    exact H6. }
  assert (Hholds : holds payload StandardHeaderSize
                         (TlvWire.payload M message)).
  { apply holds_firstn; [exact H2 | unfold n; lia]. }
  destruct (Nat.ltb_spec 0 cs) as [Hcs | Hcs].
  - rewrite Hused. cbn [bind].
    destruct (memcpy_total (p2 ++ skipn P buffer) n
                           (integrity_calculate Integrity payload))
      as (b' & E3 & W3 & L3).
    { rewrite checksum_has_size, length_app, length_skipn. fold cs. lia. }
    rewrite checksum_has_size in W3, L3. fold cs in W3, L3.
    rewrite E3. cbn [bind].
    exists b', payload. rewrite Hpayload. split; [reflexivity|].
    pose proof W3 as (_ & _ & Lb & Hb & _).
    split; [rewrite Lb, length_app, length_skipn; lia|].
    split; [|split; [lia | split; assumption]].
    rewrite <- (firstn_skipn n (firstn (n + cs) b')).
    rewrite firstn_firstn.
    replace (Nat.min n (n + cs)) with n by lia.
    rewrite Hb, Hfirst. f_equal.
    unfold load in L3.
    destruct (Nat.leb_spec (n + cs) (length b')); [|discriminate L3].
    injection L3 as L3. rewrite <- L3.
    rewrite skipn_firstn_comm.
    replace (n + cs - n)%nat with cs by lia. reflexivity.
  - assert (Hcs0 : cs = 0%nat) by lia.
    exists (p2 ++ skipn P buffer), payload. rewrite Hpayload.
    split; [reflexivity|].
    split; [rewrite length_app, length_skipn; lia|].
    split; [|split; [lia | split; assumption]].
    assert (Hnil : integrity_calculate Integrity payload = []).
    { apply length_zero_iff_nil. rewrite checksum_has_size. exact Hcs0. }
    rewrite Hnil, app_nil_r, Hcs0, Nat.add_0_r. exact Hfirst.
Qed.

(** Reading a payload with its checksum back: the integrity check
    passes. *)
Lemma deserialize_framed (Serdes' : SerdesPolicy) (M' : Ty)
      (payload : list Z) (msg0 : Val) :
  detail.Deserialize Integrity Serdes' M'
                     (payload ++ integrity_calculate Integrity payload) msg0
  = match ValidateHeader (message_id_of M') (GetFormat Serdes') payload with
    | Unexpected e => Some (msg0, Some e)
    | Expected _ =>
        '(message, err) <- Deserialize Serdes' M' payload msg0 ;;
        match err with
        | Some e => Some (message, Some e)
        | None => Some (message, detail.Validate M' message)
        end
    end.
Proof.
  unfold detail.Deserialize.
  rewrite length_app, checksum_has_size.
  destruct (Nat.ltb_spec (length payload + integrity_size Integrity)
                         (integrity_size Integrity)) as [Hlt | _]; [lia|].
  replace (length payload + integrity_size Integrity
           - integrity_size Integrity)%nat with (length payload) by lia.
  rewrite firstn_app, Nat.sub_diag, firstn_O, app_nil_r, firstn_all.
  rewrite skipn_app, Nat.sub_diag, skipn_O, skipn_all, app_nil_l.
  rewrite bytes_eqb_refl. cbn [negb]. rewrite andb_false_r.
  destruct (ValidateHeader _ _ payload) as [e | n]; [reflexivity|].
  destruct (Deserialize Serdes' M' payload msg0) as [[message [e|]]|];
    cbn [bind]; try reflexivity.
  destruct (detail.Validate M' message); reflexivity.
Qed.

End TlvPipeline.

(* ------------------------------------------------------------------ *)
(** ** TLV: the results *)

(** X24: a tag gives the field id and the wire type back.  For a field
    id in [[0, MaxFieldId]] and a wire type of three bits, the varint
    that [write_tag] writes is decoded by [Varint::decode] at the same
    offset over exactly the bytes written, and
    [deserialize_message_payload] splits the decoded value into that
    field id ([tag >> WireTypeBits] as a [FieldId]) and that wire type
    ([tag & 0x07]). *)
Theorem tlv_tag_round_trip (id : FieldId) (wt : TlvLayout.WireType)
        (output output' : list Z) (offset offset' : nat) :
  0 <= id <= MaxFieldId -> 0 <= wt < 8 ->
  TlvLayout.write_tag id wt output offset = Some (output', offset') ->
  exists tag,
    Varint.decode output' offset = Some (tag, (offset' - offset)%nat)
    /\ to_signed 4 (u32 (Z.shiftr tag TlvLayout.WireTypeBits)) = id
    /\ Z.land tag 0x07 = wt
    /\ (offset < offset'
        <= offset + Varint.max_varint_size TlvLayout.MaxTagBits)%nat.
Proof.
  intros Hid Hwt E. unfold TlvLayout.write_tag in E.
  set (t := Z.lor (u32 (Z.shiftl (u32 id) TlvLayout.WireTypeBits)) (u8 wt))
    in *.
  unfold Varint.encode in E. fold (TlvWire.varint t) in E.
  destruct (memcpy output offset (TlvWire.varint t)) as [o|] eqn:Em;
    [|discriminate E].
  cbn [bind] in E. injection E as <- <-.
  pose proof (holds_written _ _ _ _ Em) as H.
  destruct (tag_fields id wt Hid Hwt) as [Eid Ewt].
  cbv zeta in Eid, Ewt. fold t in Eid, Ewt.
  pose proof (tag_length id wt) as Hl. unfold TlvWire.tag in Hl. fold t in Hl.
  exists (u64 t). rewrite (decode_varint _ _ _ H).
  split; [f_equal; f_equal; lia|].
  split; [exact Eid|]. split; [exact Ewt | lia].
Qed.

Lemma tlv_tag_round_trip_witness :
  exists tag,
    Varint.decode [0xAA; 0xA1; 0x06; 0xAA] 1 = Some (tag, (3 - 1)%nat)
    /\ to_signed 4 (u32 (Z.shiftr tag TlvLayout.WireTypeBits)) = 100
    /\ Z.land tag 0x07 = TlvLayout.WireType_LengthDelimited
    /\ (1 < 3 <= 1 + Varint.max_varint_size TlvLayout.MaxTagBits)%nat.
Proof.
  apply (tlv_tag_round_trip 100 TlvLayout.WireType_LengthDelimited
           [0xAA; 0xAA; 0xAA; 0xAA] [0xAA; 0xA1; 0x06; 0xAA] 1 3).
  - vm_compute. split; discriminate.
  - vm_compute. split; [discriminate | reflexivity].
  - vm_compute. reflexivity.
Defined.

(** X25: [Size] bounds what the TLV [Serialize] writes.  Serializing any
    object of a valid message type into a buffer of at least
    [Size<Message>()] bytes succeeds; the offset it returns lies behind
    the 4-byte length and is at most [Size]; the buffer keeps its length;
    no byte of the 6-byte header in front and no byte from [Size] on
    changes, although the length-delimited values are first written ten
    bytes further back and then moved; and the 4 bytes behind the header
    hold, little-endian, the number of bytes between them and the
    returned offset. *)
Theorem tlv_serialize_within_Size (M : Ty) (msg : Val) (output : list Z) :
  is_message M = true ->
  valid_schema M = true ->
  has_type M msg = true ->
  (TlvLayout.Size M <= length output)%nat ->
  exists output' n,
    TlvLayout.Serialize M msg output = Some (output', n)
    /\ (StandardHeaderSize + 4 <= n <= TlvLayout.Size M)%nat
    /\ length output' = length output
    /\ firstn StandardHeaderSize output' = firstn StandardHeaderSize output
    /\ skipn (TlvLayout.Size M) output' = skipn (TlvLayout.Size M) output
    /\ load output' StandardHeaderSize 4
       = Some (le_bytes 4 (u32 (Z.of_nat (n - (StandardHeaderSize + 4))))).
Proof.
  intros HM Hvalid Hty Hlen.
  destruct (Serialize_writes M msg output HM Hvalid Hty Hlen)
    as (o & E & (_ & _ & Hl & Hf & Hs) & H & Hn).
  destruct (payload_length M msg HM Hty) as (wf & Ewf).
  rewrite Ewf in E, H, Hn.
  rewrite length_app, le_bytes_length in E, Hn.
  apply holds_app in H. destruct H as [Hle _].
  apply holds_load in Hle. rewrite le_bytes_length in Hle.
  exists o, (StandardHeaderSize + (4 + length wf))%nat.
  split; [exact E|]. split; [lia|].
  split; [exact Hl|]. split; [exact Hf|]. split; [exact Hs|].
  rewrite Hle. f_equal. f_equal. f_equal. f_equal. lia.
Qed.

Lemma tlv_serialize_within_Size_witness :
  exists output' n,
    TlvLayout.Serialize Inventory inventory (repeat 0 300)
    = Some (output', n)
    /\ (StandardHeaderSize + 4 <= n <= TlvLayout.Size Inventory)%nat
    /\ length output' = length (repeat 0 300)
    /\ firstn StandardHeaderSize output'
       = firstn StandardHeaderSize (repeat 0 300)
    /\ skipn (TlvLayout.Size Inventory) output'
       = skipn (TlvLayout.Size Inventory) (repeat 0 300)
    /\ load output' StandardHeaderSize 4
       = Some (le_bytes 4 (u32 (Z.of_nat (n - (StandardHeaderSize + 4))))).
Proof.
  apply (tlv_serialize_within_Size Inventory inventory (repeat 0 300)).
  - reflexivity.
  - reflexivity.
  - reflexivity.
  - vm_compute. lia.
Defined.





(** X28: a tag whose field id no field of the message has is rejected.
    When the payload is not used up and the next varint decodes to a tag
    whose field id differs from the id of every field, then
    [deserialize_message_payload] returns the error "unknown fields
    present" and leaves the message as it was. *)
Theorem tlv_unknown_field_rejected (M : Ty) (msg : Val) (input : list Z)
        (offset : nat) (tag : Z) (tag_bytes : nat) :
  is_message M = true ->
  has_type M msg = true ->
  (offset < length input)%nat ->
  Varint.decode input offset = Some (tag, tag_bytes) ->
  (forall id fields V,
      M = Message id fields V ->
      Forall (fun F =>
                field_id_of F
                <> to_signed 4 (u32 (Z.shiftr tag TlvLayout.WireTypeBits)))
             fields) ->
  TlvLayout.deserialize_message_payload M input msg offset
  = Some (msg, Some (Error.deserialization "unknown fields present")).
Proof.
  intros HM Hty Hoff Hdec Hids.
  destruct M as [| | id fields V | | |]; try discriminate HM.
  destruct msg as [| | vals | | |]; try discriminate Hty.
  rewrite has_type_Message in Hty.
  destruct (all2_nth _ _ _ Hty) as [Hlen _].
  cbn [TlvLayout.deserialize_message_payload].
  unfold TlvLayout.deserialize_message_fields.
  destruct (length input) as [|fuel] eqn:El; [lia|].
  cbn [TlvLayout.deserialize_message_payload_loop]. rewrite El.
  destruct (Nat.ltb_spec offset (S fuel)) as [_ | Hge]; [|lia].
  rewrite Hdec. cbv zeta.
  rewrite (visit_fields_tlv_not_found
             _ _ _ _ _ fields vals Hlen (Hids id fields V eq_refl)).
  reflexivity.
Qed.

Lemma tlv_unknown_field_rejected_witness :
  TlvLayout.deserialize_message_payload MyMessage [0x28; 0x01] my_message 0
  = Some (my_message, Some (Error.deserialization "unknown fields present")).
Proof.
  apply (tlv_unknown_field_rejected MyMessage my_message [0x28; 0x01] 0
                                    0x28 1).
  - reflexivity.
  - reflexivity.
  - simpl. lia.
  - reflexivity.
  - intros id fields V E. injection E as _ <- _.
    repeat constructor; discriminate.
Defined.

(** X29: the bounds check of a length-delimited field can be passed by a
    length that wraps.  [deserialize_array_field] adds the offset and
    the decoded length in [std::size_t]; when the sum reaches [2^64] and
    the wrapped sum does not exceed the input size, the check
    [offset + len > input.size()] does not fire, and the subspan
    [input.subspan(offset, len)] that is taken next, for a length other
    than [std::dynamic_extent], lies outside the input, so that the
    behaviour is undefined. *)
Theorem tlv_length_check_wraps (Id : FieldId) (ElemT : Ty) (MaxSize : nat)
        (Validators : list (Validator Val)) (field : Val) (input : list Z)
        (offset : nat) (len : Z) (len_bytes : nat) :
  Varint.decode input offset = Some (len, len_bytes) ->
  len <> TlvLayout.dynamic_extent ->
  2 ^ 64 <= Z.of_nat (offset + len_bytes) + len ->
  u64 (Z.of_nat (offset + len_bytes) + len) <= Z.of_nat (length input) ->
  Z.of_nat (length input) < 2 ^ 64 ->
  TlvLayout.deserialize_field_value
    (ArrayField Id ElemT MaxSize Validators) field
    TlvLayout.WireType_LengthDelimited input offset
  = None.
Proof.
  intros Hdec Hdyn Hwrap Hcheck Hsize.
  cbn [TlvLayout.deserialize_field_value].
  unfold TlvLayout.deserialize_array_field, TlvLayout.length_delimited_field.
  rewrite Z.eqb_refl. cbn [negb]. rewrite Hdec. cbv zeta.
  destruct (Z.ltb_spec (Z.of_nat (length input))
                       (u64 (Z.of_nat (offset + len_bytes) + len)))
    as [Hlt | _]; [lia|].
  unfold TlvLayout.subspan.
  destruct (Z.eqb_spec len TlvLayout.dynamic_extent) as [E | _];
    [contradiction|].
  destruct (Z.leb_spec (Z.of_nat (offset + len_bytes) + len)
                       (Z.of_nat (length input))) as [Hle | _]; [lia|].
  reflexivity.
Qed.

Lemma tlv_length_check_wraps_witness :
  TlvLayout.deserialize_field_value
    (ArrayField 3 Sample 2 [validators.None])
    (default_val (ArrayField 3 Sample 2 [validators.None]))
    TlvLayout.WireType_LengthDelimited overlong_length 0
  = None.
Proof.
  apply (tlv_length_check_wraps
           3 Sample 2 [validators.None]
           (default_val (ArrayField 3 Sample 2 [validators.None]))
           overlong_length 0 (2 ^ 64 - 2) 10).
  - vm_compute. reflexivity.
  - vm_compute. discriminate.
  - vm_compute. discriminate.
  - vm_compute. discriminate.
  - vm_compute. reflexivity.
Defined.
